(** * Conciliador: bank API / ERP reconciliation pipeline (final.py)

    Shallow embedding of the matching core of [final.py]: the subset-sum
    engine (meet-in-the-middle with a dynamic-programming fallback), the
    staged matcher cascade of [transform], the connected-component
    validator [finalize_by_components] and the daily aggregator.

    Conventions of the embedding.
    - Python [int] is [Z]; lengths and list indices are [nat].
    - A polars / pandas frame is a list of records, one per row.
    - A Python [dict] that is only read by key is a [gmap]; a [dict] whose
      insertion order is observable is an association list.
    - A Python [set] is a [gset]; where the code iterates over a set the
      order is the parameter [enum], constrained only to list the members. *)

From Stdlib Require Import ZArith Lia Ascii.
From Stdlib Require Qcanon Qcabs Qround.
From stdpp Require Import gmap strings list sorting.

Open Scope Z_scope.

(** ** Parameters (defaults of the environment variables) *)

Definition KSUM_MAX_ITEMS : nat := 48.
Definition MAX_GROUP_GUARD : nat := 2000.
Definition MITM_STATE_BUDGET : Z := 200000.
Definition CAP_PER_VALUE : nat := 32.
Definition DP_MAX_TARGET_CENTS : Z := 200000.
Definition DP_MAX_ITEMS_DP : nat := 24.

(** ** Row schema *)

(** Dates are proleptic ordinals ([date.toordinal()]). *)
Abbreviation date := Z (only parsing).

(** A row of the API frame.  The columns hold values: a frame with a NULL
    in one of these columns is outside this development. *)
Record ApiRow := mkApiRow {
  api_row_id : Z;
  api_uid : string;
  a_tenant_id : string;
  api_date : date;
  api_cents : Z;
  api_sign : Z;
  api_acc_tail : string;
  api_desc_norm : string;
  a_bank_code : string;
  a_bank_name : string;
  api_is_tax : bool;
  api_is_bankfees : bool;
  api_is_pix_tariff : bool;
  api_is_rent : bool;
  api_is_rent_d1 : bool;
}.

(** A row of the ERP frame, without NULLs as well. *)
Record ErpRow := mkErpRow {
  erp_row_id : Z;
  erp_uid : string;
  e_tenant_id : string;
  erp_date : date;
  erp_cents : Z;
  erp_sign : Z;
  erp_acc_tail : string;
  erp_desc_norm : string;
  e_bank_code : string;
  e_bank_name : string;
}.

(** A row of the [matches] frame. *)
Record MatchRow := mkMatchRow {
  m_api_row_id : Z;
  m_erp_row_id : Z;
  m_stage : string;
  m_prio : Z;
  m_ddiff : Z;
}.

Global Instance ApiRow_eq_dec : EqDecision ApiRow.
Proof. solve_decision. Defined.
Global Instance ErpRow_eq_dec : EqDecision ErpRow.
Proof. solve_decision. Defined.
Global Instance MatchRow_eq_dec : EqDecision MatchRow.
Proof. solve_decision. Defined.

(** ** Subset-sum engine *)

(** An item is [(id, cents)]. *)
Abbreviation item := (Z * Z)%type (only parsing).

Definition sum_cents (l : list item) : Z := foldr (λ x s, x.2 + s) 0 l.

(** [while (1 << (n // 2)) > MITM_STATE_BUDGET and n > 2: n -= 2] *)
Fixpoint budget_loop (fuel n : nat) : nat :=
  match fuel with
  | O => n
  | S fuel' =>
      if bool_decide (MITM_STATE_BUDGET < Z.shiftl 1 (Z.of_nat (n / 2)))
         && bool_decide (2 < n)%nat
      then budget_loop fuel' (n - 2)
      else n
  end.

Definition enforce_mitm_budget (items : list item) : list item :=
  let n := length items in
  if bool_decide (n ≤ 2)%nat then items
  else take (budget_loop n n) items.

(** [(mask >> i) & 1] used as a truth value. *)
Definition mask_bit (mask : Z) (i : nat) : bool :=
  negb (Z.land (Z.shiftr mask (Z.of_nat i)) 1 =? 0).

(** Body of [for i in range(len(L))]: accumulate sum and ids. *)
Definition mask_step (L : list item) (mask : Z) (acc : Z * list Z) (i : nat)
  : Z * list Z :=
  if mask_bit mask i then
    match L !! i with
    | Some (tid, c) => (acc.1 + c, acc.2 ++ [tid])
    | None => acc
    end
  else acc.

Definition mask_subset (L : list item) (mask : Z) : Z * list Z :=
  foldl (mask_step L mask) (0, []) (seq 0 (length L)).

(** [range(n)] over Python integers. *)
Fixpoint zrange_from (start : Z) (len : nat) : list Z :=
  match len with
  | O => []
  | S len' => start :: zrange_from (start + 1) len'
  end.

Definition masks (L : list item) : list Z :=
  zrange_from 0 (Z.to_nat (Z.shiftl 1 (Z.of_nat (length L)))).

(** RIGHT half: [best[s]] keeps the ids of least cardinality for sum [s]. *)
Definition best_step (R : list item) (best : gmap Z (list Z)) (mask : Z)
  : gmap Z (list Z) :=
  let '(s, ids) := mask_subset R mask in
  match best !! s with
  | None => <[s := ids]> best
  | Some prev =>
      if bool_decide (length ids < length prev)%nat then <[s := ids]> best
      else best
  end.

Fixpoint mitm_scan (target_cents : Z) (best : gmap Z (list Z))
    (left : list (Z * list Z)) : option (list Z) :=
  match left with
  | [] => None
  | (s, ids1) :: rest =>
      match best !! (target_cents - s) with
      | Some ids2 => Some (ids1 ++ ids2)
      | None => mitm_scan target_cents best rest
      end
  end.

Definition subset_mitm (target_cents : Z) (items : list item)
  : option (list Z) :=
  match items with
  | [] => None
  | _ =>
      let items := enforce_mitm_budget items in
      let n := length items in
      if bool_decide (n = 0%nat) then None
      else
        let m := (n / 2)%nat in
        let L := take m items in
        let R := drop m items in
        let left := mask_subset L <$> masks L in
        let best := foldl (best_step R) ∅ (masks R) in
        mitm_scan target_cents best left
  end.

(** [range(abs_target, c_abs - 1, -1)] *)
Definition range_desc (hi lo : nat) : list nat :=
  (λ k, (hi - k)%nat) <$> seq 0 (S hi - lo).

(** The tables [dp] and [used] of [subset_dp], indexed by absolute cents. *)
Abbreviation dp_state := (list bool * list (list Z))%type (only parsing).

Definition dp_inner (c_abs : nat) (tid : Z) (st : dp_state) (s : nat)
  : dp_state :=
  let dp : list bool := st.1 in
  let used : list (list Z) := st.2 in
  if default false (dp !! (s - c_abs)%nat)
  then (<[s := true]> dp,
        <[s := default [] (used !! (s - c_abs)%nat) ++ [tid]]> used)
  else st.

Definition dp_item (abs_target : nat) (st : dp_state) (it : item) : dp_state :=
  let c_abs := Z.to_nat (Z.abs it.2) in
  if bool_decide (abs_target < c_abs)%nat then st
  else foldl (dp_inner c_abs it.1) st (range_desc abs_target c_abs).

Definition subset_dp (target : Z) (items : list item) : option (list Z) :=
  if bool_decide (target = 0) then Some []
  else
    let abs_target := Z.abs target in
    if bool_decide (DP_MAX_TARGET_CENTS < abs_target)
       || bool_decide (DP_MAX_ITEMS_DP < length items)%nat
    then None
    else
      let T := Z.to_nat abs_target in
      let dp := <[0%nat := true]> (replicate (S T) false) in
      let used := replicate (S T) ([] : list Z) in
      let st := foldl (dp_item T) (dp, used) items in
      let dp : list bool := st.1 in
      let used : list (list Z) := st.2 in
      if default false (dp !! T) then Some (default [] (used !! T)) else None.

(** A Python [dict] with observable insertion order: assignment to an
    existing key keeps its position. *)
Fixpoint dict_set {K V} `{EqDecision K} (d : list (K * V)) (k : K) (v : V)
  : list (K * V) :=
  match d with
  | [] => [(k, v)]
  | (k', v') :: d' =>
      if bool_decide (k = k') then (k, v) :: d' else (k', v') :: dict_set d' k v
  end.

Fixpoint dict_get {K V} `{EqDecision K} (d : list (K * V)) (k : K) : option V :=
  match d with
  | [] => None
  | (k', v') :: d' => if bool_decide (k = k') then Some v' else dict_get d' k
  end.

(** [{int(i): int(c) for i, c in items}] *)
Definition items_dict (items : list item) : list (Z * Z) :=
  foldl (λ d it, dict_set d it.1 it.2) [] items.

Definition _sum_ok (d : list (Z * Z)) (ids : list Z) (target_cents : Z) : bool :=
  let ids_set : gset Z := list_to_set ids in
  let s := foldl (λ s kv, if bool_decide (kv.1 ∈ ids_set) then s + kv.2 else s) 0 d in
  bool_decide (s = target_cents).

(** [d[k].append(x)] on a [defaultdict(list)]. *)
Definition dict_append {K V} `{EqDecision K} (d : list (K * list V)) (k : K) (x : V)
  : list (K * list V) :=
  match dict_get d k with
  | Some l => dict_set d k (l ++ [x])
  | None => dict_set d k [x]
  end.

(** Stable sort by [abs(cents)], largest first ([list.sort(key=..., reverse=True)]). *)
Fixpoint insert_desc (x : item) (l : list item) : list item :=
  match l with
  | [] => [x]
  | y :: l' =>
      if bool_decide (Z.abs y.2 ≤ Z.abs x.2) then x :: y :: l'
      else y :: insert_desc x l'
  end.

Definition sort_abs_desc (l : list item) : list item := foldr insert_desc [] l.

Definition cap_group (t_abs : Z) (cv : Z * list Z) : list item :=
  let c := cv.1 in
  let idlist := cv.2 in
  let c_abs := Z.max 1 (Z.abs c) in
  let need := t_abs / c_abs in
  let k := Nat.min (length idlist) (Nat.min (Z.to_nat (Z.max 1 need)) CAP_PER_VALUE) in
  (λ i, (i, c)) <$> take k idlist.

Definition cap_items_by_value (ids cents : list Z) (target_cents : Z)
  : list item :=
  let by_val := foldl (λ d ic, dict_append d ic.2 ic.1) [] (zip ids cents) in
  let t_abs := Z.abs target_cents in
  let out := mjoin (cap_group t_abs <$> by_val) in
  let out := sort_abs_desc out in
  if bool_decide (KSUM_MAX_ITEMS < length out)%nat then take KSUM_MAX_ITEMS out
  else out.

(** ** Component validator *)

Inductive side := SideA | SideE.

Global Instance side_eq_dec : EqDecision side.
Proof. solve_decision. Defined.

(** A node of the bipartite graph: ['A', id] or ['E', id]. *)
Abbreviation node := (side * Z)%type (only parsing).

(** Adjacency maps and node sets built from the edge list. *)
Record graph := mkGraph {
  adjA : gmap Z (gset Z);
  adjE : gmap Z (gset Z);
  nodesA : gset Z;
  nodesE : gset Z;
}.

(** [adj[k].add(v)] on a [defaultdict(set)]. *)
Definition adj_add (adj : gmap Z (gset Z)) (k v : Z) : gmap Z (gset Z) :=
  <[k := default ∅ (adj !! k) ∪ {[v]}]> adj.

Definition add_edge (g : graph) (ae : Z * Z) : graph :=
  {| adjA := adj_add (adjA g) ae.1 ae.2;
     adjE := adj_add (adjE g) ae.2 ae.1;
     nodesA := nodesA g ∪ {[ae.1]};
     nodesE := nodesE g ∪ {[ae.2]} |}.

Definition build_graph (edges : list (Z * Z)) : graph :=
  foldl add_edge (mkGraph ∅ ∅ ∅ ∅) edges.

(** [comp_id_of_A], [comp_id_of_E]. *)
Record labels := mkLabels {
  comp_id_of_A : gmap Z Z;
  comp_id_of_E : gmap Z Z;
}.

(** [dict(zip(A0["api_row_id"], A0["api_cents"]))]: a later row wins. *)
Definition api_map_of (A0 : list ApiRow) : gmap Z Z :=
  foldl (λ m r, <[api_row_id r := api_cents r]> m) ∅ A0.

Definition erp_map_of (E0 : list ErpRow) : gmap Z Z :=
  foldl (λ m r, <[erp_row_id r := erp_cents r]> m) ∅ E0.

(** [sum[cid] += cents.get(n, 0)] for every [(n, cid)] of a label map. *)
Definition sum_by_comp (cents : gmap Z Z) (comp : gmap Z Z) : gmap Z Z :=
  map_fold (λ n cid acc, <[cid := default 0 (acc !! cid) + default 0 (cents !! n)]> acc)
           ∅ comp.

Section Validator.

(** Iteration order of a Python [set]. *)
Variable enum : gset Z → list Z.

(** Neighbours pushed on the queue when a node is labelled:
    [for e in adj.get(nid, []): if e not in comp_other: q.append((other, e))]. *)
Definition pushes (other : side) (adj : gmap Z (gset Z)) (comp_other : gmap Z Z)
    (nid : Z) : list node :=
  (λ x, (other, x)) <$>
    filter (λ x, comp_other !! x = None) (enum (default ∅ (adj !! nid))).

(** The [while q:] loop of one component; [None] when the fuel runs out
    before the queue is empty. *)
Fixpoint bfs_loop (fuel : nat) (g : graph) (comp_id : Z) (q : list node)
    (lab : labels) : option labels :=
  match q with
  | [] => Some lab
  | (sd, nid) :: q' =>
      match fuel with
      | O => None
      | S fuel' =>
          match sd with
          | SideA =>
              if bool_decide (is_Some (comp_id_of_A lab !! nid))
              then bfs_loop fuel' g comp_id q' lab
              else
                let lab' := mkLabels (<[nid := comp_id]> (comp_id_of_A lab))
                                     (comp_id_of_E lab) in
                bfs_loop fuel' g comp_id
                  (q' ++ pushes SideE (adjA g) (comp_id_of_E lab') nid) lab'
          | SideE =>
              if bool_decide (is_Some (comp_id_of_E lab !! nid))
              then bfs_loop fuel' g comp_id q' lab
              else
                let lab' := mkLabels (comp_id_of_A lab)
                                     (<[nid := comp_id]> (comp_id_of_E lab)) in
                bfs_loop fuel' g comp_id
                  (q' ++ pushes SideA (adjE g) (comp_id_of_A lab') nid) lab'
          end
      end
  end.

(** Number of queue operations one search can need: one for the start
    node and one per push. *)
Definition bfs_fuel (g : graph) : nat :=
  S (sum_list_with (λ a, S (length (enum (default ∅ (adjA g !! a))))) (enum (nodesA g))
     + sum_list_with (λ e, S (length (enum (default ∅ (adjE g !! e))))) (enum (nodesE g))).

Definition is_labelled (sd : side) (lab : labels) (nid : Z) : bool :=
  match sd with
  | SideA => bool_decide (is_Some (comp_id_of_A lab !! nid))
  | SideE => bool_decide (is_Some (comp_id_of_E lab !! nid))
  end.

(** Body of [for a0 in list(nodesA)] (resp. [for e0 in list(nodesE)]). *)
Definition start_component (sd : side) (g : graph)
    (st : option (Z * labels)) (n0 : Z) : option (Z * labels) :=
  match st with
  | None => None
  | Some (comp_idx, lab) =>
      if is_labelled sd lab n0 then Some (comp_idx, lab)
      else
        match bfs_loop (bfs_fuel g) g comp_idx [(sd, n0)] lab with
        | Some lab' => Some (comp_idx + 1, lab')
        | None => None
        end
  end.

Definition label_components (g : graph) : option (Z * labels) :=
  let st := foldl (start_component SideA g) (Some (0, mkLabels ∅ ∅)) (enum (nodesA g)) in
  foldl (start_component SideE g) st (enum (nodesE g)).

(** [comp_id_of_A.get(a, comp_id_of_E.get(e, -1))] *)
Definition comp_for_edge (lab : labels) (ae : Z * Z) : Z :=
  default (default (-1) (comp_id_of_E lab !! ae.2)) (comp_id_of_A lab !! ae.1).

Definition valid_comp (sum_api sum_erp : gmap Z Z) : gset Z :=
  filter (λ cid, default 0 (sum_api !! cid) = default 0 (sum_erp !! cid))
         (dom sum_api ∪ dom sum_erp).

Definition finalize_by_components (matches : list MatchRow)
    (A0 : list ApiRow) (E0 : list ErpRow) : option (list MatchRow) :=
  match matches with
  | [] => Some matches
  | _ =>
      let api_map := api_map_of A0 in
      let erp_map := erp_map_of E0 in
      let edges := (λ r, (m_api_row_id r, m_erp_row_id r)) <$> matches in
      let g := build_graph edges in
      match label_components g with
      | None => None
      | Some (_, lab) =>
          let sum_api := sum_by_comp api_map (comp_id_of_A lab) in
          let sum_erp := sum_by_comp erp_map (comp_id_of_E lab) in
          let valid := valid_comp sum_api sum_erp in
          Some (filter (λ r, comp_for_edge lab (m_api_row_id r, m_erp_row_id r) ∈ valid)
                       matches)
      end
  end.

End Validator.
(** ** Same-day KSUM ([solve_same_group]) *)

(** A row of [kdf_same], the concatenation of both sides.  The column
    [amount] is [cents / 100] as Float64 and the stage recomputes
    [(amount * 100).round(0)]; for |cents| < 2^50 that round trip is the
    identity, so the row carries the cents. *)
Record KRow := mkKRow {
  k_api_row_id : option Z;
  k_erp_row_id : option Z;
  k_tenant_id : string;
  k_bank_code : string;
  k_acc_tail : string;
  k_date : date;
  k_sign : Z;
  k_cents : Z;
  k_side : side;
}.

(** The items handed to the engine for one target: candidates not larger
    than the target, capped by value. *)
Definition capped_items (cents : Z) (cand : list item) : list item :=
  let cand := filter (λ it, Z.abs it.2 ≤ Z.abs cents) cand in
  cap_items_by_value cand.*1 cand.*2 cents.

(** The search for one target: MITM, DP fallback, post-verification.
    [None] stands for every path that emits no link. *)
Definition ksum_target (cents : Z) (cand : list item) : option (list Z) :=
  match filter (λ it, Z.abs it.2 ≤ Z.abs cents) cand with
  | [] => None
  | _ =>
      let items := capped_items cents cand in
      match items with
      | [] => None
      | _ =>
          let sol := match subset_mitm cents items with
                     | Some s => Some s
                     | None => subset_dp cents items
                     end in
          match sol with
          | Some (x :: s) =>
              if _sum_ok (items_dict items) (x :: s) cents then Some (x :: s)
              else None
          | _ => None
          end
      end
  end.

(** State of the two passes: [used_api], [used_erp] and the links. *)
Record ksum_state := mkKsum {
  used_api : gset Z;
  used_erp : gset Z;
  links_erp : list (Z * Z);
  links_api : list (Z * Z);
}.

(** Body of the N:1 pass (ERP row as target). *)
Definition n1_step (apis : list item) (st : ksum_state) (erp : item) : ksum_state :=
  if bool_decide (erp.1 ∈ used_erp st) || bool_decide (erp.2 = 0) then st
  else
    let cand := filter (λ it, it.1 ∉ used_api st) apis in
    match ksum_target erp.2 cand with
    | Some sol =>
        {| used_api := used_api st ∪ list_to_set sol;
           used_erp := used_erp st ∪ {[erp.1]};
           links_erp := links_erp st ++ ((λ aid, (aid, erp.1)) <$> sol);
           links_api := links_api st |}
    | None => st
    end.

(** Body of the 1:N pass (API row as target). *)
Definition one_n_step (erps : list item) (st : ksum_state) (api : item) : ksum_state :=
  if bool_decide (api.1 ∈ used_api st) || bool_decide (api.2 = 0) then st
  else
    let cand := filter (λ it, it.1 ∉ used_erp st) erps in
    match ksum_target api.2 cand with
    | Some sol =>
        {| used_api := used_api st ∪ {[api.1]};
           used_erp := used_erp st ∪ list_to_set sol;
           links_erp := links_erp st;
           links_api := links_api st ++ ((λ eid, (api.1, eid)) <$> sol) |}
    | None => st
    end.

(** The [(row id, cents)] pairs of one side of a group, [unique()]d.  The
    order that polars gives them is not specified; the first occurrences in
    frame order stand for it. *)
Definition side_items (sd : side) (df_group : list KRow) : list item :=
  remove_dups
    (omap (λ r, if bool_decide (k_side r = sd)
                then (λ i, (i, k_cents r)) <$>
                       (match sd with SideA => k_api_row_id r | SideE => k_erp_row_id r end)
                else None) df_group).

Definition solve_same_group (df_group : list KRow) : list (Z * Z) :=
  let apis := side_items SideA df_group in
  let erps := side_items SideE df_group in
  match apis, erps with
  | [], _ | _, [] => []
  | _, _ =>
      let big := bool_decide (MAX_GROUP_GUARD < length apis + length erps)%nat in
      let apis := if big then take KSUM_MAX_ITEMS (sort_abs_desc apis) else apis in
      let erps := if big then take KSUM_MAX_ITEMS (sort_abs_desc erps) else erps in
      let st := foldl (n1_step apis) (mkKsum ∅ ∅ [] []) erps in
      let st := foldl (one_n_step erps) st apis in
      links_erp st ++ links_api st
  end.

(** ** Frames helpers *)

(** [df.partition_by(by_cols, maintain_order=True)] *)
Definition partition_by {R K} `{EqDecision K} (key : R → K) (df : list R)
  : list (list R) :=
  (foldl (λ d r, dict_append d (key r) r) [] df).*2.

Definition apply_per_group {R K} `{EqDecision K} (df : list R) (key : R → K)
    (func : list R → list (Z * Z)) : list (Z * Z) :=
  mjoin (func <$> partition_by key df).

(** [pl.arange(1, pl.len() + 1).over(cols)]: rank of each row inside its
    group, in frame order. *)
Fixpoint rn_over_from {R K} `{EqDecision K} (key : R → K) (seen : list R)
    (df : list R) : list (R * Z) :=
  match df with
  | [] => []
  | r :: df' =>
      (r, 1 + Z.of_nat (length (filter (λ r', key r' = key r) seen)))
        :: rn_over_from key (seen ++ [r]) df'
  end.

Definition rn_over {R K} `{EqDecision K} (key : R → K) (df : list R) : list (R * Z) :=
  rn_over_from key [] df.

Definition lex (c1 c2 : comparison) : comparison :=
  match c1 with Eq => c2 | _ => c1 end.

(** Grouping key of the RN stages:
    [tenant_id, bank_code, acc_tail, sign, date, cents]. *)
Abbreviation rn_key := (string * string * string * Z * Z * Z)%type (only parsing).

Definition rn_key_A (r : ApiRow) : rn_key :=
  (a_tenant_id r, a_bank_code r, api_acc_tail r, api_sign r, api_date r, api_cents r).

Definition rn_key_E (r : ErpRow) : rn_key :=
  (e_tenant_id r, e_bank_code r, erp_acc_tail r, erp_sign r, erp_date r, erp_cents r).

Definition rn_key_compare (k1 k2 : rn_key) : comparison :=
  let '(t1, b1, a1, s1, d1, c1) := k1 in
  let '(t2, b2, a2, s2, d2, c2) := k2 in
  lex (String.compare t1 t2) (lex (String.compare b1 b2) (lex (String.compare a1 a2)
    (lex (s1 ?= s2) (lex (d1 ?= d2) (c1 ?= c2))))).

(** Order of [sort(by=[..., "cents", row_id])]. *)
Definition sort_le_A (r1 r2 : ApiRow) : Prop :=
  lex (rn_key_compare (rn_key_A r1) (rn_key_A r2)) (api_row_id r1 ?= api_row_id r2) ≠ Gt.

Definition sort_le_E (r1 r2 : ErpRow) : Prop :=
  lex (rn_key_compare (rn_key_E r1) (rn_key_E r2)) (erp_row_id r1 ?= erp_row_id r2) ≠ Gt.

Global Instance sort_le_A_dec r1 r2 : Decision (sort_le_A r1 r2).
Proof. unfold sort_le_A. apply _. Defined.
Global Instance sort_le_E_dec r1 r2 : Decision (sort_le_E r1 r2).
Proof. unfold sort_le_E. apply _. Defined.

(** The RN 1:1 join shared by M0_TAX, M0_BANKFEES, M0_RENT and M1:
    both sides sorted and numbered inside [(key, cents)], joined on key
    and row number.  The key columns hold no NULL here; a polars join
    never matches a NULL key. *)
Definition rn_join (A : list ApiRow) (E : list ErpRow) : list (Z * Z) :=
  let A_rn := rn_over rn_key_A (merge_sort sort_le_A A) in
  let E_rn := rn_over rn_key_E (merge_sort sort_le_E E) in
  a ← A_rn; e ← E_rn;
  if bool_decide (rn_key_A a.1 = rn_key_E e.1 ∧ a.2 = e.2)
  then [(api_row_id a.1, erp_row_id e.1)] else [].

(** ** The cascade of [transform] *)

Definition DESC_STAGE_ORDER : list string :=
  ["01_DESC_MN_SIGNATURE"; "02_DESC_FULL_1N"; "03_DESC_KSUM_1N"; "03_DESC_KSUM_N1"].

Definition DESC_STAGE_PRIO (mt : string) : Z := 9.

(** The working set: rows still eligible and the edge batches so far. *)
Record work := mkWork {
  w_A : list ApiRow;
  w_E : list ErpRow;
  matches_parts : list (list MatchRow);
}.

(** [consume(tag_df, stage, prio, ddiff_val)]; every call of [transform]
    passes a two-column frame and an explicit [ddiff_val]. *)
Definition consume (tag_df : list (Z * Z)) (stage : string) (prio ddiff_val : Z)
    (w : work) : work :=
  match tag_df with
  | [] => w
  | _ =>
      let x := remove_dups tag_df in
      let add := (λ p, mkMatchRow p.1 p.2 stage prio ddiff_val) <$> x in
      {| w_A := filter (λ r, api_row_id r ∉ x.*1) (w_A w);
         w_E := filter (λ r, erp_row_id r ∉ x.*2) (w_E w);
         matches_parts := matches_parts w ++ [add] |}
  end.

Definition stage_m0_tax (w : work) : work :=
  consume (rn_join (filter (λ r, api_is_tax r = true) (w_A w)) (w_E w))
          "M0_TAX_DMINUS1_RN_1TO1" 5 1 w.

Definition stage_m0_bankfees (w : work) : work :=
  consume (rn_join (filter (λ r, api_is_bankfees r = true) (w_A w)) (w_E w))
          "M0_BANKFEES_DMINUS1_RN_1TO1" 6 1 w.

Definition stage_m0_rent (w : work) : work :=
  consume (rn_join (filter (λ r, api_is_rent_d1 r = true) (w_A w)) (w_E w))
          "M0_RENT_DMINUS1_RN_1TO1" 7 1 w.

(** One description stage: its edges restricted to rows still alive
    (only when both working sets are non-empty), then consumed. *)
Definition stage_desc (desc_edges_by_type : list (string * list (Z * Z)))
    (w : work) (mt : string) : work :=
  match dict_get desc_edges_by_type mt with
  | None | Some [] => w
  | Some edges_df =>
      let df_stage :=
        match w_A w, w_E w with
        | [], _ | _, [] => edges_df
        | _, _ =>
            filter (λ p, p.1 ∈ api_row_id <$> w_A w ∧ p.2 ∈ erp_row_id <$> w_E w)
                   edges_df
        end in
      match df_stage with
      | [] => w
      | _ => consume df_stage mt (DESC_STAGE_PRIO mt) 0 w
      end
  end.

Definition stage_desc_all (desc_edges_by_type : list (string * list (Z * Z)))
    (w : work) : work :=
  match desc_edges_by_type with
  | [] => w
  | _ => foldl (stage_desc desc_edges_by_type) w DESC_STAGE_ORDER
  end.

Definition stage_m1 (w : work) : work :=
  consume (rn_join (w_A w) (w_E w)) "M1_SAME_DAY_RN" 10 0 w.

Abbreviation same_key := (string * string * string * Z * Z)%type (only parsing).

Definition same_keys (r : KRow) : same_key :=
  (k_tenant_id r, k_bank_code r, k_acc_tail r, k_sign r, k_date r).

(** The API half of [kdf_same]: the rows that are not rent, with their
    cents (see the note at [KRow] on the Float64 round trip). *)
Definition A_k (A : list ApiRow) : list KRow :=
  (λ r, mkKRow (Some (api_row_id r)) None (a_tenant_id r) (a_bank_code r)
          (api_acc_tail r) (api_date r) (api_sign r) (api_cents r) SideA)
    <$> filter (λ r, api_is_rent r = false) A.

Definition E_k (E : list ErpRow) : list KRow :=
  (λ r, mkKRow None (Some (erp_row_id r)) (e_tenant_id r) (e_bank_code r)
          (erp_acc_tail r) (erp_date r) (erp_sign r) (erp_cents r) SideE)
    <$> E.

Definition m2_same (A : list ApiRow) (E : list ErpRow) : list (Z * Z) :=
  match A, E with
  | [], _ | _, [] => []
  | _, _ => apply_per_group (A_k A ++ E_k E) same_keys solve_same_group
  end.

Definition stage_m2 (w : work) : work :=
  consume (m2_same (w_A w) (w_E w)) "M2_KSUM_SAME_DAY" 20 0 w.

(** Key of the day-balance fallback:
    [tenant_id, bank_code, acc_tail, date, sign]. *)
Abbreviation fb_key := (string * string * string * Z * Z)%type (only parsing).

Definition fb_key_A (r : ApiRow) : fb_key :=
  (a_tenant_id r, a_bank_code r, api_acc_tail r, api_date r, api_sign r).

Definition fb_key_E (r : ErpRow) : fb_key :=
  (e_tenant_id r, e_bank_code r, erp_acc_tail r, erp_date r, erp_sign r).

(** The value that an Int64 addition leaves: integer sums of polars wrap
    around in two's complement. *)
Definition wrap64 (z : Z) : Z := (z + 2 ^ 63) mod 2 ^ 64 - 2 ^ 63.

(** [group_by(keys).agg(cents.sum())] on the Int64 column [cents]. *)
Definition group_sum {R} (key : R → fb_key) (cents : R → Z) (df : list R)
  : list (fb_key * Z) :=
  foldl (λ d r, dict_set d (key r) (wrap64 (default 0 (dict_get d (key r)) + cents r)))
        [] df.

(** The day-balance fallback: the keys whose two Int64 sums agree, and
    the product of the rows of each such key.  As for [rn_join], the key
    columns hold no NULL. *)
Definition fb_edges (A : list ApiRow) (E : list ErpRow) : list (Z * Z) :=
  match A, E with
  | [], _ | _, [] => []
  | _, _ =>
      let A_sum := group_sum fb_key_A api_cents A in
      let E_sum := group_sum fb_key_E erp_cents E in
      let fb_keys :=
        remove_dups
          (ka ← A_sum; ke ← E_sum;
           if bool_decide (ka.1 = ke.1 ∧ ka.2 = ke.2) then [ka.1] else []) in
      remove_dups
        (k ← fb_keys;
         a ← filter (λ r, fb_key_A r = k) A;
         e ← filter (λ r, fb_key_E r = k) E;
         [(api_row_id a, erp_row_id e)])
  end.

Definition stage_fallback (w : work) : work :=
  consume (fb_edges (w_A w) (w_E w)) "07_FALLBACK_BALANCE_DAY" 30 0 w.

(** The stages in execution order. *)
Definition run_stages (A0 : list ApiRow) (E0 : list ErpRow)
    (desc_edges_by_type : list (string * list (Z * Z))) : work :=
  stage_fallback (stage_m2 (stage_m1 (stage_desc_all desc_edges_by_type
    (stage_m0_rent (stage_m0_bankfees (stage_m0_tax (mkWork A0 E0 []))))))).

(** [matches.unique(subset=["api_row_id","erp_row_id"])]: one row per pair,
    the first one in cascade order. *)
Fixpoint unique_pairs (seen : list (Z * Z)) (l : list MatchRow) : list MatchRow :=
  match l with
  | [] => []
  | r :: l' =>
      let p := (m_api_row_id r, m_erp_row_id r) in
      if bool_decide (p ∈ seen) then unique_pairs seen l'
      else r :: unique_pairs (p :: seen) l'
  end.

(** ** Loading and normalisation *)

(** The text helpers are modelled on ASCII input: [\D] and [\d] are the
    ASCII digits, case mapping touches [a-z] / [A-Z] only. *)
Definition is_digit (c : ascii) : bool :=
  (48 <=? nat_of_ascii c)%nat && (nat_of_ascii c <=? 57)%nat.
Definition is_upper (c : ascii) : bool :=
  (65 <=? nat_of_ascii c)%nat && (nat_of_ascii c <=? 90)%nat.
Definition is_lower (c : ascii) : bool :=
  (97 <=? nat_of_ascii c)%nat && (nat_of_ascii c <=? 122)%nat.

Definition upper_char (c : ascii) : ascii :=
  if is_lower c then ascii_of_nat (nat_of_ascii c - 32) else c.
Definition lower_char (c : ascii) : ascii :=
  if is_upper c then ascii_of_nat (nat_of_ascii c + 32) else c.

Definition to_uppercase (s : string) : string :=
  String.string_of_list_ascii (upper_char <$> String.list_ascii_of_string s).
Definition to_lowercase (s : string) : string :=
  String.string_of_list_ascii (lower_char <$> String.list_ascii_of_string s).

(** [lstrip("0")], [re "^0+"] *)
Fixpoint lstrip_zeros (l : list ascii) : list ascii :=
  match l with
  | c :: l' => if bool_decide (c = "0"%char) then lstrip_zeros l' else l
  | [] => []
  end.

(** [s[-n:]], [str.slice(-n)] *)
Definition take_right {A} (n : nat) (l : list A) : list A := drop (length l - n) l.

(** [right_digits(col, n)] on a value that is not NULL: strip non-digits,
    strip leading zeros, keep the rightmost [n] characters.  The polars
    expression leaves a NULL as NULL; the frames of this development hold
    no NULL. *)
Definition right_digits (s : string) (n : nat) : string :=
  String.string_of_list_ascii
    (take_right n (lstrip_zeros (filter (λ c, is_digit c = true) (String.list_ascii_of_string s)))).

(** [normalize_account_number(acc)]: [""] when [acc] is [None], otherwise
    the digits of [acc] without the leading zeros. *)
Definition normalize_account_number (acc : option string) : string :=
  match acc with
  | None => ""
  | Some s =>
      String.string_of_list_ascii
        (lstrip_zeros (filter (λ c, is_digit c = true) (String.list_ascii_of_string s)))
  end.

Definition ACC_TAIL_DIGITS : nat := 8.

(** The columns of [silver_api_staging] that the pipeline reads.  Amounts
    are exact decimals and no column is NULL. *)
Record RawApi := mkRawApi {
  ra_id : string;
  ra_descriptionraw : string;
  ra_amount : Qcanon.Qc;
  ra_date : date;
  ra_category : string;
  ra_categoryid : string;
  ra_operationtype : string;
  ra_tenant_id : string;
  ra_account_number : string;
  ra_bank_code : string;
  ra_bank_name : string;
}.

(** The columns of [silver_erp_staging] that the pipeline reads. *)
Record RawErp := mkRawErp {
  re_tenant_id : string;
  re_cd_lancamento : string;
  re_nr_documento : string;
  re_date_br : date;
  re_description_client : string;
  re_amount_client : Qcanon.Qc;
  re_bank : string;
  re_bank_code : string;
  re_account_norm : string;
  re_favorecido : string;
}.

Section Loader.

(** [(pl.col("amount") * 100).round(0).cast(pl.Int64)]: the product, the
    rounding and the cast are polars kernels, taken as given. *)
Variable to_cents : Qcanon.Qc → Z.

(** The chain of polars string expressions that builds [desc_norm]. *)
Variable desc_norm_of : string → string.

(** [pl.when(cents >= 0).then(1).otherwise(-1)] *)
Definition sign_of_cents (cents : Z) : Z := if bool_decide (0 ≤ cents) then 1 else -1.

Definition load_api_row (i : nat) (r : RawApi) : ApiRow :=
  let api_cents := to_cents (ra_amount r) in
  let api_optype_upper := to_uppercase (ra_operationtype r) in
  let category := to_lowercase (ra_category r) in
  let api_is_tax :=
    bool_decide (category = "tax on financial operations")
    || bool_decide (ra_categoryid r = "15030000") in
  let api_is_bankfees :=
    bool_decide (ra_categoryid r = "16000000")
    || bool_decide (category = "bank fees") in
  let api_is_pix_tariff :=
    bool_decide (category = "transfer - pix")
    && bool_decide (api_optype_upper = "TARIFA_SERVICOS_AVULSOS") in
  let api_is_rent_d1 :=
    bool_decide (api_optype_upper = "RENDIMENTO_APLIC_FINANCEIRA") in
  let api_is_rent_generic :=
    bool_decide (category = "proceeds interests and dividends")
    || bool_decide (ra_categoryid r = "03060000")
    || bool_decide (api_optype_upper = "RESGATE_APLIC_FINANCEIRA") in
  {| api_row_id := Z.of_nat i;
     api_uid := ra_id r;
     a_tenant_id := ra_tenant_id r;
     api_date := ra_date r;
     api_cents := api_cents;
     api_sign := sign_of_cents api_cents;
     api_acc_tail := right_digits (ra_account_number r) ACC_TAIL_DIGITS;
     api_desc_norm := desc_norm_of (ra_descriptionraw r);
     a_bank_code := ra_bank_code r;
     a_bank_name := ra_bank_name r;
     api_is_tax := api_is_tax;
     api_is_bankfees := api_is_bankfees;
     api_is_pix_tariff := api_is_pix_tariff;
     api_is_rent := api_is_rent_d1 || api_is_rent_generic;
     api_is_rent_d1 := api_is_rent_d1 |}.

(** [load_api_from_pg] on the fetched rows ([ACC_FILTER] is [None]). *)
Definition load_api_from_pg (rows : list RawApi) : list ApiRow := imap load_api_row rows.

Definition load_erp_row (i : nat) (r : RawErp) : ErpRow :=
  let erp_cents := to_cents (re_amount_client r) in
  {| erp_row_id := Z.of_nat i;
     erp_uid := re_cd_lancamento r;
     e_tenant_id := re_tenant_id r;
     erp_date := re_date_br r;
     erp_cents := erp_cents;
     erp_sign := sign_of_cents erp_cents;
     erp_acc_tail := right_digits (re_account_norm r) ACC_TAIL_DIGITS;
     erp_desc_norm := desc_norm_of (re_description_client r);
     e_bank_code := re_bank_code r;
     e_bank_name := re_bank r |}.

Definition load_erp_from_pg (rows : list RawErp) : list ErpRow := imap load_erp_row rows.

End Loader.
(** ** Description stages (01 / 02 / 03) *)

(** Amounts of the description stages are Python [Decimal] values, modelled
    as exact rationals. *)
Abbreviation decimal := Qcanon.Qc.

Module DecNotations.
Notation "x + y" := (Qcanon.Qcplus x y) : Qc_scope.
Notation "x - y" := (Qcanon.Qcminus x y) : Qc_scope.
Notation "x <= y" := (Qcanon.Qcle x y) : Qc_scope.
Notation "x < y" := (Qcanon.Qclt x y) : Qc_scope.
End DecNotations.
Import DecNotations.

Definition dabs (x : decimal) : decimal := Qcabs.Qcabs x.
Definition dzero : decimal := Qc_of_Z 0.

(** [sum(abs(t.amount) for ...)] *)
Definition dsum (l : list decimal) : decimal := foldl Qcanon.Qcplus dzero l.

(** *** Business days *)

(** [date.weekday()], Monday = 0. *)
Definition weekday (d : date) : Z := (d + 6) mod 7.

Definition is_weekend (d : date) : bool := bool_decide (5 ≤ weekday d).

(** [while is_weekend(d): d += step]; two steps always suffice. *)
Fixpoint skip_weekend (fuel : nat) (step : Z) (d : date) : date :=
  match fuel with
  | O => d
  | S fuel' => if is_weekend d then skip_weekend fuel' step (d + step) else d
  end.

Definition prev_business_day (d : date) : date := skip_weekend 7 (-1) (d - 1).
Definition next_business_day (d : date) : date := skip_weekend 7 1 (d + 1).

Definition add_business_days (d : date) (n : Z) : date :=
  let step := if bool_decide (0 ≤ n) then 1 else -1 in
  Nat.iter (Z.to_nat (Z.abs n))
           (λ d, if bool_decide (0 < step) then next_business_day d
                 else prev_business_day d) d.

Definition candidate_dates (d : date) : list date :=
  [ d; add_business_days d 1; add_business_days d 2;
    add_business_days d (-1); add_business_days d (-2) ].

(** *** Keywords *)

Definition STOPWORDS : list string :=
  [ "PAGAMENTO"; "PAGTO"; "PAGTO."; "PAGT"; "PAG";
    "TRANSFERENCIA"; "TRANSF"; "ENTRE"; "CONTAS";
    "SAIDA"; "ENTRADA"; "DEBITO"; "CREDITO"; "DOC";
    "TED"; "PIX"; "BOLETO"; "COBRANCA"; "REF"; "PGTO";
    "NR"; "NUM"; "BANCO"; "REGIONAL"; "DESENVOLVIMENTO";
    "DOCTO"; "CONTA"; "VARIAVEL"; "FIXO"; "MENSAL";
    "FATURA"; "PARCELA"; "PARC"; "TITULO";
    "RECEB"; "RECEBIDO"; "RECEBIMENTO"; "VALOR";
    "COD"; "TARIFAS"; "BANCARIAS"; "ANTECIPACAO"; "ADM" ].

(** Maximal runs of [A-Z0-9]: what [normalize_text(text).split()] yields
    on upper-cased ASCII text. *)
Fixpoint runs_alnum (cur : list ascii) (l : list ascii) : list string :=
  match l with
  | [] => match cur with [] => [] | _ => [String.string_of_list_ascii cur] end
  | c :: l' =>
      if is_upper c || is_digit c then runs_alnum (cur ++ [c]) l'
      else match cur with
           | [] => runs_alnum [] l'
           | _ => String.string_of_list_ascii cur :: runs_alnum [] l'
           end
  end.

(** [normalize_text(text).split()] on ASCII text, where the accent folding
    of [normalize_text] has nothing to fold. *)
Definition text_tokens (text : string) : list string :=
  runs_alnum [] (upper_char <$> String.list_ascii_of_string text).

(** [t.isdigit()] on a non-empty token. *)
Definition isdigit (t : string) : bool :=
  forallb is_digit (String.list_ascii_of_string t).

Fixpoint keywords_loop (max_keywords : nat) (tokens seen kws : list string)
  : list string :=
  match tokens with
  | [] => kws
  | t :: tokens' =>
      if (String.length t <=? 2)%nat then keywords_loop max_keywords tokens' seen kws
      else if isdigit t then keywords_loop max_keywords tokens' seen kws
      else if bool_decide (t ∈ STOPWORDS) then keywords_loop max_keywords tokens' seen kws
      else if bool_decide (t ∈ seen) then keywords_loop max_keywords tokens' seen kws
      else
        let kws' := kws ++ [t] in
        if (max_keywords <=? length kws')%nat then kws'
        else keywords_loop max_keywords tokens' (t :: seen) kws'
  end.

Definition extract_keywords (text : string) (max_keywords : nat) : list string :=
  keywords_loop max_keywords (text_tokens text) [] [].

(** *** Transactions *)

Record Tx := mkTx {
  tx_side : side;
  tx_key : string;
  tx_idx : nat;
  tx_amount : decimal;
  tx_date : date;
  tx_work_date : date;
  tx_matched : bool;
  tx_tenant_id : string;
  tx_bank_code : string;
  tx_bank_name : string;
  tx_acc_norm : string;
  tx_acc_tail : string;
}.

Definition tx_sign (tx : Tx) : Z :=
  if bool_decide (dzero < tx_amount tx)%Qc then 1
  else if bool_decide (tx_amount tx < dzero)%Qc then -1
  else 0.

(** [tx.matched = True] *)
Definition set_matched (tx : Tx) : Tx :=
  {| tx_side := tx_side tx; tx_key := tx_key tx; tx_idx := tx_idx tx;
     tx_amount := tx_amount tx; tx_date := tx_date tx;
     tx_work_date := tx_work_date tx; tx_matched := true;
     tx_tenant_id := tx_tenant_id tx; tx_bank_code := tx_bank_code tx;
     tx_bank_name := tx_bank_name tx; tx_acc_norm := tx_acc_norm tx;
     tx_acc_tail := tx_acc_tail tx |}.

(** [txs[i].matched = True] on the shared list of transactions. *)
Definition mark (txs : list Tx) (i : nat) : list Tx := alter set_matched i txs.

(** [acc_norm[-ACC_TAIL_DIGITS:] if acc_norm else ""] *)
Definition acc_tail_of (acc_norm : string) : string :=
  String.string_of_list_ascii (take_right ACC_TAIL_DIGITS (String.list_ascii_of_string acc_norm)).

Definition api_tx (i : nat) (row : RawApi) : Tx :=
  let acc_norm := normalize_account_number (Some (ra_account_number row)) in
  mkTx SideA (ra_id row) i (ra_amount row) (ra_date row) (ra_date row) false
       (ra_tenant_id row) (ra_bank_code row) (ra_bank_name row)
       acc_norm (acc_tail_of acc_norm).

Definition erp_tx (i : nat) (row : RawErp) : Tx :=
  let acc_norm := normalize_account_number (Some (re_account_norm row)) in
  mkTx SideE (re_cd_lancamento row) i (re_amount_client row) (re_date_br row)
       (re_date_br row) false
       (re_tenant_id row) (re_bank_code row) (re_bank row)
       acc_norm (acc_tail_of acc_norm).

Definition _build_txs (api_df : list RawApi) (erp_df : list RawErp) : list Tx :=
  imap api_tx api_df ++ imap erp_tx erp_df.

(** The keyword lists [api_keywords], [erp_keywords] that every matcher
    recomputes from the two frames. *)
Definition api_keywords_of (api_df : list RawApi) : list (list string) :=
  (λ row, extract_keywords (ra_descriptionraw row) 10) <$> api_df.

Definition erp_keywords_of (erp_df : list RawErp) : list (list string) :=
  (λ row, extract_keywords
            (re_description_client row +:+ " " +:+ re_favorecido row) 10) <$> erp_df.

(** Cluster key of stage 01: tenant, bank code, account number, work date,
    sign and keyword signature. *)
Abbreviation sig_key := (string * string * string * Z * Z * string)%type.

Section DescMatchers.

Variable api_keywords : list (list string).
Variable erp_keywords : list (list string).

Definition get_keywords (tx : Tx) : list string :=
  default [] (match tx_side tx with
              | SideA => api_keywords !! tx_idx tx
              | SideE => erp_keywords !! tx_idx tx
              end).

(** Size of the intersection of two keyword sets. *)
Definition inter_size (k1 k2 : list string) : nat :=
  length (filter (λ k, k ∈ k2) (remove_dups k1)).

Definition unmatched (txs : list Tx) (i : nat) : bool :=
  match txs !! i with Some tx => negb (tx_matched tx) | None => false end.

Definition abs_amount_at (txs : list Tx) (i : nat) : decimal :=
  match txs !! i with Some tx => dabs (tx_amount tx) | None => dzero end.

(** The account test shared by stages 02 and 03:
    [anchor.acc_norm and tx.acc_norm and tx.acc_norm != anchor.acc_norm]. *)
Definition other_account (anchor tx : Tx) : bool :=
  negb (bool_decide (tx_acc_norm anchor = ""))
  && negb (bool_decide (tx_acc_norm tx = ""))
  && negb (bool_decide (tx_acc_norm tx = tx_acc_norm anchor)).

(** **** 01_DESC_MN_SIGNATURE *)

Definition get_signature (tx : Tx) : string :=
  match get_keywords tx with
  | [] => ""
  | kws => String.concat "|" (take 3 kws)
  end.

Definition cluster_step (clusters : list (sig_key * (list nat * list nat)))
    (itx : nat * Tx) : list (sig_key * (list nat * list nat)) :=
  let i := itx.1 in
  let tx := itx.2 in
  if tx_matched tx || bool_decide (tx_sign tx = 0) then clusters
  else if bool_decide (tx_bank_code tx = "") || bool_decide (tx_acc_norm tx = "")
  then clusters
  else
    let sig := get_signature tx in
    if bool_decide (sig = "") then clusters
    else
      let key := (tx_tenant_id tx, tx_bank_code tx, tx_acc_norm tx,
                  tx_work_date tx, tx_sign tx, sig) in
      let sides := default ([], []) (dict_get clusters key) in
      dict_set clusters key
        (match tx_side tx with
         | SideA => (sides.1 ++ [i], sides.2)
         | SideE => (sides.1, sides.2 ++ [i])
         end).

Definition signature_step (eps : decimal)
    (st : list Tx * list (list nat * list nat))
    (kv : sig_key * (list nat * list nat)) : list Tx * list (list nat * list nat) :=
  let txs := st.1 in
  let api_idxs := filter (λ i, unmatched txs i = true) kv.2.1 in
  let erp_idxs := filter (λ i, unmatched txs i = true) kv.2.2 in
  match api_idxs, erp_idxs with
  | [], _ | _, [] => st
  | _, _ =>
      let total_api := dsum (abs_amount_at txs <$> api_idxs) in
      let total_erp := dsum (abs_amount_at txs <$> erp_idxs) in
      if bool_decide (dabs (total_api - total_erp) <= eps)%Qc
      then (foldl mark txs (api_idxs ++ erp_idxs), st.2 ++ [(erp_idxs, api_idxs)])
      else st
  end.

(** Returns the transactions with their new [matched] flags and the
    matches [(erp_idxs, api_idxs)]. *)
Definition _match_many_to_many_by_signature (txs : list Tx) (eps : decimal)
  : list Tx * list (list nat * list nat) :=
  let clusters := foldl cluster_step [] (imap pair txs) in
  foldl (signature_step eps) (txs, []) clusters.

(** **** Stable sort, largest first ([sorted(..., reverse=True)]) *)

Fixpoint insert_by_desc {A} (key : A → decimal) (x : A) (l : list A) : list A :=
  match l with
  | [] => [x]
  | y :: l' =>
      if bool_decide (key y <= key x)%Qc then x :: y :: l'
      else y :: insert_by_desc key x l'
  end.

Definition sort_by_desc {A} (key : A → decimal) (l : list A) : list A :=
  foldr (insert_by_desc key) [] l.

(** **** 02_DESC_FULL_1N *)

Definition full_candidate (min_keyword_intersection : nat) (anchor : Tx)
    (anchor_kws : list string) (allowed_dates : list date) (tx : Tx) : bool :=
  if tx_matched tx || negb (bool_decide (tx_side tx = SideE))
     || negb (bool_decide (tx_sign tx = tx_sign anchor)) then false
  else if negb (bool_decide (tx_work_date tx ∈ allowed_dates)) then false
  else if negb (bool_decide (tx_tenant_id tx = tx_tenant_id anchor)) then false
  else if negb (bool_decide (tx_bank_code tx = tx_bank_code anchor)) then false
  else if other_account anchor tx then false
  else
    match get_keywords tx with
    | [] => false
    | kws_erp => negb (inter_size anchor_kws kws_erp <? min_keyword_intersection)%nat
    end.

Definition full_step (eps : decimal) (min_keyword_intersection : nat)
    (st : list Tx * list (nat * list nat)) (i : nat)
  : list Tx * list (nat * list nat) :=
  let txs := st.1 in
  match txs !! i with
  | None => st
  | Some anchor =>
      match get_keywords anchor with
      | [] => st
      | anchor_kws =>
          let allowed_dates := candidate_dates (tx_work_date anchor) in
          let erp_idxs :=
            (imap pair txs)
              ≫= (λ jtx, if full_candidate min_keyword_intersection anchor
                                anchor_kws allowed_dates jtx.2
                         then [jtx.1] else []) in
          match erp_idxs with
          | [] => st
          | _ =>
              let total_erp := dsum (abs_amount_at txs <$> erp_idxs) in
              if bool_decide (dabs (total_erp - dabs (tx_amount anchor)) <= eps)%Qc
              then (foldl mark (mark txs i) erp_idxs, st.2 ++ [(i, erp_idxs)])
              else st
          end
      end
  end.

Definition _match_full_group_by_description (txs : list Tx) (eps : decimal)
    (min_abs_amount : decimal) (min_keyword_intersection : nat)
  : list Tx * list (nat * list nat) :=
  let anchor_indices :=
    sort_by_desc (abs_amount_at txs)
      ((imap pair txs)
         ≫= (λ itx, if bool_decide (tx_side itx.2 = SideA) && negb (tx_matched itx.2)
                       && negb (bool_decide (tx_sign itx.2 = 0))
                       && bool_decide (min_abs_amount <= dabs (tx_amount itx.2))%Qc
                    then [itx.1] else [])) in
  foldl (full_step eps min_keyword_intersection) (txs, []) anchor_indices.

(** **** 03_DESC_KSUM: bounded depth-first subset sum *)

Section SubsetSumForAnchor.

Variable target : decimal.
Variable eps : decimal.
Variable max_nodes : Z.
(** [cands_sorted]: position in [txs] and the transaction. *)
Variable cands_sorted : list (nat * Tx).

Definition prefix_sum (k : nat) : decimal :=
  dsum ((λ c, dabs (tx_amount c.2)) <$> take k cands_sorted).

(** [dfs(start, depth_limit, chosen, current_sum, nodes_ref)], by recursion
    on the free slots [depth_limit - len(chosen)]; the node counter is
    returned with the result. *)
Fixpoint dfs (slots : nat) (start : nat) (chosen : list nat)
    (current_sum : decimal) (nodes : Z) : option (list nat) * Z :=
  let nodes := nodes + 1 in
  if max_nodes <? nodes then (None, nodes)
  else
    match slots with
    | O =>
        (if bool_decide (dabs (current_sum - target) <= eps)%Qc
         then Some chosen else None, nodes)
    | S slots' =>
        if bool_decide (target + eps < current_sum)%Qc then (None, nodes)
        else if (length cands_sorted <? start + slots)%nat then (None, nodes)
        else
          let max_possible_add :=
            (prefix_sum (start + slots) - prefix_sum start)%Qc in
          if bool_decide (current_sum + max_possible_add < target - eps)%Qc
          then (None, nodes)
          else
            (fix loop (rest : list nat) (nodes : Z) : option (list nat) * Z :=
               match rest with
               | [] => (None, nodes)
               | i :: rest' =>
                   match cands_sorted !! i with
                   | None => loop rest' nodes
                   | Some c =>
                       if tx_matched c.2 then loop rest' nodes
                       else
                         match dfs slots' (S i) (chosen ++ [i])
                                   (current_sum + dabs (tx_amount c.2))%Qc nodes with
                         | (Some res, nodes') => (Some res, nodes')
                         | (None, nodes') => loop rest' nodes'
                         end
                   end
               end)
              (seq start (length cands_sorted - start)) nodes
    end.

(** [for depth in range(1, max_len + 1)] *)
Fixpoint depth_loop (depths : list nat) : option (list nat) :=
  match depths with
  | [] => None
  | depth :: depths' =>
      match (dfs depth 0 [] dzero 0).1 with
      | Some res_idx => Some res_idx
      | None => depth_loop depths'
      end
  end.

End SubsetSumForAnchor.

(** Returns the chosen candidates (positions in [txs]). *)
Definition _subset_sum_for_anchor (target : decimal) (candidates : list (nat * Tx))
    (max_len : nat) (eps : decimal) (max_nodes : Z) : option (list nat) :=
  let cands_sorted := sort_by_desc (λ c, dabs (tx_amount c.2)) candidates in
  match depth_loop target eps max_nodes cands_sorted (seq 1 max_len) with
  | Some res_idx =>
      Some (omap (λ i, fst <$> cands_sorted !! i) res_idx)
  | None => None
  end.

Definition ksum_candidate (min_keyword_intersection : nat) (anchor : Tx)
    (anchor_kws : list string) (tx : Tx) : bool :=
  let other_side := match tx_side anchor with SideE => SideA | SideA => SideE end in
  if tx_matched tx || negb (bool_decide (tx_side tx = other_side))
     || negb (bool_decide (tx_sign tx = tx_sign anchor)) then false
  else if negb (bool_decide (tx_work_date tx = tx_work_date anchor)) then false
  else if negb (bool_decide (tx_tenant_id tx = tx_tenant_id anchor)) then false
  else if negb (bool_decide (tx_bank_code tx = tx_bank_code anchor)) then false
  else if other_account anchor tx then false
  else
    let cand_kws := remove_dups (get_keywords tx) in
    if (length cand_kws <? min_keyword_intersection)%nat then false
    else negb (inter_size anchor_kws cand_kws <? min_keyword_intersection)%nat.

(** Body of [for i in order]; the flag is set once the loop has hit
    [break]. *)
Definition ksum_step (eps : decimal) (max_len : nat) (min_abs_amount : decimal)
    (max_nodes : Z) (min_keyword_intersection : nat)
    (st : bool * list Tx * list (nat * list nat)) (i : nat)
  : bool * list Tx * list (nat * list nat) :=
  let '(stopped, txs, matches) := st in
  if stopped then st
  else
    match txs !! i with
    | None => st
    | Some anchor =>
        if tx_matched anchor || bool_decide (tx_sign anchor = 0) then st
        else if bool_decide (dabs (tx_amount anchor) < min_abs_amount)%Qc
        then (true, txs, matches)
        else
          let anchor_kws := remove_dups (get_keywords anchor) in
          if (length anchor_kws <? min_keyword_intersection)%nat then st
          else
            let cands :=
              filter (λ jtx, ksum_candidate min_keyword_intersection anchor
                               anchor_kws jtx.2 = true) (imap pair txs) in
            match cands with
            | [] => st
            | _ =>
                match _subset_sum_for_anchor (dabs (tx_amount anchor)) cands
                        max_len eps max_nodes with
                | Some (g :: group) =>
                    (false, foldl mark (mark txs i) (g :: group),
                     matches ++ [(i, g :: group)])
                | _ => st
                end
            end
    end.

Definition _match_one_to_many_by_description (txs : list Tx) (eps : decimal)
    (max_len : nat) (min_abs_amount : decimal) (max_nodes : Z)
    (min_keyword_intersection : nat) : list Tx * list (nat * list nat) :=
  let order := sort_by_desc (abs_amount_at txs) (seq 0 (length txs)) in
  let st := foldl (ksum_step eps max_len min_abs_amount max_nodes
                             min_keyword_intersection)
                  (false, txs, []) order in
  (st.1.2, st.2).

End DescMatchers.

(** A matched group: stage name, ERP positions, API positions. *)
Abbreviation desc_group := (string * list nat * list nat)%type.

(** [reconcile_by_description] with the arguments [main] passes:
    eps = 0.01, desc_min_amount = 100000, group size 25, 2 keywords. *)
Definition reconcile_by_description (api_df : list RawApi) (erp_df : list RawErp)
  : list Tx * list desc_group :=
  let dec_eps := Qcanon.Qcdiv (Qc_of_Z 1) (Qc_of_Z 100) in
  let dec_desc_min_amount := Qc_of_Z 100000 in
  let api_kws := api_keywords_of api_df in
  let erp_kws := erp_keywords_of erp_df in
  let txs := _build_txs api_df erp_df in
  let r1 := _match_many_to_many_by_signature api_kws erp_kws txs dec_eps in
  let r2 := _match_full_group_by_description api_kws erp_kws r1.1 dec_eps
              dec_desc_min_amount 2 in
  let r3 := _match_one_to_many_by_description api_kws erp_kws r2.1 dec_eps 25
              dec_desc_min_amount 200000 2 in
  let txs := r3.1 in
  (txs,
   ((λ m, ("01_DESC_MN_SIGNATURE", m.1, m.2)) <$> r1.2)
   ++ ((λ m, ("02_DESC_FULL_1N", m.2, [m.1])) <$> r2.2)
   ++ ((λ m, match tx_side <$> txs !! m.1 with
             | Some SideE => ("03_DESC_KSUM_1N", [m.1], m.2)
             | _ => ("03_DESC_KSUM_N1", m.2, [m.1])
             end) <$> r3.2)).

(** [Series.unique()]: first occurrences, in order. *)
Fixpoint unique_first (seen l : list string) : list string :=
  match l with
  | [] => []
  | x :: l' =>
      if bool_decide (x ∈ seen) then unique_first seen l'
      else x :: unique_first (x :: seen) l'
  end.

(** The match types that [build_desc_edges] turns into edges; a group of
    any other type is skipped. *)
Definition DESC_MATCH_TYPES : list string :=
  [ "01_DESC_MN_SIGNATURE"; "02_DESC_FULL_1N"; "03_DESC_KSUM_1N"; "03_DESC_KSUM_N1" ].

(** The ids recorded by [add_group] for one side of a group. *)
Definition group_keys (sd : side) (txs : list Tx) (idxs : list nat) : list string :=
  omap (λ i, match txs !! i with
             | Some tx => if bool_decide (tx_side tx = sd) then Some (tx_key tx) else None
             | None => None
             end) idxs.

Definition uid_map_api (A0 : list ApiRow) : gmap string Z :=
  foldl (λ m r, <[api_uid r := api_row_id r]> m) ∅ A0.

Definition uid_map_erp (E0 : list ErpRow) : gmap string Z :=
  foldl (λ m r, <[erp_uid r := erp_row_id r]> m) ∅ E0.

(** [build_desc_edges] on the groups of [reconcile_by_description]: a
    group whose type is not one of the four description stages is skipped;
    of the others, every pair of an API id and an ERP id of the group that
    both uid maps know becomes an edge filed under the type of the group. *)
Definition build_desc_edges (A0 : list ApiRow) (E0 : list ErpRow)
    (result : list Tx * list desc_group) : list (string * list (Z * Z)) :=
  let txs := result.1 in
  let api_map := uid_map_api A0 in
  let erp_map := uid_map_erp E0 in
  foldl (λ edges_by_type grp,
           let '(match_type, erp_idxs, api_idxs) := grp in
           if negb (bool_decide (match_type ∈ DESC_MATCH_TYPES)) then edges_by_type
           else
             let api_ids := unique_first [] (group_keys SideA txs api_idxs) in
             let erp_ids := unique_first [] (group_keys SideE txs erp_idxs) in
             match api_ids, erp_ids with
             | [], _ | _, [] => edges_by_type
             | _, _ =>
                 foldl (λ d p, dict_append d match_type p) edges_by_type
                       (aid ← api_ids;
                        match api_map !! aid with
                        | None => []
                        | Some a_row =>
                            eid ← erp_ids;
                            match erp_map !! eid with
                            | None => []
                            | Some e_row => [(a_row, e_row)]
                            end
                        end)
             end)
        [] result.2.
(** ** The run of [main] up to the candidate edges *)

Section Main.

Variable to_cents : Qcanon.Qc → Z.
Variable desc_norm_of : string → string.

(** Both readers fetch the same rows of the two staging tables.  The run
    is that of two tables that are both non-empty (or both empty): when
    exactly one of them is empty its loader returns a frame without the
    derived columns and [transform] raises before any stage. *)
Definition main_stages (raw_api : list RawApi) (raw_erp : list RawErp) : work :=
  let A0 := load_api_from_pg to_cents desc_norm_of raw_api in
  let E0 := load_erp_from_pg to_cents desc_norm_of raw_erp in
  let desc_edges_by_type :=
    build_desc_edges A0 E0 (reconcile_by_description raw_api raw_erp) in
  run_stages A0 E0 desc_edges_by_type.

End Main.
(** ** Unreconciled rows and the spine of the daily table *)

(** [DATE_FROM = "2025-08-01"], [DATE_TO = "2025-08-31"], as day numbers
    ([date.toordinal()]). *)
Definition DATE_FROM : date := 739464.
Definition DATE_TO : date := 739494.

(** [A0.join(matches.select(["api_row_id"]).unique(), on="api_row_id",
    how="anti")]; the [select] that follows only renames and drops
    columns. *)
Definition unrec_api (matches : list MatchRow) (A0 : list ApiRow) : list ApiRow :=
  filter (λ a, api_row_id a ∉ m_api_row_id <$> matches) A0.

Definition unrec_erp (matches : list MatchRow) (E0 : list ErpRow) : list ErpRow :=
  filter (λ e, erp_row_id e ∉ m_erp_row_id <$> matches) E0.

(** The frame [pair] of [transform]:
    [matches.join(A1, on="api_row_id").join(E1, on="erp_row_id")], both
    inner joins. *)
Definition pair_df (matches : list MatchRow) (A0 : list ApiRow) (E0 : list ErpRow)
  : list (MatchRow * ApiRow * ErpRow) :=
  m ← matches;
  a ← filter (λ a, api_row_id a = m_api_row_id m) A0;
  e ← filter (λ e, erp_row_id e = m_erp_row_id m) E0;
  [(m, a, e)].

(** An account: [tenant_id, bank_code, acc_tail]. *)
Abbreviation acc_key := (string * string * string)%type.

Definition acc_of_api (a : ApiRow) : acc_key :=
  (a_tenant_id a, a_bank_code a, api_acc_tail a).
Definition acc_of_erp (e : ErpRow) : acc_key :=
  (e_tenant_id e, e_bank_code e, erp_acc_tail e).

(** Group keys of [m_api_daily]: in [pair] the columns [tenant_id],
    [bank_code] and [acc_tail] are those of the API row and [date] is the
    date of the ERP row. *)
Definition m_api_daily_keys (matches : list MatchRow) (A0 : list ApiRow)
    (E0 : list ErpRow) : list (acc_key * date) :=
  remove_dups ((λ p, (acc_of_api p.1.2, erp_date p.2)) <$> pair_df matches A0 E0).

(** Group keys of [m_erp_daily]. *)
Definition m_erp_daily_keys (matches : list MatchRow) (E0 : list ErpRow)
  : list (acc_key * date) :=
  remove_dups
    ((λ e, (acc_of_erp e, erp_date e)) <$>
       (i ← remove_dups (m_erp_row_id <$> matches);
        filter (λ e, erp_row_id e = i) E0)).

Definition spine_dim (matches : list MatchRow) (A0 : list ApiRow) (E0 : list ErpRow)
  : list acc_key :=
  remove_dups
    (remove_dups (m_api_daily_keys matches A0 E0).*1
     ++ remove_dups (m_erp_daily_keys matches E0).*1
     ++ remove_dups (acc_of_api <$> unrec_api matches A0)
     ++ remove_dups (acc_of_erp <$> unrec_erp matches E0)).

(** [pl.date_range(DATE_FROM, DATE_TO, "1d")] *)
Definition core_dates : list date :=
  zrange_from DATE_FROM (Z.to_nat (DATE_TO - DATE_FROM + 1)).

(** [spine_dim.join(dates, how="cross")] *)
Definition spine (matches : list MatchRow) (A0 : list ApiRow) (E0 : list ErpRow)
  : list (acc_key * date) :=
  k ← spine_dim matches A0 E0; d ← core_dates; [(k, d)].

(** The key columns [tenant_id, bank_code, acc_tail, date] of [daily]: the
    empty frame when [pair] is empty, otherwise the spine, which the left
    joins with the four grouped frames neither shorten nor lengthen (each
    grouped frame has one row per key). *)
Definition daily_keys (matches : list MatchRow) (A0 : list ApiRow) (E0 : list ErpRow)
  : list (acc_key * date) :=
  match pair_df matches A0 E0 with
  | [] => []
  | _ => spine matches A0 E0
  end.
(** ** Concrete inputs used in the examples *)

(** Thirty-six candidate rows of one sign: 34 even-cent rows from 100 down
    to 34, then a 3-cent and a 1-cent row. *)
Definition ksum_cand36 : list item :=
  [
   (0, 100); (1, 98); (2, 96); (3, 94); (4, 92); (5, 90); (6, 88); (7, 86);
   (8, 84); (9, 82); (10, 80); (11, 78); (12, 76); (13, 74); (14, 72); (15,
   70); (16, 68); (17, 66); (18, 64); (19, 62); (20, 60); (21, 58); (22,
   56); (23, 54); (24, 52); (25, 50); (26, 48); (27, 46); (28, 44); (29,
   42); (30, 40); (31, 38); (32, 36); (33, 34); (34, 3); (35, 1) ].

(** A small candidate set: API row 1 (1000 cents) is matched with ERP rows
    9 and 10 (600 cents each) by two different stages, and API row 2 with
    ERP row 11 (5 cents each). *)
Definition demo_matches : list MatchRow :=
  [ mkMatchRow 1 9 "03_DESC_KSUM_1N" 9 0;
    mkMatchRow 1 10 "03_DESC_KSUM_N1" 9 0;
    mkMatchRow 2 11 "M1_SAME_DAY_RN" 10 0 ].

Definition demo_api (i c : Z) : ApiRow :=
  mkApiRow i "" "anderle" 739474 c (if bool_decide (0 ≤ c) then 1 else -1)
           "7242" "" "237" "" false false false false false.

Definition demo_erp (i c : Z) : ErpRow :=
  mkErpRow i "" "anderle" 739474 c (if bool_decide (0 ≤ c) then 1 else -1)
           "7242" "" "237" "".

Definition demo_A0 : list ApiRow := [demo_api 1 1000; demo_api 2 5].
Definition demo_E0 : list ErpRow := [demo_erp 9 600; demo_erp 10 600; demo_erp 11 5].

(** One account, one day: a tax row and an ordinary row on the API side,
    each with an ERP row of the same cents. *)
Definition demo_tax_A0 : list ApiRow :=
  [ mkApiRow 0 "a0" "anderle" 739474 (-38) (-1) "7242" "IOF" "237" "BRADESCO"
             true false false false false;
    mkApiRow 1 "a1" "anderle" 739474 12345 1 "7242" "PIX RECEBIDO" "237" "BRADESCO"
             false false false false false ].

Definition demo_tax_E0 : list ErpRow :=
  [ mkErpRow 0 "e0" "anderle" 739474 12345 1 "7242" "RECEBIMENTO" "237" "BRADESCO";
    mkErpRow 1 "e1" "anderle" 739474 (-38) (-1) "7242" "IOF" "237" "BRADESCO" ].

(** An API row whose account number has no significant digit and two ERP
    rows of account 7242, same tenant, bank, day and sign; the API row and
    the first ERP row are 150000.00 each. *)
Definition noacc_api : list RawApi :=
  [ mkRawApi "api-1" "FORNECEDOR ACME LTDA" (Qc_of_Z 150000) 739474
             "" "" "" "anderle" "0000-0" "237" "BRADESCO" ].

Definition noacc_erp : list RawErp :=
  [ mkRawErp "anderle" "9" "" 739474 "ACME FORNECEDOR" (Qc_of_Z 150000)
             "BRADESCO" "237" "7242" "";
    mkRawErp "anderle" "10" "" 739474 "ACME FORNECEDOR JUROS" (Qc_of_Z 50000)
             "BRADESCO" "237" "7242" "" ].

(** Cents of an amount that has no fraction of a cent. *)
Definition exact_cents (q : Qcanon.Qc) : Z :=
  Qround.Qfloor (Qcanon.this (Qcanon.Qcmult q (Qc_of_Z 100))).


(** A staging row of amount 0.00 on each side. *)
Definition zero_api : list RawApi :=
  [ mkRawApi "api-0" "TARIFA ISENTA" (Qc_of_Z 0) 739474
             "" "" "" "anderle" "7242" "237" "BRADESCO" ].

Definition zero_erp : list RawErp :=
  [ mkRawErp "anderle" "0" "" 739474 "AJUSTE" (Qc_of_Z 0)
             "BRADESCO" "237" "7242" "" ].





(** ** Specification-level notions used by the statements *)

(** The items selected by the set bits of [mask], positions counted from [i]. *)
Fixpoint mask_pick (i : nat) (L : list item) (mask : Z) : list item :=
  match L with
  | [] => []
  | x :: L' =>
      if mask_bit mask i then x :: mask_pick (S i) L' mask
      else mask_pick (S i) L' mask
  end.

(** Sum of [f] over a list of ids. *)
Definition zsum (f : Z → Z) (l : list Z) : Z := foldr (λ x s, f x + s) 0 l.

(** Two nodes are adjacent when a candidate edge joins them. *)
Definition adjacent (edges : list (Z * Z)) (x y : node) : Prop :=
  ∃ a e, (a, e) ∈ edges ∧
         ((x = (SideA, a) ∧ y = (SideE, e)) ∨ (x = (SideE, e) ∧ y = (SideA, a))).

(** Connectedness in the bipartite graph over the candidate edges. *)
Definition connected (edges : list (Z * Z)) : relation node := rtc (adjacent edges).

(** Label of a node, and labelling a node, whatever its side. *)
Definition lab_of (lab : labels) (x : node) : option Z :=
  match x.1 with
  | SideA => comp_id_of_A lab !! x.2
  | SideE => comp_id_of_E lab !! x.2
  end.

Definition set_lab (lab : labels) (x : node) (c : Z) : labels :=
  match x.1 with
  | SideA => mkLabels (<[x.2 := c]> (comp_id_of_A lab)) (comp_id_of_E lab)
  | SideE => mkLabels (comp_id_of_A lab) (<[x.2 := c]> (comp_id_of_E lab))
  end.

(** The adjacency maps and node sets hold exactly the candidate edges. *)
Definition graph_of (edges : list (Z * Z)) (g : graph) : Prop :=
  (∀ a e, e ∈ default ∅ (adjA g !! a) ↔ (a, e) ∈ edges) ∧
  (∀ a e, a ∈ default ∅ (adjE g !! e) ↔ (a, e) ∈ edges) ∧
  (∀ a, a ∈ nodesA g ↔ ∃ e, (a, e) ∈ edges) ∧
  (∀ e, e ∈ nodesE g ↔ ∃ a, (a, e) ∈ edges).

Definition edges_of (matches : list MatchRow) : list (Z * Z) :=
  (λ r, (m_api_row_id r, m_erp_row_id r)) <$> matches.

(** The cents of API node [a]: the [api_cents] of the row of [A0] whose
    [api_row_id] is [a] (of the last such row, should the frame repeat the
    id), and 0 when no row of [A0] has that id. *)
Definition api_cents_of (A0 : list ApiRow) (a : Z) : Z :=
  default 0 (api_cents <$> last (filter (λ r, api_row_id r = a) A0)).

(** The cents of ERP node [e], read off the rows of [E0] in the same way. *)
Definition erp_cents_of (E0 : list ErpRow) (e : Z) : Z :=
  default 0 (erp_cents <$> last (filter (λ r, erp_row_id r = e) E0)).

(** [KA] and [KE] are the API and ERP nodes of the connected component of
    API node [a]. *)
Definition component_of (edges : list (Z * Z)) (a : Z) (KA KE : gset Z) : Prop :=
  (∀ x, x ∈ KA ↔ connected edges (SideA, a) (SideA, x)) ∧
  (∀ y, y ∈ KE ↔ connected edges (SideA, a) (SideE, y)).

(** S_A(K) = S_E(K): the [api_cents] of the rows of the API nodes of the
    component and the [erp_cents] of the rows of its ERP nodes add up to
    the same number of cents. *)
Definition balanced (A0 : list ApiRow) (E0 : list ErpRow) (KA KE : gset Z) : Prop :=
  zsum (api_cents_of A0) (elements KA) = zsum (erp_cents_of E0) (elements KE).

(** *** Notions used to reason about the search *)

(** Nodes pushed when [x] is labelled. *)
Definition nbrs (enum : gset Z → list Z) (g : graph) (lab : labels) (x : node)
  : list node :=
  match x.1 with
  | SideA => pushes enum SideE (adjA g) (comp_id_of_E lab) x.2
  | SideE => pushes enum SideA (adjE g) (comp_id_of_A lab) x.2
  end.

Definition all_nodes (enum : gset Z → list Z) (g : graph) : list node :=
  ((λ a, (SideA, a)) <$> enum (nodesA g)) ++ ((λ e, (SideE, e)) <$> enum (nodesE g)).

(** Queue operations a node can cause: its own pop and one per neighbour. *)
Definition node_weight (enum : gset Z → list Z) (g : graph) (x : node) : nat :=
  S (length (enum (default ∅ (match x.1 with SideA => adjA g | SideE => adjE g end !! x.2)))).

Definition unlabelled_weight (enum : gset Z → list Z) (g : graph) (N : list node)
    (lab : labels) : nat :=
  sum_list_with (node_weight enum g) (filter (λ n, lab_of lab n = None) N).

(** [lab'] keeps every label of [lab]. *)
Definition lab_le (lab lab' : labels) : Prop :=
  ∀ x c, lab_of lab x = Some c → lab_of lab' x = Some c.

(** Between two searches: labels are constant along edges, equal labels
    mean connected nodes, and all labels are below the next component id. *)
Record closed (edges : list (Z * Z)) (bound : Z) (lab : labels) : Prop := mkClosed {
  cl_adj : ∀ x y c, adjacent edges x y → lab_of lab x = Some c → lab_of lab y = Some c;
  cl_conn : ∀ x y c, lab_of lab x = Some c → lab_of lab y = Some c → connected edges x y;
  cl_bound : ∀ x c, lab_of lab x = Some c → c < bound;
}.

(** During the search of component [cid] started at [start]. *)
Record searching (enum : gset Z → list Z) (edges : list (Z * Z)) (g : graph)
    (cid : Z) (start : node) (q : list node) (lab : labels) : Prop := mkSearching {
  se_old : ∀ x y c, adjacent edges x y → lab_of lab x = Some c → c ≠ cid →
                    lab_of lab y = Some c;
  se_front : ∀ x y, adjacent edges x y → lab_of lab x = Some cid →
                    lab_of lab y = Some cid ∨ y ∈ q;
  se_lab_conn : ∀ x, lab_of lab x = Some cid → connected edges start x;
  se_q_conn : ∀ y, y ∈ q → connected edges start y;
  se_old_conn : ∀ x y c, lab_of lab x = Some c → lab_of lab y = Some c → c ≠ cid →
                         connected edges x y;
  se_bound : ∀ x c, lab_of lab x = Some c → c ≤ cid;
  se_nodes : ∀ y, y ∈ q → y ∈ all_nodes enum g;
}.

(** The nodes carrying label [cid]. *)
Definition members (comp : gmap Z Z) (cid : Z) : list Z :=
  (filter (λ nc, nc.2 = cid) (map_to_list comp)).*1.

(** *** The cascade *)

(** The six exact-cent stages (M0_TAX, M0_BANKFEES, M0_RENT, M1_SAME_DAY,
    M2_KSUM, 07_FALLBACK). *)
Definition exact_stages : list string :=
  [ "M0_TAX_DMINUS1_RN_1TO1"; "M0_BANKFEES_DMINUS1_RN_1TO1"; "M0_RENT_DMINUS1_RN_1TO1";
    "M1_SAME_DAY_RN"; "M2_KSUM_SAME_DAY"; "07_FALLBACK_BALANCE_DAY" ].

(** Every edge emitted so far, tagged with its stage. *)
Definition emitted (w : work) : list MatchRow := mjoin (matches_parts w).

(** The pair joins a row of [A] and a row of [E] that agree on
    [tenant_id], [bank_code] and [acc_tail]. *)
Definition same_account_edge (A : list ApiRow) (E : list ErpRow) (p : Z * Z) : Prop :=
  ∃ a e, a ∈ A ∧ e ∈ E ∧ api_row_id a = p.1 ∧ erp_row_id e = p.2 ∧
         a_tenant_id a = e_tenant_id e ∧ a_bank_code a = e_bank_code e ∧
         api_acc_tail a = erp_acc_tail e.

(** What holds of the working set between two stages: every matched row has
    left both working sets; no row id is shared by edges of two different
    exact-cent stages; the working sets are part of the loaded rows and
    every exact-cent edge joins rows of one account. *)
Record cascade_inv (A0 : list ApiRow) (E0 : list ErpRow) (w : work) : Prop := mkCascadeInv {
  ci_out : ∀ r, r ∈ emitted w →
             (m_api_row_id r ∉ api_row_id <$> w_A w) ∧
             (m_erp_row_id r ∉ erp_row_id <$> w_E w);
  ci_excl : ∀ r1 r2, r1 ∈ emitted w → r2 ∈ emitted w →
              m_stage r1 ∈ exact_stages → m_stage r2 ∈ exact_stages →
              m_stage r1 ≠ m_stage r2 →
              m_api_row_id r1 ≠ m_api_row_id r2 ∧ m_erp_row_id r1 ≠ m_erp_row_id r2;
  ci_A : w_A w ⊆ A0;
  ci_E : w_E w ⊆ E0;
  ci_acc : ∀ r, r ∈ emitted w → m_stage r ∈ exact_stages →
             same_account_edge A0 E0 (m_api_row_id r, m_erp_row_id r);
}.

(** The stages of [transform] as a list, in execution order, and the
    working set after the first [n] of them. *)
Definition cascade (desc_edges_by_type : list (string * list (Z * Z)))
  : list (work → work) :=
  [stage_m0_tax; stage_m0_bankfees; stage_m0_rent]
  ++ ((λ mt w, stage_desc desc_edges_by_type w mt) <$> DESC_STAGE_ORDER)
  ++ [stage_m1; stage_m2; stage_fallback].

Definition run_prefix (n : nat) (A0 : list ApiRow) (E0 : list ErpRow)
    (desc_edges_by_type : list (string * list (Z * Z))) : work :=
  foldl (λ w f, f w) (mkWork A0 E0 []) (take n (cascade desc_edges_by_type)).

(** *** The description stages *)

(** Two lists of transactions that differ in their [matched] flags only. *)
Definition same_static (T T' : list Tx) : Prop :=
  ∀ j, set_matched <$> T' !! j = set_matched <$> T !! j.

(** The account test of stages 02 and 03 lets the pair through: the two
    normalised account numbers are equal, or one of them is empty. *)
Definition acc_compatible (x y : Tx) : Prop :=
  tx_acc_norm x = "" ∨ tx_acc_norm y = "" ∨ tx_acc_norm x = tx_acc_norm y.

(** A match [(anchor, group)] of stage 02 or 03. *)
Definition anchored_ok (T : list Tx) (m : nat * list nat) : Prop :=
  ∀ anchor j tx, T !! m.1 = Some anchor → j ∈ m.2 → T !! j = Some tx →
    tx_tenant_id tx = tx_tenant_id anchor ∧
    tx_bank_code tx = tx_bank_code anchor ∧
    acc_compatible anchor tx.

(** A match [(erp_idxs, api_idxs)] of stage 01: one cluster. *)
Definition uniform_ok (T : list Tx) (m : list nat * list nat) : Prop :=
  ∀ i j x y, i ∈ m.1 ++ m.2 → j ∈ m.1 ++ m.2 → T !! i = Some x → T !! j = Some y →
    tx_tenant_id x = tx_tenant_id y ∧
    tx_bank_code x = tx_bank_code y ∧
    tx_acc_norm x = tx_acc_norm y.

(** The stages whose account test treats a missing account number as a
    wildcard. *)
Definition account_wildcard_stages : list string :=
  [ "02_DESC_FULL_1N"; "03_DESC_KSUM_1N"; "03_DESC_KSUM_N1" ].

Definition desc_pair_ok (stage : string) (ta te : Tx) : Prop :=
  tx_tenant_id ta = tx_tenant_id te ∧
  tx_bank_code ta = tx_bank_code te ∧
  (tx_acc_norm ta = tx_acc_norm te ∨
   (stage ∈ account_wildcard_stages ∧ (tx_acc_norm ta = "" ∨ tx_acc_norm te = ""))).

Definition group_ok (T : list Tx) (g : desc_group) : Prop :=
  ∀ i j ta te, i ∈ g.2 → j ∈ g.1.2 → T !! i = Some ta → T !! j = Some te →
    tx_side ta = SideA → tx_side te = SideE → desc_pair_ok g.1.1 ta te.

(** The edge joins a loaded API row and a loaded ERP row of one tenant and
    one bank code whose account tails are equal, or, for the stages with
    the wildcard, one of the two tails is empty. *)
Definition edge_within_account (A : list ApiRow) (E : list ErpRow)
    (stage : string) (p : Z * Z) : Prop :=
  ∃ a e, a ∈ A ∧ e ∈ E ∧ api_row_id a = p.1 ∧ erp_row_id e = p.2 ∧
         a_tenant_id a = e_tenant_id e ∧ a_bank_code a = e_bank_code e ∧
         (api_acc_tail a = erp_acc_tail e ∨
          (stage ∈ account_wildcard_stages ∧
           (api_acc_tail a = "" ∨ erp_acc_tail e = ""))).

(** Every position filed under a cluster key holds a transaction of the
    tenant, bank code and account number of the key. *)
Definition clusters_ok (T : list Tx)
    (clusters : list (sig_key * (list nat * list nat))) : Prop :=
  ∀ key sides i, (key, sides) ∈ clusters → i ∈ sides.1 ++ sides.2 →
    ∃ tx, T !! i = Some tx ∧
          (tx_tenant_id tx, tx_bank_code tx, tx_acc_norm tx) = key.1.1.1.

(** *** The DP tables *)

(** Sum of the absolute cents of a collection of items. *)
Definition abs_sum (l : list item) : nat :=
  sum_list_with (λ it : item, Z.to_nat (Z.abs it.2)) l.

(** Some sub-collection of [P] has absolute cents [s] and ids [ids]. *)
Definition reach (P : list item) (s : nat) (ids : list Z) : Prop :=
  ∃ sub, sub `sublist_of` P ∧ sub.*1 = ids ∧ abs_sum sub = s.

(** The tables after the items [P]: [dp[s]] says whether [s] is reachable
    and [used[s]] lists the ids of one way to reach it. *)
Definition dp_ok (T : nat) (P : list item) (st : dp_state) : Prop :=
  length st.1 = S T ∧ length st.2 = S T ∧
  ∀ s, (s ≤ T)%nat →
    (st.1 !! s = Some true → reach P s (default [] (st.2 !! s))) ∧
    ((∃ ids, reach P s ids) → st.1 !! s = Some true).

(** The connected component of API node [a] balances in cents. *)
Definition component_balanced (edges : list (Z * Z)) (A0 : list ApiRow)
    (E0 : list ErpRow) (a : Z) : Prop :=
  ∃ KA KE, component_of edges a KA KE ∧ balanced A0 E0 KA KE.

(** Sum of [f] over the rows of a frame. *)
Definition zsum_with {A} (f : A → Z) (l : list A) : Z := foldr (λ x s, f x + s) 0 l.

(** The (stage, prio, ddiff) tags that [transform] attaches to its edges. *)
Definition stage_tags : list (string * Z * Z) :=
  [ ("M0_TAX_DMINUS1_RN_1TO1", 5, 1);
    ("M0_BANKFEES_DMINUS1_RN_1TO1", 6, 1);
    ("M0_RENT_DMINUS1_RN_1TO1", 7, 1);
    ("01_DESC_MN_SIGNATURE", 9, 0);
    ("02_DESC_FULL_1N", 9, 0);
    ("03_DESC_KSUM_1N", 9, 0);
    ("03_DESC_KSUM_N1", 9, 0);
    ("M1_SAME_DAY_RN", 10, 0);
    ("M2_KSUM_SAME_DAY", 20, 0);
    ("07_FALLBACK_BALANCE_DAY", 30, 0) ].

(** *** Description stage 03 *)

(** Absolute amount of the candidate at position [i] of the sorted list. *)
Definition cand_amount (cands : list (nat * Tx)) (i : nat) : decimal :=
  match cands !! i with
  | Some c => dabs (tx_amount c.2)
  | None => dzero
  end.

(** A match [(anchor, group)] of stage 02 or 03 balances within [eps]. *)
Definition anchored_bal (T : list Tx) (eps : decimal) (m : nat * list nat) : Prop :=
  Qcanon.Qcle
    (dabs (Qcanon.Qcminus (dsum (abs_amount_at T <$> m.2)) (abs_amount_at T m.1))) eps.

(** A match [(erp_idxs, api_idxs)] of stage 01 balances within [eps]. *)
Definition uniform_bal (T : list Tx) (eps : decimal) (m : list nat * list nat) : Prop :=
  Qcanon.Qcle
    (dabs (Qcanon.Qcminus (dsum (abs_amount_at T <$> m.2))
                          (dsum (abs_amount_at T <$> m.1)))) eps.

(** The absolute amounts of the ERP side and of the API side of a group
    differ by at most [eps]. *)
Definition group_bal (T : list Tx) (eps : decimal) (g : desc_group) : Prop :=
  Qcanon.Qcle
    (dabs (Qcanon.Qcminus (dsum (abs_amount_at T <$> g.1.2))
                          (dsum (abs_amount_at T <$> g.2)))) eps.

(** The link [p] belongs to a star around its ERP row: the cents of the
    API rows linked to that ERP row add up to the cents of the ERP row,
    and the API row of [p] has no other link. *)
Definition star_of_erp (apis erps : list item) (links : list (Z * Z)) (p : Z * Z) : Prop :=
  (∃ c, (p.2, c) ∈ erps ∧
        sum_cents (filter (λ it, (it.1, p.2) ∈ links) apis) = c) ∧
  ∀ q, q ∈ links → q.1 = p.1 → q.2 = p.2.

(** The link [p] belongs to a star around its API row. *)
Definition star_of_api (apis erps : list item) (links : list (Z * Z)) (p : Z * Z) : Prop :=
  (∃ c, (p.1, c) ∈ apis ∧
        sum_cents (filter (λ it, (p.1, it.1) ∈ links) erps) = c) ∧
  ∀ q, q ∈ links → q.2 = p.2 → q.1 = p.1.

(** All links of the two passes. *)
Definition links_of (st : ksum_state) : list (Z * Z) := links_erp st ++ links_api st.

(** Invariant of the two passes of [solve_same_group]: the links join
    known rows, every linked row is marked as used, and every link belongs
    to a balanced star. *)
Record stars_inv (apis erps : list item) (st : ksum_state) : Prop := {
  si_ids : ∀ p, p ∈ links_of st → p.1 ∈ apis.*1 ∧ p.2 ∈ erps.*1;
  si_used : ∀ p, p ∈ links_of st → p.1 ∈ used_api st ∧ p.2 ∈ used_erp st;
  si_star : ∀ p, p ∈ links_of st →
              star_of_erp apis erps (links_of st) p ∨ star_of_api apis erps (links_of st) p;
}.

(** A same-day group with two API rows and one ERP row. *)
Definition demo_same_group : list KRow :=
  [ mkKRow (Some 1) None "t" "237" "7242" 739474 1 500 SideA;
    mkKRow (Some 2) None "t" "237" "7242" 739474 1 300 SideA;
    mkKRow None (Some 7) "t" "237" "7242" 739474 1 800 SideE ].

(** The transactions of a group, ERP side first. *)
Definition group_members (g : desc_group) : list nat := g.1.2 ++ g.2.

(** [txs[i].matched] *)
Definition is_matched (T : list Tx) (i : nat) : bool :=
  match T !! i with Some tx => tx_matched tx | None => false end.

Definition side_at (T : list Tx) (i : nat) : option side := tx_side <$> T !! i.

(** The ERP positions hold ERP transactions and the API positions API
    transactions. *)
Definition sides_ok (T : list Tx) (erp_idxs api_idxs : list nat) : Prop :=
  (∀ j, j ∈ erp_idxs → side_at T j = Some SideE) ∧
  (∀ i, i ∈ api_idxs → side_at T i = Some SideA).

(** The clusters of stage 01 while the transactions are enumerated: no
    position is listed twice in a cluster, none of the positions still to
    come ([rest]) is listed, and the two lists hold the API and the ERP
    transactions. *)
Definition cluster_wf (T : list Tx) (rest : list nat)
    (cl : list (sig_key * (list nat * list nat))) : Prop :=
  ∀ key sides, (key, sides) ∈ cl →
    NoDup (sides.1 ++ sides.2) ∧ (∀ i, i ∈ sides.1 ++ sides.2 → i ∉ rest) ∧
    sides_ok T sides.2 sides.1.

(** The stages that pair rows one to one by row number. *)
Definition rn_stages : list string :=
  [ "M0_TAX_DMINUS1_RN_1TO1"; "M0_BANKFEES_DMINUS1_RN_1TO1"; "M0_RENT_DMINUS1_RN_1TO1";
    "M1_SAME_DAY_RN" ].

(** The pair joins a row of [A] and a row of [E] of one tenant, bank
    code, account tail, date and sign; for a row-number stage the two
    rows also have the same cents. *)
Definition same_day_edge (A : list ApiRow) (E : list ErpRow) (stage : string)
    (p : Z * Z) : Prop :=
  ∃ a e, a ∈ A ∧ e ∈ E ∧ api_row_id a = p.1 ∧ erp_row_id e = p.2 ∧
         a_tenant_id a = e_tenant_id e ∧ a_bank_code a = e_bank_code e ∧
         api_acc_tail a = erp_acc_tail e ∧
         api_date a = erp_date e ∧ api_sign a = erp_sign e ∧
         (stage ∈ rn_stages → api_cents a = erp_cents e).

(** Every position filed under a cluster key holds a transaction of the
    work date and sign of the key. *)
Definition clusters_dates (T : list Tx)
    (clusters : list (sig_key * (list nat * list nat))) : Prop :=
  ∀ key sides i, (key, sides) ∈ clusters → i ∈ sides.1 ++ sides.2 →
    ∃ tx, T !! i = Some tx ∧ (tx_work_date tx, tx_sign tx) = (key.1.1.2, key.1.2).

(** A match [(anchor, group)] of stage 02 or 03: every transaction of the
    group has the sign of the anchor and an allowed work date. *)
Definition anchored_dates (allowed : date → date → Prop) (T : list Tx)
    (m : nat * list nat) : Prop :=
  ∀ anchor j tx, T !! m.1 = Some anchor → j ∈ m.2 → T !! j = Some tx →
    tx_sign tx = tx_sign anchor ∧ allowed (tx_work_date anchor) (tx_work_date tx).

(** A match [(erp_idxs, api_idxs)] of stage 01: one sign, one work date. *)
Definition uniform_dates (T : list Tx) (m : list nat * list nat) : Prop :=
  ∀ i j x y, i ∈ m.1 ++ m.2 → j ∈ m.1 ++ m.2 → T !! i = Some x → T !! j = Some y →
    tx_sign x = tx_sign y ∧ tx_work_date x = tx_work_date y.

(** The API and the ERP transactions of a group have the same sign; the
    ERP work dates are among the candidate dates of the API anchor for
    stage 02 and equal to the API work date for the other stages. *)
Definition group_dates (T : list Tx) (g : desc_group) : Prop :=
  ∀ i j ta te, i ∈ g.2 → j ∈ g.1.2 → T !! i = Some ta → T !! j = Some te →
    tx_sign ta = tx_sign te ∧
    if bool_decide (g.1.1 = "02_DESC_FULL_1N")
    then tx_work_date te ∈ candidate_dates (tx_work_date ta)
    else tx_work_date te = tx_work_date ta.

(** ** The matched API total of the daily table *)

(** Amounts are kept in cents: [api_amount] is [api_cents / 100] and
    [api_amt_abs] its absolute value, so the Float64 columns of this part
    of [transform] are read as whole numbers of cents. *)

Section MatchedAbs.

(** [((erp_amt_abs / sum_erp_abs) * api_amt_abs).round(2)] as a function
    of [erp_amt_abs], [sum_erp_abs] and [api_amt_abs]: the Float64
    division, product and rounding are polars kernels, taken as given. *)
Variable contrib_kernel : Z → Z → Z → Z.







End MatchedAbs.



(** * Facts about the subset-sum engine *)

Lemma zrange_from_elem start len x :
  x ∈ zrange_from start len ↔ start ≤ x < start + Z.of_nat len.
Proof.
  revert start. induction len as [|len IH]; intros start; simpl.
  - rewrite elem_of_nil. lia.
  - rewrite elem_of_cons, IH. lia.
Qed.

Lemma masks_elem L mask : mask ∈ masks L ↔ 0 ≤ mask < 2 ^ Z.of_nat (length L).
Proof.
  unfold masks. rewrite zrange_from_elem, Z.shiftl_1_l.
  assert (0 < 2 ^ Z.of_nat (length L)) by (apply Z.pow_pos_nonneg; lia).
  rewrite Z2Nat.id by lia. lia.
Qed.

Lemma mask_bit_testbit mask i : mask_bit mask i = Z.testbit mask (Z.of_nat i).
Proof.
  unfold mask_bit.
  rewrite <- (Z.add_0_l (Z.of_nat i)), <- Z.shiftr_spec by lia.
  rewrite Z.bit0_odd.
  change 1 with (Z.ones 1). rewrite Z.land_ones by lia.
  change (2 ^ 1) with 2. rewrite Zmod_odd.
  by destruct (Z.odd _).
Qed.

Lemma mask_bit_succ mask i : mask_bit mask (S i) = mask_bit (mask / 2) i.
Proof.
  rewrite !mask_bit_testbit, Nat2Z.inj_succ.
  by rewrite Z.div2_bits by lia.
Qed.

Lemma mask_pick_succ i L mask : mask_pick (S i) L mask = mask_pick i L (mask / 2).
Proof.
  revert i. induction L as [|x L IH]; intros i; simpl; [done|].
  by rewrite mask_bit_succ, !IH.
Qed.

Lemma mask_pick_sublist i L mask : mask_pick i L mask `sublist_of` L.
Proof.
  revert i. induction L as [|x L IH]; intros i; simpl; [constructor|].
  destruct (mask_bit mask i); by constructor.
Qed.

Lemma sum_cents_app l1 l2 : sum_cents (l1 ++ l2) = sum_cents l1 + sum_cents l2.
Proof. unfold sum_cents. induction l1 as [|x l1 IH]; simpl; lia. Qed.

Lemma foldl_mask_step mask suf pre acc :
  foldl (mask_step (pre ++ suf) mask) acc (seq (length pre) (length suf))
  = (acc.1 + sum_cents (mask_pick (length pre) suf mask),
     acc.2 ++ (mask_pick (length pre) suf mask).*1).
Proof.
  revert pre acc. induction suf as [|x suf IH]; intros pre acc; simpl.
  - rewrite Z.add_0_r, app_nil_r. by destruct acc.
  - replace (pre ++ x :: suf) with ((pre ++ [x]) ++ suf) by by rewrite <- app_assoc.
    replace (S (length pre)) with (length (pre ++ [x]))
      by (rewrite length_app; simpl; lia).
    rewrite IH. unfold mask_step at 1 2.
    rewrite <- app_assoc. simpl.
    rewrite list_lookup_middle by done.
    destruct (mask_bit mask (length pre)); destruct x as [tid c]; simpl.
    + f_equal; [unfold sum_cents; simpl; lia | by rewrite <- app_assoc].
    + done.
Qed.

Lemma mask_subset_pick L mask :
  mask_subset L mask = (sum_cents (mask_pick 0 L mask), (mask_pick 0 L mask).*1).
Proof.
  unfold mask_subset. pose proof (foldl_mask_step mask L [] (0, [])) as H.
  simpl in H. by rewrite H.
Qed.

(** Every sub-collection of [L] is selected by some mask below [2^len(L)]. *)
Lemma sublist_has_mask (sub L : list item) :
  sub `sublist_of` L → ∃ mask, mask ∈ masks L ∧ mask_pick 0 L mask = sub.
Proof.
  setoid_rewrite masks_elem.
  induction 1 as [|x l1 l2 _ (m & Hm & IH)|x l1 l2 _ (m & Hm & IH)].
  - exists 0. simpl. split; [lia|done].
  - exists (2 * m + 1). split.
    + simpl length. rewrite Nat2Z.inj_succ, Z.pow_succ_r by lia. lia.
    + simpl. rewrite mask_bit_testbit. simpl Z.of_nat. rewrite Z.testbit_odd_0.
      rewrite mask_pick_succ.
      replace ((2 * m + 1) / 2) with m by (apply Z.div_unique with 1; lia).
      by rewrite IH.
  - exists (2 * m). split.
    + simpl length. rewrite Nat2Z.inj_succ, Z.pow_succ_r by lia. lia.
    + simpl. rewrite mask_bit_testbit. simpl Z.of_nat. rewrite Z.testbit_even_0.
      rewrite mask_pick_succ.
      replace (2 * m / 2) with m by (apply Z.div_unique with 0; lia).
      done.
Qed.

(** What the table [best] holds after the RIGHT loop. *)
Lemma best_fold_sound R ms best0 s ids :
  foldl (best_step R) best0 ms !! s = Some ids →
  best0 !! s = Some ids ∨ ∃ mask, mask ∈ ms ∧ mask_subset R mask = (s, ids).
Proof.
  revert best0. induction ms as [|mask ms IH]; intros best0 H; simpl in *; [by left|].
  destruct (IH _ H) as [H0|(m & Hm & Hs)].
  - unfold best_step in H0. destruct (mask_subset R mask) as [s' ids'] eqn:E.
    assert (<[s':=ids']> best0 !! s = Some ids →
            best0 !! s = Some ids ∨ ∃ mask0, mask0 ∈ mask :: ms ∧ mask_subset R mask0 = (s, ids)).
    { intros Hi. destruct (decide (s' = s)) as [->|].
      - rewrite lookup_insert_eq in Hi. injection Hi as ->. right. exists mask.
        split; [left|done].
      - rewrite lookup_insert_ne in Hi by done. by left. }
    destruct (best0 !! s') as [prev|] eqn:Eb; [case_bool_decide|]; auto.
  - right. exists m. split; [by right|done].
Qed.

Lemma best_step_keeps R best mask s :
  is_Some (best !! s) → is_Some (best_step R best mask !! s).
Proof.
  intros Hs. unfold best_step. destruct (mask_subset R mask) as [s' ids'].
  assert (is_Some (<[s':=ids']> best !! s)).
  { destruct (decide (s' = s)) as [->|]; [rewrite lookup_insert_eq|rewrite lookup_insert_ne]; eauto. }
  destruct (best !! s'); [case_bool_decide|]; done.
Qed.

Lemma best_step_adds R best mask :
  is_Some (best_step R best mask !! (mask_subset R mask).1).
Proof.
  unfold best_step. destruct (mask_subset R mask) as [s' ids'] eqn:E. simpl.
  destruct (best !! s') eqn:Eb; [case_bool_decide|];
    rewrite ?lookup_insert_eq, ?Eb; eauto.
Qed.

Lemma best_fold_keeps R ms best0 s :
  is_Some (best0 !! s) → is_Some (foldl (best_step R) best0 ms !! s).
Proof.
  revert best0. induction ms as [|mask ms IH]; intros best0 H; simpl; [done|].
  by apply IH, best_step_keeps.
Qed.

Lemma best_fold_complete R ms best0 mask :
  mask ∈ ms → is_Some (foldl (best_step R) best0 ms !! (mask_subset R mask).1).
Proof.
  revert best0. induction ms as [|m ms IH]; intros best0 Hin; [by apply elem_of_nil in Hin|].
  apply elem_of_cons in Hin as [->|Hin]; simpl.
  - apply best_fold_keeps, best_step_adds.
  - by apply IH.
Qed.

Lemma mitm_scan_sound t best left ids :
  mitm_scan t best left = Some ids →
  ∃ s ids1 ids2, (s, ids1) ∈ left ∧ best !! (t - s) = Some ids2 ∧ ids = ids1 ++ ids2.
Proof.
  induction left as [|[s ids1] rest IH]; simpl; [done|].
  destruct (best !! (t - s)) as [ids2|] eqn:E.
  - intros [= <-]. exists s, ids1, ids2. split; [left|done].
  - intros H. destruct (IH H) as (s' & i1 & i2 & Hin & Hb & ->).
    exists s', i1, i2. split; [by right|done].
Qed.

Lemma mitm_scan_complete t best left s ids1 :
  (s, ids1) ∈ left → is_Some (best !! (t - s)) → is_Some (mitm_scan t best left).
Proof.
  induction left as [|[s' i1] rest IH]; intros Hin Hb; [by apply elem_of_nil in Hin|].
  simpl. destruct (best !! (t - s')) eqn:E; [eauto|].
  apply elem_of_cons in Hin as [[= -> ->]|Hin]; [rewrite E in Hb; by destruct Hb|auto].
Qed.

Lemma budget_loop_S fuel n :
  budget_loop (S fuel) n =
  if bool_decide (MITM_STATE_BUDGET < Z.shiftl 1 (Z.of_nat (n / 2)))
     && bool_decide (2 < n)%nat
  then budget_loop fuel (n - 2) else n.
Proof. done. Qed.

Lemma budget_loop_le fuel n : (budget_loop fuel n ≤ n)%nat.
Proof.
  revert n. induction fuel as [|fuel IH]; intros n; [simpl; lia|].
  rewrite budget_loop_S.
  destruct (_ && _); [|lia]. specialize (IH (n - 2)%nat). lia.
Qed.

Lemma budget_loop_pos fuel n : (1 ≤ n)%nat → (1 ≤ budget_loop fuel n)%nat.
Proof.
  revert n. induction fuel as [|fuel IH]; intros n Hn; [simpl; lia|].
  rewrite budget_loop_S.
  destruct (bool_decide (MITM_STATE_BUDGET < _)); simpl; [|lia].
  case_bool_decide; [|lia]. apply IH. lia.
Qed.

(** The loop exits because its condition fails, never for lack of fuel. *)
Lemma budget_loop_exit n :
  let k := budget_loop n n in
  ¬ (MITM_STATE_BUDGET < Z.shiftl 1 (Z.of_nat (k / 2)) ∧ (2 < k)%nat).
Proof.
  assert (∀ fuel m, (m ≤ fuel)%nat →
    ¬ (MITM_STATE_BUDGET < Z.shiftl 1 (Z.of_nat (budget_loop fuel m / 2))
       ∧ (2 < budget_loop fuel m)%nat)) as H.
  { induction fuel as [|fuel IH]; intros m Hm.
    - cbn [budget_loop]. lia.
    - rewrite budget_loop_S.
      destruct (decide (MITM_STATE_BUDGET < Z.shiftl 1 (Z.of_nat (m / 2)))) as [E1|E1];
        [rewrite (bool_decide_eq_true_2 _ E1)|rewrite (bool_decide_eq_false_2 _ E1)];
        cbn [andb]; [|tauto].
      destruct (decide (2 < m)%nat) as [E2|E2];
        [rewrite (bool_decide_eq_true_2 _ E2)|rewrite (bool_decide_eq_false_2 _ E2)];
        [apply IH; lia|lia]. }
  intros k. by apply H.
Qed.

Lemma enforce_mitm_budget_sublist items : enforce_mitm_budget items `sublist_of` items.
Proof.
  unfold enforce_mitm_budget. case_bool_decide; [done|apply sublist_take].
Qed.

Lemma enforce_mitm_budget_nonempty items :
  items ≠ [] → enforce_mitm_budget items ≠ [].
Proof.
  intros Hne. unfold enforce_mitm_budget. case_bool_decide; [done|].
  intros E. apply (f_equal length) in E. rewrite length_take in E. simpl in E.
  pose proof (budget_loop_pos (length items) (length items)). lia.
Qed.

(** MITM soundness: an answer lists the ids of a sub-collection of the
    budget-truncated items whose cents sum to the target. *)
Lemma subset_mitm_sound t items ids :
  subset_mitm t items = Some ids →
  ∃ sub, sub `sublist_of` enforce_mitm_budget items ∧ ids = sub.*1 ∧ sum_cents sub = t.
Proof.
  unfold subset_mitm. destruct items as [|it0 items0]; [done|].
  set (its := enforce_mitm_budget (it0 :: items0)).
  case_bool_decide; [done|]. generalize (length its / 2)%nat. intros k Hscan.
  apply mitm_scan_sound in Hscan as (s & ids1 & ids2 & Hl & Hb & ->).
  apply list_elem_of_fmap in Hl as (m1 & E1 & _).
  apply best_fold_sound in Hb as [Hb|(m2 & _ & E2)]; [by rewrite lookup_empty in Hb|].
  rewrite mask_subset_pick in E1, E2. injection E1 as -> ->. injection E2 as E2 <-.
  exists (mask_pick 0 (take k its) m1 ++ mask_pick 0 (drop k its) m2).
  split; [|split].
  - pose proof (sublist_app _ _ _ _ (mask_pick_sublist 0 (take k its) m1)
                  (mask_pick_sublist 0 (drop k its) m2)) as Hs.
    by rewrite take_drop in Hs.
  - by rewrite fmap_app.
  - rewrite sum_cents_app. lia.
Qed.

(** MITM completeness over the budget-truncated items. *)
Lemma subset_mitm_complete t items sub :
  items ≠ [] → sub `sublist_of` enforce_mitm_budget items → sum_cents sub = t →
  is_Some (subset_mitm t items).
Proof.
  intros Hne Hsub Hsum. unfold subset_mitm.
  pose proof (enforce_mitm_budget_nonempty _ Hne) as Hne'.
  destruct items as [|it0 items0]; [done|].
  set (its := enforce_mitm_budget (it0 :: items0)) in *.
  case_bool_decide as Hn; [by apply length_zero_iff_nil in Hn|].
  generalize (length its / 2)%nat. intros k.
  rewrite <- (take_drop k its) in Hsub.
  apply sublist_app_r in Hsub as (l1 & l2 & -> & H1 & H2).
  apply sublist_has_mask in H1 as (m1 & Hm1 & E1).
  apply sublist_has_mask in H2 as (m2 & Hm2 & E2).
  eapply (mitm_scan_complete _ _ _ (sum_cents l1) (l1.*1)).
  - apply list_elem_of_fmap. exists m1. split; [|done].
    by rewrite mask_subset_pick, E1.
  - pose proof (best_fold_complete (drop k its) _ ∅ m2 Hm2) as Hb.
    rewrite mask_subset_pick, E2 in Hb. simpl in Hb.
    rewrite sum_cents_app in Hsum.
    by replace (t - sum_cents l1) with (sum_cents l2) by lia.
Qed.

Lemma subset_mitm_none t items :
  items ≠ [] → subset_mitm t items = None →
  ∀ sub, sub `sublist_of` enforce_mitm_budget items → sum_cents sub ≠ t.
Proof.
  intros Hne Hnone sub Hsub Hsum.
  destruct (subset_mitm_complete t items sub Hne Hsub Hsum) as [x Hx]. congruence.
Qed.

(** * DP fallback, post-verification and capping *)

(** C9. After a MITM miss, the DP fallback answers "no solution" ([None],
    an ordinary value) whenever |target| > DP_MAX_TARGET_CENTS (200000) or
    the number of items exceeds DP_MAX_ITEMS_DP (24). *)
Theorem subset_dp_guard_none target items :
  subset_mitm target items = None →
  DP_MAX_TARGET_CENTS < Z.abs target ∨ (DP_MAX_ITEMS_DP < length items)%nat →
  subset_dp target items = None.
Proof.
  intros Hmiss Hguard. unfold subset_dp. case_bool_decide as Ht.
  - exfalso. subst target. destruct items as [|it items].
    + unfold DP_MAX_TARGET_CENTS, DP_MAX_ITEMS_DP in Hguard. simpl in Hguard. lia.
    + destruct (subset_mitm_complete 0 (it :: items) []) as [x Hx];
        [done|apply sublist_nil_l|done|congruence].
  - destruct Hguard as [Hg|Hg].
    + by rewrite (bool_decide_eq_true_2 _ Hg).
    + rewrite (bool_decide_eq_true_2 (DP_MAX_ITEMS_DP < length items)%nat Hg).
      by rewrite orb_true_r.
Qed.

Lemma subset_dp_guard_none_witness : subset_dp 200001 [(1, 5)] = None.
Proof.
  apply subset_dp_guard_none.
  - vm_compute. reflexivity.
  - left. unfold DP_MAX_TARGET_CENTS. simpl. lia.
Defined.

(** The ids stored in [used] are ids of items. *)
Lemma dp_inner_within (S : list Z) c tid (st : dp_state) s :
  tid ∈ S → Forall (λ l, l ⊆ S) st.2 → Forall (λ l, l ⊆ S) (dp_inner c tid st s).2.
Proof.
  intros Htid Hst. unfold dp_inner. destruct (default false _); simpl; [|done].
  apply Forall_insert; [done|]. intros x Hx. apply elem_of_app in Hx as [Hx|Hx].
  - destruct (st.2 !! (s - c)%nat) as [l|] eqn:E; simpl in Hx; [|by apply elem_of_nil in Hx].
    by apply (Forall_lookup_1 _ _ _ _ Hst E).
  - by apply list_elem_of_singleton in Hx as ->.
Qed.

Lemma dp_item_within (S : list Z) T (st : dp_state) it :
  it.1 ∈ S → Forall (λ l, l ⊆ S) st.2 → Forall (λ l, l ⊆ S) (dp_item T st it).2.
Proof.
  intros Hit Hst. unfold dp_item. case_bool_decide; [done|].
  generalize (range_desc T (Z.to_nat (Z.abs it.2))). intros r.
  revert st Hst. induction r as [|s r IH]; intros st Hst; simpl; [done|].
  by apply IH, dp_inner_within.
Qed.

Lemma subset_dp_ids target items ids :
  subset_dp target items = Some ids → ids ⊆ items.*1.
Proof.
  unfold subset_dp. case_bool_decide; [intros [= <-]; apply list_subseteq_nil|].
  destruct (_ || _); [done|].
  set (T := Z.to_nat (Z.abs target)).
  assert (∀ l (st : dp_state), l ⊆ items → Forall (λ u, u ⊆ items.*1) st.2 →
            Forall (λ u, u ⊆ items.*1) (foldl (dp_item T) st l).2) as Hfold.
  { induction l as [|it l IH]; intros st Hl Hst; simpl; [done|].
    apply IH; [set_solver|]. apply dp_item_within; [|done].
    apply list_elem_of_fmap. exists it. split; [done|]. apply Hl. left. }
  specialize (Hfold items (<[0%nat:=true]> (replicate (S T) false), replicate (S T) []) (reflexivity _)).
  simpl in Hfold.
  destruct (default false _); [|done]. intros [= <-].
  assert (Forall (λ u : list Z, u ⊆ items.*1) (replicate (S T) [])) as H0.
  { apply Forall_replicate, list_subseteq_nil. }
  specialize (Hfold H0).
  match goal with |- default [] (?u !! T) ⊆ _ => destruct (u !! T) as [l|] eqn:E end; simpl.
  - by apply (Forall_lookup_1 _ _ _ _ Hfold E).
  - apply list_subseteq_nil.
Qed.

(** The post-verification re-sums the entries of the items map whose key
    was returned. *)
Lemma sum_ok_spec d ids t :
  _sum_ok d ids t = true ↔ sum_cents (filter (λ kv, kv.1 ∈ ids) d) = t.
Proof.
  unfold _sum_ok. rewrite bool_decide_eq_true.
  assert (∀ acc, foldl (λ s kv, if bool_decide (kv.1 ∈ (list_to_set ids : gset Z))
                               then s + kv.2 else s) acc d
                 = acc + sum_cents (filter (λ kv, kv.1 ∈ ids) d)) as ->; [|by rewrite Z.add_0_l].
  induction d as [|kv d IH]; intros acc; simpl; [unfold sum_cents; simpl; lia|].
  rewrite IH, filter_cons. case_bool_decide as Hin; rewrite elem_of_list_to_set in Hin.
  - rewrite decide_True by done. unfold sum_cents. simpl. lia.
  - by rewrite decide_False by done.
Qed.

Lemma dict_set_fresh {K V} `{EqDecision K} (d : list (K * V)) k v :
  k ∉ d.*1 → dict_set d k v = d ++ [(k, v)].
Proof.
  induction d as [|[k' v'] d IH]; simpl; [done|]. intros Hk.
  rewrite not_elem_of_cons in Hk. destruct Hk as [Hne Hk].
  rewrite bool_decide_eq_false_2 by done. by rewrite IH.
Qed.


Lemma items_dict_nodup items : NoDup items.*1 → items_dict items = items.
Proof.
  unfold items_dict.
  assert (∀ l acc, NoDup (acc ++ l).*1 →
            foldl (λ d (it : item), dict_set d it.1 it.2) acc l = acc ++ l) as H.
  { induction l as [|[i c] l IH]; intros acc Hnd; simpl; [by rewrite app_nil_r|].
    rewrite dict_set_fresh.
    - rewrite IH; [by rewrite <- app_assoc|]. by rewrite <- app_assoc.
    - rewrite fmap_app in Hnd. apply NoDup_app in Hnd as (_ & Hd & _).
      intros Hin. apply (Hd i Hin). left. }
  intros Hnd. by apply (H items []).
Qed.

Lemma filter_ext_in {A} (P Q : A → Prop) `{∀ x, Decision (P x), ∀ x, Decision (Q x)}
    (l : list A) :
  (∀ x, x ∈ l → P x ↔ Q x) → filter P l = filter Q l.
Proof.
  induction l as [|x l IH]; intros Hpq; [done|].
  rewrite !filter_cons. rewrite IH by (intros y Hy; apply Hpq; by right).
  destruct (decide (P x)) as [Hp|Hp], (decide (Q x)) as [Hq|Hq]; try done;
    exfalso; apply (Hpq x (list_elem_of_here _ _)) in Hp || apply (Hpq x (list_elem_of_here _ _)) in Hq; done.
Qed.

Lemma submseteq_NoDup {A} (l k : list A) : l ⊆+ k → NoDup k → NoDup l.
Proof.
  intros [k' Hk]%submseteq_Permutation Hnd. rewrite Hk in Hnd.
  by apply NoDup_app in Hnd as (? & _ & _).
Qed.

(** With distinct ids, re-summing the ids of a sub-collection gives the
    cents of that sub-collection. *)
Lemma filter_ids_sublist (sub l : list item) :
  NoDup l.*1 → sub `sublist_of` l → filter (λ kv, kv.1 ∈ sub.*1) l = sub.
Proof.
  intros Hnd Hsub. induction Hsub as [|x l1 l2 Hsub IH|x l1 l2 Hsub IH]; [done| |].
  - rewrite fmap_cons in Hnd. apply NoDup_cons in Hnd as [Hx Hnd].
    rewrite filter_cons, decide_True by (simpl; left).
    f_equal. transitivity (filter (λ kv : item, kv.1 ∈ l1.*1) l2); [|by apply IH].
    apply filter_ext_in. intros y Hy.
    rewrite fmap_cons, elem_of_cons. split; [|tauto]. intros [E|?]; [|done].
    exfalso. apply Hx. rewrite <- E. by apply list_elem_of_fmap_2.
  - rewrite fmap_cons in Hnd. apply NoDup_cons in Hnd as [Hx Hnd].
    rewrite filter_cons, decide_False; [by apply IH|].
    intros Hin. apply Hx. apply (fmap_sublist fst) in Hsub.
    by apply (sublist_subseteq _ _ Hsub).
Qed.

(** *** Capping keeps a sub-multiset of the candidates *)

Definition flat (d : list (Z * list Z)) : list item :=
  mjoin ((λ cv, (λ i, (i, cv.1)) <$> cv.2) <$> d).

Lemma dict_append_flat d c i : flat (dict_append d c i) ≡ₚ flat d ++ [(i, c)].
Proof.
  unfold dict_append, flat. induction d as [|[c' l'] d IH]; simpl; [done|].
  case_bool_decide as Hc.
  - subst c'. simpl.
    rewrite fmap_app. simpl. rewrite <- !app_assoc.
    apply Permutation_app_head. apply Permutation_app_comm.
  - destruct (dict_get d c) as [l|] eqn:E; simpl;
      rewrite <- app_assoc; apply Permutation_app_head, IH.
Qed.

Lemma by_val_flat l acc :
  flat (foldl (λ d (ic : Z * Z), dict_append d ic.2 ic.1) acc l) ≡ₚ flat acc ++ l.
Proof.
  revert acc. induction l as [|[i c] l IH]; intros acc; simpl; [by rewrite app_nil_r|].
  rewrite IH, dict_append_flat. by rewrite <- app_assoc.
Qed.

Lemma cap_groups_sublist t_abs d : mjoin (cap_group t_abs <$> d) `sublist_of` flat d.
Proof.
  unfold flat. induction d as [|cv d IH]; simpl; [done|].
  apply sublist_app; [|done]. unfold cap_group. apply fmap_sublist, sublist_take.
Qed.

Lemma insert_desc_perm x l : insert_desc x l ≡ₚ x :: l.
Proof.
  induction l as [|y l IH]; simpl; [done|]. case_bool_decide; [done|].
  rewrite IH. apply Permutation_swap.
Qed.

Lemma sort_abs_desc_perm l : sort_abs_desc l ≡ₚ l.
Proof.
  unfold sort_abs_desc. induction l as [|x l IH]; simpl; [done|].
  by rewrite insert_desc_perm, IH.
Qed.

Lemma cap_items_by_value_submseteq ids cents t :
  cap_items_by_value ids cents t ⊆+ zip ids cents.
Proof.
  unfold cap_items_by_value.
  set (by_val := foldl _ [] _).
  assert (sort_abs_desc (mjoin (cap_group (Z.abs t) <$> by_val)) ⊆+ zip ids cents) as H.
  { rewrite sort_abs_desc_perm.
    transitivity (flat by_val); [apply sublist_submseteq, cap_groups_sublist|].
    unfold by_val. by rewrite by_val_flat. }
  case_bool_decide; [|done].
  etransitivity; [apply sublist_submseteq, sublist_take|done].
Qed.

Lemma capped_items_submseteq t cand : capped_items t cand ⊆+ cand.
Proof.
  unfold capped_items. etransitivity; [apply cap_items_by_value_submseteq|].
  rewrite zip_fst_snd. apply sublist_submseteq, sublist_filter.
Qed.

Lemma capped_items_nodup t cand : NoDup cand.*1 → NoDup (capped_items t cand).*1.
Proof.
  intros Hnd. eapply submseteq_NoDup; [|done].
  apply (fmap_submseteq fst), capped_items_submseteq.
Qed.

(** * The per-target search of the same-day KSUM *)

Lemma sum_cents_nil_iff_sublist (sub : list item) : sub `sublist_of` [] → sum_cents sub = 0.
Proof. by intros ->%sublist_nil_r. Qed.

Lemma capped_items_nil t cand :
  filter (λ it : item, Z.abs it.2 ≤ Z.abs t) cand = [] → capped_items t cand = [].
Proof. unfold capped_items. intros E. cbv zeta. by rewrite E. Qed.

Lemma ksum_target_none_intro t cand :
  subset_mitm t (capped_items t cand) = None →
  subset_dp t (capped_items t cand) = None →
  ksum_target t cand = None.
Proof.
  unfold ksum_target. intros -> ->.
  destruct (filter _ cand); [done|]. by destruct (capped_items t cand).
Qed.

(** C2 (amended). For a non-zero target over candidates with distinct row
    ids: every emitted list of ids names capped items whose exact cents
    re-sum to the target; and when nothing is emitted, no sub-collection of
    the capped items that survive the MITM budget truncation
    ([enforce_mitm_budget]) sums to the target. *)
Theorem ksum_target_sound_budget_complete t cand :
  t ≠ 0 → NoDup cand.*1 →
  (∀ ids, ksum_target t cand = Some ids →
     ids ⊆ (capped_items t cand).*1 ∧
     sum_cents (filter (λ kv, kv.1 ∈ ids) (capped_items t cand)) = t)
  ∧ (ksum_target t cand = None →
     ∀ sub, sub `sublist_of` enforce_mitm_budget (capped_items t cand) →
            sum_cents sub ≠ t).
Proof.
  intros Ht Hnd.
  pose proof (capped_items_nodup t cand Hnd) as Hnd'.
  pose proof (items_dict_nodup _ Hnd') as Hdict.
  split.
  - intros ids. unfold ksum_target.
    destruct (filter _ cand) as [|c0 cs]; [done|].
    set (items := capped_items t cand) in *.
    destruct items as [|i0 is0] eqn:Ei; [done|]. rewrite <- Ei in *. clear Ei.
    destruct (subset_mitm t items) as [sol|] eqn:Em.
    + destruct sol as [|x s]; [done|].
      destruct (_sum_ok _ _ _) eqn:Eok; [|done]. intros [= <-].
      apply sum_ok_spec in Eok. rewrite Hdict in Eok. split; [|done].
      apply subset_mitm_sound in Em as (sub & Hsub & -> & _).
      apply sublist_subseteq, fmap_sublist.
      by etransitivity; [|apply enforce_mitm_budget_sublist].
    + destruct (subset_dp t items) as [sol|] eqn:Ed; [|done].
      destruct sol as [|x s]; [done|].
      destruct (_sum_ok _ _ _) eqn:Eok; [|done]. intros [= <-].
      apply sum_ok_spec in Eok. rewrite Hdict in Eok. split; [|done].
      by apply subset_dp_ids in Ed.
  - intros Hnone sub Hsub Hsum. unfold ksum_target in Hnone.
    destruct (filter _ cand) as [|c0 cs] eqn:Ef.
    { rewrite (capped_items_nil _ _ Ef) in Hsub.
      apply sublist_nil_r in Hsub as ->. by apply Ht. }
    set (items := capped_items t cand) in *.
    destruct items as [|i0 is0] eqn:Ei.
    { apply sublist_nil_r in Hsub as ->. by apply Ht. }
    rewrite <- Ei in *.
    assert (items ≠ []) as Hne by (by rewrite Ei). clear Ei.
    destruct (subset_mitm_complete t items sub Hne Hsub Hsum) as [sol Em].
    rewrite Em in Hnone.
    pose proof Em as (sub' & Hsub' & -> & Hsum')%subset_mitm_sound.
    destruct (sub'.*1) as [|x s] eqn:Es.
    { apply fmap_nil_inv in Es as ->. by apply Ht. }
    rewrite <- Es in Hnone.
    assert (_sum_ok (items_dict items) sub'.*1 t = true) as Hok.
    { apply sum_ok_spec. rewrite Hdict, filter_ids_sublist; [done|done|].
      by etransitivity; [|apply enforce_mitm_budget_sublist]. }
    rewrite Es in Hnone, Hok. by rewrite Hok in Hnone.
Qed.

Lemma ksum_target_sound_budget_complete_witness :
  (∀ ids, ksum_target 7 [(1, 5); (2, 3); (3, 2)] = Some ids →
     ids ⊆ (capped_items 7 [(1, 5); (2, 3); (3, 2)]).*1 ∧
     sum_cents (filter (λ kv, kv.1 ∈ ids) (capped_items 7 [(1, 5); (2, 3); (3, 2)])) = 7)
  ∧ (ksum_target 7 [(1, 5); (2, 3); (3, 2)] = None →
     ∀ sub, sub `sublist_of` enforce_mitm_budget (capped_items 7 [(1, 5); (2, 3); (3, 2)]) →
            sum_cents sub ≠ 7).
Proof.
  apply (ksum_target_sound_budget_complete 7 [(1, 5); (2, 3); (3, 2)]).
  - lia.
  - apply (bool_decide_unpack _). vm_compute. exact I.
Defined.

Example ksum_target_ex : ksum_target 7 [(1, 5); (2, 3); (3, 2)] = Some [1; 3].
Proof. vm_compute. reflexivity. Qed.

(** *** The budget truncation loses solutions *)

Lemma sum_cents_even (l : list item) :
  Forall (λ x, Z.even x.2 = true) l → Z.even (sum_cents l) = true.
Proof.
  induction 1 as [|x l Hx _ IH]; [done|].
  unfold sum_cents in *. simpl. by rewrite Z.even_add, Hx, IH.
Qed.

Lemma subset_mitm_parity t items :
  Forall (λ x, Z.even x.2 = true) (enforce_mitm_budget items) → Z.even t = false →
  subset_mitm t items = None.
Proof.
  intros Hev Ht. destruct (subset_mitm t items) as [ids|] eqn:E; [exfalso|done].
  apply subset_mitm_sound in E as (sub & Hsub & _ & Hsum).
  assert (Forall (λ x : item, Z.even x.2 = true) sub) as Hsubev.
  { apply Forall_forall. intros x Hx. rewrite Forall_forall in Hev.
    by apply Hev, (sublist_subseteq _ _ Hsub). }
  apply sum_cents_even in Hsubev. congruence.
Qed.

(** C2 (as stated) fails: with 36 capped items the MITM budget keeps the
    first 34, the DP fallback is refused above 24 items, and nothing is
    emitted for target 101 although the capped items 100 and 1 sum to it. *)
Lemma ksum_target_misses_capped_subset :
  NoDup ksum_cand36.*1 ∧
  ksum_target 101 ksum_cand36 = None ∧
  [(0, 100); (35, 1)] `sublist_of` capped_items 101 ksum_cand36 ∧
  sum_cents [(0, 100); (35, 1)] = 101.
Proof.
  split; [apply (bool_decide_unpack _); vm_compute; exact I|].
  split; [|split; [|reflexivity]].
  - apply ksum_target_none_intro.
    + apply subset_mitm_parity; [|reflexivity].
      apply (bool_decide_unpack _). vm_compute. exact I.
    + vm_compute. reflexivity.
  - vm_compute. repeat constructor.
Qed.

(** * The component validator: graph and search *)

Lemma adj_add_lookup (adj : gmap Z (gset Z)) k v k' x :
  x ∈ default ∅ (adj_add adj k v !! k') ↔
  x ∈ default ∅ (adj !! k') ∨ (k = k' ∧ x = v).
Proof.
  unfold adj_add. destruct (decide (k = k')) as [->|Hne].
  - rewrite lookup_insert_eq. simpl. set_solver.
  - rewrite lookup_insert_ne by done. naive_solver.
Qed.

Lemma add_edge_spec edges g ae :
  graph_of edges g → graph_of (edges ++ [ae]) (add_edge g ae).
Proof.
  destruct ae as [a0 e0]. intros (HA & HE & HnA & HnE).
  unfold graph_of, add_edge. simpl. split; [|split; [|split]].
  - intros a e.
    rewrite adj_add_lookup, HA, elem_of_app, list_elem_of_singleton. naive_solver.
  - intros a e.
    rewrite adj_add_lookup, HE, elem_of_app, list_elem_of_singleton. naive_solver.
  - intros a. rewrite elem_of_union, elem_of_singleton, HnA.
    setoid_rewrite elem_of_app. setoid_rewrite list_elem_of_singleton. naive_solver.
  - intros e. rewrite elem_of_union, elem_of_singleton, HnE.
    setoid_rewrite elem_of_app. setoid_rewrite list_elem_of_singleton. naive_solver.
Qed.

Lemma build_graph_spec edges : graph_of edges (build_graph edges).
Proof.
  unfold build_graph.
  assert (∀ l l0 g0, graph_of l0 g0 → graph_of (l0 ++ l) (foldl add_edge g0 l)) as H.
  { induction l as [|ae l IH]; intros l0 g0 H0; simpl; [by rewrite app_nil_r|].
    replace (l0 ++ ae :: l) with ((l0 ++ [ae]) ++ l) by by rewrite <- app_assoc.
    by apply IH, add_edge_spec. }
  apply (H edges [] (mkGraph ∅ ∅ ∅ ∅)).
  unfold graph_of. simpl. setoid_rewrite lookup_empty. simpl.
  setoid_rewrite elem_of_nil. setoid_rewrite elem_of_empty. naive_solver.
Qed.

Lemma adjacent_sym edges x y : adjacent edges x y → adjacent edges y x.
Proof. intros (a & e & Hin & H). exists a, e. tauto. Qed.

Lemma connected_sym edges x y : connected edges x y → connected edges y x.
Proof.
  induction 1 as [|x y z Hxy _ IH]; [apply rtc_refl|].
  eapply rtc_r; [exact IH|by apply adjacent_sym].
Qed.

Lemma adjacent_mono edges1 edges2 x y :
  edges1 ⊆ edges2 → adjacent edges1 x y → adjacent edges2 x y.
Proof. intros Hs (a & e & Hin & H). exists a, e. split; [by apply Hs|done]. Qed.

Lemma lab_of_set_eq lab x c : lab_of (set_lab lab x c) x = Some c.
Proof. destruct x as [[] n]; unfold lab_of, set_lab; simpl; apply lookup_insert_eq. Qed.

Lemma lab_of_set_ne lab x y c : x ≠ y → lab_of (set_lab lab x c) y = lab_of lab y.
Proof.
  destruct x as [[] n], y as [[] m]; unfold lab_of, set_lab; simpl; intros Hne;
    try done; apply lookup_insert_ne; congruence.
Qed.

Lemma sum_list_with_cons' {A} (f : A → nat) x l :
  sum_list_with f (x :: l) = (f x + sum_list_with f l)%nat.
Proof. done. Qed.

Section Search.

Variable enum : gset Z → list Z.
Hypothesis enum_spec : ∀ (s : gset Z) x, x ∈ enum s ↔ x ∈ s.
Variable edges : list (Z * Z).
Variable g : graph.
Hypothesis g_spec : graph_of edges g.

Lemma bfs_loop_cons fuel cid x q lab :
  bfs_loop enum (S fuel) g cid (x :: q) lab =
  if bool_decide (is_Some (lab_of lab x)) then bfs_loop enum fuel g cid q lab
  else bfs_loop enum fuel g cid (q ++ nbrs enum g lab x) (set_lab lab x cid).
Proof. by destruct x as [[] n]. Qed.

Lemma elem_of_nbrs lab x y :
  y ∈ nbrs enum g lab x ↔ adjacent edges x y ∧ lab_of lab y = None.
Proof.
  destruct g_spec as (HA & HE & _ & _).
  destruct x as [[] n]; unfold nbrs, pushes, adjacent, lab_of; simpl;
    rewrite list_elem_of_fmap; setoid_rewrite list_elem_of_filter;
    setoid_rewrite enum_spec.
  - setoid_rewrite HA. split.
    + intros (e & -> & Hl & Hin). split; [|done]. exists n, e. naive_solver.
    + intros ((a & e & Hin & [[[= ->] ->]|[[=] _]]) & Hl). exists e. naive_solver.
  - setoid_rewrite HE. split.
    + intros (a & -> & Hl & Hin). split; [|done]. exists a, n. naive_solver.
    + intros ((a & e & Hin & [[[=] _]|[[= ->] ->]]) & Hl). exists a. naive_solver.
Qed.

Lemma length_nbrs lab x :
  (S (length (nbrs enum g lab x)) ≤ node_weight enum g x)%nat.
Proof.
  destruct x as [[] n]; unfold nbrs, pushes, node_weight; simpl;
    rewrite length_fmap; apply le_n_S, length_filter.
Qed.

Lemma adjacent_all_nodes x y : adjacent edges x y → y ∈ all_nodes enum g.
Proof.
  destruct g_spec as (_ & _ & HnA & HnE).
  intros (a & e & Hin & [[-> ->]|[-> ->]]); unfold all_nodes; apply elem_of_app.
  - right. apply list_elem_of_fmap. exists e. split; [done|].
    apply enum_spec, HnE. by exists a.
  - left. apply list_elem_of_fmap. exists a. split; [done|].
    apply enum_spec, HnA. by exists e.
Qed.

Lemma unlabelled_weight_set N lab x c :
  lab_of lab x = None →
  (unlabelled_weight enum g N (set_lab lab x c) ≤ unlabelled_weight enum g N lab)%nat ∧
  (x ∈ N → (unlabelled_weight enum g N (set_lab lab x c) + node_weight enum g x
            ≤ unlabelled_weight enum g N lab)%nat).
Proof.
  intros Hx. unfold unlabelled_weight.
  induction N as [|n N [IH1 IH2]]; [split; [done|by intros ?%elem_of_nil]|].
  rewrite !filter_cons. destruct (decide (n = x)) as [->|Hne].
  - rewrite lab_of_set_eq, Hx. rewrite decide_False by done. rewrite decide_True by done.
    rewrite sum_list_with_cons'. split; [lia|]. intros _. lia.
  - rewrite lab_of_set_ne by done.
    destruct (decide (lab_of lab n = None)); rewrite ?sum_list_with_cons'.
    + split; [lia|]. intros [?|Hin]%elem_of_cons; [done|]. specialize (IH2 Hin). lia.
    + split; [lia|]. intros [?|Hin]%elem_of_cons; [done|]. by apply IH2.
Qed.

Lemma unlabelled_weight_le N lab :
  (unlabelled_weight enum g N lab ≤ sum_list_with (node_weight enum g) N)%nat.
Proof.
  unfold unlabelled_weight. induction N as [|n N IH]; [done|].
  rewrite filter_cons. destruct (decide _); rewrite ?sum_list_with_cons'; lia.
Qed.

Lemma bfs_fuel_all_nodes :
  bfs_fuel enum g = S (sum_list_with (node_weight enum g) (all_nodes enum g)).
Proof.
  unfold bfs_fuel, all_nodes. f_equal.
  rewrite sum_list_with_app. f_equal.
  - generalize (enum (nodesA g)). intros l. induction l as [|a l IH]; [done|].
    rewrite fmap_cons, !sum_list_with_cons', IH. done.
  - generalize (enum (nodesE g)). intros l. induction l as [|a l IH]; [done|].
    rewrite fmap_cons, !sum_list_with_cons', IH. done.
Qed.

(** Popping a node that already has a label. *)
Lemma searching_skip cid start x q lab :
  searching enum edges g cid start (x :: q) lab → is_Some (lab_of lab x) →
  searching enum edges g cid start q lab.
Proof.
  intros [Hold Hfront Hlc Hqc Holdc Hb Hn] [c Hc].
  split; try done.
  - intros u v Huv Hu. destruct (Hfront u v Huv Hu) as [?|Hin]; [by left|].
    apply elem_of_cons in Hin as [->|Hin]; [|by right]. left.
    destruct (decide (c = cid)) as [->|Hne]; [done|].
    pose proof (Hold x u c (adjacent_sym _ _ _ Huv) Hc Hne). congruence.
  - intros y Hy. apply Hqc. by right.
  - intros y Hy. apply Hn. by right.
Qed.

(** Popping an unlabelled node: it gets the component id and its
    unlabelled neighbours join the queue. *)
Lemma searching_label cid start x q lab :
  searching enum edges g cid start (x :: q) lab → lab_of lab x = None →
  searching enum edges g cid start (q ++ nbrs enum g lab x) (set_lab lab x cid).
Proof.
  intros [Hold Hfront Hlc Hqc Holdc Hb Hn] Hx.
  assert (∀ y c, lab_of (set_lab lab x cid) y = Some c →
                 (y = x ∧ c = cid) ∨ (y ≠ x ∧ lab_of lab y = Some c)) as Hset.
  { intros y c. destruct (decide (x = y)) as [<-|Hne].
    - rewrite lab_of_set_eq. intros [= <-]. by left.
    - rewrite lab_of_set_ne by done. intros ?. by right. }
  assert (∀ y c, y ≠ x → lab_of lab y = Some c → lab_of (set_lab lab x cid) y = Some c) as Hkeep.
  { intros y c Hne Hy. by rewrite lab_of_set_ne. }
  split.
  - intros u v c Huv Hu Hc. apply Hset in Hu as [[_ ?]|[Hne Hu]]; [done|].
    pose proof (Hold u v c Huv Hu Hc) as Hv. apply Hkeep; [|done]. congruence.
  - intros u v Huv Hu. apply Hset in Hu as [[-> _]|[Hne Hu]].
    + destruct (lab_of lab v) as [c|] eqn:Hv.
      * destruct (decide (c = cid)) as [->|Hc].
        -- left. apply Hkeep; [congruence|done].
        -- pose proof (Hold v x c (adjacent_sym _ _ _ Huv) Hv Hc). congruence.
      * right. apply elem_of_app. right. by apply elem_of_nbrs.
    + destruct (Hfront u v Huv Hu) as [Hv|Hin].
      * left. apply Hkeep; [congruence|done].
      * apply elem_of_cons in Hin as [->|Hin].
        -- left. apply lab_of_set_eq.
        -- right. apply elem_of_app. by left.
  - intros u Hu. apply Hset in Hu as [[-> _]|[_ Hu]]; [apply Hqc; left|by apply Hlc].
  - intros y [Hy|Hy]%elem_of_app; [apply Hqc; by right|].
    apply elem_of_nbrs in Hy as [Hadj _].
    eapply rtc_r; [apply Hqc; left|done].
  - intros u v c Hu Hv Hc.
    apply Hset in Hu as [[_ ?]|[_ Hu]]; [done|].
    apply Hset in Hv as [[_ ?]|[_ Hv]]; [done|]. by eapply Holdc.
  - intros u c Hu. apply Hset in Hu as [[_ ->]|[_ Hu]]; [lia|by eapply Hb].
  - intros y [Hy|Hy]%elem_of_app; [apply Hn; by right|].
    apply elem_of_nbrs in Hy as [Hadj _]. by eapply adjacent_all_nodes.
Qed.

Lemma lab_le_set lab x c : lab_of lab x = None → lab_le lab (set_lab lab x c).
Proof.
  intros Hx y d Hy. rewrite lab_of_set_ne; [done|]. congruence.
Qed.

(** The search of one component ends with an empty queue within the
    fuel, and keeps the invariant. *)
Lemma bfs_loop_correct fuel cid start q lab :
  searching enum edges g cid start q lab →
  (length q + unlabelled_weight enum g (all_nodes enum g) lab ≤ fuel)%nat →
  ∃ lab', bfs_loop enum fuel g cid q lab = Some lab' ∧
          searching enum edges g cid start [] lab' ∧
          lab_le lab lab' ∧
          ∀ x, x ∈ q → is_Some (lab_of lab' x).
Proof.
  revert q lab. induction fuel as [|fuel IH]; intros q lab Hs Hm.
  - destruct q as [|x q]; [|simpl in Hm; lia].
    exists lab. split; [done|]. split; [done|]. split; [by intros ??|].
    by intros x ?%elem_of_nil.
  - destruct q as [|x q].
    { exists lab. split; [done|]. split; [done|]. split; [by intros ??|].
      by intros x ?%elem_of_nil. }
    rewrite bfs_loop_cons. case_bool_decide as Hx.
    + destruct (IH q lab) as (lab' & Hrun & Hs' & Hle & Hq);
        [by eapply searching_skip|simpl in Hm; lia|].
      exists lab'. split; [done|]. split; [done|]. split; [done|].
      intros y [->|Hy]%elem_of_cons; [|by apply Hq].
      destruct Hx as [c Hc]. exists c. by apply Hle.
    + assert (lab_of lab x = None) as Hx'.
      { destruct (lab_of lab x) eqn:E; [|done]. exfalso. apply Hx. eauto. }
      destruct (IH (q ++ nbrs enum g lab x) (set_lab lab x cid))
        as (lab' & Hrun & Hs' & Hle & Hq); [by apply searching_label| |].
      { destruct (unlabelled_weight_set (all_nodes enum g) lab x cid Hx') as [_ Hdec].
        specialize (Hdec (se_nodes _ _ _ _ _ _ _ Hs x (list_elem_of_here _ _))).
        pose proof (length_nbrs lab x). rewrite length_app. simpl in Hm. lia. }
      exists lab'. split; [done|]. split; [done|]. split.
      * intros y c Hy. apply Hle. by apply lab_le_set.
      * intros y [->|Hy]%elem_of_cons.
        -- exists cid. apply Hle, lab_of_set_eq.
        -- apply Hq, elem_of_app. by left.
Qed.

End Search.

(** * The component validator: labels are components *)

Section Components.

Variable enum : gset Z → list Z.
Hypothesis enum_spec : ∀ (s : gset Z) x, x ∈ enum s ↔ x ∈ s.
Variable edges : list (Z * Z).
Variable g : graph.
Hypothesis g_spec : graph_of edges g.

Lemma is_labelled_lab_of sd lab n :
  is_labelled sd lab n = bool_decide (is_Some (lab_of lab (sd, n))).
Proof. by destruct sd. Qed.

Lemma closed_searching idx lab x :
  closed edges idx lab → x ∈ all_nodes enum g →
  searching enum edges g idx x [x] lab.
Proof.
  intros [Hadj Hconn Hb] Hx. split.
  - intros u v c Huv Hu _. eauto.
  - intros u v Huv Hu. apply Hb in Hu. lia.
  - intros u Hu. apply Hb in Hu. lia.
  - intros y ->%list_elem_of_singleton. apply rtc_refl.
  - intros u v c Hu Hv _. eauto.
  - intros u c Hu. apply Hb in Hu. lia.
  - by intros y ->%list_elem_of_singleton.
Qed.

Lemma searching_closed cid start lab :
  searching enum edges g cid start [] lab → closed edges (cid + 1) lab.
Proof.
  intros [Hold Hfront Hlc Hqc Holdc Hb Hn]. split.
  - intros u v c Huv Hu. destruct (decide (c = cid)) as [->|Hne]; [|by eapply Hold].
    destruct (Hfront u v Huv Hu) as [?|Hin]; [done|by apply elem_of_nil in Hin].
  - intros u v c Hu Hv. destruct (decide (c = cid)) as [->|Hne]; [|by eapply Holdc].
    eapply rtc_trans; [apply connected_sym, Hlc, Hu|by apply Hlc].
  - intros u c Hu. apply Hb in Hu. lia.
Qed.

Lemma start_component_correct sd n0 idx lab :
  closed edges idx lab → (sd, n0) ∈ all_nodes enum g →
  ∃ idx' lab',
    start_component enum sd g (Some (idx, lab)) n0 = Some (idx', lab') ∧
    closed edges idx' lab' ∧ lab_le lab lab' ∧ is_Some (lab_of lab' (sd, n0)).
Proof.
  intros Hc Hn. unfold start_component. rewrite is_labelled_lab_of.
  case_bool_decide as Hl.
  - exists idx, lab. split; [done|]. split; [done|]. split; [by intros ??|done].
  - destruct (bfs_loop_correct enum enum_spec edges g g_spec (bfs_fuel enum g)
                idx (sd, n0) [(sd, n0)] lab) as (lab' & -> & Hs & Hle & Hq).
    + by apply closed_searching.
    + rewrite bfs_fuel_all_nodes.
      pose proof (unlabelled_weight_le enum g (all_nodes enum g) lab). simpl. lia.
    + exists (idx + 1), lab'. split; [done|]. split; [by eapply searching_closed|].
      split; [done|]. apply Hq. left.
Qed.

Lemma fold_start_correct sd l idx lab :
  closed edges idx lab → (∀ n, n ∈ l → (sd, n) ∈ all_nodes enum g) →
  ∃ idx' lab',
    foldl (start_component enum sd g) (Some (idx, lab)) l = Some (idx', lab') ∧
    closed edges idx' lab' ∧ lab_le lab lab' ∧
    ∀ n, n ∈ l → is_Some (lab_of lab' (sd, n)).
Proof.
  revert idx lab. induction l as [|n0 l IH]; intros idx lab Hc Hl.
  - exists idx, lab. split; [done|]. split; [done|]. split; [by intros ??|].
    by intros n ?%elem_of_nil.
  - destruct (start_component_correct sd n0 idx lab Hc) as (idx1 & lab1 & E1 & Hc1 & Hle1 & Hn0);
      [apply Hl; left|].
    destruct (IH idx1 lab1 Hc1) as (idx2 & lab2 & E2 & Hc2 & Hle2 & Hrest);
      [intros n Hn; apply Hl; by right|].
    exists idx2, lab2. split; [cbn [foldl]; by rewrite E1|]. split; [done|]. split.
    + intros x c Hx. by apply Hle2, Hle1.
    + intros n [->|Hn]%elem_of_cons; [|by apply Hrest].
      destruct Hn0 as [c Hc0]. exists c. by apply Hle2.
Qed.

(** Both outer loops finish; every node ends up labelled and the labels
    are closed under edges. *)
Lemma label_components_correct :
  ∃ idx lab, label_components enum g = Some (idx, lab) ∧
             closed edges idx lab ∧
             ∀ x, x ∈ all_nodes enum g → is_Some (lab_of lab x).
Proof.
  unfold label_components.
  destruct (fold_start_correct SideA (enum (nodesA g)) 0 (mkLabels ∅ ∅))
    as (idx1 & lab1 & -> & Hc1 & _ & HA).
  { assert (∀ x, lab_of (mkLabels ∅ ∅) x = None) as H0
      by (intros [[] ?]; apply lookup_empty).
    split; intros *; rewrite ?H0; congruence. }
  { intros n Hn. apply elem_of_app. left. by apply list_elem_of_fmap_2. }
  destruct (fold_start_correct SideE (enum (nodesE g)) idx1 lab1 Hc1)
    as (idx2 & lab2 & -> & Hc2 & Hle & HE).
  { intros n Hn. apply elem_of_app. right. by apply list_elem_of_fmap_2. }
  exists idx2, lab2. split; [done|]. split; [done|].
  intros x [Hx|Hx]%elem_of_app; apply list_elem_of_fmap in Hx as (n & -> & Hn).
  - destruct (HA n Hn) as [c Hc]. exists c. by apply Hle.
  - by apply HE.
Qed.

Lemma closed_connected idx lab x y c :
  closed edges idx lab → connected edges x y →
  lab_of lab x = Some c → lab_of lab y = Some c.
Proof.
  intros [Hadj _ _] Hxy. induction Hxy as [|x y z Hxy _ IH]; [done|].
  intros Hx. apply IH. by eapply Hadj.
Qed.

End Components.

(** ** Sums per component *)

Lemma zsum_perm f l1 l2 : l1 ≡ₚ l2 → zsum f l1 = zsum f l2.
Proof.
  unfold zsum. induction 1; simpl; lia.
Qed.

Lemma zsum_ext f g l : (∀ x, f x = g x) → zsum f l = zsum g l.
Proof.
  intros Hfg. unfold zsum. induction l as [|x l IH]; simpl; [done|]. by rewrite Hfg, IH.
Qed.

(** The two dictionaries of the validator hold, for every row id, the
    cents of the last row of the frame with that id. *)
Lemma api_map_of_lookup A0 a :
  api_map_of A0 !! a = api_cents <$> last (filter (λ r, api_row_id r = a) A0).
Proof.
  unfold api_map_of. induction A0 as [|r A0 IH] using rev_ind; [cbn; by rewrite lookup_empty|].
  rewrite foldl_app, filter_app. cbn [foldl]. rewrite filter_cons, filter_nil.
  destruct (decide (api_row_id r = a)) as [<-|Hne].
  - by rewrite lookup_insert_eq, last_snoc.
  - by rewrite lookup_insert_ne, app_nil_r.
Qed.

Lemma erp_map_of_lookup E0 e :
  erp_map_of E0 !! e = erp_cents <$> last (filter (λ r, erp_row_id r = e) E0).
Proof.
  unfold erp_map_of. induction E0 as [|r E0 IH] using rev_ind; [cbn; by rewrite lookup_empty|].
  rewrite foldl_app, filter_app. cbn [foldl]. rewrite filter_cons, filter_nil.
  destruct (decide (erp_row_id r = e)) as [<-|Hne].
  - by rewrite lookup_insert_eq, last_snoc.
  - by rewrite lookup_insert_ne, app_nil_r.
Qed.

Lemma api_cents_of_map A0 a : api_cents_of A0 a = default 0 (api_map_of A0 !! a).
Proof. unfold api_cents_of. by rewrite api_map_of_lookup. Qed.

Lemma erp_cents_of_map E0 e : erp_cents_of E0 e = default 0 (erp_map_of E0 !! e).
Proof. unfold erp_cents_of. by rewrite erp_map_of_lookup. Qed.

Lemma filter_none {A} (P : A → Prop) `{∀ x, Decision (P x)} (l : list A) :
  (∀ x, x ∈ l → ¬ P x) → filter P l = [].
Proof.
  induction l as [|x l IH]; intros Hl; [done|].
  rewrite filter_cons, decide_False by (apply Hl; left). apply IH. intros y Hy. apply Hl. by right.
Qed.

(** With distinct row ids the cents of a node are the cents of its row. *)
Lemma api_cents_of_row A0 r :
  NoDup (api_row_id <$> A0) → r ∈ A0 → api_cents_of A0 (api_row_id r) = api_cents r.
Proof.
  intros Hnd Hr. unfold api_cents_of.
  assert (filter (λ r', api_row_id r' = api_row_id r) A0 = [r]) as ->; [|done].
  induction A0 as [|x A0 IH]; [by apply elem_of_nil in Hr|].
  rewrite fmap_cons in Hnd. apply NoDup_cons in Hnd as [Hx Hnd]. rewrite filter_cons.
  apply elem_of_cons in Hr as [->|Hr].
  - rewrite decide_True by done. f_equal. apply filter_none. intros y Hy Heq.
    apply Hx. rewrite <- Heq. by apply list_elem_of_fmap_2.
  - rewrite decide_False; [by apply IH|].
    intros Heq. apply Hx. rewrite Heq. by apply list_elem_of_fmap_2.
Qed.

Lemma erp_cents_of_row E0 r :
  NoDup (erp_row_id <$> E0) → r ∈ E0 → erp_cents_of E0 (erp_row_id r) = erp_cents r.
Proof.
  intros Hnd Hr. unfold erp_cents_of.
  assert (filter (λ r', erp_row_id r' = erp_row_id r) E0 = [r]) as ->; [|done].
  induction E0 as [|x E0 IH]; [by apply elem_of_nil in Hr|].
  rewrite fmap_cons in Hnd. apply NoDup_cons in Hnd as [Hx Hnd]. rewrite filter_cons.
  apply elem_of_cons in Hr as [->|Hr].
  - rewrite decide_True by done. f_equal. apply filter_none. intros y Hy Heq.
    apply Hx. rewrite <- Heq. by apply list_elem_of_fmap_2.
  - rewrite decide_False; [by apply IH|].
    intros Heq. apply Hx. rewrite Heq. by apply list_elem_of_fmap_2.
Qed.

Lemma elem_of_members comp cid x : x ∈ members comp cid ↔ comp !! x = Some cid.
Proof.
  unfold members. rewrite list_elem_of_fmap. split.
  - intros ([n c] & -> & [Hc Hin]%list_elem_of_filter). simpl in *. subst.
    by apply elem_of_map_to_list.
  - intros Hx. exists (x, cid). split; [done|]. apply list_elem_of_filter.
    split; [done|]. by apply elem_of_map_to_list.
Qed.

Lemma NoDup_members comp cid : NoDup (members comp cid).
Proof.
  unfold members. eapply sublist_NoDup; [apply (NoDup_fst_map_to_list comp)|].
  apply (fmap_sublist fst), sublist_filter.
Qed.

Lemma sum_by_comp_spec cents comp cid :
  default 0 (sum_by_comp cents comp !! cid)
    = zsum (λ n, default 0 (cents !! n)) (members comp cid) ∧
  (is_Some (sum_by_comp cents comp !! cid) ↔ members comp cid ≠ []).
Proof.
  unfold sum_by_comp, members. rewrite map_fold_foldr.
  induction (map_to_list comp) as [|[n c] l [IH1 IH2]]; simpl.
  - rewrite lookup_empty. split; [done|]. split; [by intros [? ?]|done].
  - rewrite filter_cons. simpl. destruct (decide (c = cid)) as [->|Hne].
    + rewrite lookup_insert_eq. simpl. split.
      * rewrite Z.add_comm. f_equal. exact IH1.
      * split; [done|eauto].
    + rewrite lookup_insert_ne by done. done.
Qed.

(** * The component validator: what survives *)

Lemma elem_of_edges_of matches a e :
  (a, e) ∈ edges_of matches ↔
  ∃ r, r ∈ matches ∧ m_api_row_id r = a ∧ m_erp_row_id r = e.
Proof.
  unfold edges_of. rewrite list_elem_of_fmap. split.
  - intros (r & [= -> ->] & Hr). by exists r.
  - intros (r & Hr & <- & <-). by exists r.
Qed.

Lemma connected_mono edges1 edges2 x y :
  edges1 ⊆ edges2 → connected edges1 x y → connected edges2 x y.
Proof.
  intros Hs. induction 1 as [|x y z Hxy _ IH]; [apply rtc_refl|].
  eapply rtc_l; [by eapply adjacent_mono|done].
Qed.

Section Labelled.

Variable edges : list (Z * Z).
Variable idx : Z.
Variable lab : labels.
Hypothesis lab_closed : closed edges idx lab.
Hypothesis lab_total : ∀ a e, (a, e) ∈ edges → is_Some (comp_id_of_A lab !! a).

Lemma edge_labels a e :
  (a, e) ∈ edges →
  ∃ cid, comp_id_of_A lab !! a = Some cid ∧ comp_id_of_E lab !! e = Some cid.
Proof.
  intros Hin. destruct (lab_total a e Hin) as [cid Ha]. exists cid. split; [done|].
  apply (cl_adj _ _ _ lab_closed (SideA, a) (SideE, e) cid); [|done].
  exists a, e. split; [done|by left].
Qed.

Lemma comp_for_edge_label a e cid :
  comp_id_of_A lab !! a = Some cid → comp_for_edge lab (a, e) = cid.
Proof. unfold comp_for_edge. simpl. by intros ->. Qed.

(** The nodes with the label of [a] are the component of [a]. *)
Lemma component_members a cid :
  comp_id_of_A lab !! a = Some cid →
  component_of edges a (list_to_set (members (comp_id_of_A lab) cid))
                       (list_to_set (members (comp_id_of_E lab) cid)).
Proof.
  intros Ha. split; intros x; rewrite elem_of_list_to_set, elem_of_members.
  - split.
    + intros Hx. by apply (cl_conn _ _ _ lab_closed (SideA, a) (SideA, x) cid).
    + intros Hc. by apply (closed_connected edges idx lab (SideA, a) (SideA, x) cid).
  - split.
    + intros Hx. by apply (cl_conn _ _ _ lab_closed (SideA, a) (SideE, x) cid).
    + intros Hc. by apply (closed_connected edges idx lab (SideA, a) (SideE, x) cid).
Qed.

Lemma balanced_members A0 E0 cid :
  balanced A0 E0 (list_to_set (members (comp_id_of_A lab) cid))
                 (list_to_set (members (comp_id_of_E lab) cid)) ↔
  default 0 (sum_by_comp (api_map_of A0) (comp_id_of_A lab) !! cid)
  = default 0 (sum_by_comp (erp_map_of E0) (comp_id_of_E lab) !! cid).
Proof.
  unfold balanced.
  rewrite (zsum_ext _ _ _ (api_cents_of_map A0)), (zsum_ext _ _ _ (erp_cents_of_map E0)).
  rewrite (zsum_perm _ _ _ (elements_list_to_set _ (NoDup_members (comp_id_of_A lab) cid))).
  rewrite (zsum_perm _ _ _ (elements_list_to_set _ (NoDup_members (comp_id_of_E lab) cid))).
  destruct (sum_by_comp_spec (api_map_of A0) (comp_id_of_A lab) cid) as [-> _].
  destruct (sum_by_comp_spec (erp_map_of E0) (comp_id_of_E lab) cid) as [-> _].
  done.
Qed.

Lemma valid_comp_label A0 E0 a cid :
  comp_id_of_A lab !! a = Some cid →
  cid ∈ valid_comp (sum_by_comp (api_map_of A0) (comp_id_of_A lab))
                   (sum_by_comp (erp_map_of E0) (comp_id_of_E lab)) ↔
  default 0 (sum_by_comp (api_map_of A0) (comp_id_of_A lab) !! cid)
  = default 0 (sum_by_comp (erp_map_of E0) (comp_id_of_E lab) !! cid).
Proof.
  intros Ha. unfold valid_comp. rewrite elem_of_filter, elem_of_union, !elem_of_dom.
  split; [tauto|]. intros Heq. split; [done|]. left.
  apply (sum_by_comp_spec (api_map_of A0) (comp_id_of_A lab) cid).
  intros Hnil. assert (a ∈ members (comp_id_of_A lab) cid) as Hin
    by by apply elem_of_members.
  rewrite Hnil in Hin. by apply elem_of_nil in Hin.
Qed.

End Labelled.

Section Finalize.

Variable enum : gset Z → list Z.
Hypothesis enum_spec : ∀ (s : gset Z) x, x ∈ enum s ↔ x ∈ s.

Lemma finalize_labels matches A0 E0 :
  matches ≠ [] →
  ∃ idx lab,
    closed (edges_of matches) idx lab ∧
    (∀ a e, (a, e) ∈ edges_of matches → is_Some (comp_id_of_A lab !! a)) ∧
    finalize_by_components enum matches A0 E0 =
    Some (filter (λ r, comp_for_edge lab (m_api_row_id r, m_erp_row_id r) ∈
                       valid_comp (sum_by_comp (api_map_of A0) (comp_id_of_A lab))
                                  (sum_by_comp (erp_map_of E0) (comp_id_of_E lab)))
                 matches).
Proof.
  intros Hne.
  pose proof (build_graph_spec (edges_of matches)) as Hg.
  destruct (label_components_correct enum enum_spec _ _ Hg) as (idx & lab & E & Hc & Hall).
  exists idx, lab. split; [done|]. split.
  - intros a e Hin. apply (Hall (SideA, a)). apply elem_of_app. left.
    apply list_elem_of_fmap. exists a. split; [done|].
    apply enum_spec. destruct Hg as (_ & _ & HnA & _). apply HnA. by exists e.
  - unfold finalize_by_components. destruct matches as [|r0 rs]; [done|].
    fold (edges_of (r0 :: rs)). by rewrite E.
Qed.

(** C1. The validator terminates; an edge is kept iff the connected
    component of its nodes in the candidate graph balances, that is, the
    [api_cents] of the rows of [A0] that are its API nodes and the
    [erp_cents] of the rows of [E0] that are its ERP nodes add up to the
    same number; and in the surviving edge set every component balances. *)
Theorem finalize_by_components_balanced matches A0 E0 :
  ∃ out,
    finalize_by_components enum matches A0 E0 = Some out ∧
    (∀ r, r ∈ matches →
       ∃ KA KE, component_of (edges_of matches) (m_api_row_id r) KA KE ∧
                (r ∈ out ↔ balanced A0 E0 KA KE)) ∧
    (∀ r, r ∈ out →
       ∃ KA KE, component_of (edges_of out) (m_api_row_id r) KA KE ∧
                balanced A0 E0 KA KE).
Proof.
  destruct (decide (matches = [])) as [->|Hne].
  { exists []. split; [done|]. split; by intros r ?%elem_of_nil. }
  destruct (finalize_labels matches A0 E0 Hne) as (idx & lab & Hc & Hall & ->).
  set (keep := λ r, comp_for_edge lab (m_api_row_id r, m_erp_row_id r) ∈
                    valid_comp (sum_by_comp (api_map_of A0) (comp_id_of_A lab))
                               (sum_by_comp (erp_map_of E0) (comp_id_of_E lab))).
  assert (∀ r, r ∈ matches →
            ∃ cid, comp_id_of_A lab !! m_api_row_id r = Some cid ∧
                   (keep r ↔ balanced A0 E0
                      (list_to_set (members (comp_id_of_A lab) cid))
                      (list_to_set (members (comp_id_of_E lab) cid)))) as Hkeep.
  { intros r Hr.
    destruct (edge_labels (edges_of matches) idx lab Hc Hall (m_api_row_id r) (m_erp_row_id r))
      as (cid & Ha & He); [apply elem_of_edges_of; by exists r|].
    exists cid. split; [done|]. unfold keep.
    rewrite (comp_for_edge_label lab _ _ cid Ha).
    rewrite (valid_comp_label lab A0 E0 _ cid Ha).
    by rewrite (balanced_members lab A0 E0 cid). }
  eexists. split; [done|]. split.
  - intros r Hr. destruct (Hkeep r Hr) as (cid & Ha & Hk).
    eexists _, _. split; [by eapply component_members|].
    rewrite list_elem_of_filter. rewrite <- Hk. tauto.
  - intros r [Hk Hr]%list_elem_of_filter.
    destruct (Hkeep r Hr) as (cid & Ha & Hkb).
    eexists _, _. split; [|by apply Hkb].
    pose proof (component_members (edges_of matches) idx lab Hc _ cid Ha) as [HKA HKE].
    assert (edges_of (filter keep matches) ⊆ edges_of matches) as Hsub.
    { intros [a e] (r' & [_ Hr']%list_elem_of_filter & <- & <-)%elem_of_edges_of.
      apply elem_of_edges_of. by exists r'. }
    assert (∀ y, connected (edges_of matches) (SideA, m_api_row_id r) y →
                 connected (edges_of (filter keep matches)) (SideA, m_api_row_id r) y) as Hpaths.
    { apply (rtc_ind_r (λ y, connected (edges_of (filter keep matches))
                                 (SideA, m_api_row_id r) y)); [apply rtc_refl|].
      intros y z Hy Hyz IH. eapply rtc_r; [exact IH|].
      destruct Hyz as (a' & e' & Hin & Hor).
      assert (connected (edges_of matches) (SideA, m_api_row_id r) (SideA, a')) as Ha'.
      { destruct Hor as [[-> _]|[-> ->]]; [done|].
        eapply rtc_r; [exact Hy|]. exists a', e'. split; [done|by right]. }
      apply (closed_connected _ idx lab _ _ cid Hc) in Ha'; [|done].
      exists a', e'. split; [|done].
      apply elem_of_edges_of in Hin as (r' & Hr' & <- & <-).
      apply elem_of_edges_of. exists r'. split; [|done].
      apply list_elem_of_filter. split; [|done].
      unfold keep in *. rewrite (comp_for_edge_label lab _ _ cid Ha').
      by rewrite (comp_for_edge_label lab _ _ cid Ha) in Hk. }
    split; intros x.
    + rewrite HKA. split; [apply Hpaths|by apply connected_mono].
    + rewrite HKE. split; [apply Hpaths|by apply connected_mono].
Qed.

(** C10. The validator only removes rows: its output is a sub-list of
    its input, each row with its five fields as they were. *)
Theorem finalize_by_components_sublist matches A0 E0 out :
  finalize_by_components enum matches A0 E0 = Some out →
  out `sublist_of` matches.
Proof.
  unfold finalize_by_components. destruct matches as [|r0 rs]; [by intros [= <-]|].
  destruct (label_components _ _) as [[idx lab]|]; [|done].
  intros [= <-]. apply sublist_filter.
Qed.

End Finalize.

(** ** The validator on a concrete candidate set *)

Lemma finalize_by_components_balanced_witness :
  ∃ out,
    finalize_by_components elements demo_matches demo_A0 demo_E0 = Some out ∧
    (∀ r, r ∈ demo_matches →
       ∃ KA KE, component_of (edges_of demo_matches) (m_api_row_id r) KA KE ∧
                (r ∈ out ↔ balanced demo_A0 demo_E0 KA KE)) ∧
    (∀ r, r ∈ out →
       ∃ KA KE, component_of (edges_of out) (m_api_row_id r) KA KE ∧
                balanced demo_A0 demo_E0 KA KE).
Proof.
  apply (finalize_by_components_balanced elements).
  intros s x. apply elem_of_elements.
Defined.

Lemma finalize_by_components_sublist_witness :
  [mkMatchRow 2 11 "M1_SAME_DAY_RN" 10 0] `sublist_of` demo_matches.
Proof.
  apply (finalize_by_components_sublist elements demo_matches demo_A0 demo_E0).
  vm_compute. reflexivity.
Defined.

(** * The cascade: where the edges of each stage come from *)

Lemma ksum_target_ids t cand ids : ksum_target t cand = Some ids → ids ⊆ cand.*1.
Proof.
  unfold ksum_target. destruct (filter _ cand) as [|c0 cs]; [done|].
  set (items := capped_items t cand).
  assert (items.*1 ⊆ cand.*1) as Hsub.
  { intros i Hi. eapply elem_of_submseteq; [exact Hi|].
    apply (fmap_submseteq fst), capped_items_submseteq. }
  destruct items as [|i0 is0] eqn:Ei; [done|]. rewrite <- Ei in *. clear Ei.
  destruct (subset_mitm t items) as [sol|] eqn:Em.
  - destruct sol as [|x s]; [done|]. destruct (_sum_ok _ _ _); [|done]. intros [= <-].
    apply subset_mitm_sound in Em as (sub & Hs & -> & _).
    etransitivity; [|exact Hsub].
    apply sublist_subseteq, (fmap_sublist fst).
    by etransitivity; [|apply enforce_mitm_budget_sublist].
  - destruct (subset_dp t items) as [sol|] eqn:Ed; [|done].
    destruct sol as [|x s]; [done|]. destruct (_sum_ok _ _ _); [|done]. intros [= <-].
    etransitivity; [by apply subset_dp_ids in Ed|done].
Qed.

Lemma elem_of_rn_over_from {R K} `{EqDecision K} (key : R → K) seen df r n :
  (r, n) ∈ rn_over_from key seen df → r ∈ df.
Proof.
  revert seen. induction df as [|r0 df IH]; intros seen; simpl.
  - by intros ?%elem_of_nil.
  - intros [[= -> _]|Hin]%elem_of_cons; [left|right; by eapply IH].
Qed.

(** An RN pair joins rows of the two frames with equal grouping key. *)
Lemma rn_join_spec A E p :
  p ∈ rn_join A E →
  ∃ a e, a ∈ A ∧ e ∈ E ∧ api_row_id a = p.1 ∧ erp_row_id e = p.2 ∧
         rn_key_A a = rn_key_E e.
Proof.
  unfold rn_join. intros Hp.
  apply list_elem_of_bind in Hp as ([a na] & Hp & Ha).
  apply list_elem_of_bind in Hp as ([e ne] & Hp & He).
  case_bool_decide as Hk; [|by apply elem_of_nil in Hp].
  apply list_elem_of_singleton in Hp as ->. simpl in *.
  apply elem_of_rn_over_from in Ha, He.
  rewrite merge_sort_Permutation in Ha. rewrite merge_sort_Permutation in He.
  exists a, e. naive_solver.
Qed.

(** *** Ordered dictionaries *)

Lemma elem_of_dict_set {K V} `{EqDecision K} (d : list (K * V)) k v kv :
  kv ∈ dict_set d k v → kv = (k, v) ∨ kv ∈ d.
Proof.
  induction d as [|[k' v'] d IH]; simpl.
  - intros ->%list_elem_of_singleton. by left.
  - case_bool_decide.
    + intros [->|Hin]%elem_of_cons; [by left|right; by right].
    + intros [->|Hin]%elem_of_cons; [right; left|].
      destruct (IH Hin) as [->|?]; [by left|right; by right].
Qed.

Lemma dict_get_elem {K V} `{EqDecision K} (d : list (K * V)) k v :
  dict_get d k = Some v → (k, v) ∈ d.
Proof.
  induction d as [|[k' v'] d IH]; simpl; [done|].
  case_bool_decide as Hk; [intros [= ->]; subst; left|intros ?; right; auto].
Qed.

Lemma partition_by_spec {R K} `{EqDecision K} (key : R → K) (df g : list R) :
  g ∈ partition_by key df →
  ∀ r, r ∈ g → r ∈ df ∧ ∀ r', r' ∈ g → key r' = key r.
Proof.
  unfold partition_by.
  assert (∀ l d,
    (∀ k grp, (k, grp) ∈ d → ∀ r, r ∈ grp → r ∈ df ∧ key r = k) →
    (∀ r, r ∈ l → r ∈ df) →
    ∀ k grp, (k, grp) ∈ foldl (λ d r, dict_append d (key r) r) d l →
             ∀ r, r ∈ grp → r ∈ df ∧ key r = k) as Hfold.
  { induction l as [|r0 l IH]; intros d Hd Hl; simpl; [done|].
    apply IH; [|intros r Hr; apply Hl; by right].
    intros k grp Hin r Hr. unfold dict_append in Hin.
    destruct (dict_get d (key r0)) as [l0|] eqn:Eg;
      apply elem_of_dict_set in Hin; destruct Hin as [Heq|Hin]; try by eapply Hd.
    - injection Heq as -> ->.
      apply elem_of_app in Hr as [Hr|Hr].
      + eapply Hd; [|done]. by apply dict_get_elem.
      + apply list_elem_of_singleton in Hr as ->. split; [apply Hl; left|done].
    - injection Heq as -> ->.
      apply list_elem_of_singleton in Hr as ->. split; [apply Hl; left|done]. }
  intros Hg r Hr. apply list_elem_of_fmap in Hg as ([k grp] & -> & Hin). simpl in *.
  specialize (Hfold df [] (λ k grp H, False_ind _ (proj1 (elem_of_nil _) H)) (λ r H, H) k grp Hin).
  split; [by apply Hfold|]. intros r' Hr'.
  destruct (Hfold r Hr) as [_ ->]. by destruct (Hfold r' Hr') as [_ ->].
Qed.

(** *** Same-day KSUM *)

Lemma elem_of_side_items sd df_group i c :
  (i, c) ∈ side_items sd df_group →
  ∃ r, r ∈ df_group ∧ k_side r = sd ∧
       match sd with SideA => k_api_row_id r | SideE => k_erp_row_id r end = Some i.
Proof.
  unfold side_items. rewrite elem_of_remove_dups, list_elem_of_omap.
  intros (r & Hr & Hf). exists r. split; [done|].
  case_bool_decide; [|done]. split; [done|].
  destruct sd; [destruct (k_api_row_id r)|destruct (k_erp_row_id r)]; simpl in Hf; congruence.
Qed.

Lemma n1_step_links apis erps st erp :
  erp ∈ erps →
  (∀ p, p ∈ links_erp st ++ links_api st → p.1 ∈ apis.*1 ∧ p.2 ∈ erps.*1) →
  ∀ p, p ∈ links_erp (n1_step apis st erp) ++ links_api (n1_step apis st erp) →
       p.1 ∈ apis.*1 ∧ p.2 ∈ erps.*1.
Proof.
  intros He Hst p. unfold n1_step. destruct (_ || _); [apply Hst|].
  destruct (ksum_target _ _) as [sol|] eqn:Ek; [|apply Hst]. simpl.
  rewrite <- app_assoc, elem_of_app, (elem_of_app (_ <$> _)), list_elem_of_fmap.
  intros [Hp|[(aid & -> & Haid)|Hp]]; [apply Hst, elem_of_app; by left| |apply Hst, elem_of_app; by right].
  simpl. split; [|by apply list_elem_of_fmap_2].
  apply ksum_target_ids in Ek. apply Ek in Haid.
  apply list_elem_of_fmap in Haid as (it & -> & [_ Hit]%list_elem_of_filter).
  by apply list_elem_of_fmap_2.
Qed.

Lemma one_n_step_links apis erps st api :
  api ∈ apis →
  (∀ p, p ∈ links_erp st ++ links_api st → p.1 ∈ apis.*1 ∧ p.2 ∈ erps.*1) →
  ∀ p, p ∈ links_erp (one_n_step erps st api) ++ links_api (one_n_step erps st api) →
       p.1 ∈ apis.*1 ∧ p.2 ∈ erps.*1.
Proof.
  intros Ha Hst p. unfold one_n_step. destruct (_ || _); [apply Hst|].
  destruct (ksum_target _ _) as [sol|] eqn:Ek; [|apply Hst]. simpl.
  rewrite app_assoc, elem_of_app, list_elem_of_fmap.
  intros [Hp|(eid & -> & Heid)]; [by apply Hst|].
  simpl. split; [by apply list_elem_of_fmap_2|].
  apply ksum_target_ids in Ek. apply Ek in Heid.
  apply list_elem_of_fmap in Heid as (it & -> & [_ Hit]%list_elem_of_filter).
  by apply list_elem_of_fmap_2.
Qed.

Lemma solve_same_group_spec df_group p :
  p ∈ solve_same_group df_group →
  (∃ r, r ∈ df_group ∧ k_side r = SideA ∧ k_api_row_id r = Some p.1) ∧
  (∃ r, r ∈ df_group ∧ k_side r = SideE ∧ k_erp_row_id r = Some p.2).
Proof.
  unfold solve_same_group.
  set (apis0 := side_items SideA df_group). set (erps0 := side_items SideE df_group).
  destruct apis0 as [|a0 as0] eqn:Ea; [by intros ?%elem_of_nil|].
  destruct erps0 as [|e0 es0] eqn:Ee; [by intros ?%elem_of_nil|].
  rewrite <- Ea, <- Ee. clear Ea Ee a0 as0 e0 es0.
  set (big := bool_decide _).
  set (apis := if big then _ else apis0). set (erps := if big then _ else erps0).
  assert (apis ⊆ apis0) as Hsa.
  { unfold apis. destruct big; [|done]. intros x Hx.
    apply (sublist_subseteq _ _ (sublist_take _ _)) in Hx.
    by rewrite sort_abs_desc_perm in Hx. }
  assert (erps ⊆ erps0) as Hse.
  { unfold erps. destruct big; [|done]. intros x Hx.
    apply (sublist_subseteq _ _ (sublist_take _ _)) in Hx.
    by rewrite sort_abs_desc_perm in Hx. }
  assert (∀ l st, l ⊆ erps →
            (∀ p, p ∈ links_erp st ++ links_api st → p.1 ∈ apis.*1 ∧ p.2 ∈ erps.*1) →
            ∀ p, p ∈ links_erp (foldl (n1_step apis) st l) ++ links_api (foldl (n1_step apis) st l) →
                 p.1 ∈ apis.*1 ∧ p.2 ∈ erps.*1) as H1.
  { induction l as [|x l IH]; intros st Hl Hst; simpl; [done|].
    apply IH; [set_solver|]. apply n1_step_links; [apply Hl; left|done]. }
  assert (∀ l st, l ⊆ apis →
            (∀ p, p ∈ links_erp st ++ links_api st → p.1 ∈ apis.*1 ∧ p.2 ∈ erps.*1) →
            ∀ p, p ∈ links_erp (foldl (one_n_step erps) st l) ++ links_api (foldl (one_n_step erps) st l) →
                 p.1 ∈ apis.*1 ∧ p.2 ∈ erps.*1) as H2.
  { induction l as [|x l IH]; intros st Hl Hst; simpl; [done|].
    apply IH; [set_solver|]. apply one_n_step_links; [apply Hl; left|done]. }
  intros Hp. apply H2 in Hp as [Hpa Hpe]; [|done|].
  - apply list_elem_of_fmap in Hpa as ([i c] & -> & Hi). apply Hsa in Hi.
    apply list_elem_of_fmap in Hpe as ([j d] & -> & Hj). apply Hse in Hj.
    apply elem_of_side_items in Hi, Hj. simpl. done.
  - apply H1; [done|]. simpl. by intros ? ?%elem_of_nil.
Qed.

(** * The cascade: invariants of [consume] and of the stages *)

Lemma same_account_edge_mono A A' E E' p :
  A ⊆ A' → E ⊆ E' → same_account_edge A E p → same_account_edge A' E' p.
Proof.
  intros HA HE (a & e & Ha & He & H). exists a, e. split; [by apply HA|].
  split; [by apply HE|done].
Qed.

Lemma rn_join_same_account A E p : p ∈ rn_join A E → same_account_edge A E p.
Proof.
  intros (a & e & Ha & He & Hi & Hj & Hk)%rn_join_spec.
  exists a, e. unfold rn_key_A, rn_key_E in Hk. naive_solver.
Qed.

Lemma m2_same_same_account A E p : p ∈ m2_same A E → same_account_edge A E p.
Proof.
  unfold m2_same. destruct A as [|a0 A']; [by intros ?%elem_of_nil|].
  destruct E as [|e0 E']; [by intros ?%elem_of_nil|].
  set (A := a0 :: A'). set (E := e0 :: E').
  unfold apply_per_group. intros (l & Hp & Hl)%list_elem_of_join.
  apply list_elem_of_fmap in Hl as (grp & -> & Hgrp).
  apply solve_same_group_spec in Hp as [(ra & Hra & Hsa & Hia) (re & Hre & Hse & Hie)].
  destruct (partition_by_spec same_keys _ _ Hgrp ra Hra) as [Hdfa Hkeys].
  destruct (partition_by_spec same_keys _ _ Hgrp re Hre) as [Hdfe _].
  specialize (Hkeys re Hre).
  apply elem_of_app in Hdfa as [Hdfa|Hdfa];
    [|unfold E_k in Hdfa; apply list_elem_of_fmap in Hdfa as (? & -> & _); done].
  apply elem_of_app in Hdfe as [Hdfe|Hdfe];
    [unfold A_k in Hdfe; apply list_elem_of_fmap in Hdfe as (? & -> & _); done|].
  unfold A_k in Hdfa. apply list_elem_of_fmap in Hdfa as (a & -> & [_ Ha]%list_elem_of_filter).
  unfold E_k in Hdfe. apply list_elem_of_fmap in Hdfe as (e & -> & He).
  simpl in *. exists a, e. unfold same_keys in Hkeys. simpl in Hkeys.
  injection Hia as <-. injection Hie as <-. naive_solver.
Qed.

Lemma fb_edges_same_account A E p : p ∈ fb_edges A E → same_account_edge A E p.
Proof.
  unfold fb_edges. destruct A as [|a0 A']; [by intros ?%elem_of_nil|].
  destruct E as [|e0 E']; [by intros ?%elem_of_nil|].
  rewrite elem_of_remove_dups. intros (k & Hp & _)%list_elem_of_bind.
  apply list_elem_of_bind in Hp as (a & Hp & [Hka Ha]%list_elem_of_filter).
  apply list_elem_of_bind in Hp as (e & Hp & [Hke He]%list_elem_of_filter).
  apply list_elem_of_singleton in Hp as ->. exists a, e.
  unfold fb_key_A in Hka. unfold fb_key_E in Hke. simpl. naive_solver.
Qed.

Lemma consume_cons p0 tag' stage prio dd w :
  consume (p0 :: tag') stage prio dd w =
  {| w_A := filter (λ r, api_row_id r ∉ (remove_dups (p0 :: tag')).*1) (w_A w);
     w_E := filter (λ r, erp_row_id r ∉ (remove_dups (p0 :: tag')).*2) (w_E w);
     matches_parts :=
       matches_parts w ++
       [(λ p, mkMatchRow p.1 p.2 stage prio dd) <$> remove_dups (p0 :: tag')] |}.
Proof. done. Qed.

Lemma elem_of_emitted_consume tag stage prio dd w r :
  r ∈ emitted (consume tag stage prio dd w) ↔
  r ∈ emitted w ∨ ∃ p, p ∈ tag ∧ r = mkMatchRow p.1 p.2 stage prio dd.
Proof.
  destruct tag as [|p0 tag'].
  { split; [by left|]. intros [?|(p & Hp & _)]; [done|by apply elem_of_nil in Hp]. }
  rewrite consume_cons. generalize (p0 :: tag'). intros tag.
  unfold emitted. cbn [matches_parts].
  rewrite !list_elem_of_join. setoid_rewrite elem_of_app.
  setoid_rewrite list_elem_of_singleton. split.
  - intros (l & Hr & [Hl| ->]); [left; by exists l|right].
    apply list_elem_of_fmap in Hr as (p & -> & Hp).
    rewrite elem_of_remove_dups in Hp. by exists p.
  - intros [(l & Hr & Hl)|(p & Hp & ->)]; [exists l; by auto|].
    eexists. split; [|by right]. apply list_elem_of_fmap. exists p.
    split; [done|]. by apply elem_of_remove_dups.
Qed.

Lemma elem_of_w_A_consume tag stage prio dd w a :
  a ∈ w_A (consume tag stage prio dd w) ↔ a ∈ w_A w ∧ api_row_id a ∉ tag.*1.
Proof.
  destruct tag as [|p0 tag'].
  { simpl. rewrite elem_of_nil. tauto. }
  rewrite consume_cons. generalize (p0 :: tag'). intros tag. cbn [w_A].
  rewrite list_elem_of_filter. rewrite !list_elem_of_fmap.
  setoid_rewrite elem_of_remove_dups. tauto.
Qed.

Lemma elem_of_w_E_consume tag stage prio dd w e :
  e ∈ w_E (consume tag stage prio dd w) ↔ e ∈ w_E w ∧ erp_row_id e ∉ tag.*2.
Proof.
  destruct tag as [|p0 tag'].
  { simpl. rewrite elem_of_nil. tauto. }
  rewrite consume_cons. generalize (p0 :: tag'). intros tag. cbn [w_E].
  rewrite list_elem_of_filter. rewrite !list_elem_of_fmap.
  setoid_rewrite elem_of_remove_dups. tauto.
Qed.

(** [consume] keeps the invariant, provided an exact-cent stage only emits
    edges between rows of one account that are still in the working set. *)
Lemma consume_inv A0 E0 tag stage prio dd w :
  cascade_inv A0 E0 w →
  (stage ∈ exact_stages → ∀ p, p ∈ tag → same_account_edge (w_A w) (w_E w) p) →
  cascade_inv A0 E0 (consume tag stage prio dd w).
Proof.
  intros [Hout Hexcl HA HE Hacc] Htag.
  assert (∀ p, stage ∈ exact_stages → p ∈ tag →
               p.1 ∈ (api_row_id <$> w_A w) ∧ p.2 ∈ (erp_row_id <$> w_E w)) as Hlive.
  { intros p Hs Hp. destruct (Htag Hs p Hp) as (a & e & Ha & He & <- & <- & _).
    split; by apply list_elem_of_fmap_2. }
  split.
  - intros r [Hr|(p & Hp & ->)]%elem_of_emitted_consume; simpl.
    + destruct (Hout r Hr) as [H1 H2]. split.
      * intros (a & Hi & [Ha _]%elem_of_w_A_consume)%list_elem_of_fmap.
        apply H1. rewrite Hi. by apply list_elem_of_fmap_2.
      * intros (e & Hi & [He _]%elem_of_w_E_consume)%list_elem_of_fmap.
        apply H2. rewrite Hi. by apply list_elem_of_fmap_2.
    + split.
      * intros (a & Hi & [_ Ha]%elem_of_w_A_consume)%list_elem_of_fmap.
        apply Ha. rewrite <- Hi. by apply list_elem_of_fmap_2.
      * intros (e & Hi & [_ He]%elem_of_w_E_consume)%list_elem_of_fmap.
        apply He. rewrite <- Hi. by apply list_elem_of_fmap_2.
  - intros r1 r2 [H1|(p1 & Hp1 & ->)]%elem_of_emitted_consume
                 [H2|(p2 & Hp2 & ->)]%elem_of_emitted_consume Hs1 Hs2 Hne; simpl in *.
    + by apply Hexcl.
    + destruct (Hout r1 H1) as [Ho1 Ho2]. destruct (Hlive p2 Hs2 Hp2) as [Hl1 Hl2].
      split; congruence.
    + destruct (Hout r2 H2) as [Ho1 Ho2]. destruct (Hlive p1 Hs1 Hp1) as [Hl1 Hl2].
      split; congruence.
    + done.
  - intros a [Ha _]%elem_of_w_A_consume. by apply HA.
  - intros e [He _]%elem_of_w_E_consume. by apply HE.
  - intros r [Hr|(p & Hp & ->)]%elem_of_emitted_consume Hs; simpl in *; [by apply Hacc|].
    eapply same_account_edge_mono; [exact HA|exact HE|]. destruct p. by apply Htag.
Qed.

Lemma cascade_inv_init A0 E0 : cascade_inv A0 E0 (mkWork A0 E0 []).
Proof.
  split; simpl; try done.
  - intros r Hr. by apply elem_of_nil in Hr.
  - intros r1 r2 Hr. by apply elem_of_nil in Hr.
  - intros r Hr. by apply elem_of_nil in Hr.
Qed.

Lemma stage_desc_inv A0 E0 desc w mt :
  mt ∈ DESC_STAGE_ORDER → cascade_inv A0 E0 w → cascade_inv A0 E0 (stage_desc desc w mt).
Proof.
  intros Hmt Hw. unfold stage_desc.
  assert (mt ∉ exact_stages) as Hnot.
  { assert (Forall (λ s, s ∉ exact_stages) DESC_STAGE_ORDER) as Hall
      by (apply (bool_decide_unpack _); vm_compute; exact I).
    rewrite Forall_forall in Hall. by apply Hall. }
  destruct (dict_get desc mt) as [[|p0 ps]|]; [done| |done].
  match goal with |- cascade_inv _ _ (match ?d with [] => _ | _ => _ end) => destruct d eqn:Ed end;
    [done|]. by apply consume_inv.
Qed.

(** * The cascade: stage exclusivity and account boundaries *)

Lemma stage_desc_all_fold desc w :
  stage_desc_all desc w = foldl (stage_desc desc) w DESC_STAGE_ORDER.
Proof. unfold stage_desc_all. by destruct desc. Qed.

Lemma run_stages_cascade A0 E0 desc :
  run_stages A0 E0 desc = run_prefix (length (cascade desc)) A0 E0 desc.
Proof.
  unfold run_stages, run_prefix. rewrite firstn_all, stage_desc_all_fold.
  unfold cascade. rewrite !foldl_app, foldl_fmap. cbn [foldl]. reflexivity.
Qed.

Lemma stage_inv A0 E0 desc f w :
  f ∈ cascade desc → cascade_inv A0 E0 w → cascade_inv A0 E0 (f w).
Proof.
  unfold cascade. rewrite !elem_of_app, list_elem_of_fmap, !elem_of_cons, !elem_of_nil.
  intros Hf Hw.
  assert (∀ (P : ApiRow → Prop) `{∀ r, Decision (P r)} p,
            p ∈ rn_join (filter P (w_A w)) (w_E w) →
            same_account_edge (w_A w) (w_E w) p) as Hrn.
  { intros P ? p Hp. apply rn_join_same_account in Hp.
    eapply same_account_edge_mono; [| |exact Hp]; [|done].
    intros a [_ Ha]%list_elem_of_filter. done. }
  destruct Hf as [[->|[->|[->|[]]]]|[(mt & -> & Hmt)|[->|[->|[->|[]]]]]].
  - apply consume_inv; [done|]. intros _. apply Hrn.
  - apply consume_inv; [done|]. intros _. apply Hrn.
  - apply consume_inv; [done|]. intros _. apply Hrn.
  - by apply stage_desc_inv.
  - apply consume_inv; [done|]. intros _ p. apply rn_join_same_account.
  - apply consume_inv; [done|]. intros _ p. apply m2_same_same_account.
  - apply consume_inv; [done|]. intros _ p. apply fb_edges_same_account.
Qed.

Lemma run_prefix_inv n A0 E0 desc : cascade_inv A0 E0 (run_prefix n A0 E0 desc).
Proof.
  unfold run_prefix.
  assert (∀ l w, l ⊆ cascade desc → cascade_inv A0 E0 w →
                 cascade_inv A0 E0 (foldl (λ w f, f w) w l)) as Hfold.
  { induction l as [|f l IH]; intros w Hl Hw; simpl; [done|].
    apply IH; [set_solver|]. eapply stage_inv; [apply Hl; left|done]. }
  apply Hfold; [|apply cascade_inv_init].
  apply sublist_subseteq, sublist_take.
Qed.

(** C3. After any number of stages, every row that has been matched is out
    of both working sets, so the next stage cannot see it; consequently no
    api_row_id and no erp_row_id occurs in edges of two different stages
    among M0_TAX, M0_BANKFEES, M0_RENT, M1_SAME_DAY, M2_KSUM, 07_FALLBACK. *)
Theorem stage_exclusivity A0 E0 desc :
  (∀ n r, r ∈ emitted (run_prefix n A0 E0 desc) →
          (m_api_row_id r ∉ api_row_id <$> w_A (run_prefix n A0 E0 desc)) ∧
          (m_erp_row_id r ∉ erp_row_id <$> w_E (run_prefix n A0 E0 desc))) ∧
  (∀ r1 r2, r1 ∈ emitted (run_stages A0 E0 desc) →
            r2 ∈ emitted (run_stages A0 E0 desc) →
            m_stage r1 ∈ exact_stages → m_stage r2 ∈ exact_stages →
            m_stage r1 ≠ m_stage r2 →
            m_api_row_id r1 ≠ m_api_row_id r2 ∧ m_erp_row_id r1 ≠ m_erp_row_id r2).
Proof.
  split.
  - intros n. apply (ci_out _ _ _ (run_prefix_inv n A0 E0 desc)).
  - rewrite run_stages_cascade. apply (ci_excl _ _ _ (run_prefix_inv _ A0 E0 desc)).
Qed.

Example demo_tax_run :
  emitted (run_stages demo_tax_A0 demo_tax_E0 []) =
  [ mkMatchRow 0 1 "M0_TAX_DMINUS1_RN_1TO1" 5 1; mkMatchRow 1 0 "M1_SAME_DAY_RN" 10 0 ].
Proof. vm_compute. reflexivity. Qed.

Lemma stage_exclusivity_witness :
  ((0 ∉ api_row_id <$> w_A (run_prefix 1 demo_tax_A0 demo_tax_E0 [])) ∧
   (1 ∉ erp_row_id <$> w_E (run_prefix 1 demo_tax_A0 demo_tax_E0 []))) ∧
  (0 ≠ 1 ∧ 1 ≠ 0).
Proof.
  destruct (stage_exclusivity demo_tax_A0 demo_tax_E0 []) as [Hout Hexcl]. split.
  - apply (Hout 1%nat (mkMatchRow 0 1 "M0_TAX_DMINUS1_RN_1TO1" 5 1)).
    vm_compute. left.
  - apply (Hexcl (mkMatchRow 0 1 "M0_TAX_DMINUS1_RN_1TO1" 5 1)
                 (mkMatchRow 1 0 "M1_SAME_DAY_RN" 10 0)).
    + vm_compute. left.
    + vm_compute. right. left.
    + vm_compute. left.
    + vm_compute. do 3 right. left.
    + discriminate.
Defined.

(** * Description stages: tenant, bank and account of a matched group *)

Lemma same_static_trans T1 T2 T3 :
  same_static T1 T2 → same_static T2 T3 → same_static T1 T3.
Proof. intros H1 H2 j. by rewrite H2, H1. Qed.

Lemma mark_static T i : same_static T (mark T i).
Proof.
  intros j. unfold mark. destruct (decide (i = j)) as [->|Hne].
  - rewrite list_lookup_alter_eq. by destruct (T !! j).
  - by rewrite list_lookup_alter_ne.
Qed.

Lemma foldl_mark_static T l : same_static T (foldl mark T l).
Proof.
  revert T. induction l as [|i l IH]; intros T; simpl; [done|].
  eapply same_static_trans; [apply mark_static|apply IH].
Qed.

Lemma same_static_lookup T T' j tx' :
  same_static T T' → T' !! j = Some tx' →
  ∃ tx, T !! j = Some tx ∧ set_matched tx = set_matched tx'.
Proof.
  intros H Hj. specialize (H j). rewrite Hj in H. simpl in H.
  destruct (T !! j) as [tx|]; [|done]. exists tx. split; [done|].
  simpl in H. congruence.
Qed.

Lemma same_static_sym T T' : same_static T T' → same_static T' T.
Proof. intros H j. by rewrite H. Qed.

(** The fields that [matched = True] leaves alone. *)
Lemma set_matched_fields x y :
  set_matched x = set_matched y →
  tx_side x = tx_side y ∧ tx_key x = tx_key y ∧ tx_idx x = tx_idx y ∧
  tx_tenant_id x = tx_tenant_id y ∧ tx_bank_code x = tx_bank_code y ∧
  tx_acc_norm x = tx_acc_norm y ∧ tx_acc_tail x = tx_acc_tail y.
Proof. intros [= ]. done. Qed.

Lemma anchored_ok_static T T' m :
  same_static T T' → anchored_ok T m → anchored_ok T' m.
Proof.
  intros Hs Hm anchor j tx Ha Hj Htx.
  destruct (same_static_lookup _ _ _ _ Hs Ha) as (a0 & Ha0 & Ea).
  destruct (same_static_lookup _ _ _ _ Hs Htx) as (t0 & Ht0 & Et).
  apply set_matched_fields in Ea as (_ & _ & _ & Ea1 & Ea2 & Ea3 & _).
  apply set_matched_fields in Et as (_ & _ & _ & Et1 & Et2 & Et3 & _).
  destruct (Hm a0 j t0 Ha0 Hj Ht0) as (H1 & H2 & H3).
  unfold acc_compatible in *. rewrite <- Ea1, <- Ea2, <- Ea3, <- Et1, <- Et2, <- Et3.
  done.
Qed.

Lemma uniform_ok_static T T' m :
  same_static T T' → uniform_ok T m → uniform_ok T' m.
Proof.
  intros Hs Hm i j x y Hi Hj Hx Hy.
  destruct (same_static_lookup _ _ _ _ Hs Hx) as (x0 & Hx0 & Ex).
  destruct (same_static_lookup _ _ _ _ Hs Hy) as (y0 & Hy0 & Ey).
  apply set_matched_fields in Ex as (_ & _ & _ & Ex1 & Ex2 & Ex3 & _).
  apply set_matched_fields in Ey as (_ & _ & _ & Ey1 & Ey2 & Ey3 & _).
  destruct (Hm i j x0 y0 Hi Hj Hx0 Hy0) as (H1 & H2 & H3).
  rewrite <- Ex1, <- Ex2, <- Ex3, <- Ey1, <- Ey2, <- Ey3. done.
Qed.

Lemma group_ok_static T T' g :
  same_static T T' → group_ok T g → group_ok T' g.
Proof.
  intros Hs Hg i j ta te Hi Hj Ha He Hsa Hse.
  destruct (same_static_lookup _ _ _ _ Hs Ha) as (a0 & Ha0 & Ea).
  destruct (same_static_lookup _ _ _ _ Hs He) as (e0 & He0 & Ee).
  apply set_matched_fields in Ea as (Ea0 & _ & _ & Ea1 & Ea2 & Ea3 & _).
  apply set_matched_fields in Ee as (Ee0 & _ & _ & Ee1 & Ee2 & Ee3 & _).
  destruct (Hg i j a0 e0 Hi Hj Ha0 He0) as (H1 & H2 & H3); [congruence..|].
  unfold desc_pair_ok. rewrite <- Ea1, <- Ea2, <- Ea3, <- Ee1, <- Ee2, <- Ee3.
  done.
Qed.

Lemma other_account_false anchor tx :
  other_account anchor tx = false → acc_compatible anchor tx.
Proof.
  unfold other_account, acc_compatible.
  destruct (decide (tx_acc_norm anchor = "")) as [?|H1]; [by left|].
  destruct (decide (tx_acc_norm tx = "")) as [?|H2]; [right; by left|].
  destruct (decide (tx_acc_norm tx = tx_acc_norm anchor)) as [?|H3]; [by do 2 right|].
  rewrite !bool_decide_eq_false_2 by done. done.
Qed.

(** ** 01_DESC_MN_SIGNATURE *)

Section Signature.

Variable api_keywords : list (list string).
Variable erp_keywords : list (list string).

Lemma cluster_step_ok T cl i tx :
  T !! i = Some tx → clusters_ok T cl →
  clusters_ok T (cluster_step api_keywords erp_keywords cl (i, tx)).
Proof.
  intros Hi Hcl. unfold cluster_step. cbn [fst snd].
  destruct (tx_matched tx || bool_decide (tx_sign tx = 0)); [done|].
  destruct (bool_decide (tx_bank_code tx = "") || bool_decide (tx_acc_norm tx = ""));
    [done|].
  destruct (bool_decide (get_signature api_keywords erp_keywords tx = "")); [done|].
  set (key := (tx_tenant_id tx, tx_bank_code tx, tx_acc_norm tx,
               tx_work_date tx, tx_sign tx,
               get_signature api_keywords erp_keywords tx)).
  intros key' sides' i' [Hnew|Hold]%elem_of_dict_set Hi'; [|by eapply Hcl].
  assert (i' = i ∨ ∃ sides, (key, sides) ∈ cl ∧ i' ∈ sides.1 ++ sides.2) as Hcase.
  { destruct (dict_get cl key) as [sides|] eqn:Hget; simpl in Hnew.
    - apply dict_get_elem in Hget.
      assert (i' ∈ sides.1 ++ sides.2 → ∃ sides, (key, sides) ∈ cl ∧ i' ∈ sides.1 ++ sides.2)
        as Hold by (intros ?; by exists sides).
      rewrite elem_of_app in Hold.
      destruct (tx_side tx); injection Hnew as -> ->; cbn [fst snd] in Hi';
        rewrite !elem_of_app, list_elem_of_singleton in Hi'; tauto.
    - destruct (tx_side tx); injection Hnew as -> ->; cbn [fst snd] in Hi';
        rewrite !elem_of_app, list_elem_of_singleton, !elem_of_nil in Hi';
        left; tauto. }
  destruct Hcase as [->|(sides & Hs & Hin)].
  - exists tx. split; [done|]. by injection Hnew as ->.
  - injection Hnew as -> _. by eapply Hcl.
Qed.

Lemma clusters_fold_ok T l cl :
  (∀ itx, itx ∈ l → T !! itx.1 = Some itx.2) → clusters_ok T cl →
  clusters_ok T (foldl (cluster_step api_keywords erp_keywords) cl l).
Proof.
  revert cl. induction l as [|[i tx] l IH]; intros cl Hl Hcl; simpl; [done|].
  apply IH; [intros itx Hin; apply Hl; by right|].
  apply cluster_step_ok; [|done]. apply (Hl (i, tx)). by left.
Qed.

Lemma lookup_imap_pair {A} (T : list A) (itx : nat * A) :
  itx ∈ imap pair T ↔ T !! itx.1 = Some itx.2.
Proof.
  rewrite elem_of_lookup_imap. split.
  - by intros (i & x & -> & Hx).
  - intros H. exists itx.1, itx.2. by destruct itx.
Qed.

Lemma signature_step_ok T eps clusters st :
  clusters_ok T clusters →
  ∀ l, l ⊆ clusters →
  same_static T st.1 → (∀ m, m ∈ st.2 → uniform_ok T m) →
  let st' := foldl (signature_step eps) st l in
  same_static T st'.1 ∧ ∀ m, m ∈ st'.2 → uniform_ok T m.
Proof.
  intros Hcl l. revert st. induction l as [|kv l IH]; intros st Hl Hs Hm; simpl; [done|].
  apply IH; [set_solver| |].
  - unfold signature_step.
    destruct (filter _ kv.2.1); [done|]. destruct (filter _ kv.2.2); [done|].
    case_bool_decide; [|done]. cbn [fst].
    eapply same_static_trans; [exact Hs|apply foldl_mark_static].
  - unfold signature_step.
    destruct (filter _ kv.2.1) as [|a api_idxs] eqn:Ea; [done|].
    destruct (filter _ kv.2.2) as [|e erp_idxs] eqn:Ee; [done|].
    case_bool_decide; [|done]. cbn [snd].
    intros m [Hin|Hin]%elem_of_app; [by apply Hm|].
    apply list_elem_of_singleton in Hin as ->.
    assert (∀ i, i ∈ (e :: erp_idxs) ++ (a :: api_idxs) → i ∈ kv.2.1 ++ kv.2.2) as Hsub.
    { intros i [Hi|Hi]%elem_of_app; rewrite elem_of_app.
      - right. rewrite <- Ee in Hi. by apply list_elem_of_filter in Hi as [_ ?].
      - left. rewrite <- Ea in Hi. by apply list_elem_of_filter in Hi as [_ ?]. }
    intros i j x y Hi Hj Hx Hy. cbn [fst snd] in Hi, Hj.
    assert (kv ∈ clusters) as Hkv by (apply Hl; left).
    destruct kv as [key sides].
    destruct (Hcl key sides i Hkv (Hsub i Hi)) as (x' & Hx' & Kx).
    destruct (Hcl key sides j Hkv (Hsub j Hj)) as (y' & Hy' & Ky).
    assert (x' = x) as -> by congruence. assert (y' = y) as -> by congruence.
    rewrite <- Ky in Kx. by injection Kx.
Qed.

Lemma match_many_to_many_ok T eps :
  let r := _match_many_to_many_by_signature api_keywords erp_keywords T eps in
  same_static T r.1 ∧ ∀ m, m ∈ r.2 → uniform_ok T m.
Proof.
  unfold _match_many_to_many_by_signature.
  apply signature_step_ok with
    (clusters := foldl (cluster_step api_keywords erp_keywords) [] (imap pair T)).
  - apply clusters_fold_ok.
    + intros itx. apply lookup_imap_pair.
    + intros key sides i Hin. by apply elem_of_nil in Hin.
  - done.
  - done.
  - intros m Hin. by apply elem_of_nil in Hin.
Qed.

End Signature.

(** ** 02_DESC_FULL_1N and 03_DESC_KSUM *)

Lemma insert_by_desc_perm {A} (key : A → decimal) x l :
  insert_by_desc key x l ≡ₚ x :: l.
Proof.
  induction l as [|y l IH]; simpl; [done|].
  case_bool_decide; [done|]. rewrite IH. apply Permutation_swap.
Qed.

Lemma sort_by_desc_perm {A} (key : A → decimal) l : sort_by_desc key l ≡ₚ l.
Proof.
  unfold sort_by_desc. induction l as [|x l IH]; simpl; [done|].
  by rewrite insert_by_desc_perm, IH.
Qed.

Lemma subset_sum_for_anchor_sub target cands max_len eps max_nodes res j :
  _subset_sum_for_anchor target cands max_len eps max_nodes = Some res →
  j ∈ res → ∃ tx, (j, tx) ∈ cands.
Proof.
  unfold _subset_sum_for_anchor.
  destruct (depth_loop _ _ _ _ _) as [res_idx|]; [|done].
  intros [= <-] (i & _ & Hi)%list_elem_of_omap.
  destruct (sort_by_desc _ cands !! i) as [[j' tx]|] eqn:Hc; [|done].
  injection Hi as ->. exists tx.
  apply list_elem_of_lookup_2 in Hc. by rewrite sort_by_desc_perm in Hc.
Qed.

Section Anchored.

Variable api_keywords : list (list string).
Variable erp_keywords : list (list string).

Lemma full_candidate_true k anchor kws dates tx :
  full_candidate api_keywords erp_keywords k anchor kws dates tx = true →
  tx_tenant_id tx = tx_tenant_id anchor ∧ tx_bank_code tx = tx_bank_code anchor ∧
  acc_compatible anchor tx.
Proof.
  unfold full_candidate.
  destruct (_ || _ || _); [done|].
  destruct (negb (bool_decide (_ ∈ dates))); [done|].
  destruct (decide (tx_tenant_id tx = tx_tenant_id anchor)) as [Ht|Ht];
    [|by rewrite (bool_decide_eq_false_2 _ Ht)].
  destruct (decide (tx_bank_code tx = tx_bank_code anchor)) as [Hb|Hb];
    [|by rewrite (bool_decide_eq_false_2 _ Hb), (bool_decide_eq_true_2 _ Ht)].
  rewrite (bool_decide_eq_true_2 _ Ht), (bool_decide_eq_true_2 _ Hb). simpl.
  destruct (other_account anchor tx) eqn:Ho; [done|].
  intros _. by apply other_account_false in Ho.
Qed.

Lemma ksum_candidate_true k anchor kws tx :
  ksum_candidate api_keywords erp_keywords k anchor kws tx = true →
  tx_tenant_id tx = tx_tenant_id anchor ∧ tx_bank_code tx = tx_bank_code anchor ∧
  acc_compatible anchor tx.
Proof.
  unfold ksum_candidate.
  destruct (_ || _ || _); [done|].
  destruct (negb (bool_decide (tx_work_date tx = _))); [done|].
  destruct (decide (tx_tenant_id tx = tx_tenant_id anchor)) as [Ht|Ht];
    [|by rewrite (bool_decide_eq_false_2 _ Ht)].
  destruct (decide (tx_bank_code tx = tx_bank_code anchor)) as [Hb|Hb];
    [|by rewrite (bool_decide_eq_false_2 _ Hb), (bool_decide_eq_true_2 _ Ht)].
  rewrite (bool_decide_eq_true_2 _ Ht), (bool_decide_eq_true_2 _ Hb). simpl.
  destruct (other_account anchor tx) eqn:Ho; [done|].
  intros _. by apply other_account_false in Ho.
Qed.

Lemma full_step_ok T eps k st i :
  same_static T st.1 → (∀ m, m ∈ st.2 → anchored_ok T m) →
  let st' := full_step api_keywords erp_keywords eps k st i in
  same_static T st'.1 ∧ ∀ m, m ∈ st'.2 → anchored_ok T m.
Proof.
  intros Hs Hm. unfold full_step.
  destruct (st.1 !! i) as [anchor|] eqn:Ha; [|done].
  destruct (get_keywords _ _ anchor) as [|kw kws] eqn:Hk; [done|].
  set (erp_idxs := imap pair st.1 ≫= _).
  assert (anchored_ok st.1 (i, erp_idxs)) as Hnew.
  { intros anchor' j tx Ha' Hj Htx. cbn [fst snd] in *.
    assert (anchor' = anchor) as -> by congruence.
    apply list_elem_of_bind in Hj as ([j' tx'] & Hj & Hin).
    apply lookup_imap_pair in Hin. cbn [fst snd] in *.
    destruct (full_candidate _ _ _ _ _ _ _) eqn:Hc in Hj;
      [|by apply elem_of_nil in Hj].
    apply list_elem_of_singleton in Hj as ->.
    assert (tx' = tx) as -> by congruence.
    by apply full_candidate_true in Hc. }
  destruct erp_idxs as [|e erp_idxs'] eqn:Ee; [done|].
  case_bool_decide; [|done]. cbn [fst snd]. split.
  - eapply same_static_trans; [exact Hs|].
    eapply same_static_trans; [apply mark_static|apply foldl_mark_static].
  - intros m [Hin|Hin]%elem_of_app; [by apply Hm|].
    apply list_elem_of_singleton in Hin as ->.
    eapply anchored_ok_static; [apply same_static_sym, Hs|done].
Qed.

Lemma match_full_group_ok T eps min_abs k :
  let r := _match_full_group_by_description api_keywords erp_keywords T eps min_abs k in
  same_static T r.1 ∧ ∀ m, m ∈ r.2 → anchored_ok T m.
Proof.
  unfold _match_full_group_by_description.
  match goal with |- context [foldl _ _ ?l] => generalize l end.
  intros l.
  assert (∀ st, same_static T st.1 → (∀ m, m ∈ st.2 → anchored_ok T m) →
           let st' := foldl (full_step api_keywords erp_keywords eps k) st l in
           same_static T st'.1 ∧ ∀ m, m ∈ st'.2 → anchored_ok T m) as Hfold.
  { induction l as [|i l IH]; intros st Hs Hm; simpl; [done|].
    destruct (full_step_ok T eps k st i Hs Hm) as [Hs' Hm']. by apply IH. }
  apply Hfold; [done|]. intros m Hin. by apply elem_of_nil in Hin.
Qed.

Lemma ksum_step_ok T eps max_len min_abs max_nodes k st i :
  same_static T st.1.2 → (∀ m, m ∈ st.2 → anchored_ok T m) →
  let st' := ksum_step api_keywords erp_keywords eps max_len min_abs max_nodes k st i in
  same_static T st'.1.2 ∧ ∀ m, m ∈ st'.2 → anchored_ok T m.
Proof.
  destruct st as [[stopped txs] matches]. cbn [fst snd]. intros Hs Hm.
  unfold ksum_step. destruct stopped; [done|].
  destruct (txs !! i) as [anchor|] eqn:Ha; [|done].
  destruct (tx_matched anchor || bool_decide (tx_sign anchor = 0)); [done|].
  case_bool_decide; [done|].
  destruct (_ <? k)%nat; [done|].
  set (cands := filter _ (imap pair txs)).
  destruct cands as [|c cands'] eqn:Ec; [done|]. rewrite <- Ec.
  destruct (_subset_sum_for_anchor _ _ _ _ _) as [[|g group]|] eqn:Hsub; [done| |done].
  cbn [fst snd]. split.
  - eapply same_static_trans; [exact Hs|].
    eapply same_static_trans; [apply mark_static|apply foldl_mark_static].
  - intros m [Hin|Hin]%elem_of_app; [by apply Hm|].
    apply list_elem_of_singleton in Hin as ->.
    eapply anchored_ok_static; [apply same_static_sym, Hs|].
    intros anchor' j tx Ha' Hj Htx. cbn [fst snd] in *.
    assert (anchor' = anchor) as -> by congruence.
    destruct (subset_sum_for_anchor_sub _ _ _ _ _ _ j Hsub Hj) as (tx' & Hin).
    unfold cands in Hin. apply list_elem_of_filter in Hin as [Hc Hin].
    apply lookup_imap_pair in Hin. cbn [fst snd] in *.
    assert (tx' = tx) as -> by congruence.
    by apply ksum_candidate_true in Hc.
Qed.

Lemma match_one_to_many_ok T eps max_len min_abs max_nodes k :
  let r := _match_one_to_many_by_description api_keywords erp_keywords T eps
             max_len min_abs max_nodes k in
  same_static T r.1 ∧ ∀ m, m ∈ r.2 → anchored_ok T m.
Proof.
  unfold _match_one_to_many_by_description.
  generalize (sort_by_desc (abs_amount_at T) (seq 0 (length T))). intros l.
  assert (∀ st, same_static T st.1.2 → (∀ m, m ∈ st.2 → anchored_ok T m) →
           let st' := foldl (ksum_step api_keywords erp_keywords eps max_len
                               min_abs max_nodes k) st l in
           same_static T st'.1.2 ∧ ∀ m, m ∈ st'.2 → anchored_ok T m) as Hfold.
  { induction l as [|i l IH]; intros st Hs Hm; simpl; [done|].
    destruct (ksum_step_ok T eps max_len min_abs max_nodes k st i Hs Hm) as [Hs' Hm'].
    by apply IH. }
  apply (Hfold (false, T, [])); [done|]. intros m Hin. by apply elem_of_nil in Hin.
Qed.

End Anchored.

(** ** From matched groups to edges between loaded rows *)

Lemma uniform_group T m :
  uniform_ok T m → group_ok T ("01_DESC_MN_SIGNATURE", m.1, m.2).
Proof.
  intros Hm i j ta te Hi Hj Ha He _ _. cbn [fst snd] in *.
  destruct (Hm i j ta te) as (H1 & H2 & H3); [set_solver..|done|done|].
  split; [done|]. split; [done|]. by left.
Qed.

Lemma acc_compatible_pair stage x y :
  stage ∈ account_wildcard_stages → acc_compatible x y →
  (tx_acc_norm x = tx_acc_norm y ∨
   (stage ∈ account_wildcard_stages ∧ (tx_acc_norm x = "" ∨ tx_acc_norm y = ""))).
Proof. intros Hs [H|[H|H]]; [right|right|left]; tauto. Qed.

Lemma acc_compatible_sym x y : acc_compatible x y → acc_compatible y x.
Proof. unfold acc_compatible. intros [H|[H|H]]; auto. Qed.

Lemma anchored_group_api T stage m :
  stage ∈ account_wildcard_stages → anchored_ok T m → group_ok T (stage, m.2, [m.1]).
Proof.
  intros Hs Hm i j ta te Hi Hj Ha He _ _. cbn [fst snd] in *.
  apply list_elem_of_singleton in Hi as ->.
  destruct (Hm ta j te Ha Hj He) as (H1 & H2 & H3).
  split; [done|]. split; [done|]. by apply acc_compatible_pair.
Qed.

Lemma anchored_group_erp T stage m :
  stage ∈ account_wildcard_stages → anchored_ok T m → group_ok T (stage, [m.1], m.2).
Proof.
  intros Hs Hm i j ta te Hi Hj Ha He _ _. cbn [fst snd] in *.
  apply list_elem_of_singleton in Hj as ->.
  destruct (Hm te i ta He Hi Ha) as (H1 & H2 & H3).
  split; [done|]. split; [done|].
  by apply acc_compatible_pair, acc_compatible_sym.
Qed.

Lemma wildcard_stage_02 : "02_DESC_FULL_1N" ∈ account_wildcard_stages.
Proof. left. Qed.

Lemma wildcard_stage_03_1N : "03_DESC_KSUM_1N" ∈ account_wildcard_stages.
Proof. right. left. Qed.

Lemma wildcard_stage_03_N1 : "03_DESC_KSUM_N1" ∈ account_wildcard_stages.
Proof. do 2 right. left. Qed.

(** Every group that [reconcile_by_description] reports joins transactions
    of one tenant and one bank code, with compatible account numbers. *)
Lemma reconcile_groups_ok api_df erp_df :
  let r := reconcile_by_description api_df erp_df in
  same_static (_build_txs api_df erp_df) r.1 ∧ ∀ g, g ∈ r.2 → group_ok r.1 g.
Proof.
  unfold reconcile_by_description.
  set (T0 := _build_txs api_df erp_df).
  set (ak := api_keywords_of api_df). set (ek := erp_keywords_of erp_df).
  set (r1 := _match_many_to_many_by_signature ak ek T0 _).
  set (r2 := _match_full_group_by_description ak ek r1.1 _ _ _).
  set (r3 := _match_one_to_many_by_description ak ek r2.1 _ _ _ _ _).
  destruct (match_many_to_many_ok ak ek T0 (Qcanon.Qcdiv (Qc_of_Z 1) (Qc_of_Z 100)))
    as [S1 M1].
  destruct (match_full_group_ok ak ek r1.1 (Qcanon.Qcdiv (Qc_of_Z 1) (Qc_of_Z 100))
              (Qc_of_Z 100000) 2) as [S2 M2].
  destruct (match_one_to_many_ok ak ek r2.1 (Qcanon.Qcdiv (Qc_of_Z 1) (Qc_of_Z 100))
              25 (Qc_of_Z 100000) 200000 2) as [S3 M3].
  fold r1 in S1, M1. fold r2 in S2, M2. fold r3 in S3, M3.
  cbn zeta. cbn [fst snd].
  assert (same_static r1.1 r3.1) as S13 by (by eapply same_static_trans).
  assert (same_static T0 r3.1) as S03 by (by eapply same_static_trans).
  split; [done|].
  intros g [Hg|[Hg|Hg]%elem_of_app]%elem_of_app;
    apply list_elem_of_fmap in Hg as (m & -> & Hm).
  - apply uniform_group. eapply uniform_ok_static; [exact S03|by apply M1].
  - apply anchored_group_api; [apply wildcard_stage_02|].
    eapply anchored_ok_static; [exact S13|by apply M2].
  - assert (anchored_ok r3.1 m) as Hok
      by (eapply anchored_ok_static; [exact S3|by apply M3]).
    destruct (tx_side <$> r3.1 !! m.1) as [[]|].
    + by apply anchored_group_api; [apply wildcard_stage_03_N1|].
    + by apply anchored_group_erp; [apply wildcard_stage_03_1N|].
    + by apply anchored_group_api; [apply wildcard_stage_03_N1|].
Qed.

Lemma unique_first_sub seen l x : x ∈ unique_first seen l → x ∈ l.
Proof.
  revert seen. induction l as [|y l IH]; intros seen; simpl; [done|].
  case_bool_decide.
  - intros Hx. right. by eapply IH.
  - intros [->|Hx]%elem_of_cons; [by left|right; by eapply IH].
Qed.

Lemma elem_of_group_keys sd txs idxs k :
  k ∈ group_keys sd txs idxs →
  ∃ i tx, i ∈ idxs ∧ txs !! i = Some tx ∧ tx_side tx = sd ∧ tx_key tx = k.
Proof.
  unfold group_keys. intros (i & Hi & Hk)%list_elem_of_omap.
  destruct (txs !! i) as [tx|] eqn:Htx; [|done].
  case_bool_decide; [|done]. injection Hk as <-. by exists i, tx.
Qed.

Lemma uid_map_api_spec A0 u rid :
  uid_map_api A0 !! u = Some rid →
  ∃ a, a ∈ A0 ∧ api_uid a = u ∧ api_row_id a = rid.
Proof.
  unfold uid_map_api.
  assert (∀ l (m : gmap string Z), foldl (λ m r, <[api_uid r := api_row_id r]> m) m l !! u = Some rid →
            m !! u = Some rid ∨ ∃ a, a ∈ l ∧ api_uid a = u ∧ api_row_id a = rid) as Hfold.
  { induction l as [|r l IH]; intros m; simpl; [by left|].
    intros [Hm|(a & Ha & Hu)]%IH.
    - destruct (decide (api_uid r = u)) as [<-|Hne].
      + rewrite lookup_insert_eq in Hm. injection Hm as <-. right. exists r.
        split; [by left|done].
      + rewrite lookup_insert_ne in Hm by done. by left.
    - right. exists a. split; [by right|done]. }
  intros [Hm|H]%Hfold; [by rewrite lookup_empty in Hm|done].
Qed.

Lemma uid_map_erp_spec E0 u rid :
  uid_map_erp E0 !! u = Some rid →
  ∃ e, e ∈ E0 ∧ erp_uid e = u ∧ erp_row_id e = rid.
Proof.
  unfold uid_map_erp.
  assert (∀ l (m : gmap string Z), foldl (λ m r, <[erp_uid r := erp_row_id r]> m) m l !! u = Some rid →
            m !! u = Some rid ∨ ∃ e, e ∈ l ∧ erp_uid e = u ∧ erp_row_id e = rid) as Hfold.
  { induction l as [|r l IH]; intros m; simpl; [by left|].
    intros [Hm|(e & He & Hu)]%IH.
    - destruct (decide (erp_uid r = u)) as [<-|Hne].
      + rewrite lookup_insert_eq in Hm. injection Hm as <-. right. exists r.
        split; [by left|done].
      + rewrite lookup_insert_ne in Hm by done. by left.
    - right. exists e. split; [by right|done]. }
  intros [Hm|H]%Hfold; [by rewrite lookup_empty in Hm|done].
Qed.

(** ** The edges handed to [transform] *)

Lemma dict_append_all {K V} `{EqDecision K} (Q : K → V → Prop)
    (d : list (K * list V)) k x :
  (∀ k' l y, (k', l) ∈ d → y ∈ l → Q k' y) → Q k x →
  ∀ k' l y, (k', l) ∈ dict_append d k x → y ∈ l → Q k' y.
Proof.
  intros Hd Hx k' l y Hin Hy. unfold dict_append in Hin.
  destruct (dict_get d k) as [l0|] eqn:Hget.
  - apply elem_of_dict_set in Hin as [[= -> ->]|Hin]; [|by eapply Hd].
    apply elem_of_app in Hy as [Hy|Hy].
    + apply dict_get_elem in Hget. by eapply Hd.
    + by apply list_elem_of_singleton in Hy as ->.
  - apply elem_of_dict_set in Hin as [[= -> ->]|Hin]; [|by eapply Hd].
    by apply list_elem_of_singleton in Hy as ->.
Qed.

Lemma foldl_dict_append_all {K V} `{EqDecision K} (Q : K → V → Prop) k
    (ps : list V) (d : list (K * list V)) :
  (∀ k' l y, (k', l) ∈ d → y ∈ l → Q k' y) → (∀ p, p ∈ ps → Q k p) →
  ∀ k' l y, (k', l) ∈ foldl (λ d p, dict_append d k p) d ps → y ∈ l → Q k' y.
Proof.
  revert d. induction ps as [|p ps IH]; intros d Hd Hps; simpl; [done|].
  apply IH.
  - apply dict_append_all; [done|]. apply Hps. by left.
  - intros p' Hp'. apply Hps. by right.
Qed.

(** Every edge of [build_desc_edges] comes from an API transaction and an
    ERP transaction of one group, through the two uid maps. *)
Lemma build_desc_edges_spec A0 E0 txs groups mt edges p :
  (mt, edges) ∈ build_desc_edges A0 E0 (txs, groups) → p ∈ edges →
  ∃ erp_idxs api_idxs i j ta te,
    (mt, erp_idxs, api_idxs) ∈ groups ∧ i ∈ api_idxs ∧ j ∈ erp_idxs ∧
    txs !! i = Some ta ∧ tx_side ta = SideA ∧
    txs !! j = Some te ∧ tx_side te = SideE ∧
    uid_map_api A0 !! tx_key ta = Some p.1 ∧
    uid_map_erp E0 !! tx_key te = Some p.2.
Proof.
  unfold build_desc_edges. cbn [fst snd].
  set (Q := λ (mt : string) (p : Z * Z),
    ∃ erp_idxs api_idxs i j ta te,
      (mt, erp_idxs, api_idxs) ∈ groups ∧ i ∈ api_idxs ∧ j ∈ erp_idxs ∧
      txs !! i = Some ta ∧ tx_side ta = SideA ∧
      txs !! j = Some te ∧ tx_side te = SideE ∧
      uid_map_api A0 !! tx_key ta = Some p.1 ∧
      uid_map_erp E0 !! tx_key te = Some p.2).
  match goal with |- (_, _) ∈ foldl ?f _ _ → _ => set (step := f) end.
  assert (∀ gs d, gs ⊆ groups →
            (∀ k l y, (k, l) ∈ d → y ∈ l → Q k y) →
            ∀ k l y, (k, l) ∈ foldl step d gs → y ∈ l → Q k y) as Hfold.
  { induction gs as [|[[k0 erp_idxs] api_idxs] gs IH]; intros d Hgs Hd; cbn [foldl]; [done|].
    apply IH; [set_solver|].
    unfold step at 1.
    destruct (negb (bool_decide (k0 ∈ DESC_MATCH_TYPES))); [done|].
    destruct (unique_first [] (group_keys SideA txs api_idxs)) as [|a0 api_ids] eqn:Ea;
      [done|].
    destruct (unique_first [] (group_keys SideE txs erp_idxs)) as [|e0 erp_ids] eqn:Ee;
      [done|].
    apply foldl_dict_append_all; [done|].
    intros q (aid & Hq & Haid)%list_elem_of_bind.
    destruct (uid_map_api A0 !! aid) as [a_row|] eqn:Hma; [|by apply elem_of_nil in Hq].
    apply list_elem_of_bind in Hq as (eid & Hq & Heid).
    destruct (uid_map_erp E0 !! eid) as [e_row|] eqn:Hme; [|by apply elem_of_nil in Hq].
    apply list_elem_of_singleton in Hq as ->.
    rewrite <- Ea in Haid. rewrite <- Ee in Heid.
    apply unique_first_sub, elem_of_group_keys in Haid as (i & ta & Hi & Hta & Hsa & <-).
    apply unique_first_sub, elem_of_group_keys in Heid as (j & te & Hj & Hte & Hse & <-).
    exists erp_idxs, api_idxs, i, j, ta, te.
    split; [apply Hgs; left|done]. }
  intros Hin Hp. apply (Hfold groups [] (reflexivity _)) with (l := edges); [|done|done].
  intros k l y Hnil. by apply elem_of_nil in Hnil.
Qed.

(** ** Where the rows of the cascade come from *)

Lemma exact_stage_names :
  Forall (λ s, s ∈ exact_stages)
    [ "M0_TAX_DMINUS1_RN_1TO1"; "M0_BANKFEES_DMINUS1_RN_1TO1";
      "M0_RENT_DMINUS1_RN_1TO1"; "M1_SAME_DAY_RN"; "M2_KSUM_SAME_DAY";
      "07_FALLBACK_BALANCE_DAY" ].
Proof. apply Forall_forall. done. Qed.

Lemma consume_provenance (P : MatchRow → Prop) tag stage prio dd w :
  (∀ r, r ∈ emitted w → P r) →
  (∀ p, p ∈ tag → P (mkMatchRow p.1 p.2 stage prio dd)) →
  ∀ r, r ∈ emitted (consume tag stage prio dd w) → P r.
Proof.
  intros Hw Htag r [Hr|(p & Hp & ->)]%elem_of_emitted_consume; [by apply Hw|].
  by apply Htag.
Qed.

Lemma stage_desc_provenance desc w mt r :
  r ∈ emitted (stage_desc desc w mt) →
  r ∈ emitted w ∨
  ∃ edges, (m_stage r, edges) ∈ desc ∧ (m_api_row_id r, m_erp_row_id r) ∈ edges.
Proof.
  unfold stage_desc.
  destruct (dict_get desc mt) as [[|p0 ps]|] eqn:Hget; [by left| |by left].
  apply dict_get_elem in Hget.
  match goal with
  | |- context [match ?d with [] => w | _ :: _ => _ end] => set (df := d)
  end.
  assert (∀ p, p ∈ df → p ∈ p0 :: ps) as Hsub.
  { unfold df. destruct (w_A w); [done|]. destruct (w_E w); [done|].
    by intros p [_ Hp]%list_elem_of_filter. }
  clearbody df. destruct df as [|q df]; [by left|].
  intros [Hr|(p & Hp & ->)]%elem_of_emitted_consume; [by left|].
  right. exists (p0 :: ps). split; [done|]. cbn [m_api_row_id m_erp_row_id].
  destruct p. by apply Hsub.
Qed.

(** An edge of the cascade is either an edge of an exact-cent stage or an
    edge of the description stage that names it. *)
Lemma run_stages_provenance A0 E0 desc r :
  r ∈ emitted (run_stages A0 E0 desc) →
  m_stage r ∈ exact_stages ∨
  ∃ edges, (m_stage r, edges) ∈ desc ∧ (m_api_row_id r, m_erp_row_id r) ∈ edges.
Proof.
  set (P := λ r : MatchRow, m_stage r ∈ exact_stages ∨
    ∃ edges, (m_stage r, edges) ∈ desc ∧ (m_api_row_id r, m_erp_row_id r) ∈ edges).
  assert (∀ f w, f ∈ cascade desc → (∀ r, r ∈ emitted w → P r) →
                 ∀ r, r ∈ emitted (f w) → P r) as Hstep.
  { intros f w Hf Hw. pose proof exact_stage_names as Hn.
    rewrite !Forall_cons in Hn. destruct Hn as (N1 & N2 & N3 & N4 & N5 & N6 & _).
    unfold cascade in Hf.
    rewrite !elem_of_app, list_elem_of_fmap, !elem_of_cons, !elem_of_nil in Hf.
    destruct Hf as [[->|[->|[->|[]]]]|[(mt & -> & Hmt)|[->|[->|[->|[]]]]]];
      try (apply consume_provenance; [done|]; intros p _; by left).
    intros r' [Hr'|Hr']%stage_desc_provenance; [by apply Hw|by right]. }
  rewrite run_stages_cascade. unfold run_prefix. rewrite firstn_all.
  assert (∀ l w, l ⊆ cascade desc → (∀ r, r ∈ emitted w → P r) →
                 ∀ r, r ∈ emitted (foldl (λ w f, f w) w l) → P r) as Hfold.
  { induction l as [|f l IH]; intros w Hl Hw; cbn [foldl]; [done|].
    apply IH; [set_solver|]. apply Hstep; [apply Hl; left|done]. }
  apply Hfold; [done|]. intros r' Hr'. by apply elem_of_nil in Hr'.
Qed.

(** ** Loaded rows and transactions of one staging row *)

Lemma right_digits_tail s :
  right_digits s ACC_TAIL_DIGITS = acc_tail_of (normalize_account_number (Some s)).
Proof.
  unfold right_digits, acc_tail_of, normalize_account_number.
  by rewrite String.list_ascii_of_string_of_list_ascii.
Qed.

Lemma build_txs_api raw_api raw_erp i ta :
  _build_txs raw_api raw_erp !! i = Some ta → tx_side ta = SideA →
  ∃ r, raw_api !! i = Some r ∧ ta = api_tx i r.
Proof.
  unfold _build_txs. intros [H|[_ H]]%lookup_app_Some Hs;
    rewrite list_lookup_imap in H.
  - destruct (raw_api !! i) as [r|]; [|done]. injection H as <-. by exists r.
  - destruct (raw_erp !! _) as [r|]; [|done]. by injection H as <-.
Qed.

Lemma build_txs_erp raw_api raw_erp j te :
  _build_txs raw_api raw_erp !! j = Some te → tx_side te = SideE →
  ∃ k r, raw_erp !! k = Some r ∧ te = erp_tx k r.
Proof.
  unfold _build_txs. intros [H|[_ H]]%lookup_app_Some Hs;
    rewrite list_lookup_imap in H.
  - destruct (raw_api !! j) as [r|]; [|done]. by injection H as <-.
  - destruct (raw_erp !! _) as [r|] eqn:Hr; [|done]. injection H as <-. eexists _, r. split; [exact Hr|done].
Qed.

Lemma NoDup_fmap_lookup {A B} (f : A → B) (l : list A) i j x y :
  NoDup (f <$> l) → l !! i = Some x → l !! j = Some y → f x = f y → x = y.
Proof.
  intros Hnd Hi Hj Hf.
  assert (i = j) as ->; [|congruence].
  eapply NoDup_lookup; [exact Hnd| |]; rewrite list_lookup_fmap.
  - by rewrite Hi.
  - rewrite Hj. simpl. by rewrite Hf.
Qed.

Section RowsOfTransactions.

Variable to_cents : Qcanon.Qc → Z.
Variable desc_norm_of : string → string.
Variable raw_api : list RawApi.
Variable raw_erp : list RawErp.
Variable T : list Tx.
Hypothesis T_static : same_static (_build_txs raw_api raw_erp) T.

Lemma api_row_of_tx i ta a :
  NoDup (ra_id <$> raw_api) → T !! i = Some ta → tx_side ta = SideA →
  a ∈ load_api_from_pg to_cents desc_norm_of raw_api → api_uid a = tx_key ta →
  a_tenant_id a = tx_tenant_id ta ∧ a_bank_code a = tx_bank_code ta ∧
  api_acc_tail a = acc_tail_of (tx_acc_norm ta).
Proof.
  intros Hnd Hta Hs Ha Hu.
  destruct (same_static_lookup _ _ _ _ T_static Hta) as (ta0 & Hta0 & E0).
  apply set_matched_fields in E0 as (F0 & F1 & _ & F2 & F3 & F4 & _).
  apply build_txs_api in Hta0 as (r0 & Hr0 & ->); [|congruence].
  apply elem_of_lookup_imap in Ha as (k & r & -> & Hr).
  assert (r = r0) as ->.
  { eapply (NoDup_fmap_lookup ra_id); [done..|]. simpl in *. congruence. }
  rewrite <- F2, <- F3, <- F4. simpl. split; [done|]. split; [done|].
  apply right_digits_tail.
Qed.

Lemma erp_row_of_tx j te e :
  NoDup (re_cd_lancamento <$> raw_erp) → T !! j = Some te → tx_side te = SideE →
  e ∈ load_erp_from_pg to_cents desc_norm_of raw_erp → erp_uid e = tx_key te →
  e_tenant_id e = tx_tenant_id te ∧ e_bank_code e = tx_bank_code te ∧
  erp_acc_tail e = acc_tail_of (tx_acc_norm te).
Proof.
  intros Hnd Hte Hs He Hu.
  destruct (same_static_lookup _ _ _ _ T_static Hte) as (te0 & Hte0 & E0).
  apply set_matched_fields in E0 as (F0 & F1 & _ & F2 & F3 & F4 & _).
  apply build_txs_erp in Hte0 as (k0 & r0 & Hr0 & ->); [|congruence].
  apply elem_of_lookup_imap in He as (k & r & -> & Hr).
  assert (r = r0) as ->.
  { eapply (NoDup_fmap_lookup re_cd_lancamento); [done..|]. simpl in *. congruence. }
  rewrite <- F2, <- F3, <- F4. simpl. split; [done|]. split; [done|].
  apply right_digits_tail.
Qed.

End RowsOfTransactions.

(** ** Account boundaries of every emitted edge *)

Section EdgesOfARun.

Variable to_cents : Qcanon.Qc → Z.
Variable desc_norm_of : string → string.
Variable raw_api : list RawApi.
Variable raw_erp : list RawErp.
Hypothesis api_ids : NoDup (ra_id <$> raw_api).
Hypothesis erp_ids : NoDup (re_cd_lancamento <$> raw_erp).

Lemma desc_edge_within_account txs groups mt edges p :
  same_static (_build_txs raw_api raw_erp) txs →
  (∀ g, g ∈ groups → group_ok txs g) →
  (mt, edges) ∈ build_desc_edges (load_api_from_pg to_cents desc_norm_of raw_api)
                  (load_erp_from_pg to_cents desc_norm_of raw_erp) (txs, groups) →
  p ∈ edges →
  edge_within_account (load_api_from_pg to_cents desc_norm_of raw_api)
    (load_erp_from_pg to_cents desc_norm_of raw_erp) mt p.
Proof.
  intros Hs Hg Hin Hp.
  destruct (build_desc_edges_spec _ _ _ _ _ _ _ Hin Hp)
    as (erp_idxs & api_idxs & i & j & ta & te & Hgrp & Hi & Hj
        & Hta & Hsa & Hte & Hse & Hma & Hme).
  apply uid_map_api_spec in Hma as (a & Ha & Hua & Hia).
  apply uid_map_erp_spec in Hme as (e & He & Hue & Hie).
  destruct (api_row_of_tx to_cents desc_norm_of raw_api raw_erp txs Hs i ta a)
    as (At & Ab & Aa); [done..|].
  destruct (erp_row_of_tx to_cents desc_norm_of raw_api raw_erp txs Hs j te e)
    as (Et & Eb & Ea); [done..|].
  destruct (Hg _ Hgrp i j ta te Hi Hj Hta Hte Hsa Hse) as (Pt & Pb & Pa).
  exists a, e. do 4 (split; [done|]).
  split; [congruence|]. split; [congruence|].
  rewrite Aa, Ea. destruct Pa as [->|[Hw [->| ->]]]; [by left|right..];
    (split; [done|]); [by left|by right].
Qed.

End EdgesOfARun.

(** X13. For staging rows with distinct ids, every edge emitted by any stage
    joins a loaded API row and a loaded ERP row of the same tenant_id and
    bank_code; their acc_tail values are equal, except that an edge of
    02_DESC_FULL_1N, 03_DESC_KSUM_1N or 03_DESC_KSUM_N1 may join a row whose
    acc_tail is empty with a row of any acc_tail. *)
Theorem edges_within_account_or_wildcard to_cents desc_norm_of raw_api raw_erp r :
  NoDup (ra_id <$> raw_api) → NoDup (re_cd_lancamento <$> raw_erp) →
  r ∈ emitted (main_stages to_cents desc_norm_of raw_api raw_erp) →
  edge_within_account (load_api_from_pg to_cents desc_norm_of raw_api)
    (load_erp_from_pg to_cents desc_norm_of raw_erp) (m_stage r)
    (m_api_row_id r, m_erp_row_id r).
Proof.
  intros Hnda Hnde.
  change (main_stages to_cents desc_norm_of raw_api raw_erp)
    with (run_stages (load_api_from_pg to_cents desc_norm_of raw_api)
            (load_erp_from_pg to_cents desc_norm_of raw_erp)
            (build_desc_edges (load_api_from_pg to_cents desc_norm_of raw_api)
               (load_erp_from_pg to_cents desc_norm_of raw_erp)
               (reconcile_by_description raw_api raw_erp))).
  generalize (load_api_from_pg to_cents desc_norm_of raw_api)
             (load_erp_from_pg to_cents desc_norm_of raw_erp)
             (desc_edge_within_account to_cents desc_norm_of raw_api raw_erp Hnda Hnde).
  intros A0 E0 Hdesc Hr.
  destruct (run_stages_provenance _ _ _ _ Hr) as [Hex|(edges & Hin & Hp)].
  - rewrite run_stages_cascade in Hr.
    destruct (ci_acc _ _ _ (run_prefix_inv _ A0 E0 _) r Hr Hex)
      as (a & e & Ha & He & Hia & Hie & Ht & Hb & Hacc).
    exists a, e. do 6 (split; [done|]). by left.
  - destruct (reconcile_groups_ok raw_api raw_erp) as [Hs Hg].
    rewrite (surjective_pairing (reconcile_by_description raw_api raw_erp)) in Hin.
    by eapply Hdesc.
Qed.

Lemma edges_within_account_or_wildcard_witness :
  edge_within_account (load_api_from_pg exact_cents (λ s, s) noacc_api)
    (load_erp_from_pg exact_cents (λ s, s) noacc_erp) "03_DESC_KSUM_N1" (0, 0).
Proof.
  apply (edges_within_account_or_wildcard exact_cents (λ s, s) noacc_api noacc_erp
           (mkMatchRow 0 0 "03_DESC_KSUM_N1" 9 0)).
  - apply (bool_decide_unpack _). vm_compute. exact I.
  - apply (bool_decide_unpack _). vm_compute. exact I.
  - vm_compute. left.
Defined.

(** The wildcard is used: stage 03_DESC_KSUM_N1 joins an API row whose
    account number has no significant digit (acc_tail empty) with an ERP
    row of account 7242, so not every edge stays inside one acc_tail. *)
Lemma desc_ksum_crosses_account_tail :
  ¬ ∀ r, r ∈ emitted (main_stages exact_cents (λ s, s) noacc_api noacc_erp) →
         same_account_edge (load_api_from_pg exact_cents (λ s, s) noacc_api)
           (load_erp_from_pg exact_cents (λ s, s) noacc_erp)
           (m_api_row_id r, m_erp_row_id r).
Proof.
  intros H.
  destruct (H (mkMatchRow 0 0 "03_DESC_KSUM_N1" 9 0))
    as (a & e & Ha & He & Hia & Hie & _ & _ & Htail).
  { vm_compute. left. }
  apply elem_of_lookup_imap in Ha as (k & ra & -> & Hk).
  apply elem_of_lookup_imap in He as (k' & re & -> & Hk').
  cbn [m_api_row_id m_erp_row_id fst snd] in Hia, Hie.
  unfold load_api_row in Hia. unfold load_erp_row in Hie. cbn in Hia, Hie.
  assert (k = 0%nat) as -> by lia. assert (k' = 0%nat) as -> by lia.
  injection Hk as <-. injection Hk' as <-.
  vm_compute in Htail. discriminate Htail.
Qed.

(** * Further properties of the subset-sum engine *)

Lemma shiftl_one_pow m : Z.shiftl 1 (Z.of_nat m) = 2 ^ Z.of_nat m.
Proof. rewrite Z.shiftl_1_l. done. Qed.

Lemma budget_loop_small fuel n : (n ≤ 35)%nat → budget_loop fuel n = n.
Proof.
  intros Hn. destruct fuel as [|fuel]; [done|]. rewrite budget_loop_S.
  assert (¬ MITM_STATE_BUDGET < Z.shiftl 1 (Z.of_nat (n / 2))) as Hle.
  { rewrite shiftl_one_pow. unfold MITM_STATE_BUDGET.
    assert (n / 2 < 18)%nat as H17 by (apply Nat.Div0.div_lt_upper_bound; lia).
    assert (2 ^ Z.of_nat (n / 2) ≤ 2 ^ 17) as Hp by (apply Z.pow_le_mono_r; lia).
    change (2 ^ 17) with 131072 in Hp. lia. }
  by rewrite (bool_decide_eq_false_2 _ Hle).
Qed.

(** X1. [enforce_mitm_budget] returns a prefix of the items, never longer
    than 35, and returns the items unchanged when there are at most 35. *)
Theorem enforce_mitm_budget_bound items :
  (∃ n, enforce_mitm_budget items = take n items) ∧
  (length (enforce_mitm_budget items) ≤ 35)%nat ∧
  ((length items ≤ 35)%nat → enforce_mitm_budget items = items).
Proof.
  unfold enforce_mitm_budget. case_bool_decide as Hn.
  { split; [exists (length items); by rewrite firstn_all|]. split; [lia|done]. }
  split; [by eexists|]. split.
  - rewrite length_take.
    pose proof (budget_loop_exit (length items)) as Hexit. cbv zeta in Hexit.
    set (k := budget_loop (length items) (length items)) in *. clearbody k.
    destruct (decide (k ≤ 35)%nat) as [?|Hk]; [lia|]. exfalso. apply Hexit.
    split; [|lia]. rewrite shiftl_one_pow. unfold MITM_STATE_BUDGET.
    assert (18 ≤ k / 2)%nat as H18 by (apply Nat.div_le_lower_bound; lia).
    assert (2 ^ 18 ≤ 2 ^ Z.of_nat (k / 2)) as Hp by (apply Z.pow_le_mono_r; lia).
    change (2 ^ 18) with 262144 in Hp. lia.
  - intros Hlen. rewrite budget_loop_small by done. apply firstn_all.
Qed.

Lemma mask_subset_zero L : mask_subset L 0 = (0, []).
Proof.
  rewrite mask_subset_pick.
  assert (∀ i, mask_pick i L 0 = []) as ->; [|done].
  induction L as [|x L IH]; intros i; simpl; [done|].
  rewrite mask_bit_testbit, Z.bits_0. apply IH.
Qed.

Lemma masks_head L : ∃ ms, masks L = 0 :: ms.
Proof.
  unfold masks. rewrite shiftl_one_pow.
  assert (0 < 2 ^ Z.of_nat (length L)) as Hpos by (apply Z.pow_pos_nonneg; lia).
  destruct (Z.to_nat (2 ^ Z.of_nat (length L))) as [|n] eqn:E; [lia|].
  simpl. by eexists.
Qed.

Lemma best_fold_zero R ms best :
  best !! 0 = Some [] → foldl (best_step R) best ms !! 0 = Some [].
Proof.
  revert best. induction ms as [|m ms IH]; intros best Hb; simpl; [done|].
  apply IH. unfold best_step. destruct (mask_subset R m) as [s ids].
  destruct (decide (s = 0)) as [->|Hs].
  - rewrite Hb. case_bool_decide as Hlen; [simpl in Hlen; lia|done].
  - destruct (best !! s); [case_bool_decide|]; by rewrite ?lookup_insert_ne.
Qed.

(** X2. The meet-in-the-middle search decides subset-sum over the
    budget-truncated items: an answer lists the ids of a sub-collection
    summing to the target, and there is an answer exactly when such a
    sub-collection exists. With no items the answer is [None] even for
    target 0; with items and target 0 it is the empty selection. *)
Theorem subset_mitm_decides t items :
  (∀ ids, subset_mitm t items = Some ids →
     ∃ sub, sub `sublist_of` enforce_mitm_budget items ∧ ids = sub.*1 ∧
            sum_cents sub = t) ∧
  (is_Some (subset_mitm t items) ↔
     items ≠ [] ∧ ∃ sub, sub `sublist_of` enforce_mitm_budget items ∧
                         sum_cents sub = t) ∧
  (items ≠ [] → subset_mitm 0 items = Some []).
Proof.
  split; [intros ids; apply subset_mitm_sound|]. split.
  - split.
    + intros [ids Hids]. split; [by intros ->|].
      destruct (subset_mitm_sound _ _ _ Hids) as (sub & Hs & _ & Hsum). by exists sub.
    + intros (Hne & sub & Hs & Hsum). by eapply subset_mitm_complete.
  - intros Hne. pose proof (enforce_mitm_budget_nonempty _ Hne) as Hne'.
    unfold subset_mitm. destruct items as [|it0 items0]; [done|].
    set (its := enforce_mitm_budget (it0 :: items0)) in *.
    case_bool_decide as Hn; [by apply length_zero_iff_nil in Hn|].
    generalize (length its / 2)%nat. intros k.
    destruct (masks_head (take k its)) as (ms & ->).
    destruct (masks_head (drop k its)) as (ms' & ->).
    cbn [fmap list_fmap foldl]. rewrite mask_subset_zero. cbn [mitm_scan].
    rewrite Z.sub_0_r, best_fold_zero; [done|].
    unfold best_step. rewrite mask_subset_zero, lookup_empty.
    apply lookup_insert_eq.
Qed.

(** ** The DP fallback decides subset-sum over absolute cents *)

Lemma elem_of_range_desc hi lo s :
  (lo ≤ hi)%nat → s ∈ range_desc hi lo ↔ (lo ≤ s ≤ hi)%nat.
Proof.
  intros Hlo. unfold range_desc. rewrite list_elem_of_fmap. split.
  - intros (k & -> & Hk). apply elem_of_seq in Hk. lia.
  - intros Hs. exists (hi - s)%nat. split; [lia|]. apply elem_of_seq. lia.
Qed.

Lemma range_desc_sorted hi lo : StronglySorted (λ x y, (y < x)%nat) (range_desc hi lo).
Proof.
  unfold range_desc.
  assert (∀ len start, (start + len ≤ S hi)%nat →
            StronglySorted (λ x y, (y < x)%nat)
              ((λ k, (hi - k)%nat) <$> seq start len)) as H.
  { induction len as [|len IH]; intros start Hb; simpl; [constructor|].
    constructor; [apply IH; lia|].
    apply Forall_fmap, Forall_forall. intros k Hk. apply elem_of_seq in Hk.
    simpl. lia. }
  destruct (decide (lo ≤ S hi)%nat); [apply H; lia|].
  replace (S hi - lo)%nat with 0%nat by lia. constructor.
Qed.

(** The descending inner loop reads only entries it has not written yet. *)
Lemma dp_inner_fold c tid l (st : dp_state) :
  StronglySorted (λ x y, (y < x)%nat) l →
  (∀ s, s ∈ l → s < length st.1 ∧ s < length st.2)%nat →
  let st' := foldl (dp_inner c tid) st l in
  length st'.1 = length st.1 ∧ length st'.2 = length st.2 ∧
  ∀ s, (st'.1 !! s =
          if decide (s ∈ l ∧ default false (st.1 !! (s - c)%nat) = true)
          then Some true else st.1 !! s) ∧
       (st'.2 !! s =
          if decide (s ∈ l ∧ default false (st.1 !! (s - c)%nat) = true)
          then Some (default [] (st.2 !! (s - c)%nat) ++ [tid]) else st.2 !! s).
Proof.
  revert st. induction l as [|h l IH]; intros st Hsorted Hin; cbn [foldl].
  { split; [done|]. split; [done|]. intros s.
    by rewrite !decide_False by (by intros [?%elem_of_nil _]). }
  apply StronglySorted_inv in Hsorted as [Hsorted Hall].
  rewrite Forall_forall in Hall.
  set (st1 := dp_inner c tid st h).
  assert (length st1.1 = length st.1 ∧ length st1.2 = length st.2) as [L1 L2].
  { unfold st1, dp_inner. destruct (default false _); [|done].
    cbn [fst snd]. by rewrite !length_insert. }
  assert (∀ s, s ≠ h → st1.1 !! s = st.1 !! s ∧ st1.2 !! s = st.2 !! s) as Hne.
  { intros s Hs. unfold st1, dp_inner. destruct (default false _); [|done].
    cbn [fst snd]. by rewrite !list_lookup_insert_ne. }
  destruct (Hin h) as [Hh1 Hh2]; [by left|].
  assert (st1.1 !! h = (if decide (default false (st.1 !! (h - c)%nat) = true)
                        then Some true else st.1 !! h) ∧
          st1.2 !! h = (if decide (default false (st.1 !! (h - c)%nat) = true)
                        then Some (default [] (st.2 !! (h - c)%nat) ++ [tid])
                        else st.2 !! h)) as [Hh Hh'].
  { unfold st1, dp_inner. destruct (default false _) eqn:E.
    - rewrite decide_True by done. cbn [fst snd].
      by rewrite !list_lookup_insert_eq.
    - by rewrite decide_False by done. }
  destruct (IH st1 Hsorted) as (L1' & L2' & Hs').
  { intros s Hs. rewrite L1, L2. apply Hin. by right. }
  split; [congruence|]. split; [congruence|]. intros s.
  destruct (Hs' s) as [E1 E2]. rewrite E1, E2. clear E1 E2.
  destruct (decide (s ∈ l)) as [Hsl|Hsl].
  - assert (s < h)%nat as Hlt by by apply Hall.
    destruct (Hne (s - c)%nat) as [-> _]; [lia|].
    destruct (Hne (s - c)%nat) as [_ ->]; [lia|].
    destruct (Hne s) as [-> ->]; [lia|].
    destruct (decide (default false (st.1 !! (s - c)%nat) = true)) as [Hr|Hr].
    + by rewrite !decide_True by (split; [first [done|by right]|done]).
    + by rewrite !decide_False by tauto.
  - rewrite !(decide_False (P := s ∈ l ∧ _)) by tauto.
    destruct (decide (s = h)) as [->|Hsh].
    + rewrite Hh, Hh'.
      destruct (decide (default false (st.1 !! (h - c)%nat) = true)) as [Hr|Hr].
      * by rewrite !decide_True by (split; [by left|done]).
      * by rewrite !decide_False by tauto.
    + destruct (Hne s Hsh) as [-> ->].
      by rewrite !decide_False by (intros [[?|?]%elem_of_cons _]; done).
Qed.

Lemma abs_sum_app l1 l2 : abs_sum (l1 ++ l2) = (abs_sum l1 + abs_sum l2)%nat.
Proof. unfold abs_sum. by rewrite sum_list_with_app. Qed.

Lemma reach_mono P it s ids : reach P s ids → reach (P ++ [it]) s ids.
Proof.
  intros (sub & Hs & Hi & Ha). exists sub. split; [|done].
  by apply sublist_inserts_r.
Qed.

Lemma reach_snoc P it s ids :
  reach (P ++ [it]) s ids →
  reach P s ids ∨
  ∃ ids', ids = ids' ++ [it.1] ∧ (Z.to_nat (Z.abs it.2) ≤ s)%nat ∧
          reach P (s - Z.to_nat (Z.abs it.2)) ids'.
Proof.
  intros (sub & Hs & Hi & Ha).
  apply sublist_app_r in Hs as (l1 & l2 & -> & H1 & H2).
  apply sublist_cons_r in H2 as [H2|(l2' & -> & H2)]; apply sublist_nil_r in H2 as ->.
  - left. exists l1. by rewrite app_nil_r in *.
  - right. exists (l1.*1). rewrite fmap_app in Hi. rewrite abs_sum_app in Ha.
    unfold abs_sum at 2 in Ha. simpl in Ha.
    split; [done|]. split; [lia|]. exists l1. split; [done|]. split; [done|lia].
Qed.

Lemma dp_item_ok T P st it :
  dp_ok T P st → dp_ok T (P ++ [it]) (dp_item T st it).
Proof.
  intros (L1 & L2 & Hst). unfold dp_item.
  set (c := Z.to_nat (Z.abs it.2)).
  case_bool_decide as Hc.
  { split; [done|]. split; [done|]. intros s Hs. destruct (Hst s Hs) as [Hsound Hcompl].
    split.
    - intros Hdp. by apply reach_mono, Hsound.
    - intros (ids & [Hr|(ids' & _ & Hle & _)]%reach_snoc); [|fold c in Hle; lia].
      apply Hcompl. by exists ids. }
  destruct (dp_inner_fold c it.1 (range_desc T c) st (range_desc_sorted T c))
    as (L1' & L2' & Hchar).
  { intros s Hs%elem_of_range_desc; lia. }
  split; [congruence|]. split; [congruence|]. intros s Hs.
  destruct (Hchar s) as [E1 E2]. rewrite E1, E2. clear E1 E2.
  destruct (Hst s Hs) as [Hsound Hcompl].
  assert (∀ s', default false (st.1 !! s') = true → st.1 !! s' = Some true) as Hread.
  { intros s' Hd. destruct (st.1 !! s') as [[]|]; done. }
  destruct (decide (s ∈ range_desc T c ∧ default false (st.1 !! (s - c)%nat) = true))
    as [[Hin Hr]|Hno].
  - split; [|done]. intros _. cbn [default].
    apply elem_of_range_desc in Hin; [|lia].
    destruct (Hst (s - c)%nat) as [Hsound' _]; [lia|].
    destruct (Hsound' (Hread _ Hr)) as (sub & Hsub & Hids & Hsum).
    exists (sub ++ [it]). split; [by apply sublist_app|].
    split; [by rewrite fmap_app, Hids|].
    rewrite abs_sum_app, Hsum. unfold abs_sum. simpl. fold c. lia.
  - split.
    + intros Hdp. by apply reach_mono, Hsound.
    + intros (ids & [Hr|(ids' & _ & Hle & Hr)]%reach_snoc).
      * apply Hcompl. by exists ids.
      * exfalso. apply Hno. fold c in Hle, Hr. split.
        -- apply elem_of_range_desc; lia.
        -- destruct (Hst (s - c)%nat) as [_ Hcompl']; [lia|].
           rewrite Hcompl'; [done|by exists ids'].
Qed.

Lemma dp_fold_ok T l P st :
  dp_ok T P st → dp_ok T (P ++ l) (foldl (dp_item T) st l).
Proof.
  revert P st. induction l as [|it l IH]; intros P st Hst; simpl.
  - by rewrite app_nil_r.
  - replace (P ++ it :: l) with ((P ++ [it]) ++ l) by (by rewrite <- app_assoc).
    apply IH. by apply dp_item_ok.
Qed.

Lemma dp_init_ok T :
  dp_ok T [] (<[0%nat := true]> (replicate (S T) false), replicate (S T) []).
Proof.
  split; [cbn [fst]; by rewrite length_insert, length_replicate|].
  split; [cbn [snd]; by rewrite length_replicate|]. intros s Hs. cbn [fst snd]. split.
  - destruct s as [|s].
    + intros _. exists []. done.
    + rewrite list_lookup_insert_ne by done. intros Hdp.
      apply lookup_replicate in Hdp as [? _]. done.
  - intros (ids & sub & Hsub & _ & Hsum). apply sublist_nil_r in Hsub as ->.
    unfold abs_sum in Hsum. simpl in Hsum. subst s.
    apply list_lookup_insert_eq. rewrite length_replicate. lia.
Qed.

Lemma abs_sum_same_sign (sub : list item) t :
  (∀ it, it ∈ sub → 0 ≤ it.2 * t) → Z.of_nat (abs_sum sub) = Z.abs t →
  sum_cents sub = t.
Proof.
  intros Hsign Habs.
  assert (0 < t → Z.of_nat (abs_sum sub) = sum_cents sub) as Hpos.
  { intros Ht. clear Habs. induction sub as [|it sub IH]; [done|].
    unfold abs_sum, sum_cents in *. simpl.
    assert (0 ≤ it.2) by (specialize (Hsign it ltac:(left)); nia).
    rewrite Nat2Z.inj_add, IH; [lia|]. intros it' Hin. apply Hsign. by right. }
  assert (t < 0 → Z.of_nat (abs_sum sub) = - sum_cents sub) as Hneg.
  { intros Ht. clear Habs Hpos. induction sub as [|it sub IH]; [done|].
    unfold abs_sum, sum_cents in *. simpl.
    assert (it.2 ≤ 0) by (specialize (Hsign it ltac:(left)); nia).
    rewrite Nat2Z.inj_add, IH; [lia|]. intros it' Hin. apply Hsign. by right. }
  assert (t = 0 → sum_cents sub = 0) as Hzero.
  { intros ->. clear Hsign Hpos Hneg. induction sub as [|it sub IH]; [done|].
    unfold abs_sum, sum_cents in *. simpl in *. lia. }
  lia.
Qed.

(** X3. The DP fallback decides subset-sum over absolute cents. An answer
    lists the ids of a sub-collection of the items whose absolute cents add
    up to |target| (and whose signed cents add up to the target when no
    item has the opposite sign). Inside the guard (|target| <= 200000, at
    most 24 items) there is an answer exactly when such a sub-collection
    exists. *)
Theorem subset_dp_decides t items :
  (∀ ids, subset_dp t items = Some ids →
     ∃ sub, sub `sublist_of` items ∧ sub.*1 = ids ∧
            Z.of_nat (abs_sum sub) = Z.abs t ∧
            ((∀ it, it ∈ items → 0 ≤ it.2 * t) → sum_cents sub = t)) ∧
  (Z.abs t ≤ DP_MAX_TARGET_CENTS → (length items ≤ DP_MAX_ITEMS_DP)%nat →
   (is_Some (subset_dp t items) ↔
    ∃ sub, sub `sublist_of` items ∧ Z.of_nat (abs_sum sub) = Z.abs t)).
Proof.
  assert (∀ sub, sub `sublist_of` items → Z.of_nat (abs_sum sub) = Z.abs t →
            (∀ it, it ∈ items → 0 ≤ it.2 * t) → sum_cents sub = t) as Hsign.
  { intros sub Hsub Ha Hs. apply abs_sum_same_sign; [|done].
    intros it Hin. apply Hs. by eapply sublist_subseteq. }
  unfold subset_dp. case_bool_decide as Ht.
  { subst t. split.
    - intros ids [= <-]. exists []. split; [apply sublist_nil_l|]. split; [done|].
      split; [done|]. by intros _.
    - intros _ _. split; [|done]. intros _. exists []. split; [apply sublist_nil_l|done]. }
  pose proof (dp_fold_ok (Z.to_nat (Z.abs t)) items [] _ (dp_init_ok _)) as Hok.
  rewrite app_nil_l in Hok.
  set (T := Z.to_nat (Z.abs t)) in *.
  set (st := foldl (dp_item T) _ items) in *. clearbody st.
  destruct Hok as (L1 & L2 & Hst). destruct (Hst T (le_n _)) as [Hsound Hcompl].
  split.
  - intros ids. destruct (_ || _); [done|].
    destruct (st.1 !! T) as [[]|] eqn:Edp; cbn [default]; [|done..].
    intros [= <-]. destruct (Hsound eq_refl) as (sub & Hsub & Hids & Hsum).
    exists sub. split; [done|]. split; [done|].
    assert (Z.of_nat (abs_sum sub) = Z.abs t) as Habs by (rewrite Hsum; unfold T; lia).
    split; [done|]. by apply Hsign.
  - intros Hg1 Hg2.
    rewrite (bool_decide_eq_false_2 (DP_MAX_TARGET_CENTS < Z.abs t)) by lia.
    rewrite (bool_decide_eq_false_2 (DP_MAX_ITEMS_DP < length items)%nat) by lia.
    cbn [orb]. split.
    + destruct (st.1 !! T) as [[]|] eqn:Edp; cbn [default]; [|by intros [? ?]..].
      intros _. destruct (Hsound eq_refl) as (sub & Hsub & Hids & Hsum).
      exists sub. split; [done|]. rewrite Hsum. unfold T. lia.
    + intros (sub & Hsub & Hsum). rewrite Hcompl; [done|].
      exists (sub.*1), sub. split; [done|]. split; [done|]. unfold T. lia.
Qed.

(** ** Post-verification and capping *)

(** X4. The post-verification re-sums the cents of the dictionary entries
    whose key is among the returned ids and compares with the target; ids
    that are not keys of the dictionary, repeated ids and the order of the
    ids make no difference. *)
Theorem sum_ok_resums_known_ids d ids t :
  (_sum_ok d ids t = true ↔ sum_cents (filter (λ kv, kv.1 ∈ ids) d) = t) ∧
  (∀ ids', (∀ k, k ∈ d.*1 → (k ∈ ids ↔ k ∈ ids')) →
           _sum_ok d ids' t = _sum_ok d ids t).
Proof.
  split; [apply sum_ok_spec|]. intros ids' Hsame.
  assert (filter (λ kv, kv.1 ∈ ids') d = filter (λ kv, kv.1 ∈ ids) d) as Hf.
  { apply filter_ext_in. intros kv Hin. symmetry. apply Hsame.
    apply list_elem_of_fmap. by exists kv. }
  pose proof (sum_ok_spec d ids t) as H1. pose proof (sum_ok_spec d ids' t) as H2.
  rewrite Hf in H2.
  destruct (_sum_ok d ids t), (_sum_ok d ids' t); try done.
  - assert (false = true) by (by apply H2, H1). done.
  - assert (false = true) by (by apply H1, H2). done.
Qed.

Lemma dict_set_keys {K V} `{EqDecision K} (d : list (K * V)) k v :
  (dict_set d k v).*1 = if decide (k ∈ d.*1) then d.*1 else d.*1 ++ [k].
Proof.
  induction d as [|[k' v'] d IH].
  - destruct (decide (k ∈ ([] : list (K * V)).*1)) as [Hin|_]; [|done].
    by apply elem_of_nil in Hin.
  - cbn [dict_set]. rewrite !fmap_cons. cbn [fst]. case_bool_decide as Hk.
    + subst k'. rewrite decide_True; [done|]. by left.
    + rewrite fmap_cons, IH. cbn [fst]. destruct (decide (k ∈ d.*1)) as [Hin|Hin].
      * rewrite decide_True; [done|]. by right.
      * rewrite decide_False; [done|]. rewrite not_elem_of_cons. done.
Qed.

Lemma dict_append_keys_nodup {K V} `{EqDecision K} (d : list (K * list V)) k x :
  NoDup d.*1 → NoDup (dict_append d k x).*1.
Proof.
  intros Hnd. unfold dict_append.
  destruct (dict_get d k); rewrite dict_set_keys;
    (destruct (decide (k ∈ d.*1)); [done|]);
    (apply NoDup_app; split; [done|]; split; [|apply NoDup_singleton]);
    intros y Hy ->%list_elem_of_singleton; done.
Qed.

Lemma by_val_keys_nodup (l : list (Z * Z)) (d : list (Z * list Z)) :
  NoDup d.*1 → NoDup (foldl (λ d ic, dict_append d ic.2 ic.1) d l).*1.
Proof.
  revert d. induction l as [|ic l IH]; intros d Hd; simpl; [done|].
  by apply IH, dict_append_keys_nodup.
Qed.

Lemma cap_group_values t_abs cv it : it ∈ cap_group t_abs cv → it.2 = cv.1.
Proof. unfold cap_group. by intros (i & -> & _)%list_elem_of_fmap. Qed.

Lemma cap_group_length t_abs cv :
  (length (cap_group t_abs cv) ≤ CAP_PER_VALUE)%nat ∧
  Z.of_nat (length (cap_group t_abs cv)) ≤ Z.max 1 (t_abs / Z.max 1 (Z.abs cv.1)).
Proof.
  unfold cap_group. rewrite length_fmap, length_take. split; [lia|].
  pose proof (Z.le_max_l 1 (t_abs / Z.max 1 (Z.abs cv.1))). lia.
Qed.

Lemma filter_nil_not {A} (P : A → Prop) `{∀ x, Decision (P x)} (l : list A) :
  (∀ x, x ∈ l → ¬ P x) → filter P l = [].
Proof.
  induction l as [|x l IH]; intros Hl; [done|]. rewrite filter_cons.
  rewrite decide_False by (apply Hl; by left). apply IH. intros y Hy. apply Hl. by right.
Qed.

Lemma cap_groups_count t_abs (d : list (Z * list Z)) c :
  NoDup d.*1 →
  (length (filter (λ it : item, it.2 = c) (mjoin (cap_group t_abs <$> d)))
     ≤ CAP_PER_VALUE)%nat ∧
  Z.of_nat (length (filter (λ it : item, it.2 = c) (mjoin (cap_group t_abs <$> d))))
    ≤ Z.max 1 (t_abs / Z.max 1 (Z.abs c)).
Proof.
  induction d as [|cv d IH]; intros Hnd.
  { simpl. split; [lia|]. pose proof (Z.le_max_l 1 (t_abs / Z.max 1 (Z.abs c))). lia. }
  rewrite fmap_cons in Hnd. apply NoDup_cons in Hnd as [Hcv Hnd].
  cbn [fmap list_fmap mjoin list_join]. rewrite filter_app, length_app.
  destruct (decide (cv.1 = c)) as [<-|Hne].
  - rewrite (filter_nil_not _ (mjoin (cap_group t_abs <$> d))).
    + pose proof (length_filter (λ it : item, it.2 = cv.1) (cap_group t_abs cv)).
      destruct (cap_group_length t_abs cv). simpl. lia.
    + intros it (g & Hit & (cv' & -> & Hcv')%list_elem_of_fmap)%list_elem_of_join Heq.
      apply cap_group_values in Hit. apply Hcv. apply list_elem_of_fmap.
      exists cv'. split; [congruence|done].
  - rewrite (filter_nil_not _ (cap_group t_abs cv)).
    + by apply IH.
    + intros it Hit%cap_group_values. congruence.
Qed.

Lemma filter_submseteq_mono {A} (P : A → Prop) `{∀ x, Decision (P x)} (l k : list A) :
  l ⊆+ k → filter P l ⊆+ filter P k.
Proof.
  induction 1 as [|x l1 l2 _ IH|x y l|x l1 l2 _ IH|l1 l2 l3 _ IH1 _ IH2].
  - done.
  - rewrite !filter_cons. destruct (decide (P x)); [by constructor|done].
  - rewrite !filter_cons. destruct (decide (P x)), (decide (P y)); try done.
    apply submseteq_swap.
  - rewrite filter_cons. destruct (decide (P x)); [by apply submseteq_cons|done].
  - by etransitivity.
Qed.

Lemma insert_desc_sorted x l :
  StronglySorted (λ a b : item, Z.abs b.2 ≤ Z.abs a.2) l →
  StronglySorted (λ a b : item, Z.abs b.2 ≤ Z.abs a.2) (insert_desc x l).
Proof.
  induction l as [|y l IH]; intros Hs; simpl; [repeat constructor|].
  apply StronglySorted_inv in Hs as [Hs Hy]. case_bool_decide as Hle.
  - constructor; [by constructor|]. constructor; [done|].
    eapply Forall_impl; [exact Hy|]. simpl. intros z Hz. lia.
  - constructor; [by apply IH|].
    rewrite insert_desc_perm. constructor; [lia|done].
Qed.

Lemma sort_abs_desc_sorted l :
  StronglySorted (λ a b : item, Z.abs b.2 ≤ Z.abs a.2) (sort_abs_desc l).
Proof.
  unfold sort_abs_desc. induction l as [|x l IH]; simpl; [constructor|].
  by apply insert_desc_sorted.
Qed.

Lemma StronglySorted_take_of {A} (R : relation A) n l :
  StronglySorted R l → StronglySorted R (take n l).
Proof.
  revert n. induction l as [|x l IH]; intros [|n] Hs; simpl; try constructor.
  - apply IH. by apply StronglySorted_inv in Hs as [? _].
  - apply StronglySorted_inv in Hs as [_ Hx].
    rewrite Forall_forall in *. intros y Hy. apply Hx.
    by eapply sublist_subseteq; [apply sublist_take|].
Qed.

(** X5. [cap_items_by_value] returns part of the given (id, cents) pairs,
    at most KSUM_MAX_ITEMS (48) of them, ordered by decreasing absolute
    cents; of each cents value [c] it keeps at most CAP_PER_VALUE (32) ids
    and at most max(1, |target| / max(1, |c|)). *)
Theorem cap_items_by_value_bounds ids cents t :
  cap_items_by_value ids cents t ⊆+ zip ids cents ∧
  (length (cap_items_by_value ids cents t) ≤ KSUM_MAX_ITEMS)%nat ∧
  StronglySorted (λ a b : item, Z.abs b.2 ≤ Z.abs a.2) (cap_items_by_value ids cents t) ∧
  ∀ c, (length (filter (λ it : item, it.2 = c) (cap_items_by_value ids cents t))
          ≤ CAP_PER_VALUE)%nat ∧
       Z.of_nat (length (filter (λ it : item, it.2 = c) (cap_items_by_value ids cents t)))
         ≤ Z.max 1 (Z.abs t / Z.max 1 (Z.abs c)).
Proof.
  split; [apply cap_items_by_value_submseteq|].
  unfold cap_items_by_value.
  set (by_val := foldl _ [] _).
  set (raw := mjoin (cap_group (Z.abs t) <$> by_val)).
  assert (NoDup by_val.*1) as Hnd by (apply by_val_keys_nodup; constructor).
  assert (∀ c (out : list item), out ⊆+ sort_abs_desc raw →
            (length (filter (λ it : item, it.2 = c) out)
               ≤ length (filter (λ it : item, it.2 = c) raw))%nat) as Hcount.
  { intros c out Hout. rewrite (sort_abs_desc_perm raw) in Hout.
    by apply submseteq_length, filter_submseteq_mono. }
  case_bool_decide as Hlen.
  - split; [rewrite length_take; lia|]. split.
    + apply StronglySorted_take_of, sort_abs_desc_sorted.
    + intros c. destruct (cap_groups_count (Z.abs t) by_val c Hnd) as [H1 H2].
      fold raw in H1, H2.
      specialize (Hcount c (take KSUM_MAX_ITEMS (sort_abs_desc raw))
                    (sublist_submseteq _ _ (sublist_take _ _))).
      split; lia.
  - split; [lia|]. split; [apply sort_abs_desc_sorted|].
    intros c. destruct (cap_groups_count (Z.abs t) by_val c Hnd) as [H1 H2].
    fold raw in H1, H2. specialize (Hcount c (sort_abs_desc raw) (reflexivity _)).
    split; lia.
Qed.

(** * Further properties of the component validator *)

Lemma component_of_unique edges a KA KE KA' KE' :
  component_of edges a KA KE → component_of edges a KA' KE' → KA = KA' ∧ KE = KE'.
Proof.
  intros [H1 H2] [H1' H2']. split; apply set_eq; intros x.
  - by rewrite H1, H1'.
  - by rewrite H2, H2'.
Qed.

Lemma component_of_connected edges a a' KA KE :
  connected edges (SideA, a) (SideA, a') →
  component_of edges a KA KE → component_of edges a' KA KE.
Proof.
  intros Hc [H1 H2]. split; intros x.
  - rewrite H1. split; intros Hx.
    + eapply rtc_trans; [by apply connected_sym|done].
    + by eapply rtc_trans.
  - rewrite H2. split; intros Hx.
    + eapply rtc_trans; [by apply connected_sym|done].
    + by eapply rtc_trans.
Qed.

Lemma component_balanced_connected edges A0 E0 a a' :
  connected edges (SideA, a) (SideA, a') →
  component_balanced edges A0 E0 a → component_balanced edges A0 E0 a'.
Proof.
  intros Hc (KA & KE & Hcomp & Hbal). exists KA, KE. split; [|done].
  by eapply component_of_connected.
Qed.

(** Inside a set of rows that is closed under connection, every path of the
    full graph that starts at a kept row is a path of kept edges. *)
Lemma kept_paths matches out r :
  out ⊆ matches →
  (∀ r1 r2, r1 ∈ out → r2 ∈ matches →
     connected (edges_of matches) (SideA, m_api_row_id r1) (SideA, m_api_row_id r2) →
     r2 ∈ out) →
  r ∈ out →
  ∀ y, connected (edges_of matches) (SideA, m_api_row_id r) y ↔
       connected (edges_of out) (SideA, m_api_row_id r) y.
Proof.
  intros Hsub Hclosed Hr y. split.
  - revert y.
    apply (rtc_ind_r (λ y, connected (edges_of out) (SideA, m_api_row_id r) y));
      [apply rtc_refl|].
    intros y z Hy Hyz IH. eapply rtc_r; [exact IH|].
    destruct Hyz as (a' & e' & Hin & Hor).
    assert (connected (edges_of matches) (SideA, m_api_row_id r) (SideA, a')) as Ha'.
    { destruct Hor as [[-> _]|[-> ->]]; [done|].
      eapply rtc_r; [exact Hy|]. exists a', e'. split; [done|by right]. }
    exists a', e'. split; [|done].
    apply elem_of_edges_of in Hin as (r' & Hr' & <- & <-).
    apply elem_of_edges_of. exists r'. split; [|done]. by eapply Hclosed.
  - apply connected_mono. intros [a e] (r' & Hr' & <- & <-)%elem_of_edges_of.
    apply elem_of_edges_of. exists r'. split; [by apply Hsub|done].
Qed.

Lemma filter_all {A} (P : A → Prop) `{∀ x, Decision (P x)} (l : list A) :
  (∀ x, x ∈ l → P x) → filter P l = l.
Proof.
  induction l as [|x l IH]; intros Hl; [done|]. rewrite filter_cons.
  rewrite decide_True by (apply Hl; by left). f_equal. apply IH.
  intros y Hy. apply Hl. by right.
Qed.

Section FinalizeMore.

Variable enum : gset Z → list Z.
Hypothesis enum_spec : ∀ (s : gset Z) x, x ∈ enum s ↔ x ∈ s.

(** The validator is the filter "the component of the row balances". *)
Lemma finalize_keep_iff matches A0 E0 :
  matches ≠ [] →
  ∃ lab,
    finalize_by_components enum matches A0 E0 =
    Some (filter (λ r, comp_for_edge lab (m_api_row_id r, m_erp_row_id r) ∈
                       valid_comp (sum_by_comp (api_map_of A0) (comp_id_of_A lab))
                                  (sum_by_comp (erp_map_of E0) (comp_id_of_E lab)))
                 matches) ∧
    ∀ r, r ∈ matches →
      (comp_for_edge lab (m_api_row_id r, m_erp_row_id r) ∈
         valid_comp (sum_by_comp (api_map_of A0) (comp_id_of_A lab))
                    (sum_by_comp (erp_map_of E0) (comp_id_of_E lab))) ↔
      component_balanced (edges_of matches) A0 E0 (m_api_row_id r).
Proof.
  intros Hne.
  destruct (finalize_labels enum enum_spec matches A0 E0 Hne)
    as (idx & lab & Hc & Hall & ->).
  exists lab. split; [done|]. intros r Hr.
  destruct (edge_labels (edges_of matches) idx lab Hc Hall (m_api_row_id r) (m_erp_row_id r))
    as (cid & Ha & He); [apply elem_of_edges_of; by exists r|].
  rewrite (comp_for_edge_label lab _ _ cid Ha).
  rewrite (valid_comp_label lab A0 E0 _ cid Ha).
  rewrite <- (balanced_members lab A0 E0 cid).
  pose proof (component_members (edges_of matches) idx lab Hc _ cid Ha) as Hcomp.
  split.
  - intros Hbal. by eexists _, _.
  - intros (KA & KE & Hcomp' & Hbal).
    by destruct (component_of_unique _ _ _ _ _ _ Hcomp Hcomp') as [-> ->].
Qed.

(** X6. The validator is idempotent: validating its own output keeps every
    edge. *)
Theorem finalize_by_components_idempotent matches A0 E0 out :
  finalize_by_components enum matches A0 E0 = Some out →
  finalize_by_components enum out A0 E0 = Some out.
Proof.
  destruct (decide (matches = [])) as [->|Hne]; [by intros [= <-]|].
  destruct (finalize_keep_iff matches A0 E0 Hne) as (lab & -> & Hkeep).
  intros [= <-].
  set (keep := λ r, comp_for_edge lab (m_api_row_id r, m_erp_row_id r) ∈
                    valid_comp (sum_by_comp (api_map_of A0) (comp_id_of_A lab))
                               (sum_by_comp (erp_map_of E0) (comp_id_of_E lab))) in *.
  destruct (decide (filter keep matches = [])) as [->|Hne']; [done|].
  destruct (finalize_keep_iff (filter keep matches) A0 E0 Hne') as (lab' & -> & Hkeep').
  f_equal. apply filter_all. intros r Hr. apply (Hkeep' r Hr).
  pose proof Hr as [Hk Hrm]%list_elem_of_filter.
  apply (Hkeep r Hrm) in Hk as (KA & KE & [HKA HKE] & Hbal).
  assert (∀ y, connected (edges_of matches) (SideA, m_api_row_id r) y ↔
               connected (edges_of (filter keep matches)) (SideA, m_api_row_id r) y)
    as Hpaths.
  { apply kept_paths; [|clear r Hr Hrm HKA HKE|done].
    - intros r' [_ ?]%list_elem_of_filter. done.
    - intros r1 r2 [Hk1 Hr1]%list_elem_of_filter Hr2 Hconn.
      apply list_elem_of_filter. split; [|done].
      apply (Hkeep r2 Hr2). eapply component_balanced_connected; [exact Hconn|].
      by apply (Hkeep r1 Hr1). }
  exists KA, KE. split; [|done]. split; intros x.
  - by rewrite HKA, Hpaths.
  - by rewrite HKE, Hpaths.
Qed.

(** X7. The breadth-first labelling terminates; it labels every node of
    the candidate graph, and two nodes carry the same label exactly when a
    path of candidate edges joins them. *)
Theorem label_components_are_components edges :
  ∃ idx lab,
    label_components enum (build_graph edges) = Some (idx, lab) ∧
    (∀ a e, (a, e) ∈ edges →
       is_Some (comp_id_of_A lab !! a) ∧ is_Some (comp_id_of_E lab !! e)) ∧
    (∀ x y c, lab_of lab x = Some c →
       (lab_of lab y = Some c ↔ connected edges x y)) ∧
    (∀ x c, lab_of lab x = Some c → c < idx).
Proof.
  pose proof (build_graph_spec edges) as Hg.
  destruct (label_components_correct enum enum_spec _ _ Hg) as (idx & lab & E & Hc & Hall).
  exists idx, lab. split; [done|]. split; [|split].
  - destruct Hg as (_ & _ & HnA & HnE). intros a e Hin. split.
    + apply (Hall (SideA, a)). apply elem_of_app. left.
      apply list_elem_of_fmap. exists a. split; [done|].
      apply enum_spec, HnA. by exists e.
    + apply (Hall (SideE, e)). apply elem_of_app. right.
      apply list_elem_of_fmap. exists e. split; [done|].
      apply enum_spec, HnE. by exists a.
  - intros x y c Hx. split.
    + intros Hy. by apply (cl_conn _ _ _ Hc x y c).
    + intros Hxy. by apply (closed_connected edges idx lab x y c).
  - intros x c. apply (cl_bound _ _ _ Hc).
Qed.

End FinalizeMore.

(** X8. The outcome of the validator does not depend on the order in which
    Python iterates over its sets of nodes and neighbours. *)
Theorem finalize_by_components_order_independent
    (enum1 enum2 : gset Z → list Z) matches A0 E0 :
  (∀ (s : gset Z) x, x ∈ enum1 s ↔ x ∈ s) →
  (∀ (s : gset Z) x, x ∈ enum2 s ↔ x ∈ s) →
  finalize_by_components enum1 matches A0 E0 =
  finalize_by_components enum2 matches A0 E0.
Proof.
  intros H1 H2. destruct (decide (matches = [])) as [->|Hne]; [done|].
  destruct (finalize_keep_iff enum1 H1 matches A0 E0 Hne) as (lab1 & -> & Hk1).
  destruct (finalize_keep_iff enum2 H2 matches A0 E0 Hne) as (lab2 & -> & Hk2).
  f_equal. apply filter_ext_in. intros r Hr. by rewrite (Hk1 r Hr), (Hk2 r Hr).
Qed.

Lemma finalize_by_components_idempotent_witness :
  finalize_by_components elements [mkMatchRow 2 11 "M1_SAME_DAY_RN" 10 0]
    demo_A0 demo_E0 = Some [mkMatchRow 2 11 "M1_SAME_DAY_RN" 10 0].
Proof.
  apply (finalize_by_components_idempotent elements
           (λ s x, elem_of_elements s x) demo_matches demo_A0 demo_E0).
  vm_compute. reflexivity.
Defined.

Lemma label_components_are_components_witness :
  ∃ idx lab,
    label_components elements (build_graph (edges_of demo_matches)) = Some (idx, lab) ∧
    (∀ a e, (a, e) ∈ edges_of demo_matches →
       is_Some (comp_id_of_A lab !! a) ∧ is_Some (comp_id_of_E lab !! e)) ∧
    (∀ x y c, lab_of lab x = Some c →
       (lab_of lab y = Some c ↔ connected (edges_of demo_matches) x y)) ∧
    (∀ x c, lab_of lab x = Some c → c < idx).
Proof.
  apply (label_components_are_components elements (λ s x, elem_of_elements s x)).
Defined.

Lemma finalize_by_components_order_independent_witness :
  finalize_by_components elements demo_matches demo_A0 demo_E0 =
  finalize_by_components (λ s, reverse (elements s)) demo_matches demo_A0 demo_E0.
Proof.
  apply finalize_by_components_order_independent.
  - intros s x. apply elem_of_elements.
  - intros s x. rewrite elem_of_reverse. apply elem_of_elements.
Defined.

(** * Further properties of the exact-cent stages *)

(** ** The RN join pairs rows one to one *)

Lemma rn_over_from_fst {R K} `{EqDecision K} (key : R → K) seen df :
  (rn_over_from key seen df).*1 = df.
Proof.
  revert seen. induction df as [|r df IH]; intros seen; simpl; [done|].
  by rewrite IH.
Qed.

Lemma rn_over_from_lower {R K} `{EqDecision K} (key : R → K) seen df r n :
  (r, n) ∈ rn_over_from key seen df →
  1 + Z.of_nat (length (filter (λ r', key r' = key r) seen)) ≤ n.
Proof.
  revert seen. induction df as [|r0 df IH]; intros seen; simpl.
  - by intros ?%elem_of_nil.
  - intros [[= -> ->]|Hin]%elem_of_cons; [done|].
    apply IH in Hin. rewrite filter_app, length_app in Hin. lia.
Qed.

(** Inside one group the row numbers are pairwise different. *)
Lemma rn_over_from_inj {R K} `{EqDecision K} (key : R → K) seen df r r' n :
  (r, n) ∈ rn_over_from key seen df → (r', n) ∈ rn_over_from key seen df →
  key r = key r' → r = r'.
Proof.
  revert seen. induction df as [|r0 df IH]; intros seen; simpl.
  - by intros ?%elem_of_nil.
  - intros [[= -> ->]|Hin]%elem_of_cons [E|Hin']%elem_of_cons Hkey.
    + by injection E.
    + apply rn_over_from_lower in Hin'. rewrite <- Hkey in Hin'.
      rewrite filter_app, length_app, filter_cons, decide_True in Hin' by done.
      simpl in Hin'. lia.
    + injection E as -> ->. apply rn_over_from_lower in Hin. rewrite Hkey in Hin.
      rewrite filter_app, length_app, filter_cons, decide_True in Hin by done.
      simpl in Hin. lia.
    + by eapply IH.
Qed.

Lemma NoDup_fst_functional {A B} (l : list (A * B)) x y1 y2 :
  NoDup l.*1 → (x, y1) ∈ l → (x, y2) ∈ l → y1 = y2.
Proof.
  intros Hnd (i & Hi)%list_elem_of_lookup (j & Hj)%list_elem_of_lookup.
  assert ((x, y1) = (x, y2)) as E; [|by injection E].
  by eapply (NoDup_fmap_lookup fst).
Qed.

Lemma NoDup_fmap_elem {A B} (f : A → B) (l : list A) x y :
  NoDup (f <$> l) → x ∈ l → y ∈ l → f x = f y → x = y.
Proof.
  intros Hnd (i & Hi)%list_elem_of_lookup (j & Hj)%list_elem_of_lookup.
  by eapply NoDup_fmap_lookup.
Qed.

(** X9. The RN join of M0_TAX, M0_BANKFEES, M0_RENT and M1 joins rows that
    agree on tenant, bank code, account tail, sign, date and cents, and it
    is one to one: no api_row_id and no erp_row_id occurs in two pairs. *)
Theorem rn_join_one_to_one A E :
  NoDup (api_row_id <$> A) → NoDup (erp_row_id <$> E) →
  (∀ p, p ∈ rn_join A E →
     ∃ a e, a ∈ A ∧ e ∈ E ∧ api_row_id a = p.1 ∧ erp_row_id e = p.2 ∧
            rn_key_A a = rn_key_E e) ∧
  (∀ p q, p ∈ rn_join A E → q ∈ rn_join A E → (p.1 = q.1 ↔ p.2 = q.2)).
Proof.
  intros HA HE. split; [apply rn_join_spec|]. intros p q Hp Hq.
  unfold rn_join in Hp, Hq.
  set (A_rn := rn_over rn_key_A (merge_sort sort_le_A A)) in *.
  set (E_rn := rn_over rn_key_E (merge_sort sort_le_E E)) in *.
  apply list_elem_of_bind in Hp as ([a na] & Hp & Ha).
  apply list_elem_of_bind in Hp as ([e ne] & Hp & He).
  case_bool_decide as Hk; [|by apply elem_of_nil in Hp].
  apply list_elem_of_singleton in Hp as ->.
  apply list_elem_of_bind in Hq as ([a' na'] & Hq & Ha').
  apply list_elem_of_bind in Hq as ([e' ne'] & Hq & He').
  case_bool_decide as Hk'; [|by apply elem_of_nil in Hq].
  apply list_elem_of_singleton in Hq as ->.
  cbn [fst snd] in *. destruct Hk as [Hk ->], Hk' as [Hk' ->].
  assert (NoDup A_rn.*1) as HndA.
  { unfold A_rn, rn_over. rewrite rn_over_from_fst, merge_sort_Permutation.
    by eapply NoDup_fmap_1. }
  assert (NoDup E_rn.*1) as HndE.
  { unfold E_rn, rn_over. rewrite rn_over_from_fst, merge_sort_Permutation.
    by eapply NoDup_fmap_1. }
  assert (a ∈ A ∧ a' ∈ A ∧ e ∈ E ∧ e' ∈ E) as (Hain & Ha'in & Hein & He'in).
  { pose proof (elem_of_rn_over_from _ _ _ _ _ Ha) as H1.
    pose proof (elem_of_rn_over_from _ _ _ _ _ Ha') as H2.
    pose proof (elem_of_rn_over_from _ _ _ _ _ He) as H3.
    pose proof (elem_of_rn_over_from _ _ _ _ _ He') as H4.
    rewrite merge_sort_Permutation in H1. rewrite merge_sort_Permutation in H2.
    rewrite merge_sort_Permutation in H3. rewrite merge_sort_Permutation in H4.
    done. }
  split; intros Hid.
  - assert (a = a') as <- by by eapply (NoDup_fmap_elem api_row_id A).
    assert (ne = ne') as <- by by eapply (NoDup_fst_functional A_rn a).
    f_equal. eapply (rn_over_from_inj rn_key_E); [exact He|exact He'|congruence].
  - assert (e = e') as <- by by eapply (NoDup_fmap_elem erp_row_id E).
    assert (ne = ne') as <- by by eapply (NoDup_fst_functional E_rn e).
    f_equal. eapply (rn_over_from_inj rn_key_A); [exact Ha|exact Ha'|congruence].
Qed.

Lemma rn_join_one_to_one_witness :
  (∀ p, p ∈ rn_join demo_tax_A0 demo_tax_E0 →
     ∃ a e, a ∈ demo_tax_A0 ∧ e ∈ demo_tax_E0 ∧ api_row_id a = p.1 ∧
            erp_row_id e = p.2 ∧ rn_key_A a = rn_key_E e) ∧
  (∀ p q, p ∈ rn_join demo_tax_A0 demo_tax_E0 → q ∈ rn_join demo_tax_A0 demo_tax_E0 →
          (p.1 = q.1 ↔ p.2 = q.2)).
Proof.
  apply rn_join_one_to_one.
  - apply (bool_decide_unpack _). vm_compute. exact I.
  - apply (bool_decide_unpack _). vm_compute. exact I.
Defined.

(** ** [matches.unique(subset=["api_row_id","erp_row_id"])] *)

Lemma unique_pairs_sub seen l r : r ∈ unique_pairs seen l → r ∈ l.
Proof.
  revert seen. induction l as [|r0 l IH]; intros seen; simpl; [done|].
  case_bool_decide.
  - intros Hr. right. by eapply IH.
  - intros [->|Hr]%elem_of_cons; [by left|right; by eapply IH].
Qed.

Lemma unique_pairs_fresh seen l r :
  r ∈ unique_pairs seen l → (m_api_row_id r, m_erp_row_id r) ∉ seen.
Proof.
  revert seen. induction l as [|r0 l IH]; intros seen; simpl.
  - by intros ?%elem_of_nil.
  - case_bool_decide as Hs; [apply IH|].
    intros [->|Hr]%elem_of_cons; [done|]. apply IH in Hr.
    rewrite not_elem_of_cons in Hr. tauto.
Qed.

(** X10. De-duplication of the candidate edges keeps only rows of its
    input, keeps one row for every (api_row_id, erp_row_id) pair of the
    input and no pair twice. *)
Theorem unique_pairs_spec l :
  (∀ r, r ∈ unique_pairs [] l → r ∈ l) ∧
  NoDup ((λ r, (m_api_row_id r, m_erp_row_id r)) <$> unique_pairs [] l) ∧
  (∀ r, r ∈ l → ∃ r', r' ∈ unique_pairs [] l ∧
                      m_api_row_id r' = m_api_row_id r ∧
                      m_erp_row_id r' = m_erp_row_id r).
Proof.
  split; [intros r; apply unique_pairs_sub|]. split.
  - generalize (@nil (Z * Z)). induction l as [|r0 l IH]; intros seen; simpl;
      [constructor|].
    case_bool_decide as Hs; [apply IH|]. rewrite fmap_cons. constructor; [|apply IH].
    intros (r & E & Hr)%list_elem_of_fmap. apply unique_pairs_fresh in Hr.
    apply Hr. rewrite <- E. by left.
  - assert (∀ seen r, r ∈ l →
              (m_api_row_id r, m_erp_row_id r) ∈ seen ∨
              ∃ r', r' ∈ unique_pairs seen l ∧ m_api_row_id r' = m_api_row_id r ∧
                    m_erp_row_id r' = m_erp_row_id r) as H.
    { induction l as [|r0 l IH]; intros seen r Hr; [by apply elem_of_nil in Hr|].
      simpl. apply elem_of_cons in Hr as [->|Hr].
      - case_bool_decide as Hs; [by left|]. right. exists r0. split; [by left|done].
      - case_bool_decide as Hs.
        + by apply IH.
        + destruct (IH ((m_api_row_id r0, m_erp_row_id r0) :: seen) r Hr)
            as [[E|Hin]%elem_of_cons|(r' & Hr' & E)].
          * right. exists r0. injection E as -> ->. split; [by left|done].
          * by left.
          * right. exists r'. split; [by right|done]. }
    intros r Hr. destruct (H [] r Hr) as [Hin|Hex]; [by apply elem_of_nil in Hin|done].
Qed.

(** ** Tags of the emitted edges *)

(** X11. Every edge of the cascade carries one of the ten (stage, prio,
    ddiff) triples of [transform]: ddiff is 1 for the three M0 stages and
    0 otherwise. *)
Theorem emitted_stage_tags A0 E0 desc r :
  r ∈ emitted (run_stages A0 E0 desc) →
  (m_stage r, m_prio r, m_ddiff r) ∈ stage_tags.
Proof.
  set (P := λ r : MatchRow, (m_stage r, m_prio r, m_ddiff r) ∈ stage_tags).
  assert (∀ f w, f ∈ cascade desc → (∀ r, r ∈ emitted w → P r) →
                 ∀ r, r ∈ emitted (f w) → P r) as Hstep.
  { intros f w Hf Hw. unfold cascade in Hf.
    rewrite !elem_of_app, list_elem_of_fmap, !elem_of_cons, !elem_of_nil in Hf.
    destruct Hf as [[->|[->|[->|[]]]]|[(mt & -> & Hmt)|[->|[->|[->|[]]]]]];
      try (apply consume_provenance; [done|]; intros p _; unfold P, stage_tags;
           cbn [m_stage m_prio m_ddiff]; set_solver).
    unfold stage_desc. destruct (dict_get desc mt) as [[|p0 ps]|]; [done| |done].
    match goal with
    | |- context [match ?d with [] => w | _ :: _ => _ end] => destruct d
    end; [done|].
    apply consume_provenance; [done|]. intros q _. unfold P, stage_tags, DESC_STAGE_PRIO.
    cbn [m_stage m_prio m_ddiff]. unfold DESC_STAGE_ORDER in Hmt. set_solver. }
  rewrite run_stages_cascade. unfold run_prefix. rewrite firstn_all.
  assert (∀ l w, l ⊆ cascade desc → (∀ r, r ∈ emitted w → P r) →
                 ∀ r, r ∈ emitted (foldl (λ w f, f w) w l) → P r) as Hfold.
  { induction l as [|f l IH]; intros w Hl Hw; cbn [foldl]; [done|].
    apply IH; [set_solver|]. apply Hstep; [apply Hl; left|done]. }
  apply Hfold; [done|]. intros r' Hr'. by apply elem_of_nil in Hr'.
Qed.

Lemma emitted_stage_tags_witness :
  ("M0_TAX_DMINUS1_RN_1TO1", 5, 1) ∈ stage_tags.
Proof.
  apply (emitted_stage_tags demo_tax_A0 demo_tax_E0 []
           (mkMatchRow 0 1 "M0_TAX_DMINUS1_RN_1TO1" 5 1)).
  vm_compute. left.
Defined.

(** ** The day-balance fallback *)

Lemma dict_get_set {K V} `{EqDecision K} (d : list (K * V)) k v k' :
  dict_get (dict_set d k v) k' = if decide (k' = k) then Some v else dict_get d k'.
Proof.
  induction d as [|[k0 v0] d IH]; cbn [dict_set dict_get].
  - destruct (decide (k' = k)) as [->|Hne].
    + by rewrite bool_decide_eq_true_2.
    + by rewrite bool_decide_eq_false_2.
  - destruct (decide (k = k0)) as [->|Hk].
    + rewrite bool_decide_eq_true_2 by done. cbn [dict_get].
      destruct (decide (k' = k0)) as [->|Hne].
      * by rewrite bool_decide_eq_true_2.
      * by rewrite !bool_decide_eq_false_2.
    + rewrite (bool_decide_eq_false_2 (k = k0)) by done. cbn [dict_get].
      destruct (decide (k' = k0)) as [->|Hne0].
      * rewrite bool_decide_eq_true_2 by done. by rewrite decide_False by done.
      * rewrite (bool_decide_eq_false_2 (k' = k0)) by done. apply IH.
Qed.

Lemma dict_get_of_elem {K V} `{EqDecision K} (d : list (K * V)) k v :
  NoDup d.*1 → (k, v) ∈ d → dict_get d k = Some v.
Proof.
  induction d as [|[k0 v0] d IH]; intros Hnd Hin; [by apply elem_of_nil in Hin|].
  rewrite fmap_cons in Hnd. apply NoDup_cons in Hnd as [Hk0 Hnd]. cbn [dict_get].
  apply elem_of_cons in Hin as [[= -> ->]|Hin].
  - by rewrite bool_decide_eq_true_2.
  - rewrite bool_decide_eq_false_2; [by apply IH|].
    intros ->. apply Hk0. apply list_elem_of_fmap. by exists (k0, v).
Qed.

Lemma zsum_with_cons {A} (f : A → Z) x l : zsum_with f (x :: l) = f x + zsum_with f l.
Proof. done. Qed.

Lemma zsum_with_app {A} (f : A → Z) l1 l2 :
  zsum_with f (l1 ++ l2) = zsum_with f l1 + zsum_with f l2.
Proof. unfold zsum_with. induction l1 as [|x l1 IH]; simpl; lia. Qed.

Lemma wrap64_add_l a b : wrap64 (wrap64 a + b) = wrap64 (a + b).
Proof.
  unfold wrap64. f_equal.
  replace ((a + 2 ^ 63) mod 2 ^ 64 - 2 ^ 63 + b + 2 ^ 63)
    with ((a + 2 ^ 63) mod 2 ^ 64 + b) by lia.
  replace (a + b + 2 ^ 63) with (a + 2 ^ 63 + b) by lia.
  by rewrite Zplus_mod_idemp_l.
Qed.

Lemma wrap64_small z : - 2 ^ 63 ≤ z < 2 ^ 63 → wrap64 z = z.
Proof. intros Hz. unfold wrap64. rewrite Z.mod_small; lia. Qed.

Lemma group_sum_snoc {R} (key : R → fb_key) (cents : R → Z) df r :
  group_sum key cents (df ++ [r]) =
  dict_set (group_sum key cents df) (key r)
    (wrap64 (default 0 (dict_get (group_sum key cents df) (key r)) + cents r)).
Proof. unfold group_sum. by rewrite foldl_app. Qed.

Lemma filter_key_none {R} (key : R → fb_key) df k :
  k ∉ key <$> df → filter (λ r, key r = k) df = [].
Proof.
  intros Hk. induction df as [|r df IH]; [done|].
  rewrite fmap_cons, not_elem_of_cons in Hk. destruct Hk as [Hne Hk].
  rewrite filter_cons, decide_False by done. by apply IH.
Qed.

Lemma group_sum_get {R} (key : R → fb_key) (cents : R → Z) df k :
  dict_get (group_sum key cents df) k =
  if decide (k ∈ key <$> df)
  then Some (wrap64 (zsum_with cents (filter (λ r, key r = k) df))) else None.
Proof.
  induction df as [|r df IH] using rev_ind.
  { rewrite decide_False; [done|]. by intros ?%elem_of_nil. }
  rewrite group_sum_snoc, dict_get_set, filter_app, fmap_app, zsum_with_app, filter_cons,
    filter_nil.
  destruct (decide (k = key r)) as [->|Hne].
  - rewrite IH, !(decide_True (P := key r = key r)) by done. rewrite zsum_with_cons.
    rewrite (decide_True (P := key r ∈ (key <$> df) ++ (key <$> [r])))
      by (apply elem_of_app; right; by left).
    f_equal. destruct (decide (key r ∈ key <$> df)) as [Hin|Hin]; cbn [default]; unfold id.
    + rewrite wrap64_add_l. f_equal. unfold zsum_with at 3. simpl. lia.
    + rewrite (filter_key_none key df (key r) Hin). f_equal. unfold zsum_with. simpl. lia.
  - rewrite IH, (decide_False (P := key r = k)) by done.
    unfold zsum_with at 2. cbn [foldr]. rewrite Z.add_0_r.
    destruct (decide (k ∈ key <$> df)) as [Hin|Hin].
    + rewrite decide_True; [done|]. apply elem_of_app. by left.
    + rewrite decide_False; [done|]. rewrite elem_of_app. intros [?|Hk]; [done|].
      apply list_elem_of_singleton in Hk. done.
Qed.

Lemma group_sum_keys_nodup {R} (key : R → fb_key) (cents : R → Z) df :
  NoDup (group_sum key cents df).*1.
Proof.
  unfold group_sum.
  assert (∀ d : list (fb_key * Z), NoDup d.*1 →
            NoDup (foldl (λ d r, dict_set d (key r)
                                   (wrap64 (default 0 (dict_get d (key r)) + cents r)))
                         d df).*1)
    as Hfold; [|apply Hfold; constructor].
  induction df as [|r df IH]; intros d Hd; cbn [foldl]; [done|].
  apply IH. rewrite dict_set_keys. destruct (decide (key r ∈ d.*1)); [done|].
  apply NoDup_app. split; [done|]. split; [|apply NoDup_singleton].
  by intros y Hy ->%list_elem_of_singleton.
Qed.

Lemma group_sum_elem {R} (key : R → fb_key) (cents : R → Z) df k v :
  (k, v) ∈ group_sum key cents df ↔
  k ∈ key <$> df ∧ v = wrap64 (zsum_with cents (filter (λ r, key r = k) df)).
Proof.
  split.
  - intros Hin. apply dict_get_of_elem in Hin; [|apply group_sum_keys_nodup].
    rewrite group_sum_get in Hin. destruct (decide _); [|done].
    by injection Hin as <-.
  - intros [Hk ->]. apply dict_get_elem. rewrite group_sum_get.
    by rewrite decide_True.
Qed.

(** X12. The fallback stage, on frames without NULL in the key columns,
    joins an API row and an ERP row exactly when they share (tenant, bank
    code, account tail, date, sign) and the Int64 sum of the cents of all
    API rows of that key equals the Int64 sum of the cents of all its ERP
    rows; when the exact sums of every key fit in Int64 the condition is
    that the exact sums are equal. *)
Theorem fb_edges_iff A E p :
  (p ∈ fb_edges A E ↔
   ∃ a e, a ∈ A ∧ e ∈ E ∧ p = (api_row_id a, erp_row_id e) ∧
          fb_key_A a = fb_key_E e ∧
          wrap64 (zsum_with api_cents (filter (λ r, fb_key_A r = fb_key_A a) A)) =
          wrap64 (zsum_with erp_cents (filter (λ r, fb_key_E r = fb_key_A a) E))) ∧
  ((∀ k, - 2 ^ 63 ≤ zsum_with api_cents (filter (λ r, fb_key_A r = k) A) < 2 ^ 63 ∧
         - 2 ^ 63 ≤ zsum_with erp_cents (filter (λ r, fb_key_E r = k) E) < 2 ^ 63) →
   (p ∈ fb_edges A E ↔
    ∃ a e, a ∈ A ∧ e ∈ E ∧ p = (api_row_id a, erp_row_id e) ∧
           fb_key_A a = fb_key_E e ∧
           zsum_with api_cents (filter (λ r, fb_key_A r = fb_key_A a) A) =
           zsum_with erp_cents (filter (λ r, fb_key_E r = fb_key_A a) E))).
Proof.
  assert (p ∈ fb_edges A E ↔
          ∃ a e, a ∈ A ∧ e ∈ E ∧ p = (api_row_id a, erp_row_id e) ∧
                 fb_key_A a = fb_key_E e ∧
                 wrap64 (zsum_with api_cents (filter (λ r, fb_key_A r = fb_key_A a) A)) =
                 wrap64 (zsum_with erp_cents (filter (λ r, fb_key_E r = fb_key_A a) E)))
    as Hiff.
  2: { split; [exact Hiff|]. intros Hb. rewrite Hiff.
       split; intros (a & e & Ha & He & Hp & Hk & Hs); exists a, e;
         (do 4 (split; [done|])); destruct (Hb (fb_key_A a)) as [HbA HbE].
       - by rewrite !wrap64_small in Hs.
       - by rewrite !wrap64_small. }
  assert (∀ k, k ∈ remove_dups
              (ka ← group_sum fb_key_A api_cents A;
               ke ← group_sum fb_key_E erp_cents E;
               if bool_decide (ka.1 = ke.1 ∧ ka.2 = ke.2) then [ka.1] else []) ↔
            k ∈ fb_key_A <$> A ∧ k ∈ fb_key_E <$> E ∧
            wrap64 (zsum_with api_cents (filter (λ r, fb_key_A r = k) A)) =
            wrap64 (zsum_with erp_cents (filter (λ r, fb_key_E r = k) E))) as Hkeys.
  { intros k. rewrite elem_of_remove_dups, list_elem_of_bind. split.
    - intros ([ka va] & Hk & Hka). apply list_elem_of_bind in Hk as ([ke ve] & Hk & Hke).
      case_bool_decide as Heq; [|by apply elem_of_nil in Hk].
      apply list_elem_of_singleton in Hk as ->. cbn [fst snd] in *.
      destruct Heq as [-> ->].
      apply group_sum_elem in Hka as [? ?], Hke as [? ?]. split; [done|].
      split; [done|congruence].
    - intros (HA & HE & Hsum).
      exists (k, wrap64 (zsum_with api_cents (filter (λ r, fb_key_A r = k) A))).
      split; [|by apply group_sum_elem].
      apply list_elem_of_bind.
      exists (k, wrap64 (zsum_with erp_cents (filter (λ r, fb_key_E r = k) E))).
      split; [|by apply group_sum_elem].
      cbn [fst snd]. rewrite bool_decide_eq_true_2 by done. by left. }
  unfold fb_edges. split.
  - destruct A as [|a0 A']; [by intros ?%elem_of_nil|].
    destruct E as [|e0 E']; [by intros ?%elem_of_nil|].
    rewrite elem_of_remove_dups. intros (k & Hp & Hk)%list_elem_of_bind.
    apply Hkeys in Hk as (_ & _ & Hsum).
    apply list_elem_of_bind in Hp as (a & Hp & [Hka Ha]%list_elem_of_filter).
    apply list_elem_of_bind in Hp as (e & Hp & [Hke He]%list_elem_of_filter).
    apply list_elem_of_singleton in Hp as ->. exists a, e.
    rewrite Hka. split; [done|]. split; [done|]. split; [done|]. split; [done|done].
  - intros (a & e & Ha & He & -> & Hkey & Hsum).
    destruct A as [|a0 A']; [by apply elem_of_nil in Ha|].
    destruct E as [|e0 E']; [by apply elem_of_nil in He|].
    rewrite elem_of_remove_dups. apply list_elem_of_bind. exists (fb_key_A a).
    split.
    + apply list_elem_of_bind. exists a. split; [|by apply list_elem_of_filter].
      apply list_elem_of_bind. exists e. split; [by left|].
      by apply list_elem_of_filter.
    + apply Hkeys. split; [by apply list_elem_of_fmap_2|]. split; [|done].
      rewrite Hkey. by apply list_elem_of_fmap_2.
Qed.

(** * Description stages: calendar helpers *)

Ltac mod_lia := Z.div_mod_to_equations; lia.

Ltac weekend_cases :=
  repeat (cbn [skip_weekend]; unfold is_weekend, weekday;
          case_bool_decide; try (exfalso; mod_lia)).

Lemma is_weekend_iff d : is_weekend d = true ↔ 5 ≤ (d + 6) mod 7.
Proof. unfold is_weekend, weekday. by rewrite bool_decide_eq_true. Qed.

Lemma is_weekend_false_iff d : is_weekend d = false ↔ (d + 6) mod 7 < 5.
Proof. unfold is_weekend, weekday. rewrite bool_decide_eq_false. lia. Qed.

Lemma next_business_day_cases d :
  let n := next_business_day d in
  (d + 6) mod 7 < 4 ∧ n = d + 1 ∨
  (d + 6) mod 7 = 4 ∧ n = d + 3 ∨
  (d + 6) mod 7 = 5 ∧ n = d + 2 ∨
  (d + 6) mod 7 = 6 ∧ n = d + 1.
Proof.
  cbv zeta. unfold next_business_day.
  pose proof (Z.mod_pos_bound (d + 6) 7 ltac:(lia)) as Hb.
  weekend_cases; mod_lia.
Qed.

Lemma prev_business_day_cases d :
  let p := prev_business_day d in
  1 ≤ (d + 6) mod 7 ≤ 5 ∧ p = d - 1 ∨
  (d + 6) mod 7 = 6 ∧ p = d - 2 ∨
  (d + 6) mod 7 = 0 ∧ p = d - 3.
Proof.
  cbv zeta. unfold prev_business_day.
  pose proof (Z.mod_pos_bound (d + 6) 7 ltac:(lia)) as Hb.
  weekend_cases; mod_lia.
Qed.

Lemma next_business_day_bounds d :
  is_weekend (next_business_day d) = false ∧ d < next_business_day d ≤ d + 3.
Proof.
  destruct (next_business_day_cases d) as [[H ->]|[[H ->]|[[H ->]|[H ->]]]];
    (split; [apply is_weekend_false_iff; mod_lia|lia]).
Qed.

Lemma prev_business_day_bounds d :
  is_weekend (prev_business_day d) = false ∧ d - 3 ≤ prev_business_day d < d.
Proof.
  destruct (prev_business_day_cases d) as [[H ->]|[[H ->]|[H ->]]];
    (split; [apply is_weekend_false_iff; mod_lia|lia]).
Qed.

(** X14. [next_business_day] returns the first day after [d] that is not a
    Saturday or Sunday, at most three days later; [prev_business_day]
    returns the last such day before [d], at most three days earlier. *)
Theorem business_day_neighbours d :
  (is_weekend (next_business_day d) = false ∧
   d < next_business_day d ≤ d + 3 ∧
   ∀ x, d < x < next_business_day d → is_weekend x = true) ∧
  (is_weekend (prev_business_day d) = false ∧
   d - 3 ≤ prev_business_day d < d ∧
   ∀ x, prev_business_day d < x < d → is_weekend x = true).
Proof.
  split.
  - destruct (next_business_day_cases d) as [[H ->]|[[H ->]|[[H ->]|[H ->]]]];
      (split; [apply is_weekend_false_iff; mod_lia|]); (split; [lia|]);
      intros x Hx; apply is_weekend_iff; mod_lia.
  - destruct (prev_business_day_cases d) as [[H ->]|[[H ->]|[H ->]]];
      (split; [apply is_weekend_false_iff; mod_lia|]); (split; [lia|]);
      intros x Hx; apply is_weekend_iff; mod_lia.
Qed.

Lemma iter_next_bounds k d :
  let r := Nat.iter k next_business_day d in
  d + Z.of_nat k ≤ r ≤ d + 3 * Z.of_nat k ∧ (k ≠ 0%nat → is_weekend r = false).
Proof.
  cbv zeta. induction k as [|k IH]; [simpl; split; [lia|done]|].
  change (Nat.iter (S k) next_business_day d)
    with (next_business_day (Nat.iter k next_business_day d)).
  destruct IH as [IH _].
  set (r := Nat.iter k next_business_day d) in *. clearbody r.
  destruct (next_business_day_bounds r) as [Hw Hb].
  split; [lia|done].
Qed.

Lemma iter_prev_bounds k d :
  let r := Nat.iter k prev_business_day d in
  d - 3 * Z.of_nat k ≤ r ≤ d - Z.of_nat k ∧ (k ≠ 0%nat → is_weekend r = false).
Proof.
  cbv zeta. induction k as [|k IH]; [simpl; split; [lia|done]|].
  change (Nat.iter (S k) prev_business_day d)
    with (prev_business_day (Nat.iter k prev_business_day d)).
  destruct IH as [IH _].
  set (r := Nat.iter k prev_business_day d) in *. clearbody r.
  destruct (prev_business_day_bounds r) as [Hw Hb].
  split; [lia|done].
Qed.

(** X15. [add_business_days d n] is [d] for n = 0 and otherwise a day that
    is not a Saturday or Sunday, between |n| and 3|n| days away from [d]
    on the side given by the sign of [n]. *)
Theorem add_business_days_spec d n :
  (n = 0 → add_business_days d n = d) ∧
  (n ≠ 0 → is_weekend (add_business_days d n) = false) ∧
  (0 ≤ n → d + n ≤ add_business_days d n ≤ d + 3 * n) ∧
  (n ≤ 0 → d + 3 * n ≤ add_business_days d n ≤ d + n).
Proof.
  unfold add_business_days.
  destruct (decide (0 ≤ n)) as [Hn|Hn].
  - rewrite (bool_decide_eq_true_2 (0 ≤ n)) by done.
    rewrite (bool_decide_eq_true_2 (0 < 1)) by lia.
    match goal with
    | |- context [Nat.iter ?k ?f d] =>
        change (Nat.iter k f d) with (Nat.iter k next_business_day d)
    end.
    destruct (iter_next_bounds (Z.to_nat (Z.abs n)) d) as [Hb Hw].
    split; [by intros ->|]. split; [intros Hne; apply Hw; lia|]. split; lia.
  - rewrite (bool_decide_eq_false_2 (0 ≤ n)) by done.
    rewrite (bool_decide_eq_false_2 (0 < -1)) by lia.
    match goal with
    | |- context [Nat.iter ?k ?f d] =>
        change (Nat.iter k f d) with (Nat.iter k prev_business_day d)
    end.
    destruct (iter_prev_bounds (Z.to_nat (Z.abs n)) d) as [Hb Hw].
    split; [lia|]. split; [intros Hne; apply Hw; lia|]. split; lia.
Qed.

(** X16. The dates a stage-02 anchor accepts: the day itself first, and
    four days that are not Saturdays or Sundays, all within four calendar
    days of it. *)
Theorem candidate_dates_window d :
  ∃ d1 d2 d3 d4,
    candidate_dates d = [d; d1; d2; d3; d4] ∧
    Forall (λ x, is_weekend x = false ∧ d - 4 ≤ x ≤ d + 4) [d1; d2; d3; d4] ∧
    d < d1 < d2 ∧ d4 < d3 < d.
Proof.
  unfold candidate_dates.
  change (add_business_days d 1) with (next_business_day d).
  change (add_business_days d 2) with (next_business_day (next_business_day d)).
  change (add_business_days d (-1)) with (prev_business_day d).
  change (add_business_days d (-2)) with (prev_business_day (prev_business_day d)).
  eexists _, _, _, _. split; [done|].
  pose proof (Z.mod_pos_bound (d + 6) 7 ltac:(lia)) as Hb.
  destruct (next_business_day_cases d) as [[H ->]|[[H ->]|[[H ->]|[H ->]]]];
    destruct (prev_business_day_cases d) as [[H' ->]|[[H' ->]|[H' ->]]]; try mod_lia.
  all: match goal with
       | |- context [next_business_day ?x] =>
           destruct (next_business_day_cases x) as [[G ->]|[[G ->]|[[G ->]|[G ->]]]]
       end; try mod_lia.
  all: match goal with
       | |- context [prev_business_day ?x] =>
           destruct (prev_business_day_cases x) as [[G' ->]|[[G' ->]|[G' ->]]]
       end; try mod_lia.
  all: split; [|lia]; repeat constructor; try lia; apply is_weekend_false_iff; mod_lia.
Qed.

(** * Description stages: keywords and account numbers *)

Lemma keywords_loop_spec (Q : string → Prop) mk tokens seen kws :
  (∀ t, t ∈ tokens → (2 < String.length t)%nat → isdigit t = false →
        t ∉ STOPWORDS → Q t) →
  NoDup kws → (∀ t, t ∈ kws → t ∈ seen) → Forall Q kws →
  (length kws < Nat.max 1 mk)%nat →
  let r := keywords_loop mk tokens seen kws in
  NoDup r ∧ (length r ≤ Nat.max 1 mk)%nat ∧ Forall Q r.
Proof.
  revert seen kws. induction tokens as [|t tokens IH]; intros seen kws HQ Hnd Hseen Hall Hlen.
  { simpl. split; [done|]. split; [lia|done]. }
  assert (∀ t', t' ∈ tokens → (2 < String.length t')%nat → isdigit t' = false →
                t' ∉ STOPWORDS → Q t') as HQ'.
  { intros t' Hin. apply HQ. by right. }
  cbn [keywords_loop].
  destruct (String.length t <=? 2)%nat eqn:Hl; [by apply IH|].
  destruct (isdigit t) eqn:Hd; [by apply IH|].
  case_bool_decide as Hstop; [by apply IH|].
  case_bool_decide as Hs; [by apply IH|].
  apply Nat.leb_gt in Hl.
  assert (NoDup (kws ++ [t])) as Hnd'.
  { apply NoDup_app. split; [done|]. split; [|apply NoDup_singleton].
    intros x Hx ->%list_elem_of_singleton. by apply Hs, Hseen. }
  assert (Forall Q (kws ++ [t])) as Hall'.
  { apply Forall_app. split; [done|]. constructor; [|done]. apply HQ; [by left|done..]. }
  destruct (mk <=? length (kws ++ [t]))%nat eqn:Hstop'.
  - cbv zeta. split; [done|]. split; [|done]. rewrite length_app. simpl. lia.
  - apply Nat.leb_gt in Hstop'. apply IH; [done|done| |done|lia].
    intros x [Hx| ->%list_elem_of_singleton]%elem_of_app; [right; by apply Hseen|by left].
Qed.

Lemma runs_alnum_chars cur l t :
  Forall (λ c, is_upper c || is_digit c = true) cur →
  t ∈ runs_alnum cur l →
  t ≠ "" ∧ Forall (λ c, is_upper c || is_digit c = true) (String.list_ascii_of_string t).
Proof.
  revert cur. induction l as [|c l IH]; intros cur Hcur; cbn [runs_alnum].
  - destruct cur as [|c0 cur']; [by intros ?%elem_of_nil|].
    intros ->%list_elem_of_singleton.
    split; [simpl; discriminate|].
    by rewrite String.list_ascii_of_string_of_list_ascii.
  - destruct (is_upper c || is_digit c) eqn:Hc.
    + apply IH. apply Forall_app. split; [done|]. constructor; [exact Hc|constructor].
    + destruct cur as [|c0 cur']; [by apply IH|].
      intros [->|Hin]%elem_of_cons; [|by apply (IH [])].
      split; [simpl; discriminate|].
      by rewrite String.list_ascii_of_string_of_list_ascii.
Qed.

(** X17. The keywords of a text are distinct tokens of the text, made of
    the characters A-Z and 0-9, longer than two characters, not all
    digits and not stop words; there are at most [max_keywords] of them
    (one when [max_keywords] is 0). *)
Theorem extract_keywords_spec text max_keywords :
  NoDup (extract_keywords text max_keywords) ∧
  (length (extract_keywords text max_keywords) ≤ Nat.max 1 max_keywords)%nat ∧
  Forall (λ t, (t ∈ text_tokens text) ∧ (2 < String.length t)%nat ∧
               isdigit t = false ∧ (t ∉ STOPWORDS) ∧
               Forall (λ c, is_upper c || is_digit c = true)
                      (String.list_ascii_of_string t))
         (extract_keywords text max_keywords).
Proof.
  unfold extract_keywords. apply keywords_loop_spec.
  - intros t Hin Hl Hd Hs. do 4 (split; [done|]).
    unfold text_tokens in Hin. by apply runs_alnum_chars in Hin as [_ ?].
  - constructor.
  - by intros t ?%elem_of_nil.
  - constructor.
  - simpl. lia.
Qed.

(** ** Account numbers *)

Lemma lstrip_zeros_head l : head (lstrip_zeros l) ≠ Some "0"%char.
Proof.
  induction l as [|c l IH]; simpl; [done|].
  case_bool_decide as Hc; [done|]. simpl. congruence.
Qed.

Lemma lstrip_zeros_fixed l : head l ≠ Some "0"%char → lstrip_zeros l = l.
Proof.
  destruct l as [|c l]; [done|]. simpl. intros Hc.
  rewrite bool_decide_eq_false_2; [done|]. congruence.
Qed.

Lemma lstrip_zeros_sublist l : lstrip_zeros l `sublist_of` l.
Proof.
  induction l as [|c l IH]; simpl; [done|].
  case_bool_decide; [by apply sublist_cons|done].
Qed.

Lemma filter_digits_fixed l :
  Forall (λ c, is_digit c = true) l → filter (λ c, is_digit c = true) l = l.
Proof.
  induction 1 as [|c l Hc _ IH]; [done|].
  rewrite filter_cons, decide_True by done. by f_equal.
Qed.

Lemma normalized_digits acc :
  Forall (λ c, is_digit c = true)
    (lstrip_zeros (filter (λ c, is_digit c = true) (String.list_ascii_of_string acc))).
Proof.
  eapply Forall_impl.
  - apply Forall_forall. intros c Hc.
    apply (sublist_subseteq _ _ (lstrip_zeros_sublist _)) in Hc.
    apply list_elem_of_filter in Hc as [Hd _]. exact Hd.
  - done.
Qed.

Lemma normalize_some_spec s :
  Forall (λ c, is_digit c = true)
    (String.list_ascii_of_string (normalize_account_number (Some s))) ∧
  head (String.list_ascii_of_string (normalize_account_number (Some s))) ≠ Some "0"%char ∧
  normalize_account_number (Some (normalize_account_number (Some s)))
    = normalize_account_number (Some s) ∧
  (String.length (acc_tail_of (normalize_account_number (Some s))) ≤ ACC_TAIL_DIGITS)%nat.
Proof.
  unfold normalize_account_number at 1 2.
  rewrite String.list_ascii_of_string_of_list_ascii.
  split; [apply normalized_digits|]. split; [apply lstrip_zeros_head|]. split.
  - unfold normalize_account_number.
    rewrite String.list_ascii_of_string_of_list_ascii.
    rewrite filter_digits_fixed by apply normalized_digits.
    by rewrite lstrip_zeros_fixed by apply lstrip_zeros_head.
  - unfold acc_tail_of, take_right.
    rewrite <- (String.list_ascii_of_string_of_list_ascii
                  (drop _ (String.list_ascii_of_string
                             (normalize_account_number (Some s))))) at 1.
    assert (∀ s, String.length s = length (String.list_ascii_of_string s)) as Hlen.
    { intros s'. induction s' as [|c s' IH]; simpl; [done|by rewrite IH]. }
    rewrite Hlen, !String.list_ascii_of_string_of_list_ascii, length_drop. lia.
Qed.

(** X18. [normalize_account_number] returns the empty string for [None].
    Its result consists of digits only, does not start with 0 and is a
    fixed point of the normalisation, and its tail has at most 8
    characters.  For an account number that is not NULL, the account tail
    that the polars loader computes with [right_digits] is the tail that
    the description stages take of the normalised number. *)
Theorem normalize_account_number_spec (acc : option string) :
  (acc = None → normalize_account_number acc = "") ∧
  Forall (λ c, is_digit c = true)
    (String.list_ascii_of_string (normalize_account_number acc)) ∧
  head (String.list_ascii_of_string (normalize_account_number acc)) ≠ Some "0"%char ∧
  normalize_account_number (Some (normalize_account_number acc))
    = normalize_account_number acc ∧
  (String.length (acc_tail_of (normalize_account_number acc)) ≤ ACC_TAIL_DIGITS)%nat ∧
  (∀ s, acc = Some s →
        right_digits s ACC_TAIL_DIGITS = acc_tail_of (normalize_account_number acc)).
Proof.
  destruct acc as [s|].
  - destruct (normalize_some_spec s) as (H1 & H2 & H3 & H4).
    split; [done|]. do 4 (split; [done|]). intros s' [= <-]. apply right_digits_tail.
  - split; [done|]. split; [constructor|]. split; [done|]. split; [done|].
    split; [vm_compute; lia|done].
Qed.

(** * The loaders *)

(** X19. The loaders number the rows by position: the k-th staging row
    becomes the row with row id k, with its id as uid and its tenant and
    bank code unchanged; so row ids are distinct and no row is lost. *)
Theorem loaded_rows_by_position to_cents desc_norm_of raw_api raw_erp :
  (api_row_id <$> load_api_from_pg to_cents desc_norm_of raw_api
     = Z.of_nat <$> seq 0 (length raw_api) ∧
   NoDup (api_row_id <$> load_api_from_pg to_cents desc_norm_of raw_api) ∧
   api_uid <$> load_api_from_pg to_cents desc_norm_of raw_api = ra_id <$> raw_api ∧
   acc_of_api <$> load_api_from_pg to_cents desc_norm_of raw_api
     = (λ r, (ra_tenant_id r, ra_bank_code r,
              right_digits (ra_account_number r) ACC_TAIL_DIGITS)) <$> raw_api) ∧
  (erp_row_id <$> load_erp_from_pg to_cents desc_norm_of raw_erp
     = Z.of_nat <$> seq 0 (length raw_erp) ∧
   NoDup (erp_row_id <$> load_erp_from_pg to_cents desc_norm_of raw_erp) ∧
   erp_uid <$> load_erp_from_pg to_cents desc_norm_of raw_erp
     = re_cd_lancamento <$> raw_erp ∧
   acc_of_erp <$> load_erp_from_pg to_cents desc_norm_of raw_erp
     = (λ r, (re_tenant_id r, re_bank_code r,
              right_digits (re_account_norm r) ACC_TAIL_DIGITS)) <$> raw_erp).
Proof.
  unfold load_api_from_pg, load_erp_from_pg.
  assert (∀ {A} (l : list A), imap (λ i _, Z.of_nat i) l = Z.of_nat <$> seq 0 (length l))
    as Hseq by (intros A l; apply imap_seq_0).
  split.
  - assert (api_row_id <$> imap (load_api_row to_cents desc_norm_of) raw_api
            = Z.of_nat <$> seq 0 (length raw_api)) as Hids.
    { rewrite fmap_imap, <- Hseq. by apply imap_ext. }
    split; [done|]. split.
    { rewrite Hids. apply NoDup_fmap_2; [apply _|apply NoDup_seq]. }
    split; rewrite fmap_imap, <- imap_const; by apply imap_ext.
  - assert (erp_row_id <$> imap (load_erp_row to_cents desc_norm_of) raw_erp
            = Z.of_nat <$> seq 0 (length raw_erp)) as Hids.
    { rewrite fmap_imap, <- Hseq. by apply imap_ext. }
    split; [done|]. split.
    { rewrite Hids. apply NoDup_fmap_2; [apply _|apply NoDup_seq]. }
    split; rewrite fmap_imap, <- imap_const; by apply imap_ext.
Qed.

(** * The spine of the daily table *)

Lemma zrange_from_nodup start len : NoDup (zrange_from start len).
Proof.
  revert start. induction len as [|len IH]; intros start; simpl; constructor; [|apply IH].
  rewrite zrange_from_elem. lia.
Qed.

Lemma elem_of_core_dates d : d ∈ core_dates ↔ DATE_FROM ≤ d ≤ DATE_TO.
Proof.
  unfold core_dates. rewrite zrange_from_elem. unfold DATE_FROM, DATE_TO. lia.
Qed.

Lemma elem_of_spine matches A0 E0 k d :
  (k, d) ∈ spine matches A0 E0 ↔
  k ∈ spine_dim matches A0 E0 ∧ DATE_FROM ≤ d ≤ DATE_TO.
Proof.
  unfold spine. rewrite list_elem_of_bind. split.
  - intros (k' & Hin & Hk). apply list_elem_of_bind in Hin as (d' & Hin & Hd).
    apply list_elem_of_singleton in Hin as [= -> ->].
    by apply elem_of_core_dates in Hd.
  - intros [Hk Hd]. exists k. split; [|done]. apply list_elem_of_bind.
    exists d. split; [by left|by apply elem_of_core_dates].
Qed.

Lemma cross_nodup {A B} (l : list A) (ds : list B) :
  NoDup l → NoDup ds → NoDup (k ← l; d ← ds; [(k, d)]).
Proof.
  intros Hnd Hds. induction Hnd as [|k l Hk _ IH]; [constructor|].
  cbn [mbind list_bind]. apply NoDup_app. split; [|split; [|done]].
  - clear IH Hk. induction Hds as [|d ds Hd _ IHd]; [constructor|].
    cbn [mbind list_bind app].
    constructor; [|done]. intros (d' & Hin & Hd')%list_elem_of_bind.
    by apply list_elem_of_singleton in Hin as [= ->].
  - intros [k' d] (d1 & Hin & _)%list_elem_of_bind (k2 & Hin' & Hk2)%list_elem_of_bind.
    apply list_elem_of_singleton in Hin as [= -> ->].
    apply list_elem_of_bind in Hin' as (d2 & Hin' & _).
    by apply list_elem_of_singleton in Hin' as [= -> ->].
Qed.

Lemma spine_nodup matches A0 E0 : NoDup (spine matches A0 E0).
Proof.
  unfold spine, spine_dim.
  apply cross_nodup; [apply NoDup_remove_dups|apply zrange_from_nodup].
Qed.

Lemma elem_of_spine_dim matches A0 E0 k :
  k ∈ spine_dim matches A0 E0 ↔
  (∃ d, (k, d) ∈ m_api_daily_keys matches A0 E0) ∨
  (∃ d, (k, d) ∈ m_erp_daily_keys matches E0) ∨
  (∃ a, a ∈ unrec_api matches A0 ∧ acc_of_api a = k) ∨
  (∃ e, e ∈ unrec_erp matches E0 ∧ acc_of_erp e = k).
Proof.
  unfold spine_dim.
  rewrite elem_of_remove_dups, !elem_of_app, !elem_of_remove_dups, !list_elem_of_fmap.
  split.
  - intros [([k' d] & -> & H)|[([k' d] & -> & H)|[(a & -> & H)|(e & -> & H)]]].
    + left. by exists d.
    + right. left. by exists d.
    + right. right. left. by exists a.
    + right. right. right. by exists e.
  - intros [(d & H)|[(d & H)|[(a & H & <-)|(e & H & <-)]]].
    + left. by exists (k, d).
    + right. left. by exists (k, d).
    + right. right. left. by exists a.
    + right. right. right. by exists e.
Qed.

Lemma elem_of_pair_df matches A0 E0 m a e :
  (m, a, e) ∈ pair_df matches A0 E0 ↔
  m ∈ matches ∧ a ∈ A0 ∧ e ∈ E0 ∧
  api_row_id a = m_api_row_id m ∧ erp_row_id e = m_erp_row_id m.
Proof.
  unfold pair_df. rewrite list_elem_of_bind. split.
  - intros (m' & Hin & Hm). apply list_elem_of_bind in Hin as (a' & Hin & [Ha ?]%list_elem_of_filter).
    apply list_elem_of_bind in Hin as (e' & Hin & [He ?]%list_elem_of_filter).
    by apply list_elem_of_singleton in Hin as [= -> -> ->].
  - intros (Hm & Ha & He & Hia & Hie). exists m. split; [|done].
    apply list_elem_of_bind. exists a. split; [|by apply list_elem_of_filter].
    apply list_elem_of_bind. exists e. split; [by left|by apply list_elem_of_filter].
Qed.

(** X20. The key columns of the daily table. Without any match the table
    is empty, whatever rows were loaded. Otherwise it has one row per
    (account, date), only for dates of the core window and accounts of
    loaded rows, and, when every match joins row ids that exist on both
    sides, it has a row for every account of a loaded row and every date
    from DATE_FROM to DATE_TO. *)
Theorem daily_keys_spec matches A0 E0 :
  (matches = [] → daily_keys matches A0 E0 = []) ∧
  NoDup (daily_keys matches A0 E0) ∧
  (∀ k d, (k, d) ∈ daily_keys matches A0 E0 →
     DATE_FROM ≤ d ≤ DATE_TO ∧
     ((∃ a, a ∈ A0 ∧ acc_of_api a = k) ∨ (∃ e, e ∈ E0 ∧ acc_of_erp e = k))) ∧
  (matches ≠ [] →
   (∀ m, m ∈ matches → m_api_row_id m ∈ api_row_id <$> A0 ∧
                       m_erp_row_id m ∈ erp_row_id <$> E0) →
   ∀ d, DATE_FROM ≤ d ≤ DATE_TO →
     (∀ a, a ∈ A0 → (acc_of_api a, d) ∈ daily_keys matches A0 E0) ∧
     (∀ e, e ∈ E0 → (acc_of_erp e, d) ∈ daily_keys matches A0 E0)).
Proof.
  split; [by intros ->|]. split; [|split].
  - unfold daily_keys. destruct (pair_df matches A0 E0); [constructor|apply spine_nodup].
  - intros k d Hin. unfold daily_keys in Hin.
    destruct (pair_df matches A0 E0) eqn:Hp; [by apply elem_of_nil in Hin|].
    clear Hp. apply elem_of_spine in Hin as [Hk Hd]. split; [done|].
    apply elem_of_spine_dim in Hk as [(d' & H)|[(d' & H)|[(a & H & <-)|(e & H & <-)]]].
    + unfold m_api_daily_keys in H. apply elem_of_remove_dups, list_elem_of_fmap in H
        as ([[m a] e] & [= -> ->] & Hin). apply elem_of_pair_df in Hin as (_ & Ha & _).
      left. by exists a.
    + unfold m_erp_daily_keys in H. apply elem_of_remove_dups, list_elem_of_fmap in H
        as (e & [= -> ->] & Hin). apply list_elem_of_bind in Hin as (i & Hin & _).
      apply list_elem_of_filter in Hin as [_ He]. right. by exists e.
    + apply list_elem_of_filter in H as [_ Ha]. left. by exists a.
    + apply list_elem_of_filter in H as [_ He]. right. by exists e.
  - intros Hne Hids d Hd.
    assert (pair_df matches A0 E0 ≠ []) as Hpair.
    { destruct matches as [|m ms]; [done|]. destruct (Hids m) as [Ha He]; [by left|].
      apply list_elem_of_fmap in Ha as (a & Hia & Ha).
      apply list_elem_of_fmap in He as (e & Hie & He).
      assert ((m, a, e) ∈ pair_df (m :: ms) A0 E0) as Hin
        by (apply elem_of_pair_df; split; [by left|done]).
      intros E. rewrite E in Hin. by apply elem_of_nil in Hin. }
    unfold daily_keys. destruct (pair_df matches A0 E0) as [|p0 ps] eqn:Hp; [done|].
    rewrite <- Hp in *. clear p0 ps Hp. split.
    + intros a Ha. apply elem_of_spine. split; [|done]. apply elem_of_spine_dim.
      destruct (decide (api_row_id a ∈ m_api_row_id <$> matches)) as [Hm|Hm].
      * left. apply list_elem_of_fmap in Hm as (m & Hia & Hm).
        destruct (Hids m Hm) as [_ He]. apply list_elem_of_fmap in He as (e & Hie & He).
        exists (erp_date e). unfold m_api_daily_keys.
        apply elem_of_remove_dups, list_elem_of_fmap. exists (m, a, e).
        split; [done|]. by apply elem_of_pair_df.
      * right. right. left. exists a. split; [|done]. by apply list_elem_of_filter.
    + intros e He. apply elem_of_spine. split; [|done]. apply elem_of_spine_dim.
      destruct (decide (erp_row_id e ∈ m_erp_row_id <$> matches)) as [Hm|Hm].
      * right. left. exists (erp_date e). unfold m_erp_daily_keys.
        apply elem_of_remove_dups, list_elem_of_fmap. exists e. split; [done|].
        apply list_elem_of_bind. exists (erp_row_id e).
        split; [by apply list_elem_of_filter|by apply elem_of_remove_dups].
      * right. right. right. exists e. split; [|done]. by apply list_elem_of_filter.
Qed.

(** * Description stage 03: the bounded subset-sum search *)

Lemma dsum_snoc l x : dsum (l ++ [x]) = Qcanon.Qcplus (dsum l) x.
Proof. unfold dsum. by rewrite foldl_app. Qed.

Section DfsSound.

Variable target : decimal.
Variable eps : decimal.
Variable max_nodes : Z.
Variable cands : list (nat * Tx).

(** An answer of the search extends [chosen] by exactly [slots] positions,
    increasing and not below [start], and is within [eps] of the target. *)
Lemma dfs_sound slots start chosen current_sum nodes res nodes' :
  current_sum = dsum (cand_amount cands <$> chosen) →
  dfs target eps max_nodes cands slots start chosen current_sum nodes = (Some res, nodes') →
  ∃ picked,
    res = chosen ++ picked ∧ length picked = slots ∧
    picked `sublist_of` seq start (length cands - start) ∧
    Qcanon.Qcle (dabs (Qcanon.Qcminus (dsum (cand_amount cands <$> res)) target)) eps.
Proof.
  revert start chosen current_sum nodes res nodes'.
  induction slots as [|slots IH]; intros start chosen cs nodes res nodes' Hcs; cbn [dfs].
  - destruct (max_nodes <? nodes + 1); [done|].
    case_bool_decide as Hok; [|done]. intros [= <- <-]. exists [].
    rewrite app_nil_r. split; [done|]. split; [done|]. split; [apply sublist_nil_l|].
    by rewrite <- Hcs.
  - destruct (max_nodes <? nodes + 1); [done|].
    case_bool_decide; [done|].
    destruct (length cands <? start + S slots)%nat; [done|].
    case_bool_decide; [done|].
    match goal with |- ?l ?r ?n = _ → _ => set (loop := l) end.
    assert (∀ m a nodes0, m = (length cands - a)%nat →
              loop (seq a m) nodes0 = (Some res, nodes') →
              ∃ picked,
                res = chosen ++ picked ∧ length picked = S slots ∧
                picked `sublist_of` seq a m ∧
                Qcanon.Qcle (dabs (Qcanon.Qcminus (dsum (cand_amount cands <$> res)) target))
                            eps) as Hloop.
    { induction m as [|m IHm]; intros a nodes0 Hm; [done|].
      cbn [seq]. unfold loop at 1. fold loop.
      destruct (cands !! a) as [c|] eqn:Hc.
      - destruct (tx_matched c.2).
        + intros Hr. destruct (IHm (S a) nodes0 ltac:(lia) Hr) as (p & ? & ? & ? & ?).
          exists p. do 2 (split; [done|]). split; [by apply sublist_cons|done].
        + destruct (dfs target eps max_nodes cands slots (S a) (chosen ++ [a])
                      (Qcanon.Qcplus cs (dabs (tx_amount c.2))) nodes0)
            as [[r|] n1] eqn:Hrec.
          * intros [= -> ->].
            assert (Qcanon.Qcplus cs (dabs (tx_amount c.2))
                    = dsum (cand_amount cands <$> (chosen ++ [a]))) as Hcs'.
            { rewrite fmap_snoc, dsum_snoc, <- Hcs. unfold cand_amount at 1.
              by rewrite Hc. }
            destruct (IH _ _ _ _ _ _ Hcs' Hrec) as (p & -> & Hlen & Hsub & Hb).
            exists (a :: p). split; [by rewrite <- app_assoc|]. split; [simpl; lia|].
            split; [|done]. apply sublist_skip.
            by replace m with (length cands - S a)%nat by lia.
          * intros Hr. destruct (IHm (S a) n1 ltac:(lia) Hr) as (p & ? & ? & ? & ?).
            exists p. do 2 (split; [done|]). split; [by apply sublist_cons|done].
      - intros Hr. destruct (IHm (S a) nodes0 ltac:(lia) Hr) as (p & ? & ? & ? & ?).
        exists p. do 2 (split; [done|]). split; [by apply sublist_cons|done]. }
    intros Hr. by apply (Hloop _ start (nodes + 1)).
Qed.

End DfsSound.

Lemma depth_loop_some target eps max_nodes cands depths res :
  depth_loop target eps max_nodes cands depths = Some res →
  ∃ depth nodes', depth ∈ depths ∧
    dfs target eps max_nodes cands depth 0 [] dzero 0 = (Some res, nodes').
Proof.
  induction depths as [|d depths IH]; cbn [depth_loop]; [done|].
  destruct (dfs target eps max_nodes cands d 0 [] dzero 0) as [[r|] n] eqn:Hd; cbn [fst].
  - intros [= ->]. exists d, n. split; [by left|done].
  - intros (d' & n' & Hin & H)%IH. exists d', n'. split; [by right|done].
Qed.

Lemma sublist_seq_lookup {A} (l : list A) a picked :
  picked `sublist_of` seq a (length l) →
  ∃ sub, sub `sublist_of` l ∧
         Forall2 (λ i x, (a ≤ i)%nat ∧ l !! (i - a)%nat = Some x) picked sub.
Proof.
  revert a picked. induction l as [|x l IH]; intros a picked Hs; cbn [length seq] in Hs.
  - apply sublist_nil_r in Hs as ->. exists []. split; [done|constructor].
  - apply sublist_cons_r in Hs as [Hs|(p' & -> & Hs)];
      destruct (IH _ _ Hs) as (sub & Hsub & Hall).
    + exists sub. split; [by apply sublist_cons|].
      eapply Forall2_impl; [exact Hall|]. intros i y [Hi Hl]. split; [lia|].
      by replace (i - a)%nat with (S (i - S a)) by lia.
    + exists (x :: sub). split; [by apply sublist_skip|]. constructor.
      * split; [done|]. by rewrite Nat.sub_diag.
      * eapply Forall2_impl; [exact Hall|]. intros i y [Hi Hl]. split; [lia|].
        by replace (i - a)%nat with (S (i - S a)) by lia.
Qed.

Lemma subset_sum_for_anchor_picks target candidates max_len eps max_nodes group :
  _subset_sum_for_anchor target candidates max_len eps max_nodes = Some group →
  ∃ sub, (sub ⊆+ candidates) ∧ group = sub.*1 ∧
         (1 ≤ length sub ≤ max_len)%nat ∧
         Qcanon.Qcle
           (dabs (Qcanon.Qcminus (dsum ((λ c, dabs (tx_amount c.2)) <$> sub)) target)) eps.
Proof.
  unfold _subset_sum_for_anchor.
  set (cs := sort_by_desc (λ c, dabs (tx_amount c.2)) candidates).
  destruct (depth_loop target eps max_nodes cs (seq 1 max_len)) as [res|] eqn:Hd; [|done].
  intros [= <-]. apply depth_loop_some in Hd as (depth & n' & Hdepth & Hdfs).
  apply dfs_sound in Hdfs as (picked & -> & Hlen & Hsub & Hb); [|done].
  rewrite app_nil_l in *. rewrite Nat.sub_0_r in Hsub.
  apply sublist_seq_lookup in Hsub as (sub & Hsub & Hall).
  exists sub. split; [|split; [|split]].
  - unfold cs in Hsub. rewrite <- (sort_by_desc_perm (λ c, dabs (tx_amount c.2)) candidates).
    by apply sublist_submseteq.
  - clear Hb Hlen Hsub. induction Hall as [|i c picked sub [_ Hi] _ IH]; [done|].
    cbn [omap list_omap fmap list_fmap]. rewrite Nat.sub_0_r in Hi. rewrite Hi. simpl.
    by f_equal.
  - apply Forall2_length in Hall. apply elem_of_seq in Hdepth. lia.
  - assert (cand_amount cs <$> picked = (λ c, dabs (tx_amount c.2)) <$> sub) as <-; [|done].
    clear Hb Hlen Hsub. induction Hall as [|i c picked sub [_ Hi] _ IH]; [done|].
    cbn [fmap list_fmap]. rewrite Nat.sub_0_r in Hi. unfold cand_amount at 1.
    rewrite Hi. by f_equal.
Qed.

Lemma depth_loop_none target eps max_nodes cands depths :
  (∀ d, d ∈ depths → (dfs target eps max_nodes cands d 0 [] dzero 0).1 = None) →
  depth_loop target eps max_nodes cands depths = None.
Proof.
  induction depths as [|d depths IH]; intros H; cbn [depth_loop]; [done|].
  rewrite (H d) by (by left). apply IH. intros d' Hd'. apply H. by right.
Qed.

(** X21. An answer of [_subset_sum_for_anchor] consists of between 1 and
    [max_len] of the candidates, each taken once, whose absolute amounts
    add up to the target within [eps].  There is no answer when there is
    no candidate, when [max_len] is 0 or when the node budget is not
    positive. *)
Theorem subset_sum_for_anchor_sound target candidates max_len eps max_nodes :
  (∀ group,
     _subset_sum_for_anchor target candidates max_len eps max_nodes = Some group →
     ∃ sub, (sub ⊆+ candidates) ∧ group = sub.*1 ∧
            (1 ≤ length sub ≤ max_len)%nat ∧
            Qcanon.Qcle
              (dabs (Qcanon.Qcminus (dsum ((λ c, dabs (tx_amount c.2)) <$> sub)) target))
              eps) ∧
  (candidates = [] ∨ max_len = 0%nat ∨ max_nodes ≤ 0 →
   _subset_sum_for_anchor target candidates max_len eps max_nodes = None).
Proof.
  split; [intros group; apply subset_sum_for_anchor_picks|].
  intros H. unfold _subset_sum_for_anchor.
  rewrite depth_loop_none; [done|]. intros d Hd. apply elem_of_seq in Hd.
  destruct d as [|d]; [lia|]. cbn [dfs].
  destruct H as [->|[->|H]]; [|lia|].
  - destruct (max_nodes <? 0 + 1); [done|]. case_bool_decide; [done|]. done.
  - assert ((max_nodes <? 0 + 1) = true) as -> by (apply Z.ltb_lt; lia). done.
Qed.

(** ** Every description group balances within the tolerance *)

Lemma abs_amount_static T T' i :
  same_static T T' → abs_amount_at T' i = abs_amount_at T i.
Proof.
  intros Hs. unfold abs_amount_at. specialize (Hs i).
  destruct (T' !! i) as [x|], (T !! i) as [y|]; simpl in Hs; try done.
  assert (set_matched x = set_matched y) as Hxy by congruence.
  apply (f_equal tx_amount) in Hxy. destruct x, y. simpl in Hxy. by rewrite Hxy.
Qed.

Lemma abs_amounts_static T T' (l : list nat) :
  same_static T T' → abs_amount_at T' <$> l = abs_amount_at T <$> l.
Proof. intros Hs. apply list_fmap_ext. intros i j _. by apply abs_amount_static. Qed.

Lemma anchored_bal_static T T' eps m :
  same_static T T' → anchored_bal T eps m → anchored_bal T' eps m.
Proof.
  intros Hs. unfold anchored_bal.
  by rewrite (abs_amounts_static T T'), (abs_amount_static T T').
Qed.

Lemma uniform_bal_static T T' eps m :
  same_static T T' → uniform_bal T eps m → uniform_bal T' eps m.
Proof. intros Hs. unfold uniform_bal. by rewrite !(abs_amounts_static T T'). Qed.

Section Balance.

Variable api_keywords : list (list string).
Variable erp_keywords : list (list string).

Lemma match_many_to_many_bal T eps :
  let r := _match_many_to_many_by_signature api_keywords erp_keywords T eps in
  ∀ m, m ∈ r.2 → uniform_bal T eps m.
Proof.
  unfold _match_many_to_many_by_signature.
  generalize (foldl (cluster_step api_keywords erp_keywords) [] (imap pair T)).
  intros clusters.
  assert (∀ st, same_static T st.1 → (∀ m, m ∈ st.2 → uniform_bal T eps m) →
            let st' := foldl (signature_step eps) st clusters in
            same_static T st'.1 ∧ ∀ m, m ∈ st'.2 → uniform_bal T eps m) as Hfold.
  { induction clusters as [|kv l IH]; intros st Hs Hm; cbn [foldl]; [done|].
    apply IH; unfold signature_step.
    - destruct (filter _ kv.2.1); [done|]. destruct (filter _ kv.2.2); [done|].
      case_bool_decide; [|done]. cbn [fst].
      eapply same_static_trans; [exact Hs|apply foldl_mark_static].
    - destruct (filter _ kv.2.1) as [|a api_idxs] eqn:Ea; [done|].
      destruct (filter _ kv.2.2) as [|e erp_idxs] eqn:Ee; [done|].
      case_bool_decide as Hb; [|done]. cbn [snd].
      intros m [Hin|Hin]%elem_of_app; [by apply Hm|].
      apply list_elem_of_singleton in Hin as ->.
      eapply uniform_bal_static; [apply same_static_sym, Hs|]. exact Hb. }
  intros r. apply (Hfold (T, [])); [done|]. intros m Hin. by apply elem_of_nil in Hin.
Qed.

Lemma dsum_singleton {A} (f : A → decimal) x : dsum (f <$> [x]) = f x.
Proof. unfold dsum, dzero. simpl. apply Qcanon.Qcplus_0_l. Qed.

Lemma match_full_group_bal T eps min_abs k :
  let r := _match_full_group_by_description api_keywords erp_keywords T eps min_abs k in
  ∀ m, m ∈ r.2 → anchored_bal T eps m.
Proof.
  unfold _match_full_group_by_description.
  match goal with |- context [foldl _ _ ?l] => generalize l end. intros l.
  assert (∀ st, same_static T st.1 → (∀ m, m ∈ st.2 → anchored_bal T eps m) →
            let st' := foldl (full_step api_keywords erp_keywords eps k) st l in
            same_static T st'.1 ∧ ∀ m, m ∈ st'.2 → anchored_bal T eps m) as Hfold.
  { induction l as [|i l IH]; intros st Hs Hm; cbn [foldl]; [done|].
    apply IH; unfold full_step.
    - destruct (st.1 !! i) as [anchor|]; [|done].
      destruct (get_keywords _ _ anchor); [done|].
      destruct (imap pair st.1 ≫= _); [done|]. case_bool_decide; [|done]. cbn [fst].
      eapply same_static_trans; [exact Hs|].
      eapply same_static_trans; [apply mark_static|apply foldl_mark_static].
    - destruct (st.1 !! i) as [anchor|] eqn:Ha; [|done].
      destruct (get_keywords _ _ anchor); [done|].
      destruct (imap pair st.1 ≫= _) as [|e erp_idxs]; [done|].
      case_bool_decide as Hb; [|done]. cbn [snd].
      intros m [Hin|Hin]%elem_of_app; [by apply Hm|].
      apply list_elem_of_singleton in Hin as ->.
      eapply anchored_bal_static; [apply same_static_sym, Hs|].
      unfold anchored_bal. cbn [fst snd]. unfold abs_amount_at at 2. by rewrite Ha. }
  intros r. apply (Hfold (T, [])); [done|]. intros m Hin. by apply elem_of_nil in Hin.
Qed.

Lemma match_one_to_many_bal T eps max_len min_abs max_nodes k :
  let r := _match_one_to_many_by_description api_keywords erp_keywords T eps
             max_len min_abs max_nodes k in
  ∀ m, m ∈ r.2 → anchored_bal T eps m.
Proof.
  unfold _match_one_to_many_by_description.
  generalize (sort_by_desc (abs_amount_at T) (seq 0 (length T))). intros l.
  assert (∀ st, same_static T st.1.2 → (∀ m, m ∈ st.2 → anchored_bal T eps m) →
            let st' := foldl (ksum_step api_keywords erp_keywords eps max_len
                                min_abs max_nodes k) st l in
            same_static T st'.1.2 ∧ ∀ m, m ∈ st'.2 → anchored_bal T eps m) as Hfold.
  { induction l as [|i l IH]; intros st Hs Hm; cbn [foldl]; [done|].
    assert (same_static T (ksum_step api_keywords erp_keywords eps max_len
                             min_abs max_nodes k st i).1.2 ∧
            ∀ m, m ∈ (ksum_step api_keywords erp_keywords eps max_len
                        min_abs max_nodes k st i).2 → anchored_bal T eps m) as [??];
      [|by apply IH].
    clear IH.
    destruct st as [[stopped txs] matches]. cbn [fst snd] in *.
    unfold ksum_step. destruct stopped; [done|].
    destruct (txs !! i) as [anchor|] eqn:Ha; [|done].
    destruct (tx_matched anchor || bool_decide (tx_sign anchor = 0)); [done|].
    case_bool_decide; [done|].
    destruct (_ <? k)%nat; [done|].
    set (cands := filter _ (imap pair txs)).
    destruct cands as [|c cands'] eqn:Ec; [done|]. rewrite <- Ec.
    destruct (_subset_sum_for_anchor _ _ _ _ _) as [[|g group]|] eqn:Hsub; [done| |done].
    cbn [fst snd]. split.
    { eapply same_static_trans; [exact Hs|].
      eapply same_static_trans; [apply mark_static|apply foldl_mark_static]. }
    intros m [Hin|Hin]%elem_of_app; [by apply Hm|].
    apply list_elem_of_singleton in Hin as ->.
    eapply anchored_bal_static; [apply same_static_sym, Hs|].
    apply subset_sum_for_anchor_picks in Hsub as (sub & Hsubm & Hg & _ & Hb).
    unfold anchored_bal. cbn [fst snd]. unfold abs_amount_at at 2. rewrite Ha, Hg.
    assert (abs_amount_at txs <$> sub.*1 = (λ c, dabs (tx_amount c.2)) <$> sub) as ->; [|done].
    rewrite <- list_fmap_compose. apply list_fmap_ext. intros j [p tx] Hj.
    apply list_elem_of_lookup_2 in Hj.
    apply (λ H, elem_of_submseteq _ _ _ H Hsubm) in Hj. unfold cands in Hj.
    apply list_elem_of_filter in Hj as [_ Hj]. apply lookup_imap_pair in Hj.
    cbn [fst snd compose] in *. unfold abs_amount_at. by rewrite Hj. }
  intros r. apply (Hfold (false, T, [])); [done|]. intros m Hin. by apply elem_of_nil in Hin.
Qed.

End Balance.

Lemma dabs_minus_sym x y : dabs (Qcanon.Qcminus x y) = dabs (Qcanon.Qcminus y x).
Proof. apply Qcabs.Qcabs_Qcminus. Qed.

(** X22. Every group that the description stages report balances within
    the tolerance of 0.01: the absolute amounts of its ERP transactions
    and the absolute amounts of its API transactions add up to totals that
    differ by at most one cent. *)
Theorem reconcile_groups_balanced api_df erp_df :
  Forall (group_bal (_build_txs api_df erp_df)
                    (Qcanon.Qcdiv (Qc_of_Z 1) (Qc_of_Z 100)))
         (reconcile_by_description api_df erp_df).2.
Proof.
  unfold reconcile_by_description.
  set (T0 := _build_txs api_df erp_df).
  set (eps := Qcanon.Qcdiv (Qc_of_Z 1) (Qc_of_Z 100)).
  set (ak := api_keywords_of api_df). set (ek := erp_keywords_of erp_df).
  set (r1 := _match_many_to_many_by_signature ak ek T0 _).
  set (r2 := _match_full_group_by_description ak ek r1.1 _ _ _).
  set (r3 := _match_one_to_many_by_description ak ek r2.1 _ _ _ _ _).
  destruct (match_many_to_many_ok ak ek T0 eps) as [S1 _].
  destruct (match_full_group_ok ak ek r1.1 eps (Qc_of_Z 100000) 2) as [S2 _].
  pose proof (match_many_to_many_bal ak ek T0 eps) as B1.
  pose proof (match_full_group_bal ak ek r1.1 eps (Qc_of_Z 100000) 2) as B2.
  pose proof (match_one_to_many_bal ak ek r2.1 eps 25 (Qc_of_Z 100000) 200000 2) as B3.
  fold r1 in S1, S2, B1, B2. fold r2 in S2, B2, B3. fold r3 in B3.
  cbv zeta in B1, B2, B3. cbn [snd].
  assert (same_static T0 r2.1) as S02 by (by eapply same_static_trans).
  apply Forall_forall.
  intros g [Hg|[Hg|Hg]%elem_of_app]%elem_of_app;
    apply list_elem_of_fmap in Hg as (m & -> & Hm).
  - unfold group_bal. cbn [fst snd]. rewrite dabs_minus_sym. by apply B1.
  - unfold group_bal. cbn [fst snd]. rewrite dsum_singleton.
    apply (anchored_bal_static r1.1 T0); [by apply same_static_sym|]. by apply B2.
  - assert (anchored_bal T0 eps m) as Hb
      by (apply (anchored_bal_static r2.1 T0); [by apply same_static_sym|by apply B3]).
    destruct (tx_side <$> _ !! m.1) as [[]|]; unfold group_bal; cbn [fst snd];
      rewrite dsum_singleton; [done| |done].
    by rewrite dabs_minus_sym.
Qed.

(** * Same-day KSUM: the links are balanced stars *)

Lemma sum_cents_perm (l k : list item) : l ≡ₚ k → sum_cents l = sum_cents k.
Proof.
  unfold sum_cents. induction 1 as [|x l k _ IH|x y l|l k m _ IH1 _ IH2]; simpl; lia.
Qed.

Lemma NoDup_of_fst (l : list item) : NoDup l.*1 → NoDup l.
Proof. apply NoDup_fmap_1. Qed.

Lemma item_of_id (l : list item) x y : NoDup l.*1 → x ∈ l → y ∈ l → x.1 = y.1 → x = y.
Proof.
  intros Hnd Hx Hy Hxy.
  apply list_elem_of_lookup in Hx as [i Hi]. apply list_elem_of_lookup in Hy as [j Hj].
  assert (i = j) as ->; [|congruence].
  eapply NoDup_lookup; [exact Hnd| |]; rewrite list_lookup_fmap.
  - by rewrite Hi.
  - by rewrite Hj, Hxy.
Qed.

(** Over items with distinct ids, a sum over the items whose id is
    selected can be taken over any part of the items that contains the
    selected ids. *)
Lemma sum_filter_submseteq (P : item → Prop) `{∀ x, Decision (P x)} (l k : list item) :
  NoDup k.*1 → l ⊆+ k → (∀ it, it ∈ k → P it → it.1 ∈ l.*1) →
  sum_cents (filter P k) = sum_cents (filter P l).
Proof.
  intros Hnd Hlk Hq. apply sum_cents_perm.
  apply (anti_symm submseteq); [|by apply filter_submseteq_mono].
  apply NoDup_submseteq; [by apply NoDup_filter, NoDup_of_fst|].
  intros x [Hx Hin]%list_elem_of_filter. apply list_elem_of_filter. split; [done|].
  assert (x.1 ∈ l.*1) as Hl by (by apply Hq).
  apply list_elem_of_fmap in Hl as (y & Hxy & Hy).
  assert (y ∈ k) as Hyk by (by eapply elem_of_submseteq).
  by rewrite (item_of_id k x y Hnd Hin Hyk Hxy).
Qed.

(** What a successful search for one target returns: ids of candidates
    whose cents add up to the target. *)
Lemma ksum_target_sum t cand ids :
  NoDup cand.*1 → ksum_target t cand = Some ids →
  ids ⊆ cand.*1 ∧ sum_cents (filter (λ it, it.1 ∈ ids) cand) = t.
Proof.
  intros Hnd Hk. split; [by eapply ksum_target_ids|].
  pose proof (capped_items_nodup t cand Hnd) as Hnd'.
  pose proof (items_dict_nodup _ Hnd') as Hdict.
  assert (ids ⊆ (capped_items t cand).*1 ∧
          sum_cents (filter (λ it, it.1 ∈ ids) (capped_items t cand)) = t) as [Hids <-].
  { revert Hk. unfold ksum_target.
    destruct (filter _ cand) as [|c0 cs]; [done|].
    set (items := capped_items t cand) in *.
    destruct items as [|i0 is0] eqn:Ei; [done|]. rewrite <- Ei in *. clear Ei.
    destruct (subset_mitm t items) as [sol|] eqn:Em.
    - destruct sol as [|x s]; [done|].
      destruct (_sum_ok _ _ _) eqn:Eok; [|done]. intros [= <-].
      apply sum_ok_spec in Eok. rewrite Hdict in Eok. split; [|done].
      apply subset_mitm_sound in Em as (sub & Hsub & -> & _).
      apply sublist_subseteq, fmap_sublist.
      by etransitivity; [|apply enforce_mitm_budget_sublist].
    - destruct (subset_dp t items) as [sol|] eqn:Ed; [|done].
      destruct sol as [|x s]; [done|].
      destruct (_sum_ok _ _ _) eqn:Eok; [|done]. intros [= <-].
      apply sum_ok_spec in Eok. rewrite Hdict in Eok. split; [|done].
      by apply subset_dp_ids in Ed. }
  apply sum_filter_submseteq; [done|apply capped_items_submseteq|].
  intros it _ Hi. by apply Hids.
Qed.

Section Stars.

Variables apis erps : list item.
Hypothesis apis_nodup : NoDup apis.*1.
Hypothesis erps_nodup : NoDup erps.*1.

Lemma stars_inv_init : stars_inv apis erps (mkKsum ∅ ∅ [] []).
Proof. split; intros p Hp; by apply elem_of_nil in Hp. Qed.

Lemma n1_step_stars st erp :
  erp ∈ erps → stars_inv apis erps st → stars_inv apis erps (n1_step apis st erp).
Proof.
  intros He Hinv. unfold n1_step.
  case_bool_decide as Hu; [done|]. case_bool_decide; [done|]. cbn [orb].
  set (cand := filter (λ it, it.1 ∉ used_api st) apis).
  destruct (ksum_target erp.2 cand) as [sol|] eqn:Ek; [|done].
  assert (cand ⊆+ apis) as Hcand by apply sublist_submseteq, sublist_filter.
  apply ksum_target_sum in Ek as [Hsol Hsum];
    [|by eapply submseteq_NoDup; [apply fmap_submseteq, Hcand|]].
  assert (∀ a, a ∈ sol → a ∈ apis.*1 ∧ a ∉ used_api st) as Hfresh.
  { intros a Ha. apply Hsol, list_elem_of_fmap in Ha as (it & -> & Hit).
    apply list_elem_of_filter in Hit as [Hit1 Hit2]. split; [|done].
    by apply list_elem_of_fmap_2. }
  assert (sum_cents (filter (λ it, it.1 ∈ sol) apis) = erp.2) as Hsum'.
  { rewrite <- Hsum. apply sum_filter_submseteq; [done..|].
    intros it _ Hi. by apply Hsol. }
  set (st' := mkKsum _ _ _ _).
  assert (∀ p, p ∈ links_of st' ↔ p ∈ links_of st ∨ (p.2 = erp.1 ∧ p.1 ∈ sol)) as Hl.
  { intros p. unfold links_of, st'. cbn [links_erp links_api].
    rewrite !elem_of_app, list_elem_of_fmap. split.
    - intros [[?|(a & -> & ?)]|?]; auto.
    - intros [[?|?]|[? ?]]; auto. left. right. exists p.1. split; [|done].
      destruct p; simpl in *; congruence. }
  assert (∀ p, p ∈ links_of st → p.2 ≠ erp.1) as Hold_e.
  { intros p Hp Heq. apply (si_used _ _ _ Hinv) in Hp as [_ Hp]. by rewrite Heq in Hp. }
  assert (∀ p, p ∈ links_of st → p.1 ∉ sol) as Hold_a.
  { intros p Hp Hin. apply (si_used _ _ _ Hinv) in Hp as [Hp _]. by apply Hfresh in Hin as [_ ?]. }
  split.
  - intros p [Hp|[Hp1 Hp2]]%Hl; [by apply (si_ids _ _ _ Hinv)|].
    split; [by apply Hfresh|]. rewrite Hp1. by apply list_elem_of_fmap_2.
  - intros p [Hp|[Hp1 Hp2]]%Hl; cbn [used_api used_erp st'].
    + apply (si_used _ _ _ Hinv) in Hp as [??]. set_solver.
    + rewrite Hp1. set_solver.
  - intros p [Hp|[Hp1 Hp2]]%Hl.
    + destruct (si_star _ _ _ Hinv p Hp) as [[(c & Hc & Hs) Hone]|[(c & Hc & Hs) Hone]];
        [left|right]; (split; [exists c; split; [done|]|]).
      * rewrite <- Hs. f_equal. apply filter_ext_in. intros it _. rewrite Hl.
        cbn [fst snd]. pose proof (Hold_e p Hp). naive_solver.
      * intros q [Hq|[Hq1 Hq2]]%Hl Hqp; [by apply Hone|].
        exfalso. apply (Hold_a p Hp). by rewrite <- Hqp.
      * rewrite <- Hs. f_equal. apply filter_ext_in. intros it _. rewrite Hl.
        cbn [fst snd]. pose proof (Hold_a p Hp). naive_solver.
      * intros q [Hq|[Hq1 Hq2]]%Hl Hqp; [by apply Hone|].
        exfalso. apply (Hold_e p Hp). congruence.
    + left. split.
      * exists erp.2. split; [rewrite Hp1; by destruct erp|].
        rewrite <- Hsum'. f_equal. apply filter_ext_in. intros it _. rewrite Hl, Hp1.
        cbn [fst snd]. split; [|naive_solver].
        intros [Hq|[_ ?]]; [|done]. by apply Hold_e in Hq.
      * intros q [Hq|[Hq1 Hq2]]%Hl Hqp; [|congruence].
        exfalso. apply (Hold_a q Hq). by rewrite Hqp.
Qed.

Lemma one_n_step_stars st api :
  api ∈ apis → stars_inv apis erps st → stars_inv apis erps (one_n_step erps st api).
Proof.
  intros Ha Hinv. unfold one_n_step.
  case_bool_decide as Hu; [done|]. case_bool_decide; [done|]. cbn [orb].
  set (cand := filter (λ it, it.1 ∉ used_erp st) erps).
  destruct (ksum_target api.2 cand) as [sol|] eqn:Ek; [|done].
  assert (cand ⊆+ erps) as Hcand by apply sublist_submseteq, sublist_filter.
  apply ksum_target_sum in Ek as [Hsol Hsum];
    [|by eapply submseteq_NoDup; [apply fmap_submseteq, Hcand|]].
  assert (∀ e, e ∈ sol → e ∈ erps.*1 ∧ e ∉ used_erp st) as Hfresh.
  { intros e He. apply Hsol, list_elem_of_fmap in He as (it & -> & Hit).
    apply list_elem_of_filter in Hit as [Hit1 Hit2]. split; [|done].
    by apply list_elem_of_fmap_2. }
  assert (sum_cents (filter (λ it, it.1 ∈ sol) erps) = api.2) as Hsum'.
  { rewrite <- Hsum. apply sum_filter_submseteq; [done..|].
    intros it _ Hi. by apply Hsol. }
  set (st' := mkKsum _ _ _ _).
  assert (∀ p, p ∈ links_of st' ↔ p ∈ links_of st ∨ (p.1 = api.1 ∧ p.2 ∈ sol)) as Hl.
  { intros p. unfold links_of, st'. cbn [links_erp links_api].
    rewrite !elem_of_app, list_elem_of_fmap. split.
    - intros [?|[?|(e & -> & ?)]]; auto.
    - intros [[?|?]|[? ?]]; auto. right. right. exists p.2. split; [|done].
      destruct p; simpl in *; congruence. }
  assert (∀ p, p ∈ links_of st → p.1 ≠ api.1) as Hold_a.
  { intros p Hp Heq. apply (si_used _ _ _ Hinv) in Hp as [Hp _]. by rewrite Heq in Hp. }
  assert (∀ p, p ∈ links_of st → p.2 ∉ sol) as Hold_e.
  { intros p Hp Hin. apply (si_used _ _ _ Hinv) in Hp as [_ Hp]. by apply Hfresh in Hin as [_ ?]. }
  split.
  - intros p [Hp|[Hp1 Hp2]]%Hl; [by apply (si_ids _ _ _ Hinv)|].
    split; [|by apply Hfresh]. rewrite Hp1. by apply list_elem_of_fmap_2.
  - intros p [Hp|[Hp1 Hp2]]%Hl; cbn [used_api used_erp st'].
    + apply (si_used _ _ _ Hinv) in Hp as [??]. set_solver.
    + rewrite Hp1. set_solver.
  - intros p [Hp|[Hp1 Hp2]]%Hl.
    + destruct (si_star _ _ _ Hinv p Hp) as [[(c & Hc & Hs) Hone]|[(c & Hc & Hs) Hone]];
        [left|right]; (split; [exists c; split; [done|]|]).
      * rewrite <- Hs. f_equal. apply filter_ext_in. intros it _. rewrite Hl.
        cbn [fst snd]. pose proof (Hold_e p Hp). naive_solver.
      * intros q [Hq|[Hq1 Hq2]]%Hl Hqp; [by apply Hone|].
        exfalso. apply (Hold_a p Hp). congruence.
      * rewrite <- Hs. f_equal. apply filter_ext_in. intros it _. rewrite Hl.
        cbn [fst snd]. pose proof (Hold_a p Hp). naive_solver.
      * intros q [Hq|[Hq1 Hq2]]%Hl Hqp; [by apply Hone|].
        exfalso. apply (Hold_e p Hp). by rewrite <- Hqp.
    + right. split.
      * exists api.2. split; [rewrite Hp1; by destruct api|].
        rewrite <- Hsum'. f_equal. apply filter_ext_in. intros it _. rewrite Hl, Hp1.
        cbn [fst snd]. split; [|naive_solver].
        intros [Hq|[_ ?]]; [|done]. by apply Hold_a in Hq.
      * intros q [Hq|[Hq1 Hq2]]%Hl Hqp; [|congruence].
        exfalso. apply (Hold_e q Hq). by rewrite Hqp.
Qed.

Lemma passes_stars :
  stars_inv apis erps
    (foldl (one_n_step erps) (foldl (n1_step apis) (mkKsum ∅ ∅ [] []) erps) apis).
Proof.
  assert (∀ l st, l ⊆ erps → stars_inv apis erps st →
            stars_inv apis erps (foldl (n1_step apis) st l)) as H1.
  { induction l as [|x l IH]; intros st Hl Hst; simpl; [done|].
    apply IH; [set_solver|]. apply n1_step_stars; [apply Hl; left|done]. }
  assert (∀ l st, l ⊆ apis → stars_inv apis erps st →
            stars_inv apis erps (foldl (one_n_step erps) st l)) as H2.
  { induction l as [|x l IH]; intros st Hl Hst; simpl; [done|].
    apply IH; [set_solver|]. apply one_n_step_stars; [apply Hl; left|done]. }
  apply H2; [done|]. apply H1; [done|]. apply stars_inv_init.
Qed.

End Stars.

(** The trimmed items keep distinct ids and are part of the items. *)
Lemma trimmed_submseteq (big : bool) (l : list item) :
  (if big then take KSUM_MAX_ITEMS (sort_abs_desc l) else l) ⊆+ l.
Proof.
  destruct big; [|done]. rewrite <- (sort_abs_desc_perm l) at 2.
  apply sublist_submseteq, sublist_take.
Qed.

(** X23. The links of a same-day group are balanced stars that share no
    row.  When no row id of the group carries two amounts, every link
    (a, e) that [solve_same_group] returns belongs either to a star around
    the ERP row e (the cents of all API rows linked to e add up to the
    cents of e, and a has no other link) or to a star around the API row a
    (the cents of all ERP rows linked to a add up to the cents of a, and e
    has no other link). *)
Theorem solve_same_group_stars df_group :
  NoDup (side_items SideA df_group).*1 → NoDup (side_items SideE df_group).*1 →
  ∀ p, p ∈ solve_same_group df_group →
    star_of_erp (side_items SideA df_group) (side_items SideE df_group)
                (solve_same_group df_group) p ∨
    star_of_api (side_items SideA df_group) (side_items SideE df_group)
                (solve_same_group df_group) p.
Proof.
  intros Ha He. unfold solve_same_group.
  set (apis0 := side_items SideA df_group) in *.
  set (erps0 := side_items SideE df_group) in *.
  destruct apis0 as [|a0 as0] eqn:Ea; [by intros ? ?%elem_of_nil|].
  destruct erps0 as [|e0 es0] eqn:Ee; [by intros ? ?%elem_of_nil|].
  rewrite <- Ea, <- Ee in *. clear Ea Ee a0 as0 e0 es0.
  set (big := bool_decide _).
  pose proof (trimmed_submseteq big apis0) as Hsa.
  pose proof (trimmed_submseteq big erps0) as Hse.
  set (apis := if big then _ else apis0) in *.
  set (erps := if big then _ else erps0) in *.
  assert (NoDup apis.*1) as Hna by (by eapply submseteq_NoDup; [apply fmap_submseteq, Hsa|]).
  assert (NoDup erps.*1) as Hne by (by eapply submseteq_NoDup; [apply fmap_submseteq, Hse|]).
  pose proof (passes_stars apis erps Hna Hne) as Hinv.
  set (st := foldl (one_n_step erps) _ apis) in *.
  change (links_erp st ++ links_api st) with (links_of st).
  intros p Hp.
  destruct (si_star _ _ _ Hinv p Hp) as [[(c & Hc & Hs) Hone]|[(c & Hc & Hs) Hone]];
    [left|right]; (split; [exists c; split; [by eapply elem_of_submseteq|]|done]).
  - rewrite <- Hs. apply sum_filter_submseteq; [done..|].
    intros it _ Hi. by apply (si_ids _ _ _ Hinv) in Hi as [? _].
  - rewrite <- Hs. apply sum_filter_submseteq; [done..|].
    intros it _ Hi. by apply (si_ids _ _ _ Hinv) in Hi as [_ ?].
Qed.

Lemma solve_same_group_stars_witness :
  star_of_erp (side_items SideA demo_same_group) (side_items SideE demo_same_group)
              (solve_same_group demo_same_group) (2, 7) ∨
  star_of_api (side_items SideA demo_same_group) (side_items SideE demo_same_group)
              (solve_same_group demo_same_group) (2, 7).
Proof.
  apply (solve_same_group_stars demo_same_group).
  - apply (bool_decide_unpack _). vm_compute. exact I.
  - apply (bool_decide_unpack _). vm_compute. exact I.
  - apply (bool_decide_unpack _). vm_compute. exact I.
Defined.

(** * Description stages: the groups share no transaction *)

Lemma unmatched_not_matched T i : unmatched T i = true → is_matched T i = false.
Proof. unfold unmatched, is_matched. destruct (T !! i); [by destruct (tx_matched _)|done]. Qed.

Lemma unmatched_lt T i : unmatched T i = true → (i < length T)%nat.
Proof.
  unfold unmatched. destruct (T !! i) eqn:Hi; [|done]. intros _. by eapply lookup_lt_Some.
Qed.

Lemma unmatched_lookup T i tx : T !! i = Some tx → unmatched T i = negb (tx_matched tx).
Proof. unfold unmatched. by intros ->. Qed.

Lemma is_matched_mark T j i :
  is_matched (mark T j) i = true ↔ is_matched T i = true ∨ (i = j ∧ (i < length T)%nat).
Proof.
  unfold is_matched, mark. destruct (decide (j = i)) as [->|Hne].
  - rewrite list_lookup_alter_eq. destruct (T !! i) as [tx|] eqn:Hi; simpl.
    + apply lookup_lt_Some in Hi. naive_solver.
    + apply lookup_ge_None in Hi. split; [done|]. intros [?|[_ ?]]; [done|lia].
  - rewrite list_lookup_alter_ne by done. naive_solver.
Qed.

Lemma mark_length T j : length (mark T j) = length T.
Proof. apply length_alter. Qed.

Lemma foldl_mark_length T l : length (foldl mark T l) = length T.
Proof.
  revert T. induction l as [|j l IH]; intros T; simpl; [done|]. by rewrite IH, mark_length.
Qed.

Lemma is_matched_marks T l i :
  (∀ j, j ∈ l → (j < length T)%nat) →
  is_matched (foldl mark T l) i = true ↔ is_matched T i = true ∨ i ∈ l.
Proof.
  revert T. induction l as [|j l IH]; intros T Hl; simpl.
  - rewrite elem_of_nil. naive_solver.
  - rewrite IH, is_matched_mark, elem_of_cons.
    + pose proof (Hl j (list_elem_of_here _ _)). naive_solver.
    + intros k Hk. rewrite mark_length. apply Hl. by right.
Qed.

Lemma side_at_static T T' i : same_static T T' → side_at T' i = side_at T i.
Proof.
  intros Hs. unfold side_at. specialize (Hs i).
  destruct (T' !! i) as [x|], (T !! i) as [y|]; simpl in *; try done.
  assert (set_matched x = set_matched y) as Hxy by congruence.
  by apply set_matched_fields in Hxy as (-> & _).
Qed.

Lemma sides_ok_static T T' erp_idxs api_idxs :
  same_static T T' → sides_ok T erp_idxs api_idxs → sides_ok T' erp_idxs api_idxs.
Proof.
  intros Hs [He Ha]. split; intros i Hi; rewrite (side_at_static T T') by done; auto.
Qed.

(** What the three stages keep true about the transactions matched so
    far: none is listed twice, and they are the transactions whose flag
    is set. *)
Lemma marked_step T L idxs new :
  NoDup L → (∀ i, i ∈ L ↔ is_matched T i = true) →
  NoDup idxs → (∀ j, j ∈ idxs → unmatched T j = true) → new ≡ₚ idxs →
  NoDup (L ++ new) ∧ ∀ i, i ∈ L ++ new ↔ is_matched (foldl mark T idxs) i = true.
Proof.
  intros HL Hm Hnd Hu Hp. split.
  - apply NoDup_app. split; [done|]. split; [|by rewrite Hp].
    intros i Hi Hin. rewrite Hp in Hin. apply Hm in Hi.
    apply Hu, unmatched_not_matched in Hin. congruence.
  - intros i. rewrite elem_of_app, is_matched_marks, Hp, Hm; [done|].
    intros j Hj. by apply unmatched_lt, Hu.
Qed.

Lemma imap_pair_fst {A} (T : list A) : (imap pair T).*1 = seq 0 (length T).
Proof.
  rewrite fmap_imap, <- (list_fmap_id (seq 0 (length T))).
  by rewrite <- (imap_seq_0 T id).
Qed.

Lemma filter_imap_pair_nodup {A} (T : list A) (P : nat * A → Prop) `{∀ x, Decision (P x)} :
  NoDup (filter P (imap pair T)).*1.
Proof.
  eapply sublist_NoDup; [|apply fmap_sublist, sublist_filter].
  rewrite imap_pair_fst. apply NoDup_seq.
Qed.

Lemma bind_if_filter {A B} (f : A → bool) (g : A → B) (l : list A) :
  l ≫= (λ x, if f x then [g x] else []) = g <$> filter (λ x, f x = true) l.
Proof.
  induction l as [|x l IH]; [done|]. cbn [mbind list_bind]. rewrite filter_cons.
  fold (l ≫= (λ x, if f x then [g x] else [])). rewrite IH.
  destruct (f x); [by rewrite decide_True|by rewrite decide_False].
Qed.

Section Disjoint.

Variable api_keywords : list (list string).
Variable erp_keywords : list (list string).

(** *** Stage 01 *)

Lemma cluster_step_wf T rest cl i tx :
  T !! i = Some tx → i ∉ rest → cluster_wf T (i :: rest) cl →
  cluster_wf T rest (cluster_step api_keywords erp_keywords cl (i, tx)).
Proof.
  intros Hi Hrest Hcl.
  assert (cluster_wf T rest cl) as Hweak.
  { intros key sides Hin. destruct (Hcl key sides Hin) as (? & Hr & ?).
    split; [done|]. split; [|done]. intros j Hj Hjr. apply (Hr j Hj). by right. }
  unfold cluster_step. cbn [fst snd].
  destruct (tx_matched tx || bool_decide (tx_sign tx = 0)); [done|].
  destruct (bool_decide (tx_bank_code tx = "") || bool_decide (tx_acc_norm tx = ""));
    [done|].
  destruct (bool_decide (get_signature api_keywords erp_keywords tx = "")); [done|].
  set (key := (tx_tenant_id tx, tx_bank_code tx, tx_acc_norm tx,
               tx_work_date tx, tx_sign tx,
               get_signature api_keywords erp_keywords tx)).
  intros key' sides' [Hnew|Hold]%elem_of_dict_set; [|exact (Hweak key' sides' Hold)].
  assert (∃ s, NoDup (s.1 ++ s.2) ∧ (∀ j, j ∈ s.1 ++ s.2 → j ∉ i :: rest) ∧
               sides_ok T s.2 s.1 ∧ default ([], []) (dict_get cl key) = s)
    as (s & Hnd & Hfr & [Hse Hsa] & Hs).
  { destruct (dict_get cl key) as [s|] eqn:Hget; simpl.
    - apply dict_get_elem in Hget. destruct (Hcl key s Hget) as (? & ? & ?). by exists s.
    - exists ([], []). split; [constructor|]. split; [by intros ? ?%elem_of_nil|].
      split; [|done]. split; by intros ? ?%elem_of_nil. }
  rewrite Hs in Hnew.
  assert (i ∉ s.1 ++ s.2) as Hi' by (intros Hin; apply (Hfr i Hin); by left).
  assert (side_at T i = Some (tx_side tx)) as Hside by (unfold side_at; by rewrite Hi).
  destruct (tx_side tx) eqn:Hsd; injection Hnew as _ ->; cbn [fst snd].
  - split; [|split; [|split]].
    + rewrite <- app_assoc. cbn [app]. rewrite <- Permutation_middle. by constructor.
    + intros j Hj Hjr. rewrite !elem_of_app, list_elem_of_singleton in Hj.
      destruct Hj as [[Hj| ->]|Hj]; [|done|]; eapply Hfr; [| by right| | by right];
        rewrite elem_of_app; eauto.
    + done.
    + intros j [Hj| ->%list_elem_of_singleton]%elem_of_app; [by apply Hsa|done].
  - split; [|split; [|split]].
    + rewrite app_assoc. rewrite <- Permutation_cons_append. by constructor.
    + intros j Hj Hjr. rewrite !elem_of_app, list_elem_of_singleton in Hj.
      destruct Hj as [Hj|[Hj| ->]]; [| |done]; eapply Hfr; [| by right| | by right];
        rewrite elem_of_app; eauto.
    + intros j [Hj| ->%list_elem_of_singleton]%elem_of_app; [by apply Hse|done].
    + done.
Qed.

Lemma clusters_fold_wf T l cl :
  NoDup l.*1 → (∀ itx, itx ∈ l → T !! itx.1 = Some itx.2) → cluster_wf T l.*1 cl →
  cluster_wf T [] (foldl (cluster_step api_keywords erp_keywords) cl l).
Proof.
  revert cl. induction l as [|[i tx] l IH]; intros cl Hnd Hl Hcl; simpl; [done|].
  rewrite fmap_cons in Hnd. apply NoDup_cons in Hnd as [Hi Hnd].
  apply IH; [done|intros itx Hin; apply Hl; by right|].
  apply cluster_step_wf; [|done|done]. apply (Hl (i, tx)). by left.
Qed.

Lemma match_many_to_many_disjoint T L eps :
  NoDup L → (∀ i, i ∈ L ↔ is_matched T i = true) →
  let r := _match_many_to_many_by_signature api_keywords erp_keywords T eps in
  (NoDup (L ++ (r.2 ≫= λ m, m.1 ++ m.2)) ∧
   ∀ i, i ∈ L ++ (r.2 ≫= λ m, m.1 ++ m.2) ↔ is_matched r.1 i = true) ∧
  ∀ m, m ∈ r.2 → sides_ok T m.1 m.2.
Proof.
  intros HL Hm. unfold _match_many_to_many_by_signature.
  pose proof (clusters_fold_wf T (imap pair T) []) as Hcl.
  specialize (Hcl ltac:(rewrite imap_pair_fst; apply NoDup_seq)
                  ltac:(intros itx; apply lookup_imap_pair)
                  ltac:(by intros ? ? ?%elem_of_nil)).
  revert Hcl. generalize (foldl (cluster_step api_keywords erp_keywords) [] (imap pair T)).
  intros clusters Hcl.
  assert (∀ l st, l ⊆ clusters → same_static T st.1 →
            NoDup (L ++ (st.2 ≫= λ m, m.1 ++ m.2)) →
            (∀ i, i ∈ L ++ (st.2 ≫= λ m, m.1 ++ m.2) ↔ is_matched st.1 i = true) →
            (∀ m, m ∈ st.2 → sides_ok T m.1 m.2) →
            let st' := foldl (signature_step eps) st l in
            (NoDup (L ++ (st'.2 ≫= λ m, m.1 ++ m.2)) ∧
             ∀ i, i ∈ L ++ (st'.2 ≫= λ m, m.1 ++ m.2) ↔ is_matched st'.1 i = true) ∧
            ∀ m, m ∈ st'.2 → sides_ok T m.1 m.2) as Hfold.
  { induction l as [|kv l IH]; intros st Hl Hs Hnd Hmm Hsd; cbn [foldl]; [done|].
    assert (kv ∈ clusters) as Hkv by (apply Hl; left).
    assert (l ⊆ clusters) as Hl' by set_solver.
    destruct kv as [key sides]. destruct (Hcl key sides Hkv) as (Hnds & _ & Hse & Hsa).
    set (st1 := signature_step eps st (key, sides)).
    assert (same_static T st1.1 ∧ NoDup (L ++ (st1.2 ≫= λ m, m.1 ++ m.2)) ∧
            (∀ i, i ∈ L ++ (st1.2 ≫= λ m, m.1 ++ m.2) ↔ is_matched st1.1 i = true) ∧
            (∀ m, m ∈ st1.2 → sides_ok T m.1 m.2)) as (? & ? & ? & ?); [|by apply IH].
    unfold st1, signature_step. cbn [fst snd]. clear st1 IH.
    destruct (filter _ sides.1) as [|a api_idxs] eqn:Ea; [done|].
    destruct (filter _ sides.2) as [|e erp_idxs] eqn:Ee; [done|].
    case_bool_decide; [|done]. rewrite <- Ea, <- Ee. clear Ea Ee.
    set (ai := filter _ sides.1). set (ei := filter _ sides.2).
    destruct (marked_step st.1 (L ++ (st.2 ≫= λ m, m.1 ++ m.2)) (ai ++ ei) (ei ++ ai))
      as [Hnd' Hmm']; [done|done| | |apply Permutation_app_comm|].
    { unfold ai, ei. rewrite <- filter_app. by apply NoDup_filter. }
    { intros j [Hj|Hj]%elem_of_app; by apply list_elem_of_filter in Hj as [? _]. }
    cbn [fst snd]. split; [|split; [|split]].
    - eapply same_static_trans; [exact Hs|apply foldl_mark_static].
    - by rewrite bind_app, app_assoc, bind_singleton.
    - intros i. by rewrite bind_app, app_assoc, bind_singleton.
    - intros m [Hin| ->%list_elem_of_singleton]%elem_of_app; [by apply Hsd|].
      cbn [fst snd]. split; intros j [_ Hj]%list_elem_of_filter; auto. }
  apply (Hfold clusters (T, [])); cbn [fst snd mbind list_bind];
    rewrite ?app_nil_r; try done.
  intros m Hin. by apply elem_of_nil in Hin.
Qed.

(** *** Stage 02 *)

Lemma unmatched_marks_other T l j : j ∉ l → unmatched (foldl mark T l) j = unmatched T j.
Proof.
  revert T. induction l as [|i l IH]; intros T Hj; simpl; [done|].
  apply not_elem_of_cons in Hj as [Hne Hj]. rewrite IH by done.
  unfold unmatched, mark. by rewrite list_lookup_alter_ne.
Qed.

Lemma full_candidate_side k anchor kws dates tx :
  full_candidate api_keywords erp_keywords k anchor kws dates tx = true →
  tx_matched tx = false ∧ tx_side tx = SideE.
Proof.
  unfold full_candidate. destruct (tx_matched tx); [done|].
  destruct (decide (tx_side tx = SideE)) as [Hs|Hs]; [done|].
  by rewrite (bool_decide_eq_false_2 _ Hs).
Qed.

Lemma full_step_disjoint T L eps k st i :
  same_static T st.1 → side_at T i = Some SideA → unmatched st.1 i = true →
  NoDup (L ++ (st.2 ≫= λ m, m.2 ++ [m.1])) →
  (∀ j, j ∈ L ++ (st.2 ≫= λ m, m.2 ++ [m.1]) ↔ is_matched st.1 j = true) →
  (∀ m, m ∈ st.2 → sides_ok T m.2 [m.1]) →
  let st' := full_step api_keywords erp_keywords eps k st i in
  same_static T st'.1 ∧
  NoDup (L ++ (st'.2 ≫= λ m, m.2 ++ [m.1])) ∧
  (∀ j, j ∈ L ++ (st'.2 ≫= λ m, m.2 ++ [m.1]) ↔ is_matched st'.1 j = true) ∧
  (∀ m, m ∈ st'.2 → sides_ok T m.2 [m.1]) ∧
  (∀ j, j ≠ i → side_at T j = Some SideA → unmatched st'.1 j = unmatched st.1 j).
Proof.
  intros Hs Hside Hu Hnd Hmm Hsd. unfold full_step. cbn zeta.
  destruct (st.1 !! i) as [anchor|] eqn:Ha; [|done].
  destruct (get_keywords _ _ anchor) as [|kw kws]; [done|].
  rewrite (bind_if_filter
             (λ jtx : nat * Tx, full_candidate api_keywords erp_keywords k anchor (kw :: kws)
                        (candidate_dates (tx_work_date anchor)) jtx.2) fst).
  set (cands := filter _ (imap pair st.1)).
  assert (NoDup cands.*1) as Hndc by apply filter_imap_pair_nodup.
  assert (∀ j, j ∈ cands.*1 → unmatched st.1 j = true ∧ side_at T j = Some SideE) as Hc.
  { intros j ([j' tx] & -> & [Hf Hin]%list_elem_of_filter)%list_elem_of_fmap.
    apply lookup_imap_pair in Hin. cbn [fst snd] in *.
    apply full_candidate_side in Hf as [Hm Hsd'].
    rewrite (unmatched_lookup _ _ _ Hin), Hm. split; [done|].
    rewrite <- (side_at_static T st.1) by done. unfold side_at. rewrite Hin. simpl.
    by rewrite Hsd'. }
  destruct cands.*1 as [|e erp_idxs] eqn:Ee; [done|]. rewrite <- Ee in *. clear Ee.
  case_bool_decide; [|done]. cbn [fst snd].
  assert (i ∉ cands.*1) as Hi by (intros [_ ?]%Hc; congruence).
  destruct (marked_step st.1 (L ++ (st.2 ≫= λ m, m.2 ++ [m.1])) (i :: cands.*1)
              (cands.*1 ++ [i])) as [Hnd' Hmm']; [done|done| | | |].
  { by constructor. }
  { intros j [->|Hj]%elem_of_cons; [done|by apply Hc]. }
  { symmetry. apply Permutation_cons_append. }
  split; [|split; [|split; [|split]]].
  - eapply same_static_trans; [exact Hs|].
    eapply same_static_trans; [apply mark_static|apply foldl_mark_static].
  - by rewrite bind_app, app_assoc, bind_singleton.
  - intros j. by rewrite bind_app, app_assoc, bind_singleton.
  - intros m [Hin| ->%list_elem_of_singleton]%elem_of_app; [by apply Hsd|].
    cbn [fst snd]. split; [intros j Hj; by apply Hc|].
    by intros j ->%list_elem_of_singleton.
  - intros j Hne Hj. change (foldl mark (mark st.1 i) cands.*1)
      with (foldl mark st.1 (i :: cands.*1)).
    apply unmatched_marks_other. intros [->|[_ ?]%Hc]%elem_of_cons; [done|congruence].
Qed.

Lemma match_full_group_disjoint T L eps min_abs k :
  NoDup L → (∀ i, i ∈ L ↔ is_matched T i = true) →
  let r := _match_full_group_by_description api_keywords erp_keywords T eps min_abs k in
  (NoDup (L ++ (r.2 ≫= λ m, m.2 ++ [m.1])) ∧
   ∀ i, i ∈ L ++ (r.2 ≫= λ m, m.2 ++ [m.1]) ↔ is_matched r.1 i = true) ∧
  ∀ m, m ∈ r.2 → sides_ok T m.2 [m.1].
Proof.
  intros HL Hm. unfold _match_full_group_by_description.
  rewrite (bind_if_filter
             (λ itx : nat * Tx, bool_decide (tx_side itx.2 = SideA) && negb (tx_matched itx.2)
                        && negb (bool_decide (tx_sign itx.2 = 0))
                        && bool_decide (Qcanon.Qcle min_abs (dabs (tx_amount itx.2)))) fst).
  set (anchors := sort_by_desc _ _).
  assert (NoDup anchors) as Hnda.
  { unfold anchors. rewrite sort_by_desc_perm. apply filter_imap_pair_nodup. }
  assert (∀ j, j ∈ anchors → side_at T j = Some SideA ∧ unmatched T j = true) as Han.
  { intros j. unfold anchors. rewrite sort_by_desc_perm.
    intros ([j' tx] & -> & [Hf Hin]%list_elem_of_filter)%list_elem_of_fmap.
    apply lookup_imap_pair in Hin. cbn [fst snd] in *.
    apply andb_prop in Hf as [Hf _]. apply andb_prop in Hf as [Hf _].
    apply andb_prop in Hf as [Hsd Hmt]. apply bool_decide_eq_true in Hsd.
    unfold side_at. rewrite (unmatched_lookup _ _ _ Hin), Hin. simpl. by rewrite Hsd. }
  clearbody anchors.
  assert (∀ l st, NoDup l →
            (∀ j, j ∈ l → side_at T j = Some SideA ∧ unmatched st.1 j = true) →
            same_static T st.1 →
            NoDup (L ++ (st.2 ≫= λ m, m.2 ++ [m.1])) →
            (∀ j, j ∈ L ++ (st.2 ≫= λ m, m.2 ++ [m.1]) ↔ is_matched st.1 j = true) →
            (∀ m, m ∈ st.2 → sides_ok T m.2 [m.1]) →
            let st' := foldl (full_step api_keywords erp_keywords eps k) st l in
            (NoDup (L ++ (st'.2 ≫= λ m, m.2 ++ [m.1])) ∧
             ∀ j, j ∈ L ++ (st'.2 ≫= λ m, m.2 ++ [m.1]) ↔ is_matched st'.1 j = true) ∧
            ∀ m, m ∈ st'.2 → sides_ok T m.2 [m.1]) as Hfold.
  { induction l as [|i l IH]; intros st Hndl Hl Hs Hnd Hmm Hsd; cbn [foldl]; [done|].
    apply NoDup_cons in Hndl as [Hi Hndl].
    destruct (Hl i (list_elem_of_here _ _)) as [Hsi Hui].
    destruct (full_step_disjoint T L eps k st i Hs Hsi Hui Hnd Hmm Hsd)
      as (? & ? & ? & ? & Hrest).
    apply IH; try done.
    intros j Hj. destruct (Hl j) as [Hsj Huj]; [by right|]. split; [done|].
    rewrite Hrest; [done| |done]. intros ->. done. }
  apply (Hfold anchors (T, [])); cbn [fst snd mbind list_bind];
    rewrite ?app_nil_r; try done.
  intros m Hin. by apply elem_of_nil in Hin.
Qed.

(** *** Stage 03 *)

Lemma ksum_candidate_side k anchor kws tx :
  ksum_candidate api_keywords erp_keywords k anchor kws tx = true →
  tx_matched tx = false ∧ tx_side tx ≠ tx_side anchor.
Proof.
  unfold ksum_candidate. destruct (tx_matched tx); [done|].
  destruct (tx_side anchor), (tx_side tx); cbn zeta;
    try (by rewrite bool_decide_eq_false_2 by done); done.
Qed.

Lemma ksum_step_disjoint T L eps max_len min_abs max_nodes k
    (mem : nat * list nat → list nat) st i :
  (∀ m, mem m ≡ₚ m.1 :: m.2) →
  same_static T st.1.2 →
  NoDup (L ++ (st.2 ≫= mem)) →
  (∀ j, j ∈ L ++ (st.2 ≫= mem) ↔ is_matched st.1.2 j = true) →
  (∀ m, m ∈ st.2 → ∃ sd, side_at T m.1 = Some sd ∧
      ∀ j, j ∈ m.2 → ∃ sd', side_at T j = Some sd' ∧ sd' ≠ sd) →
  let st' := ksum_step api_keywords erp_keywords eps max_len min_abs max_nodes k st i in
  same_static T st'.1.2 ∧
  NoDup (L ++ (st'.2 ≫= mem)) ∧
  (∀ j, j ∈ L ++ (st'.2 ≫= mem) ↔ is_matched st'.1.2 j = true) ∧
  (∀ m, m ∈ st'.2 → ∃ sd, side_at T m.1 = Some sd ∧
      ∀ j, j ∈ m.2 → ∃ sd', side_at T j = Some sd' ∧ sd' ≠ sd).
Proof.
  intros Hmem Hs Hnd Hmm Hsd.
  destruct st as [[stopped txs] matches]. cbn [fst snd] in *.
  unfold ksum_step. destruct stopped; [done|].
  destruct (txs !! i) as [anchor|] eqn:Ha; [|done].
  destruct (tx_matched anchor) eqn:Hma; [done|].
  destruct (bool_decide (tx_sign anchor = 0)); [done|]. cbn [orb].
  case_bool_decide; [done|].
  destruct (_ <? k)%nat; [done|].
  set (cands := filter _ (imap pair txs)).
  destruct cands as [|c cands'] eqn:Ec; [done|]. rewrite <- Ec. clear Ec c cands'.
  destruct (_subset_sum_for_anchor _ _ _ _ _) as [[|g group]|] eqn:Hsub; [done| |done].
  apply subset_sum_for_anchor_picks in Hsub as (sub & Hsubm & Hg & _ & _).
  rewrite Hg. clear Hg g group. cbn [fst snd].
  assert (NoDup sub.*1) as Hnds.
  { eapply submseteq_NoDup; [apply fmap_submseteq, Hsubm|apply filter_imap_pair_nodup]. }
  assert (∀ j, j ∈ sub.*1 → unmatched txs j = true ∧
                            ∃ sd', side_at T j = Some sd' ∧ sd' ≠ tx_side anchor) as Hc.
  { intros j ([j' tx] & -> & Hin)%list_elem_of_fmap.
    apply (λ H, elem_of_submseteq _ _ _ H Hsubm) in Hin.
    apply list_elem_of_filter in Hin as [Hf Hin].
    apply lookup_imap_pair in Hin. cbn [fst snd] in *.
    apply ksum_candidate_side in Hf as [Hm Hsd'].
    rewrite (unmatched_lookup _ _ _ Hin), Hm. split; [done|].
    exists (tx_side tx). split; [|done].
    rewrite <- (side_at_static T txs) by done. unfold side_at. by rewrite Hin. }
  assert (side_at T i = Some (tx_side anchor)) as Hsi.
  { rewrite <- (side_at_static T txs) by done. unfold side_at. by rewrite Ha. }
  assert (i ∉ sub.*1) as Hi by (intros [_ (? & ? & ?)]%Hc; congruence).
  destruct (marked_step txs (L ++ (matches ≫= mem)) (i :: sub.*1) (mem (i, sub.*1)))
    as [Hnd' Hmm']; [done|done| | |apply Hmem|].
  { by constructor. }
  { intros j [->|Hj]%elem_of_cons; [|by apply Hc].
    by rewrite (unmatched_lookup _ _ _ Ha), Hma. }
  split; [|split; [|split]].
  - eapply same_static_trans; [exact Hs|].
    eapply same_static_trans; [apply mark_static|apply foldl_mark_static].
  - by rewrite bind_app, app_assoc, bind_singleton.
  - intros j. by rewrite bind_app, app_assoc, bind_singleton.
  - intros m [Hin| ->%list_elem_of_singleton]%elem_of_app; [by apply Hsd|].
    cbn [fst snd]. exists (tx_side anchor). split; [done|]. intros j Hj. by apply Hc.
Qed.

Lemma match_one_to_many_disjoint T L eps max_len min_abs max_nodes k
    (mem : nat * list nat → list nat) :
  (∀ m, mem m ≡ₚ m.1 :: m.2) →
  NoDup L → (∀ i, i ∈ L ↔ is_matched T i = true) →
  let r := _match_one_to_many_by_description api_keywords erp_keywords T eps
             max_len min_abs max_nodes k in
  (NoDup (L ++ (r.2 ≫= mem)) ∧ ∀ i, i ∈ L ++ (r.2 ≫= mem) ↔ is_matched r.1 i = true) ∧
  ∀ m, m ∈ r.2 → ∃ sd, side_at T m.1 = Some sd ∧
      ∀ j, j ∈ m.2 → ∃ sd', side_at T j = Some sd' ∧ sd' ≠ sd.
Proof.
  intros Hmem HL Hm. unfold _match_one_to_many_by_description.
  generalize (sort_by_desc (abs_amount_at T) (seq 0 (length T))). intros l.
  assert (∀ st, same_static T st.1.2 → NoDup (L ++ (st.2 ≫= mem)) →
            (∀ j, j ∈ L ++ (st.2 ≫= mem) ↔ is_matched st.1.2 j = true) →
            (∀ m, m ∈ st.2 →
               ∃ sd, side_at T m.1 = Some sd ∧
      ∀ j, j ∈ m.2 → ∃ sd', side_at T j = Some sd' ∧ sd' ≠ sd) →
            let st' := foldl (ksum_step api_keywords erp_keywords eps max_len
                                min_abs max_nodes k) st l in
            (NoDup (L ++ (st'.2 ≫= mem)) ∧
             ∀ j, j ∈ L ++ (st'.2 ≫= mem) ↔ is_matched st'.1.2 j = true) ∧
            ∀ m, m ∈ st'.2 →
              ∃ sd, side_at T m.1 = Some sd ∧
      ∀ j, j ∈ m.2 → ∃ sd', side_at T j = Some sd' ∧ sd' ≠ sd) as Hfold.
  { induction l as [|i l IH]; intros st Hs Hnd Hmm Hsd; cbn [foldl]; [done|].
    destruct (ksum_step_disjoint T L eps max_len min_abs max_nodes k mem st i
                Hmem Hs Hnd Hmm Hsd) as (? & ? & ? & ?).
    by apply IH. }
  apply (Hfold (false, T, [])); cbn [fst snd mbind list_bind];
    rewrite ?app_nil_r; try done.
  intros m Hin. by apply elem_of_nil in Hin.
Qed.

End Disjoint.

Lemma build_txs_unmatched api_df erp_df i : is_matched (_build_txs api_df erp_df) i = false.
Proof.
  unfold is_matched. destruct (_ !! i) as [tx|] eqn:Hi; [|done].
  apply list_elem_of_lookup_2 in Hi. unfold _build_txs in Hi.
  apply elem_of_app in Hi as [Hi|Hi]; apply elem_of_lookup_imap in Hi as (j & r & -> & _);
    done.
Qed.

(** X24. The description stages never use a transaction twice.  No
    position occurs twice in the groups that [reconcile_by_description]
    reports, neither inside a group nor in two groups; the grouped
    positions are exactly the transactions returned with the flag
    [matched] set; and in every group the ERP positions hold ERP
    transactions and the API positions hold API transactions. *)
Theorem reconcile_groups_disjoint api_df erp_df :
  NoDup ((reconcile_by_description api_df erp_df).2 ≫= group_members) ∧
  (∀ i, i ∈ (reconcile_by_description api_df erp_df).2 ≫= group_members ↔
        is_matched (reconcile_by_description api_df erp_df).1 i = true) ∧
  (∀ g, g ∈ (reconcile_by_description api_df erp_df).2 →
        sides_ok (reconcile_by_description api_df erp_df).1 g.1.2 g.2).
Proof.
  unfold reconcile_by_description.
  set (T0 := _build_txs api_df erp_df).
  set (eps := Qcanon.Qcdiv (Qc_of_Z 1) (Qc_of_Z 100)).
  set (ak := api_keywords_of api_df). set (ek := erp_keywords_of erp_df).
  set (r1 := _match_many_to_many_by_signature ak ek T0 _).
  set (r2 := _match_full_group_by_description ak ek r1.1 _ _ _).
  set (r3 := _match_one_to_many_by_description ak ek r2.1 _ _ _ _ _).
  cbn [fst snd].
  set (f1 := λ m : list nat * list nat, ("01_DESC_MN_SIGNATURE", m.1, m.2)).
  set (f2 := λ m : nat * list nat, ("02_DESC_FULL_1N", m.2, [m.1])).
  set (f3 := λ m : nat * list nat, match tx_side <$> r3.1 !! m.1 with
                                   | Some SideE => ("03_DESC_KSUM_1N", [m.1], m.2)
                                   | _ => ("03_DESC_KSUM_N1", m.2, [m.1])
                                   end).
  destruct (match_many_to_many_ok ak ek T0 eps) as [S1 _].
  destruct (match_full_group_ok ak ek r1.1 eps (Qc_of_Z 100000) 2) as [S2 _].
  destruct (match_one_to_many_ok ak ek r2.1 eps 25 (Qc_of_Z 100000) 200000 2) as [S3 _].
  fold r1 in S1, S2. fold r2 in S2, S3. fold r3 in S3.
  assert (same_static r1.1 r3.1) as S13 by (by eapply same_static_trans).
  assert (same_static T0 r2.1) as S02 by (by eapply same_static_trans).
  destruct (match_many_to_many_disjoint ak ek T0 [] eps) as [[N1 M1] D1];
    [constructor| |].
  { intros i. unfold T0. rewrite build_txs_unmatched, elem_of_nil. by split. }
  fold r1 in N1, M1, D1. rewrite app_nil_l in N1, M1.
  destruct (match_full_group_disjoint ak ek r1.1 _ eps (Qc_of_Z 100000) 2 N1 M1)
    as [[N2 M2] D2].
  fold r2 in N2, M2, D2.
  assert (∀ m, group_members (f3 m) ≡ₚ m.1 :: m.2) as Hmem.
  { intros m. unfold f3, group_members. destruct (tx_side <$> r3.1 !! m.1) as [[]|];
      cbn [fst snd]; first [done|symmetry; apply Permutation_cons_append]. }
  destruct (match_one_to_many_disjoint ak ek r2.1 _ eps 25 (Qc_of_Z 100000) 200000 2
              (group_members ∘ f3) Hmem N2 M2) as [[N3 M3] D3].
  fold r3 in N3, M3, D3.
  assert (((f1 <$> r1.2) ++ (f2 <$> r2.2) ++ (f3 <$> r3.2)) ≫= group_members
          = ((r1.2 ≫= λ m, m.1 ++ m.2) ++ (r2.2 ≫= λ m, m.2 ++ [m.1]))
              ++ (r3.2 ≫= group_members ∘ f3)) as ->.
  { by rewrite !bind_app, !list_fmap_bind, app_assoc. }
  split; [done|]. split; [done|].
  intros g [Hg|[Hg|Hg]%elem_of_app]%elem_of_app;
    apply list_elem_of_fmap in Hg as (m & -> & Hm); cbn [fst snd].
  - apply (sides_ok_static T0); [by eapply same_static_trans|]. by apply D1.
  - apply (sides_ok_static r1.1); [done|]. by apply D2.
  - destruct (D3 m Hm) as (sd & Hsd & Hoth).
    assert (∀ j, side_at r3.1 j = side_at r2.1 j) as Hst
      by (intros j; by apply side_at_static).
    unfold f3. fold (side_at r3.1 m.1). rewrite Hst, Hsd.
    destruct sd; cbn [fst snd]; split; intros j Hj.
    + apply Hoth in Hj as (sd' & Hj & Hne). rewrite Hst, Hj. by destruct sd'.
    + apply list_elem_of_singleton in Hj as ->. by rewrite Hst.
    + apply list_elem_of_singleton in Hj as ->. by rewrite Hst.
    + apply Hoth in Hj as (sd' & Hj & Hne). rewrite Hst, Hj. by destruct sd'.
Qed.

(** * The edges of the description stages *)

Lemma dict_append_get {K V} `{EqDecision K} (d : list (K * list V)) k x k' y :
  (∃ l, dict_get (dict_append d k x) k' = Some l ∧ y ∈ l) ↔
  (∃ l, dict_get d k' = Some l ∧ y ∈ l) ∨ (k' = k ∧ y = x).
Proof.
  unfold dict_append.
  destruct (dict_get d k) as [l0|] eqn:Hg; rewrite dict_get_set;
    destruct (decide (k' = k)) as [->|Hne]; rewrite ?Hg; split.
  - intros (l & [= <-] & [Hy| ->%list_elem_of_singleton]%elem_of_app); [left|by right].
    by exists l0.
  - intros [(l & [= <-] & Hy)|[_ ->]]; exists (l0 ++ [x]); (split; [done|]);
      rewrite elem_of_app, list_elem_of_singleton; auto.
  - intros ?. by left.
  - intros [?|[? _]]; done.
  - intros (l & [= <-] & ->%list_elem_of_singleton). by right.
  - intros [(l & ? & _)|[_ ->]]; [done|]. exists [x]. split; [done|]. by left.
  - intros ?. by left.
  - intros [?|[? _]]; done.
Qed.

Lemma foldl_dict_append_get {K V} `{EqDecision K} k (ps : list V)
    (d : list (K * list V)) k' y :
  (∃ l, dict_get (foldl (λ d p, dict_append d k p) d ps) k' = Some l ∧ y ∈ l) ↔
  (∃ l, dict_get d k' = Some l ∧ y ∈ l) ∨ (k' = k ∧ y ∈ ps).
Proof.
  revert d. induction ps as [|p ps IH]; intros d; cbn [foldl].
  - rewrite elem_of_nil. naive_solver.
  - rewrite IH, dict_append_get, elem_of_cons. naive_solver.
Qed.

Lemma unique_first_elem seen l x : x ∈ unique_first seen l ↔ x ∈ l ∧ x ∉ seen.
Proof.
  revert seen. induction l as [|a l IH]; intros seen; cbn [unique_first].
  - rewrite elem_of_nil. naive_solver.
  - case_bool_decide; rewrite ?elem_of_cons, IH, ?not_elem_of_cons.
    + naive_solver.
    + destruct (decide (x = a)); naive_solver.
Qed.

Lemma elem_of_group_keys_iff sd txs idxs k :
  k ∈ group_keys sd txs idxs ↔
  ∃ i tx, i ∈ idxs ∧ txs !! i = Some tx ∧ tx_side tx = sd ∧ tx_key tx = k.
Proof.
  split; [apply elem_of_group_keys|].
  intros (i & tx & Hi & Htx & Hsd & <-). unfold group_keys.
  apply list_elem_of_omap. exists i. split; [done|].
  by rewrite Htx, bool_decide_eq_true_2.
Qed.

(** X25. The edges that [build_desc_edges] files under a match type are
    all the pairs of the groups of that type, for the four types of the
    description stages only: (a, e) is an edge under [mt] exactly when
    [mt] is one of the four types and some group of type [mt] holds an API
    transaction whose id the uid map of the API sends to a and an ERP
    transaction whose id the uid map of the ERP sends to e.  Groups of any
    other type yield no edge. *)
Theorem build_desc_edges_iff A0 E0 txs groups mt p :
  (∃ edges, dict_get (build_desc_edges A0 E0 (txs, groups)) mt = Some edges ∧ p ∈ edges) ↔
  ∃ erp_idxs api_idxs i j ta te,
    mt ∈ DESC_MATCH_TYPES ∧
    (mt, erp_idxs, api_idxs) ∈ groups ∧ i ∈ api_idxs ∧ j ∈ erp_idxs ∧
    txs !! i = Some ta ∧ tx_side ta = SideA ∧
    txs !! j = Some te ∧ tx_side te = SideE ∧
    uid_map_api A0 !! tx_key ta = Some p.1 ∧
    uid_map_erp E0 !! tx_key te = Some p.2.
Proof.
  unfold build_desc_edges. cbn [fst snd].
  set (Q := λ (erp_idxs api_idxs : list nat),
    ∃ i j ta te, i ∈ api_idxs ∧ j ∈ erp_idxs ∧
      txs !! i = Some ta ∧ tx_side ta = SideA ∧
      txs !! j = Some te ∧ tx_side te = SideE ∧
      uid_map_api A0 !! tx_key ta = Some p.1 ∧
      uid_map_erp E0 !! tx_key te = Some p.2).
  match goal with |- context [foldl ?f _ _] => set (step := f) end.
  assert (∀ d k0 erp_idxs api_idxs,
            (∃ l, dict_get (step d (k0, erp_idxs, api_idxs)) mt = Some l ∧ p ∈ l) ↔
            (∃ l, dict_get d mt = Some l ∧ p ∈ l) ∨
            (mt = k0 ∧ mt ∈ DESC_MATCH_TYPES ∧ Q erp_idxs api_idxs))
    as Hstep.
  { intros d k0 erp_idxs api_idxs. unfold step.
    destruct (decide (k0 ∈ DESC_MATCH_TYPES)) as [Hk0|Hk0];
      [rewrite (bool_decide_eq_true_2 _ Hk0)|rewrite (bool_decide_eq_false_2 _ Hk0)];
      cbn [negb]; [|naive_solver].
    set (api_ids := unique_first [] (group_keys SideA txs api_idxs)).
    set (erp_ids := unique_first [] (group_keys SideE txs erp_idxs)).
    set (ps := api_ids ≫= _).
    assert (p ∈ ps ↔ Q erp_idxs api_idxs) as HP.
    { unfold ps, Q. rewrite list_elem_of_bind. split.
      - intros (aid & Hp & Haid).
        destruct (uid_map_api A0 !! aid) as [a_row|] eqn:Hma; [|by apply elem_of_nil in Hp].
        apply list_elem_of_bind in Hp as (eid & Hp & Heid).
        destruct (uid_map_erp E0 !! eid) as [e_row|] eqn:Hme; [|by apply elem_of_nil in Hp].
        apply list_elem_of_singleton in Hp as ->.
        apply unique_first_elem in Haid as [Haid _], Heid as [Heid _].
        apply elem_of_group_keys_iff in Haid as (i & ta & Hi & Hta & Hsa & <-).
        apply elem_of_group_keys_iff in Heid as (j & te & Hj & Hte & Hse & <-).
        by exists i, j, ta, te.
      - intros (i & j & ta & te & Hi & Hj & Hta & Hsa & Hte & Hse & Hma & Hme).
        exists (tx_key ta). split.
        + rewrite Hma. apply list_elem_of_bind. exists (tx_key te). split.
          * rewrite Hme. destruct p. by left.
          * apply unique_first_elem. split; [|by intros ?%elem_of_nil].
            apply elem_of_group_keys_iff. by exists j, te.
        + apply unique_first_elem. split; [|by intros ?%elem_of_nil].
          apply elem_of_group_keys_iff. by exists i, ta. }
    rewrite <- HP.
    assert (api_ids = [] ∨ erp_ids = [] → p ∉ ps) as Hnil.
    { intros Hnil (aid & Hp & Haid)%list_elem_of_bind.
      destruct Hnil as [Hnil|Hnil]; [rewrite Hnil in Haid; by apply elem_of_nil in Haid|].
      destruct (uid_map_api A0 !! aid); [|by apply elem_of_nil in Hp].
      apply list_elem_of_bind in Hp as (eid & _ & Heid).
      rewrite Hnil in Heid. by apply elem_of_nil in Heid. }
    destruct api_ids as [|a0 api_ids'] eqn:Ea; [naive_solver|].
    destruct erp_ids as [|e0 erp_ids'] eqn:Ee; [naive_solver|].
    rewrite foldl_dict_append_get. naive_solver. }
  assert (∀ gs d,
            (∃ l, dict_get (foldl step d gs) mt = Some l ∧ p ∈ l) ↔
            (∃ l, dict_get d mt = Some l ∧ p ∈ l) ∨
            ∃ erp_idxs api_idxs, mt ∈ DESC_MATCH_TYPES ∧ (mt, erp_idxs, api_idxs) ∈ gs ∧
                                 Q erp_idxs api_idxs)
    as Hfold.
  { induction gs as [|[[k0 erp_idxs] api_idxs] gs IH]; intros d; cbn [foldl].
    - split; [by left|]. intros [?|(? & ? & _ & ?%elem_of_nil & _)]; done.
    - rewrite IH, Hstep. split.
      + intros [[?|(-> & Hmt & HQ)]|(e & a & Hmt & Hin & HQ)]; [by left| |].
        * right. exists erp_idxs, api_idxs. split; [done|]. split; [by left|done].
        * right. exists e, a. split; [done|]. split; [by right|done].
      + intros [?|(e & a & Hmt & [[= -> -> ->]|Hin]%elem_of_cons & HQ)]; [by left; left| |].
        * left. by right.
        * right. by exists e, a. }
  rewrite Hfold. cbn [dict_get]. unfold Q. split.
  - intros [(l & ? & _)|(e & a & Hmt & Hin & i & j & ta & te & H)]; [done|].
    by exists e, a, i, j, ta, te.
  - intros (e & a & i & j & ta & te & Hmt & Hin & H). right. exists e, a.
    split; [done|]. split; [done|]. by exists i, j, ta, te.
Qed.

(** * The exact-cent stages stay inside one day and one sign *)

Lemma same_day_edge_mono A A' E E' stage p :
  A ⊆ A' → E ⊆ E' → same_day_edge A E stage p → same_day_edge A' E' stage p.
Proof.
  intros HA HE (a & e & Ha & He & H). exists a, e. split; [by apply HA|].
  split; [by apply HE|done].
Qed.

Lemma rn_join_same_day A E stage p : p ∈ rn_join A E → same_day_edge A E stage p.
Proof.
  intros (a & e & Ha & He & Hi & Hj & Hk)%rn_join_spec.
  exists a, e. unfold rn_key_A, rn_key_E in Hk. naive_solver.
Qed.

Lemma m2_same_same_day A E p : p ∈ m2_same A E → same_day_edge A E "M2_KSUM_SAME_DAY" p.
Proof.
  unfold m2_same. destruct A as [|a0 A']; [by intros ?%elem_of_nil|].
  destruct E as [|e0 E']; [by intros ?%elem_of_nil|].
  set (A := a0 :: A'). set (E := e0 :: E').
  unfold apply_per_group. intros (l & Hp & Hl)%list_elem_of_join.
  apply list_elem_of_fmap in Hl as (grp & -> & Hgrp).
  apply solve_same_group_spec in Hp as [(ra & Hra & Hsa & Hia) (re & Hre & Hse & Hie)].
  destruct (partition_by_spec same_keys _ _ Hgrp ra Hra) as [Hdfa Hkeys].
  destruct (partition_by_spec same_keys _ _ Hgrp re Hre) as [Hdfe _].
  specialize (Hkeys re Hre).
  apply elem_of_app in Hdfa as [Hdfa|Hdfa];
    [|unfold E_k in Hdfa; apply list_elem_of_fmap in Hdfa as (? & -> & _); done].
  apply elem_of_app in Hdfe as [Hdfe|Hdfe];
    [unfold A_k in Hdfe; apply list_elem_of_fmap in Hdfe as (? & -> & _); done|].
  unfold A_k in Hdfa. apply list_elem_of_fmap in Hdfa as (a & -> & [_ Ha]%list_elem_of_filter).
  unfold E_k in Hdfe. apply list_elem_of_fmap in Hdfe as (e & -> & He).
  simpl in *. exists a, e. unfold same_keys in Hkeys. simpl in Hkeys.
  injection Hia as <-. injection Hie as <-.
  assert ("M2_KSUM_SAME_DAY" ∉ rn_stages) by (apply (bool_decide_unpack _); vm_compute; exact I).
  naive_solver.
Qed.

Lemma fb_edges_same_day A E p :
  p ∈ fb_edges A E → same_day_edge A E "07_FALLBACK_BALANCE_DAY" p.
Proof.
  unfold fb_edges. destruct A as [|a0 A']; [by intros ?%elem_of_nil|].
  destruct E as [|e0 E']; [by intros ?%elem_of_nil|].
  rewrite elem_of_remove_dups. intros (k & Hp & _)%list_elem_of_bind.
  apply list_elem_of_bind in Hp as (a & Hp & [Hka Ha]%list_elem_of_filter).
  apply list_elem_of_bind in Hp as (e & Hp & [Hke He]%list_elem_of_filter).
  apply list_elem_of_singleton in Hp as ->. exists a, e.
  unfold fb_key_A in Hka. unfold fb_key_E in Hke. simpl.
  assert ("07_FALLBACK_BALANCE_DAY" ∉ rn_stages)
    by (apply (bool_decide_unpack _); vm_compute; exact I).
  naive_solver.
Qed.

Lemma stage_desc_emitted desc w mt r :
  r ∈ emitted (stage_desc desc w mt) → r ∈ emitted w ∨ m_stage r = mt.
Proof.
  unfold stage_desc.
  destruct (dict_get desc mt) as [[|p0 ps]|]; [by left| |by left].
  match goal with
  | |- context [match ?d with [] => w | _ :: _ => _ end] => destruct d
  end; [by left|].
  intros [Hr|(q & Hq & ->)]%elem_of_emitted_consume; [by left|by right].
Qed.

(** X26. The six exact-cent stages never link across days or signs: an
    edge of M0_TAX, M0_BANKFEES, M0_RENT, M1, M2 or the fallback joins a
    loaded API row and a loaded ERP row of the same tenant, bank code,
    account tail, date and sign, and an edge of one of the four row-number
    stages joins rows of the same cents. *)
Theorem exact_edges_same_day A0 E0 desc r :
  r ∈ emitted (run_stages A0 E0 desc) → m_stage r ∈ exact_stages →
  same_day_edge A0 E0 (m_stage r) (m_api_row_id r, m_erp_row_id r).
Proof.
  set (P := λ r : MatchRow, m_stage r ∈ exact_stages →
              same_day_edge A0 E0 (m_stage r) (m_api_row_id r, m_erp_row_id r)).
  assert (∀ tag stage prio dd w,
            cascade_inv A0 E0 w → (∀ r, r ∈ emitted w → P r) →
            (∀ p, p ∈ tag → same_day_edge (w_A w) (w_E w) stage p) →
            ∀ r, r ∈ emitted (consume tag stage prio dd w) → P r) as Hcons.
  { intros tag stage prio dd w Hinv Hw Htag r0
      [Hr|(p & Hp & ->)]%elem_of_emitted_consume; [by apply Hw|].
    intros _. cbn [m_stage m_api_row_id m_erp_row_id].
    eapply same_day_edge_mono; [apply (ci_A _ _ _ Hinv)|apply (ci_E _ _ _ Hinv)|].
    destruct p. by apply Htag. }
  assert (∀ f w, f ∈ cascade desc → cascade_inv A0 E0 w →
                 (∀ r, r ∈ emitted w → P r) → ∀ r, r ∈ emitted (f w) → P r) as Hstep.
  { intros f w Hf Hinv Hw.
    assert (∀ (Q : ApiRow → Prop) `{∀ r, Decision (Q r)} stage p,
              p ∈ rn_join (filter Q (w_A w)) (w_E w) →
              same_day_edge (w_A w) (w_E w) stage p) as Hrn.
    { intros Q ? stage p Hp. apply (rn_join_same_day _ _ stage) in Hp.
      eapply same_day_edge_mono; [| |exact Hp]; [|done].
      intros a [_ Ha]%list_elem_of_filter. done. }
    unfold cascade in Hf.
    rewrite !elem_of_app, list_elem_of_fmap, !elem_of_cons, !elem_of_nil in Hf.
    destruct Hf as [[->|[->|[->|[]]]]|[(mt & -> & Hmt)|[->|[->|[->|[]]]]]].
    - apply Hcons; [done..|]. apply Hrn.
    - apply Hcons; [done..|]. apply Hrn.
    - apply Hcons; [done..|]. apply Hrn.
    - intros r0 [Hr| <-]%stage_desc_emitted; [by apply Hw|].
      intros Hex. exfalso.
      assert (Forall (λ s, s ∉ exact_stages) DESC_STAGE_ORDER) as Hall
        by (apply (bool_decide_unpack _); vm_compute; exact I).
      rewrite Forall_forall in Hall. by apply (Hall _ Hmt).
    - apply Hcons; [done..|]. intros p. apply rn_join_same_day.
    - apply Hcons; [done..|]. intros p. apply m2_same_same_day.
    - apply Hcons; [done..|]. intros p. apply fb_edges_same_day. }
  rewrite run_stages_cascade. unfold run_prefix. rewrite firstn_all.
  assert (∀ l w, l ⊆ cascade desc → cascade_inv A0 E0 w → (∀ r, r ∈ emitted w → P r) →
                 ∀ r, r ∈ emitted (foldl (λ w f, f w) w l) → P r) as Hfold.
  { induction l as [|f l IH]; intros w Hl Hinv Hw; cbn [foldl]; [done|].
    apply IH; [set_solver| |].
    - eapply stage_inv; [apply Hl; left|done].
    - apply Hstep; [apply Hl; left|done..]. }
  apply Hfold; [done|apply cascade_inv_init|].
  intros r' Hr'. by apply elem_of_nil in Hr'.
Qed.

Lemma exact_edges_same_day_witness :
  same_day_edge demo_tax_A0 demo_tax_E0 "M0_TAX_DMINUS1_RN_1TO1" (0, 1).
Proof.
  apply (exact_edges_same_day demo_tax_A0 demo_tax_E0 []
           (mkMatchRow 0 1 "M0_TAX_DMINUS1_RN_1TO1" 5 1)).
  - vm_compute. left.
  - vm_compute. left.
Defined.

(** * Description stages: signs and work dates inside a group *)

Lemma set_matched_dates x y :
  set_matched x = set_matched y → tx_sign x = tx_sign y ∧ tx_work_date x = tx_work_date y.
Proof.
  intros H. pose proof (f_equal tx_amount H) as Ha.
  pose proof (f_equal tx_work_date H) as Hd. cbn in Ha, Hd.
  unfold tx_sign. by rewrite Ha, Hd.
Qed.

Lemma anchored_dates_static allowed T T' m :
  same_static T T' → anchored_dates allowed T m → anchored_dates allowed T' m.
Proof.
  intros Hs Hm anchor j tx Ha Hj Htx.
  destruct (same_static_lookup _ _ _ _ Hs Ha) as (a0 & Ha0 & Ea).
  destruct (same_static_lookup _ _ _ _ Hs Htx) as (t0 & Ht0 & Et).
  apply set_matched_dates in Ea as [Ea1 Ea2]. apply set_matched_dates in Et as [Et1 Et2].
  destruct (Hm a0 j t0 Ha0 Hj Ht0) as [H1 H2]. by rewrite <- Ea1, <- Ea2, <- Et1, <- Et2.
Qed.

Lemma uniform_dates_static T T' m :
  same_static T T' → uniform_dates T m → uniform_dates T' m.
Proof.
  intros Hs Hm i j x y Hi Hj Hx Hy.
  destruct (same_static_lookup _ _ _ _ Hs Hx) as (x0 & Hx0 & Ex).
  destruct (same_static_lookup _ _ _ _ Hs Hy) as (y0 & Hy0 & Ey).
  apply set_matched_dates in Ex as [Ex1 Ex2]. apply set_matched_dates in Ey as [Ey1 Ey2].
  destruct (Hm i j x0 y0 Hi Hj Hx0 Hy0) as [H1 H2]. by rewrite <- Ex1, <- Ex2, <- Ey1, <- Ey2.
Qed.

Section Dates.

Variable api_keywords : list (list string).
Variable erp_keywords : list (list string).

Lemma cluster_step_dates T cl i tx :
  T !! i = Some tx → clusters_dates T cl →
  clusters_dates T (cluster_step api_keywords erp_keywords cl (i, tx)).
Proof.
  intros Hi Hcl. unfold cluster_step. cbn [fst snd].
  destruct (tx_matched tx || bool_decide (tx_sign tx = 0)); [done|].
  destruct (bool_decide (tx_bank_code tx = "") || bool_decide (tx_acc_norm tx = ""));
    [done|].
  destruct (bool_decide (get_signature api_keywords erp_keywords tx = "")); [done|].
  set (key := (tx_tenant_id tx, tx_bank_code tx, tx_acc_norm tx,
               tx_work_date tx, tx_sign tx,
               get_signature api_keywords erp_keywords tx)).
  intros key' sides' i' [Hnew|Hold]%elem_of_dict_set Hi'; [|by eapply Hcl].
  assert (i' = i ∨ ∃ sides, (key, sides) ∈ cl ∧ i' ∈ sides.1 ++ sides.2) as Hcase.
  { destruct (dict_get cl key) as [sides|] eqn:Hget; simpl in Hnew.
    - apply dict_get_elem in Hget.
      assert (i' ∈ sides.1 ++ sides.2 → ∃ sides, (key, sides) ∈ cl ∧ i' ∈ sides.1 ++ sides.2)
        as Hold by (intros ?; by exists sides).
      rewrite elem_of_app in Hold.
      destruct (tx_side tx); injection Hnew as -> ->; cbn [fst snd] in Hi';
        rewrite !elem_of_app, list_elem_of_singleton in Hi'; tauto.
    - destruct (tx_side tx); injection Hnew as -> ->; cbn [fst snd] in Hi';
        rewrite !elem_of_app, list_elem_of_singleton, !elem_of_nil in Hi';
        left; tauto. }
  destruct Hcase as [->|(sides & Hs & Hin)].
  - exists tx. split; [done|]. by injection Hnew as ->.
  - injection Hnew as -> _. by eapply Hcl.
Qed.

Lemma clusters_fold_dates T l cl :
  (∀ itx, itx ∈ l → T !! itx.1 = Some itx.2) → clusters_dates T cl →
  clusters_dates T (foldl (cluster_step api_keywords erp_keywords) cl l).
Proof.
  revert cl. induction l as [|[i tx] l IH]; intros cl Hl Hcl; simpl; [done|].
  apply IH; [intros itx Hin; apply Hl; by right|].
  apply cluster_step_dates; [|done]. apply (Hl (i, tx)). by left.
Qed.

Lemma match_many_to_many_dates T eps :
  let r := _match_many_to_many_by_signature api_keywords erp_keywords T eps in
  ∀ m, m ∈ r.2 → uniform_dates T m.
Proof.
  unfold _match_many_to_many_by_signature.
  pose proof (clusters_fold_dates T (imap pair T) []) as Hcl.
  specialize (Hcl ltac:(intros itx; apply lookup_imap_pair)
                  ltac:(by intros ? ? ? ?%elem_of_nil)).
  revert Hcl. generalize (foldl (cluster_step api_keywords erp_keywords) [] (imap pair T)).
  intros clusters Hcl.
  assert (∀ l st, l ⊆ clusters → same_static T st.1 →
            (∀ m, m ∈ st.2 → uniform_dates T m) →
            let st' := foldl (signature_step eps) st l in
            same_static T st'.1 ∧ ∀ m, m ∈ st'.2 → uniform_dates T m) as Hfold.
  { induction l as [|kv l IH]; intros st Hl Hs Hm; cbn [foldl]; [done|].
    assert (kv ∈ clusters) as Hkv by (apply Hl; left).
    set (st1 := signature_step eps st kv).
    assert (same_static T st1.1 ∧ ∀ m, m ∈ st1.2 → uniform_dates T m) as [??];
      [|apply IH; [set_solver|done..]].
    unfold st1, signature_step. clear st1 IH.
    destruct (filter _ kv.2.1) as [|a api_idxs] eqn:Ea; [done|].
    destruct (filter _ kv.2.2) as [|e erp_idxs] eqn:Ee; [done|].
    case_bool_decide; [|done]. cbn [fst snd]. split.
    { eapply same_static_trans; [exact Hs|apply foldl_mark_static]. }
    intros m [Hin| ->%list_elem_of_singleton]%elem_of_app; [by apply Hm|].
    assert (∀ i, i ∈ (e :: erp_idxs) ++ (a :: api_idxs) → i ∈ kv.2.1 ++ kv.2.2) as Hsub.
    { intros i [Hi|Hi]%elem_of_app; rewrite elem_of_app.
      - right. rewrite <- Ee in Hi. by apply list_elem_of_filter in Hi as [_ ?].
      - left. rewrite <- Ea in Hi. by apply list_elem_of_filter in Hi as [_ ?]. }
    intros i j x y Hi Hj Hx Hy. cbn [fst snd] in Hi, Hj.
    destruct kv as [key sides].
    destruct (Hcl key sides i Hkv (Hsub i Hi)) as (x' & Hx' & Kx).
    destruct (Hcl key sides j Hkv (Hsub j Hj)) as (y' & Hy' & Ky).
    assert (x' = x) as -> by congruence. assert (y' = y) as -> by congruence.
    rewrite <- Ky in Kx. by injection Kx. }
  apply (Hfold clusters (T, [])); [done..|]. intros m Hin. by apply elem_of_nil in Hin.
Qed.

Lemma full_candidate_dates k anchor kws dates tx :
  full_candidate api_keywords erp_keywords k anchor kws dates tx = true →
  tx_sign tx = tx_sign anchor ∧ tx_work_date tx ∈ dates.
Proof.
  unfold full_candidate.
  destruct (decide (tx_sign tx = tx_sign anchor)) as [Hs|Hs];
    [|by rewrite (bool_decide_eq_false_2 _ Hs), !orb_true_r].
  destruct (decide (tx_work_date tx ∈ dates)) as [Hd|Hd]; [done|].
  rewrite (bool_decide_eq_false_2 _ Hd). by destruct (_ || _ || _).
Qed.

Lemma ksum_candidate_dates k anchor kws tx :
  ksum_candidate api_keywords erp_keywords k anchor kws tx = true →
  tx_sign tx = tx_sign anchor ∧ tx_work_date tx = tx_work_date anchor.
Proof.
  unfold ksum_candidate.
  destruct (decide (tx_sign tx = tx_sign anchor)) as [Hs|Hs];
    [|by rewrite (bool_decide_eq_false_2 _ Hs), !orb_true_r].
  destruct (decide (tx_work_date tx = tx_work_date anchor)) as [Hd|Hd]; [done|].
  rewrite (bool_decide_eq_false_2 _ Hd). by destruct (_ || _ || _).
Qed.

Lemma match_full_group_dates T eps min_abs k :
  let r := _match_full_group_by_description api_keywords erp_keywords T eps min_abs k in
  ∀ m, m ∈ r.2 → anchored_dates (λ d x, x ∈ candidate_dates d) T m.
Proof.
  unfold _match_full_group_by_description.
  match goal with |- context [foldl _ _ ?l] => generalize l end. intros l.
  assert (∀ st, same_static T st.1 →
            (∀ m, m ∈ st.2 → anchored_dates (λ d x, x ∈ candidate_dates d) T m) →
            let st' := foldl (full_step api_keywords erp_keywords eps k) st l in
            same_static T st'.1 ∧
            ∀ m, m ∈ st'.2 → anchored_dates (λ d x, x ∈ candidate_dates d) T m) as Hfold.
  { induction l as [|i l IH]; intros st Hs Hm; cbn [foldl]; [done|].
    set (st1 := full_step api_keywords erp_keywords eps k st i).
    assert (same_static T st1.1 ∧
            ∀ m, m ∈ st1.2 → anchored_dates (λ d x, x ∈ candidate_dates d) T m) as [??];
      [|by apply IH].
    unfold st1, full_step. clear st1 IH.
    destruct (st.1 !! i) as [anchor|] eqn:Ha; [|done].
    destruct (get_keywords _ _ anchor) as [|kw kws] eqn:Hk; [done|].
    set (erp_idxs := imap pair st.1 ≫= _).
    assert (anchored_dates (λ d x, x ∈ candidate_dates d) st.1 (i, erp_idxs)) as Hnew.
    { intros anchor' j tx Ha' Hj Htx. cbn [fst snd] in *.
      assert (anchor' = anchor) as -> by congruence.
      apply list_elem_of_bind in Hj as ([j' tx'] & Hj & Hin).
      apply lookup_imap_pair in Hin. cbn [fst snd] in *.
      destruct (full_candidate _ _ _ _ _ _ _) eqn:Hc in Hj;
        [|by apply elem_of_nil in Hj].
      apply list_elem_of_singleton in Hj as ->.
      assert (tx' = tx) as -> by congruence.
      by apply full_candidate_dates in Hc. }
    destruct erp_idxs as [|e erp_idxs'] eqn:Ee; [done|].
    case_bool_decide; [|done]. cbn [fst snd]. split.
    - eapply same_static_trans; [exact Hs|].
      eapply same_static_trans; [apply mark_static|apply foldl_mark_static].
    - intros m [Hin| ->%list_elem_of_singleton]%elem_of_app; [by apply Hm|].
      eapply anchored_dates_static; [apply same_static_sym, Hs|done]. }
  apply (Hfold (T, [])); [done|]. intros m Hin. by apply elem_of_nil in Hin.
Qed.

Lemma match_one_to_many_dates T eps max_len min_abs max_nodes k :
  let r := _match_one_to_many_by_description api_keywords erp_keywords T eps
             max_len min_abs max_nodes k in
  ∀ m, m ∈ r.2 → anchored_dates (λ d x, x = d) T m.
Proof.
  unfold _match_one_to_many_by_description.
  generalize (sort_by_desc (abs_amount_at T) (seq 0 (length T))). intros l.
  assert (∀ st, same_static T st.1.2 →
            (∀ m, m ∈ st.2 → anchored_dates (λ d x, x = d) T m) →
            let st' := foldl (ksum_step api_keywords erp_keywords eps max_len
                                min_abs max_nodes k) st l in
            same_static T st'.1.2 ∧
            ∀ m, m ∈ st'.2 → anchored_dates (λ d x, x = d) T m) as Hfold.
  { induction l as [|i l IH]; intros st Hs Hm; cbn [foldl]; [done|].
    set (st1 := ksum_step api_keywords erp_keywords eps max_len min_abs max_nodes k st i).
    assert (same_static T st1.1.2 ∧
            ∀ m, m ∈ st1.2 → anchored_dates (λ d x, x = d) T m) as [??];
      [|by apply IH].
    unfold st1. clear st1 IH.
    destruct st as [[stopped txs] matches]. cbn [fst snd] in *.
    unfold ksum_step. destruct stopped; [done|].
    destruct (txs !! i) as [anchor|] eqn:Ha; [|done].
    destruct (tx_matched anchor || bool_decide (tx_sign anchor = 0)); [done|].
    case_bool_decide; [done|].
    destruct (_ <? k)%nat; [done|].
    set (cands := filter _ (imap pair txs)).
    destruct cands as [|c cands'] eqn:Ec; [done|]. rewrite <- Ec.
    destruct (_subset_sum_for_anchor _ _ _ _ _) as [[|g group]|] eqn:Hsub; [done| |done].
    cbn [fst snd]. split.
    - eapply same_static_trans; [exact Hs|].
      eapply same_static_trans; [apply mark_static|apply foldl_mark_static].
    - intros m [Hin| ->%list_elem_of_singleton]%elem_of_app; [by apply Hm|].
      eapply anchored_dates_static; [apply same_static_sym, Hs|].
      intros anchor' j tx Ha' Hj Htx. cbn [fst snd] in *.
      assert (anchor' = anchor) as -> by congruence.
      destruct (subset_sum_for_anchor_sub _ _ _ _ _ _ j Hsub Hj) as (tx' & Hin).
      unfold cands in Hin. apply list_elem_of_filter in Hin as [Hc Hin].
      apply lookup_imap_pair in Hin. cbn [fst snd] in *.
      assert (tx' = tx) as -> by congruence.
      by apply ksum_candidate_dates in Hc. }
  apply (Hfold (false, T, [])); [done|]. intros m Hin. by apply elem_of_nil in Hin.
Qed.

End Dates.

(** X27. Inside every description group the API and the ERP transactions
    have the same sign.  In a group of stage 01 or 03 they have the same
    work date; in a group of stage 02 the work date of every ERP
    transaction is one of the five candidate dates of the API anchor. *)
Theorem reconcile_groups_dates api_df erp_df :
  Forall (group_dates (_build_txs api_df erp_df))
         (reconcile_by_description api_df erp_df).2.
Proof.
  unfold reconcile_by_description.
  set (T0 := _build_txs api_df erp_df).
  set (eps := Qcanon.Qcdiv (Qc_of_Z 1) (Qc_of_Z 100)).
  set (ak := api_keywords_of api_df). set (ek := erp_keywords_of erp_df).
  set (r1 := _match_many_to_many_by_signature ak ek T0 _).
  set (r2 := _match_full_group_by_description ak ek r1.1 _ _ _).
  set (r3 := _match_one_to_many_by_description ak ek r2.1 _ _ _ _ _).
  destruct (match_many_to_many_ok ak ek T0 eps) as [S1 _].
  destruct (match_full_group_ok ak ek r1.1 eps (Qc_of_Z 100000) 2) as [S2 _].
  pose proof (match_many_to_many_dates ak ek T0 eps) as B1.
  pose proof (match_full_group_dates ak ek r1.1 eps (Qc_of_Z 100000) 2) as B2.
  pose proof (match_one_to_many_dates ak ek r2.1 eps 25 (Qc_of_Z 100000) 200000 2) as B3.
  fold r1 in S1, S2, B1, B2. fold r2 in S2, B2, B3. fold r3 in B3.
  cbv zeta in B1, B2, B3. cbn [snd].
  assert (same_static T0 r2.1) as S02 by (by eapply same_static_trans).
  apply Forall_forall.
  intros g [Hg|[Hg|Hg]%elem_of_app]%elem_of_app;
    apply list_elem_of_fmap in Hg as (m & -> & Hm);
    intros i j ta te Hi Hj Hta Hte; cbn [fst snd] in *.
  - rewrite bool_decide_eq_false_2 by done.
    destruct (B1 m Hm i j ta te) as [? ?]; [rewrite elem_of_app; auto..|done|done|done].
  - rewrite bool_decide_eq_true_2 by done.
    apply list_elem_of_singleton in Hi as ->.
    assert (anchored_dates (λ d x, x ∈ candidate_dates d) T0 m) as Hb
      by (apply (anchored_dates_static _ r1.1 T0); [by apply same_static_sym|by apply B2]).
    destruct (Hb ta j te Hta Hj Hte) as [? ?]. done.
  - assert (anchored_dates (λ d x, x = d) T0 m) as Hb
      by (apply (anchored_dates_static _ r2.1 T0); [by apply same_static_sym|by apply B3]).
    destruct (tx_side <$> _ !! m.1) as [[]|]; cbn [fst snd] in *;
      rewrite bool_decide_eq_false_2 by done.
    all: try (apply list_elem_of_singleton in Hi as ->;
              destruct (Hb ta j te Hta Hj Hte) as [? ?]; done).
    apply list_elem_of_singleton in Hj as ->.
    destruct (Hb te i ta Hte Hi Hta) as [? ?]. done.
Qed.

(** * The RN join pairs as many rows as it can *)

Lemma rn_over_from_rank {R K} `{EqDecision K} (key : R → K) seen df r :
  r ∈ df →
  ∃ n, (r, n) ∈ rn_over_from key seen df ∧
       1 ≤ n ≤ Z.of_nat (length (filter (λ r', key r' = key r) (seen ++ df))).
Proof.
  revert seen. induction df as [|r0 df IH]; intros seen; [by intros ?%elem_of_nil|].
  intros [->|Hin]%elem_of_cons; cbn [rn_over_from].
  - eexists. split; [left|].
    rewrite filter_app, length_app, filter_cons, decide_True by done. simpl. lia.
  - destruct (IH (seen ++ [r0]) Hin) as (n & Hn & Hb). exists n. split; [by right|].
    by rewrite <- app_assoc in Hb.
Qed.

Lemma rn_over_from_surj {R K} `{EqDecision K} (key : R → K) k seen df n :
  1 + Z.of_nat (length (filter (λ r', key r' = k) seen)) ≤ n →
  n ≤ Z.of_nat (length (filter (λ r', key r' = k) (seen ++ df))) →
  ∃ r, (r, n) ∈ rn_over_from key seen df ∧ key r = k.
Proof.
  revert seen. induction df as [|r0 df IH]; intros seen Hlo Hhi.
  - rewrite app_nil_r in Hhi. lia.
  - cbn [rn_over_from].
    destruct (decide (n = 1 + Z.of_nat (length (filter (λ r', key r' = k) seen))))
      as [->|Hne].
    + destruct (decide (key r0 = k)) as [<-|Hk].
      * exists r0. split; [left|done].
      * destruct (IH (seen ++ [r0])) as (r & Hr & Hkr).
        -- by rewrite filter_app, filter_cons, decide_False, app_nil_r.
        -- by rewrite <- app_assoc.
        -- exists r. split; [by right|done].
    + destruct (IH (seen ++ [r0])) as (r & Hr & Hkr).
      * rewrite filter_app, length_app, filter_cons. destruct (decide (key r0 = k)); simpl; lia.
      * by rewrite <- app_assoc.
      * exists r. split; [by right|done].
Qed.

Lemma filter_length_perm {A} (P : A → Prop) `{∀ x, Decision (P x)} (l k : list A) :
  l ≡ₚ k → length (filter P l) = length (filter P k).
Proof. intros Hp. by rewrite Hp. Qed.

(** X28. On frames without NULL in the key columns, the RN join leaves a
    row alone only when its side has too many rows of its key: an API row
    is paired whenever the ERP side has at least as many rows with its
    (tenant, bank code, account tail, sign, date, cents) as the API side,
    and an ERP row is paired whenever the API side has at least as many. *)
Theorem rn_join_complete A E :
  (∀ a, a ∈ A →
     (length (filter (λ x, rn_key_A x = rn_key_A a) A)
        ≤ length (filter (λ y, rn_key_E y = rn_key_A a) E))%nat →
     ∃ e, e ∈ E ∧ (api_row_id a, erp_row_id e) ∈ rn_join A E) ∧
  (∀ e, e ∈ E →
     (length (filter (λ y, rn_key_E y = rn_key_E e) E)
        ≤ length (filter (λ x, rn_key_A x = rn_key_E e) A))%nat →
     ∃ a, a ∈ A ∧ (api_row_id a, erp_row_id e) ∈ rn_join A E).
Proof.
  unfold rn_join, rn_over.
  pose proof (merge_sort_Permutation sort_le_A A) as HpA.
  pose proof (merge_sort_Permutation sort_le_E E) as HpE.
  set (sA := merge_sort sort_le_A A) in *. set (sE := merge_sort sort_le_E E) in *.
  split.
  - intros a Ha Hcnt.
    rewrite <- HpA in Ha.
    destruct (rn_over_from_rank rn_key_A [] sA a Ha) as (n & Hn & Hlo & Hhi).
    rewrite app_nil_l, (filter_length_perm _ sA A HpA) in Hhi.
    destruct (rn_over_from_surj rn_key_E (rn_key_A a) [] sE n) as (e & He & Hk).
    { simpl. lia. }
    { rewrite app_nil_l, (filter_length_perm _ sE E HpE). lia. }
    exists e. split.
    + apply elem_of_rn_over_from in He. by rewrite HpE in He.
    + apply list_elem_of_bind. exists (a, n). split; [|done].
      apply list_elem_of_bind. exists (e, n). split; [|done].
      cbn [fst snd]. rewrite bool_decide_eq_true_2 by done. by left.
  - intros e He Hcnt.
    rewrite <- HpE in He.
    destruct (rn_over_from_rank rn_key_E [] sE e He) as (n & Hn & Hlo & Hhi).
    rewrite app_nil_l, (filter_length_perm _ sE E HpE) in Hhi.
    destruct (rn_over_from_surj rn_key_A (rn_key_E e) [] sA n) as (a & Ha & Hk).
    { simpl. lia. }
    { rewrite app_nil_l, (filter_length_perm _ sA A HpA). lia. }
    exists a. split.
    + apply elem_of_rn_over_from in Ha. by rewrite HpA in Ha.
    + apply list_elem_of_bind. exists (a, n). split; [|done].
      apply list_elem_of_bind. exists (e, n). split; [|done].
      cbn [fst snd]. rewrite bool_decide_eq_true_2 by done. by left.
Qed.

(** * Account boundaries, the sign column and the spine of the daily table *)

(** C4. For staging rows with distinct ids, every edge emitted by any
    stage of a run joins a loaded API row and a loaded ERP row of the same
    tenant_id and bank_code.  Their acc_tail values are equal for every
    stage but 02_DESC_FULL_1N, 03_DESC_KSUM_1N and 03_DESC_KSUM_N1; an
    edge of one of these three may also join a row whose acc_tail is
    empty with a row of any acc_tail. *)
Theorem matching_within_tenant_bank to_cents desc_norm_of raw_api raw_erp r :
  NoDup (ra_id <$> raw_api) → NoDup (re_cd_lancamento <$> raw_erp) →
  r ∈ emitted (main_stages to_cents desc_norm_of raw_api raw_erp) →
  edge_within_account (load_api_from_pg to_cents desc_norm_of raw_api)
    (load_erp_from_pg to_cents desc_norm_of raw_erp) (m_stage r)
    (m_api_row_id r, m_erp_row_id r) ∧
  (m_stage r ∉ account_wildcard_stages →
   same_account_edge (load_api_from_pg to_cents desc_norm_of raw_api)
     (load_erp_from_pg to_cents desc_norm_of raw_erp)
     (m_api_row_id r, m_erp_row_id r)).
Proof.
  intros Hnda Hnde Hr.
  assert (edge_within_account (load_api_from_pg to_cents desc_norm_of raw_api)
            (load_erp_from_pg to_cents desc_norm_of raw_erp) (m_stage r)
            (m_api_row_id r, m_erp_row_id r)) as Hedge.
  { revert Hr.
    change (main_stages to_cents desc_norm_of raw_api raw_erp)
      with (run_stages (load_api_from_pg to_cents desc_norm_of raw_api)
              (load_erp_from_pg to_cents desc_norm_of raw_erp)
              (build_desc_edges (load_api_from_pg to_cents desc_norm_of raw_api)
                 (load_erp_from_pg to_cents desc_norm_of raw_erp)
                 (reconcile_by_description raw_api raw_erp))).
    generalize (load_api_from_pg to_cents desc_norm_of raw_api)
               (load_erp_from_pg to_cents desc_norm_of raw_erp)
               (desc_edge_within_account to_cents desc_norm_of raw_api raw_erp Hnda Hnde).
    intros A0 E0 Hdesc Hr.
    destruct (run_stages_provenance _ _ _ _ Hr) as [Hex|(edges & Hin & Hp)].
    - rewrite run_stages_cascade in Hr.
      destruct (ci_acc _ _ _ (run_prefix_inv _ A0 E0 _) r Hr Hex)
        as (a & e & Ha & He & Hia & Hie & Ht & Hb & Hacc).
      exists a, e. do 6 (split; [done|]). by left.
    - destruct (reconcile_groups_ok raw_api raw_erp) as [Hs Hg].
      rewrite (surjective_pairing (reconcile_by_description raw_api raw_erp)) in Hin.
      by eapply Hdesc. }
  split; [done|]. intros Hstage.
  destruct Hedge as (a & e & Ha & He & Hia & Hie & Ht & Hb & [Hacc|[Hw _]]); [|done].
  by exists a, e.
Qed.

Lemma matching_within_tenant_bank_witness :
  edge_within_account (load_api_from_pg exact_cents (λ s, s) noacc_api)
    (load_erp_from_pg exact_cents (λ s, s) noacc_erp) "03_DESC_KSUM_N1" (0, 0) ∧
  ("03_DESC_KSUM_N1" ∉ account_wildcard_stages →
   same_account_edge (load_api_from_pg exact_cents (λ s, s) noacc_api)
     (load_erp_from_pg exact_cents (λ s, s) noacc_erp) (0, 0)).
Proof.
  apply (matching_within_tenant_bank exact_cents (λ s, s) noacc_api noacc_erp
           (mkMatchRow 0 0 "03_DESC_KSUM_N1" 9 0)).
  - apply (bool_decide_unpack _). vm_compute. exact I.
  - apply (bool_decide_unpack _). vm_compute. exact I.
  - vm_compute. left.
Defined.

(** C8. For every loaded API row, api_sign is 1 when api_cents is not
    negative and -1 when it is negative, and likewise erp_sign for every
    loaded ERP row: the sign column is the sign of the cents on every row
    whose cents are not zero, and it is 1, not 0, on a row of zero
    cents. *)
Theorem loaded_sign_by_cents to_cents desc_norm_of raw_api raw_erp :
  Forall (λ a, (api_sign a = 1 ∨ api_sign a = -1) ∧
               (api_sign a = 1 ↔ 0 ≤ api_cents a) ∧
               (api_cents a ≠ 0 → api_sign a = Z.sgn (api_cents a)) ∧
               (api_cents a = 0 → api_sign a = 1))
         (load_api_from_pg to_cents desc_norm_of raw_api) ∧
  Forall (λ e, (erp_sign e = 1 ∨ erp_sign e = -1) ∧
               (erp_sign e = 1 ↔ 0 ≤ erp_cents e) ∧
               (erp_cents e ≠ 0 → erp_sign e = Z.sgn (erp_cents e)) ∧
               (erp_cents e = 0 → erp_sign e = 1))
         (load_erp_from_pg to_cents desc_norm_of raw_erp).
Proof.
  assert (∀ c, (sign_of_cents c = 1 ∨ sign_of_cents c = -1) ∧
               (sign_of_cents c = 1 ↔ 0 ≤ c) ∧
               (c ≠ 0 → sign_of_cents c = Z.sgn c) ∧
               (c = 0 → sign_of_cents c = 1)) as Hsgn.
  { intros c. unfold sign_of_cents. case_bool_decide; lia. }
  split; apply Forall_forall.
  - intros a (i & r & -> & _)%elem_of_lookup_imap. apply Hsgn.
  - intros e (i & r & -> & _)%elem_of_lookup_imap. apply Hsgn.
Qed.

(** A row of amount 0.00 is loaded with cents 0 and sign 1, while the sign
    of 0 is 0. *)
Lemma zero_cents_row_has_sign_one :
  ¬ (Forall (λ a, api_sign a = Z.sgn (api_cents a))
       (load_api_from_pg exact_cents (λ s, s) zero_api) ∧
     Forall (λ e, erp_sign e = Z.sgn (erp_cents e))
       (load_erp_from_pg exact_cents (λ s, s) zero_erp)).
Proof.
  intros [Ha _]. apply Forall_inv in Ha. vm_compute in Ha. discriminate Ha.
Qed.




(** * The matched API total of the daily table *)

























